(** * The dependency hoister: a shallow embedding and its properties

    The development follows the hoisting engine function by function:
    [makeLocator] and [makeIdent], [cloneTree], [buildAncestorMap],
    [getHoistCandidates], [hoistTo], [selfCheck], [shrinkTree] and [hoist].

    JavaScript objects have identity and are mutated in place, so nodes live
    in stores (lists indexed by allocation order) and are named by their
    index; [Map] and [Set] keep insertion order, so they are association
    lists and duplicate-free lists. *)

From Stdlib Require Import String Ascii ZArith Lia Bool.
From stdpp Require Import base list strings.

Open Scope string_scope.
Open Scope list_scope.

(** ** Outcomes of a call *)

Inductive exn : Type :=
| TypeError                 (* a property read on [undefined] *)
| Error (msg : string).     (* [throw new Error(msg)] *)

(** [OutOfFuel] stands for a call that has not returned within the given
    number of nested calls; a call that is [OutOfFuel] for every amount of
    fuel gives no result: a loop that goes on for ever, or a recursion that
    the engine ends with a [RangeError] when its stack is full.  The stack
    has no size here, and that [RangeError] is no value of [exn]. *)
Inductive result (A : Type) : Type :=
| Ok (a : A)
| Throw (e : exn)
| OutOfFuel.
Arguments Ok {A} a.
Arguments Throw {A} e.
Arguments OutOfFuel {A}.

#[global] Instance result_ret : MRet result := fun A a => Ok a.
#[global] Instance result_bind : MBind result := fun A B f m =>
  match m with
  | Ok a => f a
  | Throw e => Throw e
  | OutOfFuel => OutOfFuel
  end.

(** [for (const x of l) s = body(s, x)] with early exit on a throw. *)
Fixpoint forEach {A S : Type} (l : list A) (body : S -> A -> result S) (s : S)
  : result S :=
  match l with
  | [] => Ok s
  | x :: l' => s' ← body s x; forEach l' body s'
  end.

(** ** JavaScript containers *)

(** [!!x] for [x] an object or [undefined]. *)
Definition defined {A : Type} (o : option A) : bool :=
  match o with Some _ => true | None => false end.

Class EqbKey (K : Type) := {
  keqb : K -> K -> bool;
  keqb_spec : forall a b, reflect (a = b) (keqb a b)
}.

#[global] Instance string_EqbKey : EqbKey string :=
  {| keqb := String.eqb; keqb_spec := String.eqb_spec |}.
#[global] Instance nat_EqbKey : EqbKey nat :=
  {| keqb := Nat.eqb; keqb_spec := Nat.eqb_spec |}.

(** [Map<K, V>]: entries in insertion order; [set] on a present key
    replaces the value where it stands, on an absent key it appends. *)
Abbreviation JsMap K V := (list (K * V)) (only parsing).

Section JsMap.
Context {K V : Type} `{EqbKey K}.

Fixpoint mget (k : K) (m : JsMap K V) : option V :=
  match m with
  | [] => None
  | (k', v) :: m' => if keqb k k' then Some v else mget k m'
  end.

Fixpoint mset (k : K) (v : V) (m : JsMap K V) : JsMap K V :=
  match m with
  | [] => [(k, v)]
  | (k', v') :: m' =>
      if keqb k k' then (k', v) :: m' else (k', v') :: mset k v m'
  end.

Fixpoint mdelete (k : K) (m : JsMap K V) : JsMap K V :=
  match m with
  | [] => []
  | (k', v') :: m' =>
      if keqb k k' then m' else (k', v') :: mdelete k m'
  end.

Definition mhas (k : K) (m : JsMap K V) : bool := defined (mget k m).

Definition mvalues (m : JsMap K V) : list V := map snd m.
Definition mkeys (m : JsMap K V) : list K := map fst m.
End JsMap.

(** [Set<K>]: members in insertion order. *)
Abbreviation JsSet K := (list K) (only parsing).

Section JsSet.
Context {K : Type} `{EqbKey K}.

Fixpoint shas (k : K) (s : JsSet K) : bool :=
  match s with
  | [] => false
  | k' :: s' => keqb k k' || shas k s'
  end.

Definition sadd (k : K) (s : JsSet K) : JsSet K :=
  if shas k s then s else s ++ [k].

Fixpoint sdelete (k : K) (s : JsSet K) : JsSet K :=
  match s with
  | [] => []
  | k' :: s' => if keqb k k' then s' else k' :: sdelete k s'
  end.
End JsSet.

(** ** Strings *)

Definition newline : string := String (ascii_of_nat 10) "".

(** [s.substring(k)] *)
Definition substringFrom (k : nat) (s : string) : string :=
  String.substring k (String.length s - k) s.

(** [s.indexOf(pat, from)]: [None] is JavaScript's [-1]. *)
Definition indexOf (pat : string) (from : nat) (s : string) : option nat :=
  String.index from pat s.

(** ** The data model *)

Abbreviation PackageName := string (only parsing).
Abbreviation Locator := string (only parsing).
Abbreviation Ident := string (only parsing).

(** A reference to an object of a store: its position in allocation order.
    Two references are the same object exactly when they are equal. *)
Abbreviation ref := nat (only parsing).

Module HoisterTree.
Record t : Type := mk {
  name : PackageName;
  reference : string;
  dependencies : JsSet ref;
  peerNames : JsSet PackageName
}.
Definition dummy : t := mk "" "" [] [].
End HoisterTree.

Module HoisterResult.
Record t : Type := mk {
  name : PackageName;
  references : JsSet string;
  dependencies : JsSet ref
}.
Definition dummy : t := mk "" [] [].
End HoisterResult.

Module HoisterWorkTree.
Record t : Type := mk {
  name : PackageName;
  references : JsSet string;
  ident : Ident;
  locator : Locator;
  dependencies : JsMap PackageName ref;
  originalDependencies : JsMap PackageName ref;
  hoistedDependencies : JsMap PackageName ref;
  relayedDependencies : JsMap PackageName ref;
  peerNames : JsSet PackageName;
  (* name -> {root, reason}; [reason] is [None] for [undefined] *)
  reasons : JsMap PackageName (ref * option string)
}.
Definition dummy : t := mk "" [] "" "" [] [] [] [] [] [].

Definition with_references (f : JsSet string -> JsSet string) (w : t) : t :=
  mk (name w) (f (references w)) (ident w) (locator w) (dependencies w)
     (originalDependencies w) (hoistedDependencies w)
     (relayedDependencies w) (peerNames w) (reasons w).
Definition with_dependencies
  (f : JsMap PackageName ref -> JsMap PackageName ref) (w : t) : t :=
  mk (name w) (references w) (ident w) (locator w) (f (dependencies w))
     (originalDependencies w) (hoistedDependencies w)
     (relayedDependencies w) (peerNames w) (reasons w).
Definition with_originalDependencies
  (f : JsMap PackageName ref -> JsMap PackageName ref) (w : t) : t :=
  mk (name w) (references w) (ident w) (locator w) (dependencies w)
     (f (originalDependencies w)) (hoistedDependencies w)
     (relayedDependencies w) (peerNames w) (reasons w).
Definition with_relayedDependencies
  (f : JsMap PackageName ref -> JsMap PackageName ref) (w : t) : t :=
  mk (name w) (references w) (ident w) (locator w) (dependencies w)
     (originalDependencies w) (hoistedDependencies w)
     (f (relayedDependencies w)) (peerNames w) (reasons w).
Definition with_reasons
  (f : JsMap PackageName (ref * option string)
       -> JsMap PackageName (ref * option string)) (w : t) : t :=
  mk (name w) (references w) (ident w) (locator w) (dependencies w)
     (originalDependencies w) (hoistedDependencies w)
     (relayedDependencies w) (peerNames w) (f (reasons w)).
End HoisterWorkTree.

Module W := HoisterWorkTree.

(** The work graph: every [HoisterWorkTree] object ever allocated. *)
Abbreviation Heap := (list W.t) (only parsing).

Definition node (h : Heap) (r : ref) : W.t := default W.dummy (h !! r).
Definition update (h : Heap) (r : ref) (f : W.t -> W.t) : Heap := alter f r h.
Definition alloc (h : Heap) (w : W.t) : Heap * ref := (h ++ [w], length h).

(** The caller's graph and the engine's working graph. *)
Record Store : Type := mkStore {
  inputs : list HoisterTree.t;
  work : Heap
}.

Definition input (st : Store) (r : ref) : HoisterTree.t :=
  default HoisterTree.dummy (inputs st !! r).

(** ** Locators and idents *)

Definition makeLocator (name reference : string) : Locator :=
  name +:+ "@" +:+ reference.

Definition makeIdent (name reference : string) : Ident :=
  let hashIdx := indexOf "#" 0 reference in
  (* Strip virtual reference part *)
  let realReference :=
    match hashIdx with
    | Some i => substringFrom (i + 1) reference
    | None => reference
    end in
  makeLocator name realReference.

(** ** cloneTree *)

(** The object literal that [cloneTree] builds for an input node. *)
Definition newWorkNode (t : HoisterTree.t) : W.t :=
  {| W.name := HoisterTree.name t;
     W.references := [HoisterTree.reference t];
     W.locator := makeLocator (HoisterTree.name t) (HoisterTree.reference t);
     W.ident := makeIdent (HoisterTree.name t) (HoisterTree.reference t);
     W.dependencies := [];
     W.originalDependencies := [];
     W.hoistedDependencies := [];
     W.relayedDependencies := [];
     W.peerNames := HoisterTree.peerNames t;
     W.reasons := [] |}.

(** State of the traversal: [seenNodes] and the store. *)
Abbreviation CloneState := (JsMap ref ref * Store)%type (only parsing).

Definition linkChild (parentNode workNode : ref) (h : Heap) : Heap :=
  let name := W.name (node h workNode) in
  let h := update h parentNode (W.with_dependencies (mset name workNode)) in
  update h parentNode (W.with_originalDependencies (mset name workNode)).

Fixpoint cloneAddNode (fuel : nat) (n parentNode : ref) (s : CloneState)
  : result CloneState :=
  match fuel with
  | O => OutOfFuel
  | S fuel =>
      let '(seenNodes, st) := s in
      let workNode := mget n seenNodes in
      let isSeen := defined workNode in
      let '(workNode, seenNodes, h) :=
        match workNode with
        | Some w => (w, seenNodes, work st)
        | None =>
            let '(h, w) := alloc (work st) (newWorkNode (input st n)) in
            (w, mset n w seenNodes, h)
        end in
      let h := linkChild parentNode workNode h in
      let s := (seenNodes, mkStore (inputs st) h) in
      if isSeen then Ok s
      else forEach (HoisterTree.dependencies (input st n))
             (fun s dep => cloneAddNode fuel dep workNode s) s
  end.

Definition cloneFuel (st : Store) : nat := 2 + length (inputs st).

Definition cloneTree (tree : ref) (st : Store) : result (ref * CloneState) :=
  let '(h, treeCopy) := alloc (work st) (newWorkNode (input st tree)) in
  let seenNodes : JsMap ref ref := [(tree, treeCopy)] in
  s ← forEach (HoisterTree.dependencies (input st tree))
        (fun s dep => cloneAddNode (cloneFuel st) dep treeCopy s)
        (seenNodes, mkStore (inputs st) h);
  Ok (treeCopy, s).

(** ** buildAncestorMap *)

Abbreviation AncestorMap := (JsMap Ident (JsSet Ident)) (only parsing).

(** [node.peerNames.has(dep.name)] *)
Definition isPeer (h : Heap) (n dep : ref) : bool :=
  shas (W.name (node h dep)) (W.peerNames (node h n)).

Definition nonPeerDependencies (h : Heap) (n : ref) : list ref :=
  filter (fun dep => isPeer h n dep = false) (mvalues (W.dependencies (node h n))).

Definition addIdent (child parent : Ident) (ancestorMap : AncestorMap)
  : AncestorMap :=
  mset child (sadd parent (default [] (mget child ancestorMap))) ancestorMap.

(** State of the traversal: [ancestorMap] and [seenNodes]. *)
Fixpoint addParent (fuel : nat) (h : Heap) (parentNode n : ref)
  (s : AncestorMap * JsSet ref) : result (AncestorMap * JsSet ref) :=
  match fuel with
  | O => OutOfFuel
  | S fuel =>
      let '(ancestorMap, seenNodes) := s in
      let isSeen := shas n seenNodes in
      let ancestorMap :=
        addIdent (W.ident (node h n)) (W.ident (node h parentNode)) ancestorMap in
      if isSeen then Ok (ancestorMap, seenNodes)
      else forEach (nonPeerDependencies h n)
             (fun s dep => addParent fuel h n dep s)
             (ancestorMap, sadd n seenNodes)
  end.

Definition walkFuel (h : Heap) : nat := 2 + length h.

Definition buildAncestorMap (h : Heap) (tree : ref) : result AncestorMap :=
  s ← forEach (nonPeerDependencies h tree)
        (fun s dep => addParent (walkFuel h) h tree dep s) ([], [tree]);
  Ok (fst s).

(** ** prettyPrintLocator *)

(** [s.split('#')[1]] for [s] that contains ['#']. *)
Definition secondPiece (s : string) : string :=
  match indexOf "#" 0 s with
  | None => s
  | Some i =>
      let rest := substringFrom (i + 1) s in
      match indexOf "#" 0 rest with
      | None => rest
      | Some j => String.substring 0 j rest
      end
  end.

(** [s.replace(pat, '')]: the first occurrence only. *)
Definition removeFirst (pat s : string) : string :=
  match indexOf pat 0 s with
  | None => s
  | Some i => String.substring 0 i s +:+ substringFrom (i + String.length pat) s
  end.

Definition prettyPrintLocator (locator : Locator) : string :=
  let idx := indexOf "@" 1 locator in
  let name := match idx with Some i => String.substring 0 i locator | None => "" end in
  let reference :=
    match idx with Some i => substringFrom (i + 1) locator | None => locator end in
  if String.eqb reference "workspace:." then "."
  else if String.eqb reference "" then name
  else
    let version :=
      removeFirst "npm:"
        (match indexOf "#" 0 reference with
         | Some (S _) => secondPiece reference
         | _ => reference
         end) in
    if String.prefix "virtual" reference then "v:" +:+ name +:+ "@" +:+ version
    else name +:+ "@" +:+ version.

(** [nodes.map(x => prettyPrintLocator(x.locator)).join('→')] *)
Definition prettyPath (h : Heap) (nodes : list ref) : string :=
  String.concat "→" (map (fun x => prettyPrintLocator (W.locator (node h x))) nodes).

(** ** selfCheck *)

(** The visible dependencies at a node: its parent's, overlaid with its own
    regular dependencies. *)
Definition overlay (h : Heap) (n : ref) (parentDeps : JsMap PackageName ref)
  : JsMap PackageName ref :=
  fold_left (fun m dep => mset (W.name (node h dep)) dep m)
            (nonPeerDependencies h n) parentDeps.

(** The body of the loop over [node.originalDependencies.values()]. *)
Definition checkDep (h : Heap) (parents : JsSet ref) (n : ref)
  (parentDeps dependencies : JsMap PackageName ref)
  (log : list string) (origDep : ref) : result (list string) :=
  let dep := mget (W.name (node h origDep)) dependencies in
  let prettyPrintTreePath := prettyPath h (parents ++ [n]) in
  if isPeer h n origDep then
    let parentDep := mget (W.name (node h origDep)) parentDeps in
    if negb (bool_decide (parentDep = dep)) then
      match dep with
      | None => Throw TypeError
      | Some d =>
          Ok (log ++ [prettyPrintTreePath +:+ " - broken peer promise: expected "
                      +:+ W.locator (node h d) +:+ " but found "
                      +:+ match parentDep with
                          | Some p => W.locator (node h p)
                          | None => "undefined"
                          end])
      end
    else Ok log
  else
    match dep with
    | None =>
        Ok (log ++ [prettyPrintTreePath
                    +:+ " - broken require promise: no required dependency "
                    +:+ W.locator (node h origDep) +:+ " found"])
    | Some d =>
        if negb (String.eqb (W.ident (node h d)) (W.ident (node h origDep))) then
          Ok (log ++ [prettyPrintTreePath +:+ " - broken require promise: expected "
                      +:+ W.ident (node h origDep) +:+ ", but found: "
                      +:+ W.ident (node h d)])
        else Ok log
    end.

(** State of the traversal: [log], [seenNodes] and [parents]. *)
Abbreviation CheckState := (list string * JsSet ref * JsSet ref)%type (only parsing).

Fixpoint checkNode (fuel : nat) (h : Heap) (n : ref)
  (parentDeps : JsMap PackageName ref) (s : CheckState) : result CheckState :=
  match fuel with
  | O => OutOfFuel
  | S fuel =>
      let '(log, seenNodes, parents) := s in
      if shas n seenNodes then Ok s
      else
        let seenNodes := sadd n seenNodes in
        if shas n parents then Ok (log, seenNodes, parents)
        else
          let dependencies := overlay h n parentDeps in
          log ← forEach (mvalues (W.originalDependencies (node h n)))
                  (checkDep h parents n parentDeps dependencies) log;
          s ← forEach (nonPeerDependencies h n)
                (fun s dep => checkNode fuel h dep dependencies s)
                (log, seenNodes, sadd n parents);
          let '(log, seenNodes, parents) := s in
          Ok (log, seenNodes, sdelete n parents)
  end.

Definition selfCheck (h : Heap) (tree : ref) : result string :=
  s ← checkNode (walkFuel h) h tree (W.dependencies (node h tree)) ([], [], []);
  Ok (String.concat newline (fst (fst s))).

(** ** Options *)

(** A JavaScript number: [NaN], an infinity, or a finite value [m * 2^e]
    with its sign ([-0] is [Fin true 0 0]); every double is one of these. *)
Inductive number : Type :=
| NaN
| Infinity (negative : bool)
| Fin (negative : bool) (m : N) (e : Z).

(** The number that an integer literal denotes. *)
Definition Num (z : Z) : number := Fin (z <? 0)%Z (Z.abs_N z) 0.

(** [n] as a condition: [NaN], [0] and [-0] are falsy. *)
Definition truthyNumber (n : number) : bool :=
  match n with
  | NaN => false
  | Infinity _ => true
  | Fin _ m _ => negb (m =? 0)%N
  end.

(** [n >= k], for an integer [k]. *)
Definition geNumber (n : number) (k : Z) : bool :=
  match n with
  | NaN => false
  | Infinity negative => negb negative
  | Fin negative m e =>
      let v := if negative then (- Z.of_N m)%Z else Z.of_N m in
      if (0 <=? e)%Z then (k <=? v * 2 ^ e)%Z else (k * 2 ^ (- e) <=? v)%Z
  end.

Record HoistOptions : Type := {
  check : option bool;
  debugLevel : option number
}.

Record InternalHoistOptions : Type := {
  icheck : bool;
  idebugLevel : number
}.

(** ** getHoistCandidates *)

Module Tuple.
Record t : Type := mk { node : ref; parent : ref }.
End Tuple.

Module HoistCandidate.
Record t : Type := mk { nodePath : list ref; node : ref }.
End HoistCandidate.

Module HoistCandidateSet.
Record t : Type := mk {
  node : ref;
  weight : nat;
  candidates : list HoistCandidate.t
}.
End HoistCandidateSet.

Abbreviation HoistCandidates := (JsMap PackageName HoistCandidateSet.t) (only parsing).

(** What [computeHoistCandidates] closes over and mutates. *)
Record Search : Type := mkSearch {
  hoistCandidates : HoistCandidates;
  parents : list Tuple.t;
  seenLocators : JsSet Locator;
  heap : Heap
}.

(** [seenLocators.add(node.locator); parents.push({parent, node})] *)
Definition pushTuple (st : Search) (parent n : ref) : Search :=
  mkSearch (hoistCandidates st)
           (parents st ++ [Tuple.mk n parent])
           (sadd (W.locator (node (heap st) n)) (seenLocators st))
           (heap st).

(** [parents.pop()] *)
Definition popTuple (st : Search) : Search :=
  mkSearch (hoistCandidates st) (removelast (parents st))
           (seenLocators st) (heap st).

(** [rootNode.name !== node.name || rootNode.ident === node.ident] *)
Definition compatibleIdent (rootNode n : W.t) : bool :=
  negb (String.eqb (W.name rootNode) (W.name n))
  || String.eqb (W.ident rootNode) (W.ident n).

Section Finder.
Variables (rootNode : ref) (rootNodePath : JsSet ref)
          (ancestorDependencies : JsMap PackageName ref)
          (ancestorMap : AncestorMap) (options : InternalHoistOptions).

Definition debug2 : bool := geNumber (idebugLevel options) 2.

Definition reasonRoot (h : Heap) : string := prettyPath h rootNodePath.

(** Each predicate returns its verdict and the reason it would record. *)

Definition isRegularDepAtRoot (h : Heap) (n : ref) : bool * string :=
  (negb (shas (W.name (node h n)) (W.peerNames (node h rootNode))),
   "- is a peer dependency at " +:+ reasonRoot h).

Definition isCompatibleIdent (h : Heap) (n : ref) : bool * string :=
  (compatibleIdent (node h rootNode) (node h n),
   "- conflicts with " +:+ reasonRoot h).

(** [parentDep && parentDep.ident !== node.ident] *)
Definition otherIdent (h : Heap) (n : ref) (dep : option ref) : bool :=
  match dep with
  | Some d => negb (String.eqb (W.ident (node h d)) (W.ident (node h n)))
  | None => false
  end.

Definition blockedBy (h : Heap) (n : ref) (tuple : Tuple.t) : bool :=
  let parentDep := mget (W.name (node h n)) (W.dependencies (node h (Tuple.parent tuple))) in
  let relayedDep :=
    mget (W.name (node h n)) (W.relayedDependencies (node h (Tuple.parent tuple))) in
  otherIdent h n parentDep || otherIdent h n relayedDep.

Definition isNameAvailable (h : Heap) (parents : list Tuple.t) (n : ref)
  : bool * string :=
  let origRootDep :=
    mget (W.name (node h n)) (W.originalDependencies (node h rootNode)) in
  if otherIdent h n origRootDep then
    (false,
     "- filled by: "
     +:+ prettyPrintLocator (W.locator (node h (default 0 origRootDep)))
     +:+ " at " +:+ reasonRoot h)
  else
    match find (blockedBy h n) parents with
    | Some tuple =>
        let parentDep :=
          mget (W.name (node h n)) (W.dependencies (node h (Tuple.parent tuple))) in
        let relayedDep :=
          mget (W.name (node h n))
               (W.relayedDependencies (node h (Tuple.parent tuple))) in
        (false,
         "- filled by: "
         +:+ prettyPrintLocator
               (W.locator (node h (default 0 (if defined parentDep
                                               then parentDep else relayedDep))))
         +:+ " at " +:+ prettyPrintLocator (W.locator (node h (Tuple.parent tuple))))
    | None => (true, "")
    end.

Definition isPreferred (h : Heap) (competitorInfo : option HoistCandidateSet.t)
  (weight : nat) : bool * string :=
  match competitorInfo with
  | None => (true, "")
  | Some c =>
      ((HoistCandidateSet.weight c <=? weight)%nat,
       "- preferred package " +:+ W.locator (node h (HoistCandidateSet.node c))
       +:+ " at " +:+ reasonRoot h)
  end.

(** The loop over [node.hoistedDependencies.values()]: the first entry
    that is declared by the node and absent or different above the root. *)
Definition unsatisfiedHoistedDep (h : Heap) (n : ref) (dep : ref) : bool :=
  mhas (W.name (node h dep)) (W.originalDependencies (node h n))
  && match mget (W.name (node h dep)) ancestorDependencies with
     | None => true
     | Some depNode =>
         negb (String.eqb (W.ident (node h depNode)) (W.ident (node h dep)))
     end.

Definition areRegularDepsSatisfied (h : Heap) (n : ref) : bool * string :=
  let rootDep := mget (W.name (node h n)) (W.dependencies (node h rootNode)) in
  if defined rootDep then (true, "")
  else
    match find (unsatisfiedHoistedDep h n)
               (mvalues (W.hoistedDependencies (node h n))) with
    | None => (true, "")
    | Some dep =>
        (false,
         match mget (W.name (node h dep)) ancestorDependencies with
         | None =>
             "- hoisted dependency " +:+ prettyPrintLocator (W.locator (node h dep))
             +:+ " is absent at " +:+ reasonRoot h
         | Some depNode =>
             "- hoisted dependency " +:+ prettyPrintLocator (W.locator (node h dep))
             +:+ " has a clash with "
             +:+ prettyPrintLocator (W.locator (node h depNode))
             +:+ " at " +:+ reasonRoot h
         end)
    end.

(** A peer name that the parent does not itself take as a peer and still
    holds as a dependency. *)
Definition unhoistedPeer (h : Heap) (parent : ref) (name : PackageName) : bool :=
  negb (shas name (W.peerNames (node h parent)))
  && mhas name (W.dependencies (node h parent)).

(** The loop [for (idx = parents.length - 1; idx >= 0; idx--)], over the
    stack from its top. *)
Fixpoint peerWalk (h : Heap) (stack : list Tuple.t) (checkList : JsSet PackageName)
  : bool * string :=
  match stack with
  | [] => (true, "")
  | tuple :: stack =>
      let parent := Tuple.node tuple in
      match find (unhoistedPeer h parent) checkList with
      | Some name =>
          (false,
           "- peer dependency "
           +:+ prettyPrintLocator
                 (W.locator (node h (default 0 (mget name (W.dependencies (node h parent))))))
           +:+ " from parent " +:+ prettyPrintLocator (W.locator (node h parent))
           +:+ " was not hoisted to " +:+ reasonRoot h)
      | None =>
          peerWalk h stack
            (List.filter (fun name => shas name (W.peerNames (node h parent))) checkList)
      end
  end.

Definition arePeerDepsSatisfied (h : Heap) (parents : list Tuple.t) (n : ref)
  : bool * string :=
  peerWalk h (rev parents) (W.peerNames (node h n)).

(** [if (isHoistable) { ok = p; if (debug && !ok) reason = r; isHoistable = ok }] *)
Definition stage (p : bool * string) (v : bool * option string)
  : bool * option string :=
  if fst v then (fst p, if debug2 && negb (fst p) then Some (snd p) else snd v)
  else v.

(** The verdict [isHoistable] on a node and the reason recorded with it. *)
Definition hoistable (st : Search) (n : ref) (weight : nat)
  : bool * option string :=
  let h := heap st in
  let competitorInfo := mget (W.name (node h n)) (hoistCandidates st) in
  stage (arePeerDepsSatisfied h (parents st) n)
    (stage (areRegularDepsSatisfied h n)
       (stage (isPreferred h competitorInfo weight)
          (stage (isNameAvailable h (parents st) n)
             (stage (isCompatibleIdent h n)
                (stage (isRegularDepAtRoot h n) (true, None)))))).

(** Recording a hoistable node under its name. *)
Definition record (h : Heap) (nodePath : list ref) (n : ref) (weight : nat)
  (hoistCandidates : HoistCandidates) : HoistCandidates :=
  let competitorInfo := mget (W.name (node h n)) hoistCandidates in
  let hoistCandidate :=
    match competitorInfo with
    | Some c =>
        if negb (String.eqb (W.ident (node h (HoistCandidateSet.node c))) (W.ident (node h n)))
        then HoistCandidateSet.mk n weight []
        else c
    | None => HoistCandidateSet.mk n weight []
    end in
  mset (W.name (node h n))
    (HoistCandidateSet.mk
       (HoistCandidateSet.node hoistCandidate)
       (HoistCandidateSet.weight hoistCandidate)
       (HoistCandidateSet.candidates hoistCandidate
        ++ [HoistCandidate.mk nodePath n]))
    hoistCandidates.

(** [parent.reasons] keeps a reason from another root. *)
Definition recordReason (h : Heap) (parent n : ref) (reason : option string)
  : Heap :=
  match mget (W.name (node h n)) (W.reasons (node h parent)) with
  | Some (root, _) =>
      if Nat.eqb root rootNode
      then update h parent (W.with_reasons (mset (W.name (node h n)) (rootNode, reason)))
      else h
  | None =>
      update h parent (W.with_reasons (mset (W.name (node h n)) (rootNode, reason)))
  end.

(** [computeHoistCandidates] up to its recursive calls: the new state and
    [parent]. *)
Definition visit (st : Search) (nodePath : list ref) (n : ref)
  : result (Search * ref) :=
  let h := heap st in
  match mget (W.ident (node h n)) ancestorMap with
  | None => Throw TypeError
  | Some ancestorNode =>
      let weight := length ancestorNode in
      let '(isHoistable, reason) := hoistable st n weight in
      match last (parents st) with
      | None => Throw TypeError
      | Some top =>
          let parent := Tuple.node top in
          if isHoistable then
            Ok (mkSearch (record h nodePath n weight (hoistCandidates st))
                         (parents st) (seenLocators st) h, parent)
          else if debug2 then
            Ok (mkSearch (hoistCandidates st) (parents st) (seenLocators st)
                         (recordReason h parent n reason), parent)
          else Ok (st, parent)
      end
  end.

Fixpoint computeHoistCandidates (fuel : nat) (nodePath : list ref) (n : ref)
  (st : Search) : result Search :=
  match fuel with
  | O => OutOfFuel
  | S fuel =>
      let isSeen := shas (W.locator (node (heap st) n)) (seenLocators st) in
      '(st, parent) ← visit st nodePath n;
      if isSeen then Ok st
      else
        st ← forEach (mvalues (W.dependencies (node (heap st) n)))
               (fun st dep =>
                  if negb (isPeer (heap st) n dep)
                     && negb (shas dep nodePath)
                  then computeHoistCandidates fuel (nodePath ++ [n]) dep st
                  else Ok st) (pushTuple st parent n);
        Ok (popTuple st)
  end.

Definition searchUnder (fuel : nat) (st : Search) (dep : ref) : result Search :=
  if isPeer (heap st) rootNode dep then Ok st
  else
    st ← forEach (mvalues (W.dependencies (node (heap st) dep)))
           (fun st subDep =>
              if negb (isPeer (heap st) dep subDep)
              then computeHoistCandidates fuel [dep] subDep st
              else Ok st) (pushTuple st rootNode dep);
    Ok (popTuple st).

Definition getHoistCandidates (h : Heap) : result (list HoistCandidateSet.t * Heap) :=
  let st := mkSearch [] [] [W.locator (node h rootNode)] h in
  st ← forEach (mvalues (W.dependencies (node h rootNode)))
         (searchUnder (walkFuel h)) st;
  Ok (mvalues (hoistCandidates st), heap st).
End Finder.

(** ** hoistTo *)

(** [CloneTree]: the clones made at one root, keyed by the node they copy. *)
#[warnings="-register-all"]
Inductive CloneTree : Type :=
  mkCloneTree (clone : ref) (children : list (ref * CloneTree)).

Definition clone (c : CloneTree) : ref :=
  match c with mkCloneTree r _ => r end.
Definition children (c : CloneTree) : JsMap ref CloneTree :=
  match c with mkCloneTree _ l => l end.

(** The loop over [candidate.nodePath]: clones the parents that have no
    clone yet, relays the candidate through every one of them, and returns
    the clone of the last one. *)
Fixpoint clonePath (candidate : ref) (nodePath : list ref)
  (parentClonedNode : CloneTree) (h : Heap) : Heap * CloneTree * ref :=
  match nodePath with
  | [] => (h, parentClonedNode, clone parentClonedNode)
  | n :: rest =>
      let '(nodeClone, h) :=
        match mget n (children parentClonedNode) with
        | Some c => (c, h)
        | None =>
            let name := W.name (node h n) in
            let '(h, c) := alloc h (node h n) in
            (mkCloneTree c [],
             update h (clone parentClonedNode) (W.with_dependencies (mset name c)))
        end in
      let h :=
        update h (clone nodeClone)
          (W.with_relayedDependencies (mset (W.name (node h candidate)) candidate)) in
      let '(h, nodeClone, last) := clonePath candidate rest nodeClone h in
      (h,
       mkCloneTree (clone parentClonedNode)
                   (mset n nodeClone (children parentClonedNode)),
       last)
  end.

(** Adding the hoisted node to the root node, in case it is not already
    there; otherwise its references go to the node that is. *)
Definition addToRoot (rootNode candidate : ref)
  (s : Heap * JsMap PackageName ref) : Heap * JsMap PackageName ref :=
  let '(h, ancestorDependencies) := s in
  let name := W.name (node h candidate) in
  match mget name (W.dependencies (node h rootNode)) with
  | None =>
      if negb (String.eqb (W.ident (node h rootNode)) (W.ident (node h candidate)))
      then (update h rootNode (W.with_dependencies (mset name candidate)),
            mset name candidate ancestorDependencies)
      else s
  | Some hoistedNode =>
      (fold_left
         (fun h reference => update h hoistedNode (W.with_references (sadd reference)))
         (W.references (node h candidate)) h,
       ancestorDependencies)
  end.

(** ** shrinkTree *)

Abbreviation ResultHeap := (list HoisterResult.t) (only parsing).

Definition rnode (o : ResultHeap) (r : ref) : HoisterResult.t :=
  default HoisterResult.dummy (o !! r).

Definition addResultChild (parentNode resultNode : ref) (o : ResultHeap)
  : ResultHeap :=
  alter (fun p => HoisterResult.mk (HoisterResult.name p) (HoisterResult.references p)
                    (sadd resultNode (HoisterResult.dependencies p)))
        parentNode o.

(** [nodes] holds the root alone: nothing is added to it after its
    creation. *)
Fixpoint shrinkAddNode (fuel : nat) (h : Heap) (nodes : JsMap ref ref)
  (n parentNode : ref) (o : ResultHeap) : result ResultHeap :=
  match fuel with
  | O => OutOfFuel
  | S fuel =>
      let resultNode := mget n nodes in
      let isSeen := defined resultNode in
      let '(resultNode, o) :=
        match resultNode with
        | Some r => (r, o)
        | None =>
            (length o,
             o ++ [HoisterResult.mk (W.name (node h n)) (W.references (node h n)) []])
        end in
      let o := addResultChild parentNode resultNode o in
      if isSeen then Ok o
      else forEach (nonPeerDependencies h n)
             (fun o dep => shrinkAddNode fuel h nodes dep resultNode o) o
  end.

Definition shrinkTree (fuel : nat) (h : Heap) (tree : ref)
  : result (ResultHeap * ref) :=
  let treeCopy := 0 in
  let o := [HoisterResult.mk (W.name (node h tree)) (W.references (node h tree)) []] in
  let nodes : JsMap ref ref := [(tree, treeCopy)] in
  o ← forEach (mvalues (W.dependencies (node h tree)))
        (fun o dep => shrinkAddNode fuel h nodes dep treeCopy o) o;
  Ok (o, treeCopy).

(** ** dumpDepTree *)

Definition MAX_NODES_TO_DUMP : Z := 50000.

(** [`${reasonObj.reason}`] *)
Definition showReason (reason : option string) : string :=
  match reason with Some r => r | None => "undefined" end.

(** [dumpPackage]: the calls share the set [parents] and the counter
    [nodeCount]; [dependencies] is an array made at the start of the call. *)
Fixpoint dumpPackage (fuel : nat) (h : Heap) (pkg : ref) (prefix : string)
  (s : JsSet ref * Z) : result (string * (JsSet ref * Z)) :=
  match fuel with
  | O => OutOfFuel
  | S fuel =>
      let '(parents, nodeCount) := s in
      if (MAX_NODES_TO_DUMP <? nodeCount)%Z || shas pkg parents then Ok ("", s)
      else
        let nodeCount := (nodeCount + 1)%Z in
        let dependencies := mvalues (W.dependencies (node h pkg)) in
        let parents := sadd pkg parents in
        '(str, (parents, nodeCount)) ←
          forEach (imap pair dependencies)
            (fun '((str, (parents, nodeCount)) : string * (JsSet ref * Z))
                 '((idx, dep) : nat * ref) =>
               if negb (shas (W.name (node h dep)) (W.peerNames (node h pkg)))
               then
                 let reasonObj :=
                   mget (W.name (node h dep)) (W.reasons (node h pkg)) in
                 let str :=
                   str +:+ prefix
                   +:+ (if Nat.ltb idx (length dependencies - 1) then "├─" else "└─")
                   +:+ ((if shas dep parents then ">" else "")
                        +:+ prettyPrintLocator (W.locator (node h dep))
                        +:+ match reasonObj with
                            | Some (_, reason) => " " +:+ showReason reason
                            | None => ""
                            end)
                   +:+ newline in
                 '(sub, s) ←
                   dumpPackage fuel h dep
                     (prefix +:+ (if Nat.ltb idx (length dependencies - 1)
                                  then "│ " else "  "))
                     (parents, nodeCount);
                 Ok (str +:+ sub, s)
               else Ok (str, (parents, nodeCount)))
            ("", (parents, nodeCount));
        Ok (str, (sdelete pkg parents, nodeCount))
  end.

Definition dumpDepTree (fuel : nat) (h : Heap) (tree : ref) : result string :=
  '(treeDump, (_, nodeCount)) ← dumpPackage fuel h tree "" ([], 0%Z);
  Ok (treeDump
      +:+ (if (MAX_NODES_TO_DUMP <? nodeCount)%Z
           then newline +:+ "Tree is too large, part of the tree has been dunped"
                +:+ newline
           else "")).

(** The dump that an error message ends with, as a string: a walk is never
    nested deeper than the graph has nodes, since a node on the way is not
    entered again, so that this fuel is enough for [dumpDepTree] to
    return. *)
Definition dumpOf (h : Heap) (tree : ref) : string :=
  match dumpDepTree (S (length h)) h tree with
  | Ok treeDump => treeDump
  | _ => ""
  end.

(** ** The hoisting loop *)

Section Hoisting.
Variables (tree : ref) (ancestorMap : AncestorMap)
          (options : InternalHoistOptions).

(** What the loop at one root mutates: the graph, [clonedTree] and
    [ancestorDependencies]. *)
Abbreviation LoopState := (Heap * CloneTree * JsMap PackageName ref)%type (only parsing).

Definition applyCandidate (rootNode : ref) (s : LoopState)
  (candidate : HoistCandidate.t) : result LoopState :=
  let '(h, clonedTree, ancestorDependencies) := s in
  let cnode := HoistCandidate.node candidate in
  let '(h, clonedTree, parentClone) :=
    clonePath cnode (HoistCandidate.nodePath candidate) clonedTree h in
  let h := update h parentClone (W.with_dependencies (mdelete (W.name (node h cnode)))) in
  let h := update h parentClone (W.with_reasons (mdelete (W.name (node h cnode)))) in
  let '(h, ancestorDependencies) := addToRoot rootNode cnode (h, ancestorDependencies) in
  if icheck options then
    checkLog ← selfCheck h tree;
    if negb (String.eqb checkLog "") then
      Throw (Error (checkLog +:+ ", after hoisting "
                    +:+ prettyPath h (rootNode :: HoistCandidate.nodePath candidate
                                      ++ [cnode]) +:+ ":" +:+ newline
                    +:+ dumpOf h tree))
    else Ok (h, clonedTree, ancestorDependencies)
  else Ok (h, clonedTree, ancestorDependencies).

(** [do { ... } while (hoistCandidates.size > 0)] *)
Fixpoint hoistLoop (fuel : nat) (rootNode : ref) (rootNodePath : JsSet ref)
  (s : LoopState) : result LoopState :=
  match fuel with
  | O => OutOfFuel
  | S fuel =>
      let '(h, clonedTree, ancestorDependencies) := s in
      '(hoistCandidates, h) ←
        getHoistCandidates rootNode rootNodePath ancestorDependencies
                           ancestorMap options h;
      s ← forEach hoistCandidates
            (fun s hoistSet =>
               forEach (HoistCandidateSet.candidates hoistSet)
                       (applyCandidate rootNode) s)
            (h, clonedTree, ancestorDependencies);
      if (0 <? length hoistCandidates)%nat then hoistLoop fuel rootNode rootNodePath s
      else Ok s
  end.

(** [hoistTo] mutates the graph and the set [rootNodePath] that all its
    calls share.  Its last parameter [seenNodes] has the default value
    [new Set()], and the recursive call passes six arguments: every call
    starts from the empty set. *)
Fixpoint hoistTo (fuel : nat) (rootNode : ref)
  (parentAncestorDependencies : JsMap PackageName ref) (seenNodes : JsSet ref)
  (s : Heap * JsSet ref) : result (Heap * JsSet ref) :=
  match fuel with
  | O => OutOfFuel
  | S fuel =>
      let '(h, rootNodePath) := s in
      if shas rootNode seenNodes then Ok s
      else
        let ancestorDependencies := overlay h rootNode parentAncestorDependencies in
        '(h, _, ancestorDependencies) ←
          hoistLoop fuel rootNode rootNodePath
                    (h, mkCloneTree rootNode [], ancestorDependencies);
        hoistDependencies fuel rootNode ancestorDependencies 0 (h, rootNodePath)
  end
(** [for (const dependency of rootNode.dependencies.values())]: the map is
    read again at every step, as its iterator does. *)
with hoistDependencies (fuel : nat) (rootNode : ref)
  (ancestorDependencies : JsMap PackageName ref) (k : nat)
  (s : Heap * JsSet ref) : result (Heap * JsSet ref) :=
  match fuel with
  | O => OutOfFuel
  | S fuel =>
      let '(h, rootNodePath) := s in
      match mvalues (W.dependencies (node h rootNode)) !! k with
      | None => Ok s
      | Some dependency =>
          let rootNodePath := sadd dependency rootNodePath in
          '(h, rootNodePath) ←
            (if negb (isPeer h rootNode dependency)
             then hoistTo fuel dependency ancestorDependencies [] (h, rootNodePath)
             else Ok (h, rootNodePath));
          hoistDependencies fuel rootNode ancestorDependencies (S k)
                            (h, sdelete dependency rootNodePath)
      end
  end.
End Hoisting.

(** ** hoist *)

Section Hoist.
(** [Number(s)] for a string [s]: the conversion is the engine's, not code
    of the hoister, and the development holds for whatever it returns. *)
Variable toNumber : string -> number.

(** [opts.debugLevel || Number(process.env.NM_DEBUG_LEVEL || -1)], where
    [env] is the value of the environment variable. *)
Definition effectiveDebugLevel (opts : HoistOptions) (env : option string)
  : number :=
  match debugLevel opts with
  | Some n =>
      if truthyNumber n then n
      else match env with
           | Some (String _ _ as s) => toNumber s
           | _ => Num (-1)
           end
  | None =>
      match env with
      | Some (String _ _ as s) => toNumber s
      | _ => Num (-1)
      end
  end.

Definition internalOptions (opts : HoistOptions) (env : option string)
  : InternalHoistOptions :=
  let debugLevel := effectiveDebugLevel opts env in
  {| icheck := default false (check opts) || geNumber debugLevel 9;
     idebugLevel := debugLevel |}.

(** [hoist(tree, opts)] on the store that holds the caller's graph.  What
    it writes to the console (the timer, the dump at debug level 2) is left
    out. *)
Definition hoist (fuel : nat) (env : option string) (tree : ref)
  (opts : HoistOptions) (st : Store) : result (Store * (ResultHeap * ref)) :=
  '(treeCopy, (_, st)) ← cloneTree tree st;
  ancestorMap ← buildAncestorMap (work st) treeCopy;
  let options := internalOptions opts env in
  '(h, _) ← hoistTo treeCopy ancestorMap options fuel treeCopy [] []
              (work st, [treeCopy]);
  _ ← (if geNumber (idebugLevel options) 1 then
         checkLog ← selfCheck h treeCopy;
         if negb (String.eqb checkLog "") then
           Throw (Error (checkLog +:+ ", after hoisting finished:" +:+ newline
                         +:+ dumpOf h treeCopy))
         else Ok tt
       else Ok tt);
  out ← shrinkTree fuel h treeCopy;
  Ok (mkStore (inputs st) h, out).
End Hoist.
(** ** Vocabulary of the statements *)

(** The character [c] occurs in [s]. *)
Fixpoint occurs (c : ascii) (s : string) : bool :=
  match s with
  | "" => false
  | String c' s' => Ascii.eqb c c' || occurs c s'
  end.

(** ** Sample graphs *)

Definition defaultOptions : HoistOptions :=
  {| check := None; debugLevel := None |}.

(** A conversion for the examples, which convert no other text than
    ["5"]. *)
Definition sampleNumber (s : string) : number :=
  if String.eqb s "5" then Num 5 else NaN.

(** Two packages that depend on each other and each on another version of
    itself: [.@1 -> {.@2, A@1}] and [A@1 -> {A@2, .@1}]. *)
Definition twoVersionCycle : Store :=
  mkStore [ HoisterTree.mk "." "1" [1; 2] [];
            HoisterTree.mk "." "2" [] [];
            HoisterTree.mk "A" "1" [3; 0] [];
            HoisterTree.mk "A" "2" [] [] ] [].

(** [. -> {A@1 -> L@1, B@1 -> L@2}]: two versions of [L], each with one
    dependent. *)
Definition equalWeights : Store :=
  mkStore [ HoisterTree.mk "." "workspace:." [1; 3] [];
            HoisterTree.mk "A" "1" [2] [];
            HoisterTree.mk "L" "1" [] [];
            HoisterTree.mk "B" "1" [4] [];
            HoisterTree.mk "L" "2" [] [] ] [].

(** [. -> P@1], which the root takes as a peer dependency. *)
Definition rootPeer : Store :=
  mkStore [ HoisterTree.mk "." "workspace:." [1] ["P"];
            HoisterTree.mk "P" "1" [] [] ] [].

(** [. -> {A@1 -> {S@1, D@1}, B@1 -> {S@1, D@2}}] and [S@1 -> D@1]: the
    package [S] is shared by [A] and [B], which come with different
    versions of [D]. *)
Definition sharedUnderTwo : Store :=
  mkStore [ HoisterTree.mk "." "workspace:." [1; 4] [];
            HoisterTree.mk "A" "1" [2; 3] [];
            HoisterTree.mk "S" "1" [3] [];
            HoisterTree.mk "D" "1" [] [];
            HoisterTree.mk "B" "1" [2; 5] [];
            HoisterTree.mk "D" "2" [] [] ] [].

(** The work graph and the ancestor map of [twoVersionCycle], and the
    options that [defaultOptions] gives when the environment variable is
    not set. *)
Definition cycleHeap : Heap :=
  Eval vm_compute in
  match cloneTree 0 twoVersionCycle with Ok (_, (_, st)) => work st | _ => [] end.
Definition cycleAncestors : AncestorMap :=
  Eval vm_compute in
  match buildAncestorMap cycleHeap 0 with Ok m => m | _ => [] end.
Definition quiet : InternalHoistOptions :=
  {| icheck := false; idebugLevel := Num (-1) |}.



(** ** Vocabulary for cloneTree *)

(** The entry that [cloneAddNode] writes into its parent for a child. *)
Definition link (name : PackageName) (w : ref) (x : W.t) : W.t :=
  W.with_originalDependencies (mset name w) (W.with_dependencies (mset name w) x).

(** The entries for the input nodes [ds], each under the work node that
    [seenNodes] gives it. *)
Definition linkAll (st0 : Store) (seenNodes : JsMap ref ref) (ds : list ref)
  (x : W.t) : W.t :=
  fold_left
    (fun x d =>
       match mget d seenNodes with
       | Some w => link (HoisterTree.name (input st0 d)) w x
       | None => x
       end) ds x.

(** The work node of the input node [n] once all its dependencies are
    linked. *)
Definition cloneOf (st0 : Store) (seenNodes : JsMap ref ref) (n : ref) : W.t :=
  linkAll st0 seenNodes (HoisterTree.dependencies (input st0 n))
          (newWorkNode (input st0 n)).

(** Input nodes that have no work node yet. *)
Definition unseenInputs (st0 : Store) (seenNodes : JsMap ref ref) : nat :=
  length (List.filter (fun i => negb (mhas i seenNodes))
                      (seq 0 (length (inputs st0)))).

(** What holds of [seenNodes] and the store all along [cloneTree], started
    on [st0]: one fresh work node per seen input node, in order of creation,
    each linked to some of its dependencies. *)
Record CloneInv (st0 : Store) (seenNodes : JsMap ref ref) (st : Store) : Prop := {
  ci_inputs : inputs st = inputs st0;
  ci_keys : NoDup (mkeys seenNodes);
  ci_values : mvalues seenNodes = seq (length (work st0)) (length seenNodes);
  ci_length : length (work st) = length (work st0) + length seenNodes;
  ci_old : forall r, r < length (work st0) -> work st !! r = work st0 !! r;
  ci_partial : forall n w, mget n seenNodes = Some w ->
               exists ds, Forall (fun d => is_Some (mget d seenNodes)) ds
                          /\ node (work st) w
                             = linkAll st0 seenNodes ds (newWorkNode (input st0 n))
}.

(** The work node [w] of [n] is complete. *)
Definition finished (st0 : Store) (seenNodes : JsMap ref ref) (st : Store)
  (n w : ref) : Prop :=
  node (work st) w = cloneOf st0 seenNodes n
  /\ Forall (fun d => is_Some (mget d seenNodes))
            (HoisterTree.dependencies (input st0 n)).

(** What a call [cloneAddNode fuel n p] has done when it returns [added]
    and [st']. *)
Definition clonePost (st0 : Store) (seenNodes : JsMap ref ref) (st : Store)
  (n p : ref) (added : JsMap ref ref) (st' : Store) : Prop :=
  CloneInv st0 (seenNodes ++ added) st'
  /\ (exists w, mget n (seenNodes ++ added) = Some w
               /\ node (work st') p
                  = link (HoisterTree.name (input st0 n)) w (node (work st) p))
  /\ (forall r, r < length (work st) -> r <> p -> work st' !! r = work st !! r)
  /\ (forall n' w', (n', w') ∈ added -> finished st0 (seenNodes ++ added) st' n' w').

Definition cloneSpec (st0 : Store) (fuel : nat) : Prop :=
  forall n p seenNodes st,
    CloneInv st0 seenNodes st ->
    length (work st0) <= p < length (work st) ->
    unseenInputs st0 seenNodes < fuel ->
    exists added st',
      cloneAddNode fuel n p (seenNodes, st) = Ok (seenNodes ++ added, st')
      /\ clonePost st0 seenNodes st n p added st'.


(** ** Vocabulary for the candidate search *)

(** Two work nodes carry the same name and the same ident. *)
Definition sameLabel (a b : W.t) : Prop :=
  W.name a = W.name b /\ W.ident a = W.ident b.

(** Every location recorded in [hoistCandidates] holds a node that may sit
    under [rootNode]: another name, or the root's own ident. *)
Definition candidatesCompatible (h0 : Heap) (rootNode : ref)
  (hoistCandidates : HoistCandidates) : Prop :=
  forall name hoistSet candidate,
    (name, hoistSet) ∈ hoistCandidates ->
    candidate ∈ HoistCandidateSet.candidates hoistSet ->
    compatibleIdent (node h0 rootNode) (node h0 (HoistCandidate.node candidate)) = true.

(** The state of a search at [rootNode] started on the graph [h0]. *)
Definition searchInv (rootNode : ref) (h0 : Heap) (st : Search) : Prop :=
  candidatesCompatible h0 rootNode (hoistCandidates st)
  /\ forall r, sameLabel (node (heap st) r) (node h0 r).


(** [. -> {A@1 -> B@1, C@1 -> B@1}] *)
Definition simpleDuplicate : Store :=
  mkStore [ HoisterTree.mk "." "workspace:." [1; 3] [];
            HoisterTree.mk "A" "1" [2] [];
            HoisterTree.mk "B" "1" [] [];
            HoisterTree.mk "C" "1" [2] [] ] [].

(** Its work graph, the candidates found at the root, and the graph once
    the first of them is applied. *)
Definition duplicateHeap : Heap :=
  Eval vm_compute in
  match cloneTree 0 simpleDuplicate with Ok (_, (_, st)) => work st | _ => [] end.
Definition duplicateAncestors : AncestorMap :=
  Eval vm_compute in
  match buildAncestorMap duplicateHeap 0 with Ok m => m | _ => [] end.
Definition duplicateCandidates : list HoistCandidateSet.t :=
  Eval vm_compute in
  match getHoistCandidates 0 [0] [("A", 1); ("C", 3)] duplicateAncestors quiet
                           duplicateHeap with
  | Ok (sets, _) => sets
  | _ => []
  end.
Definition duplicateHeapAfterFirst : Heap :=
  Eval vm_compute in
  match applyCandidate 0 quiet 0
          (duplicateHeap, mkCloneTree 0 [], [("A", 1); ("C", 3)])
          (HoistCandidate.mk [1] 2) with
  | Ok (h, _, _) => h
  | _ => []
  end.

(** ** Vocabulary for selfCheck *)

(** [d] is a regular dependency of [n]. *)
Definition regularEdge (h : Heap) (n d : ref) : Prop :=
  d ∈ nonPeerDependencies h n.

(** [chain h tree c n]: [n] is reached from [tree] through regular
    dependencies, and [c] lists the nodes above it, [tree] first. *)
Inductive chain (h : Heap) (tree : ref) : list ref -> ref -> Prop :=
| chain_root : chain h tree [] tree
| chain_step c n d :
    chain h tree c n -> regularEdge h n d -> chain h tree (c ++ [n]) d.

(** What the nodes of [c] make visible to a node below them. *)
Definition visibleAbove (h : Heap) (tree : ref) (c : list ref)
  : JsMap PackageName ref :=
  fold_left (fun m x => overlay h x m) c (W.dependencies (node h tree)).

(** The require promise of [n] under [parentDeps]: every regular original
    dependency resolves, in what [n] sees, to a node of the same ident. *)
Definition requireKept (h : Heap) (parentDeps : JsMap PackageName ref) (n : ref)
  : Prop :=
  forall origDep,
    origDep ∈ mvalues (W.originalDependencies (node h n)) ->
    isPeer h n origDep = false ->
    exists d, mget (W.name (node h origDep)) (overlay h n parentDeps) = Some d
              /\ W.ident (node h d) = W.ident (node h origDep).

(** Nodes of the graph that the checker has not seen. *)
Definition unseenNodes (h : Heap) (seenNodes : JsSet ref) : nat :=
  length (List.filter (fun i => negb (shas i seenNodes)) (seq 0 (length h))).

(** What a call of [checkNode] has done when it returns: [new] is what it
    added to the log, [seenNodes'] the nodes seen by then. *)
Definition checkPost (h : Heap) (tree : ref) (seenNodes : JsSet ref)
  (new : list string) (seenNodes' : JsSet ref) : Prop :=
  (forall x, x ∈ seenNodes -> x ∈ seenNodes')
  /\ (forall m, m ∈ seenNodes' -> m ∉ seenNodes ->
        (forall d, regularEdge h m d -> d ∈ seenNodes')
        /\ exists c, chain h tree c m
                     /\ (new = [] -> requireKept h (visibleAbove h tree c) m))
  /\ ((forall c m, chain h tree c m -> requireKept h (visibleAbove h tree c) m) ->
      new = [])
  /\ Forall (fun s => s <> "") new.

Definition checkSpec (h : Heap) (tree : ref) (fuel : nat) : Prop :=
  forall n c log seenNodes parents,
    chain h tree c n ->
    (forall x, x ∈ parents -> x ∈ seenNodes) ->
    0 < fuel ->
    (n ∉ seenNodes -> n < length h -> unseenNodes h seenNodes < fuel) ->
    exists new seenNodes',
      checkNode fuel h n (visibleAbove h tree c) (log, seenNodes, parents)
      = Ok (log ++ new, seenNodes', parents)
      /\ n ∈ seenNodes'
      /\ checkPost h tree seenNodes new seenNodes'.


(** The work graph of [sharedUnderTwo] (0 is the root, 1 is [A], 2 is [S],
    3 is [D@1], 4 is [B] and 5 is [D@2]) once [S] has lost its own entry for
    [D], which it declares and now has to find above itself. *)
Definition sharedHeap : Heap :=
  Eval vm_compute in
  match cloneTree 0 sharedUnderTwo with
  | Ok (_, (_, st)) => update (work st) 2 (W.with_dependencies (mdelete "D"))
  | _ => []
  end.

(** ** Vocabulary for the absence of failures *)

(** The nodes of [nodes] are in the graph, and so are their dependencies,
    peer ones included. *)
Definition closedRefs (h : Heap) (nodes : list ref) : Prop :=
  forall n, n ∈ nodes ->
    n < length h
    /\ forall d, d ∈ mvalues (W.dependencies (node h n)) -> d ∈ nodes.

(** Every regular dependency of a node of [nodes] is in [nodes] and has an
    entry in the ancestor map. *)
Definition covered (ancestorMap : AncestorMap) (h : Heap) (nodes : list ref)
  : Prop :=
  forall n d, n ∈ nodes -> regularEdge h n d ->
    d ∈ nodes /\ mhas (W.ident (node h d)) ancestorMap = true.

(** What a call of [addParent] has done when it returns. *)
Definition ancestorsPost (h : Heap) (s s' : AncestorMap * JsSet ref) : Prop :=
  (forall x, x ∈ s.2 -> x ∈ s'.2)
  /\ (forall k, mhas k s.1 = true -> mhas k s'.1 = true)
  /\ (forall m, m ∈ s'.2 -> m ∉ s.2 ->
        forall d, regularEdge h m d ->
          d ∈ s'.2 /\ mhas (W.ident (node h d)) s'.1 = true).

Definition ancestorsSpec (h : Heap) (P : ref -> Prop) (fuel : nat) : Prop :=
  forall parentNode n s,
    0 < fuel ->
    (n ∉ s.2 -> n < length h -> unseenNodes h s.2 < fuel) ->
    P n -> (forall x, x ∈ s.2 -> P x) ->
    exists s',
      addParent fuel h parentNode n s = Ok s'
      /\ n ∈ s'.2
      /\ mhas (W.ident (node h n)) s'.1 = true
      /\ (forall x, x ∈ s'.2 -> P x)
      /\ ancestorsPost h s s'.

(** A work node without its diagnostic reasons. *)
Definition eraseReasons (w : W.t) : W.t := W.with_reasons (fun _ => []) w.

(** A location found by the search lies in [nodes], and so does the path
    to it; their idents have entries in the ancestor map. *)
Definition goodNode (ancestorMap : AncestorMap) (h : Heap) (nodes : list ref)
  (n : ref) : Prop :=
  n ∈ nodes /\ mhas (W.ident (node h n)) ancestorMap = true.

Definition goodCandidate (ancestorMap : AncestorMap) (h : Heap)
  (nodes : list ref) (c : HoistCandidate.t) : Prop :=
  goodNode ancestorMap h nodes (HoistCandidate.node c)
  /\ Forall (goodNode ancestorMap h nodes) (HoistCandidate.nodePath c).

(** The state of a search on the graph [h0]: the graph is the same but for
    the reasons, and what is recorded is good. *)
Definition safeInv (ancestorMap : AncestorMap) (h0 : Heap) (nodes : list ref)
  (st : Search) : Prop :=
  length (heap st) = length h0
  /\ (forall r, eraseReasons (node (heap st) r) = eraseReasons (node h0 r))
  /\ forall name hoistSet c,
       (name, hoistSet) ∈ hoistCandidates st ->
       c ∈ HoistCandidateSet.candidates hoistSet ->
       goodCandidate ancestorMap h0 nodes c.

(** Locators of the graph that the search has not seen. *)
Definition unseenLocators (h0 : Heap) (seenLocators : JsSet Locator) : nat :=
  length (List.filter (fun l => negb (shas l seenLocators))
                      (map W.locator h0 ++ [W.locator W.dummy])).

Definition computeSpec (rootNode : ref) (rootNodePath : JsSet ref)
  (ancestorDependencies : JsMap PackageName ref) (ancestorMap : AncestorMap)
  (options : InternalHoistOptions) (h0 : Heap) (nodes : list ref)
  (fuel : nat) : Prop :=
  forall nodePath n st,
    goodNode ancestorMap h0 nodes n ->
    Forall (goodNode ancestorMap h0 nodes) nodePath ->
    parents st <> [] ->
    safeInv ancestorMap h0 nodes st ->
    0 < fuel ->
    (W.locator (node h0 n) ∉ seenLocators st ->
     unseenLocators h0 (seenLocators st) < fuel) ->
    exists st',
      computeHoistCandidates rootNode rootNodePath ancestorDependencies
                             ancestorMap options fuel nodePath n st = Ok st'
      /\ parents st' = parents st
      /\ (forall l, l ∈ seenLocators st -> l ∈ seenLocators st')
      /\ safeInv ancestorMap h0 nodes st'.

(** What no step of the hoisting changes in a node. *)
Definition labels (w : W.t) : PackageName * Ident * JsSet PackageName :=
  (W.name w, W.ident w, W.peerNames w).

(** [h'] has the nodes of [h], with their labels, and maybe more. *)
Definition extends (h h' : Heap) : Prop :=
  length h <= length h'
  /\ forall r, r < length h -> labels (node h' r) = labels (node h r).

(** The nodes of [nodes] and all their dependencies are in the graph, and
    their regular dependencies are covered. *)
Definition graphInv (ancestorMap : AncestorMap) (h : Heap) (nodes : list ref)
  : Prop :=
  (forall n, n ∈ nodes ->
     n < length h
     /\ forall d, d ∈ mvalues (W.dependencies (node h n)) -> d < length h)
  /\ covered ancestorMap h nodes.

(** Every clone of the clone tree is in [nodes]. *)
Inductive clonesIn (nodes : list ref) : CloneTree -> Prop :=
| clonesIn_intro r l :
    r ∈ nodes ->
    (forall k c, (k, c) ∈ l -> clonesIn nodes c) ->
    clonesIn nodes (mkCloneTree r l).

(** A result that is no [TypeError], that is an [Error] only where
    [allow] says so, and that satisfies [Q] when it is a value. *)
Definition safeResult {A : Type} (allow : bool) (Q : A -> Prop)
  (r : result A) : Prop :=
  match r with
  | Ok a => Q a
  | Throw TypeError => False
  | Throw (Error _) => allow = true
  | OutOfFuel => True
  end.

(** The graph and the nodes known to be covered have grown into [h'] and
    [nodes']. *)
Definition grown (ancestorMap : AncestorMap) (h : Heap) (nodes : list ref)
  (h' : Heap) (nodes' : list ref) : Prop :=
  extends h h' /\ (forall n, n ∈ nodes -> n ∈ nodes')
  /\ graphInv ancestorMap h' nodes'.

(** ** A search with two versions of equal weight *)

(** The work graph of [equalWeights] (0 is the root, 1 is [A@1], 2 is
    [L@1], 3 is [B@1] and 4 is [L@2]), its ancestor map, and the state in which the
    search at the root starts. *)
Definition equalHeap : Heap :=
  Eval vm_compute in
  match cloneTree 0 equalWeights with Ok (_, (_, st)) => work st | _ => [] end.
Definition equalAncestors : AncestorMap :=
  Eval vm_compute in
  match buildAncestorMap equalHeap 0 with Ok m => m | _ => [] end.
Definition equalSearchStart : Search :=
  mkSearch [] [] [".@workspace:."] equalHeap.

(** ** Vocabulary for the weights *)

(** A visit of the search to a node that passes every predicate but the
    one on weights: the node's name, ident and weight. *)
Record Event : Type := mkEvent {
  ename : PackageName;
  eident : Ident;
  eweight : nat
}.

(** The events of a loop: those of each element, in the state the loop
    has reached. *)
Fixpoint forEachEvents {A S : Type} (l : list A) (body : S -> A -> result S)
  (events : S -> A -> list Event) (s : S) : list Event :=
  match l with
  | [] => []
  | x :: l' =>
      events s x
      ++ match body s x with
         | Ok s' => forEachEvents l' body events s'
         | _ => []
         end
  end.

Section Events.
Variables (rootNode : ref) (rootNodePath : JsSet ref)
          (ancestorDependencies : JsMap PackageName ref)
          (ancestorMap : AncestorMap) (options : InternalHoistOptions).

(** The node passes the predicates 1, 2, 3, 5 and 6. *)
Definition promotable (st : Search) (n : ref) : bool :=
  fst (isRegularDepAtRoot rootNode rootNodePath (heap st) n)
  && fst (isCompatibleIdent rootNode rootNodePath (heap st) n)
  && fst (isNameAvailable rootNode rootNodePath (heap st) (parents st) n)
  && fst (areRegularDepsSatisfied rootNode rootNodePath ancestorDependencies
                                  (heap st) n)
  && fst (arePeerDepsSatisfied rootNodePath (heap st) (parents st) n).

Definition visitEvents (st : Search) (n : ref) : list Event :=
  match mget (W.ident (node (heap st) n)) ancestorMap with
  | Some ancestorNode =>
      if promotable st n
      then [mkEvent (W.name (node (heap st) n)) (W.ident (node (heap st) n))
                    (length ancestorNode)]
      else []
  | None => []
  end.

(** The events of [computeHoistCandidates], of [searchUnder] and of
    [getHoistCandidates], in the order of the visits. *)
Fixpoint computeEvents (fuel : nat) (nodePath : list ref) (n : ref)
  (st : Search) : list Event :=
  match fuel with
  | O => []
  | S fuel =>
      visitEvents st n
      ++ match visit rootNode rootNodePath ancestorDependencies ancestorMap
                     options st nodePath n with
         | Ok (st1, parent) =>
             if shas (W.locator (node (heap st) n)) (seenLocators st) then []
             else
               forEachEvents (mvalues (W.dependencies (node (heap st1) n)))
                 (fun st dep =>
                    if negb (isPeer (heap st) n dep) && negb (shas dep nodePath)
                    then computeHoistCandidates rootNode rootNodePath
                           ancestorDependencies ancestorMap options
                           fuel (nodePath ++ [n]) dep st
                    else Ok st)
                 (fun st dep =>
                    if negb (isPeer (heap st) n dep) && negb (shas dep nodePath)
                    then computeEvents fuel (nodePath ++ [n]) dep st
                    else [])
                 (pushTuple st1 parent n)
         | _ => []
         end
  end.

Definition searchUnderEvents (fuel : nat) (st : Search) (dep : ref)
  : list Event :=
  if isPeer (heap st) rootNode dep then []
  else
    forEachEvents (mvalues (W.dependencies (node (heap st) dep)))
      (fun st subDep =>
         if negb (isPeer (heap st) dep subDep)
         then computeHoistCandidates rootNode rootNodePath ancestorDependencies
                ancestorMap options fuel [dep] subDep st
         else Ok st)
      (fun st subDep =>
         if negb (isPeer (heap st) dep subDep)
         then computeEvents fuel [dep] subDep st
         else [])
      (pushTuple st rootNode dep).

Definition searchEvents (h : Heap) : list Event :=
  forEachEvents (mvalues (W.dependencies (node h rootNode)))
    (searchUnder rootNode rootNodePath ancestorDependencies ancestorMap options
                 (walkFuel h))
    (searchUnderEvents (walkFuel h))
    (mkSearch [] [] [W.locator (node h rootNode)] h).
End Events.

(** Among the events [E], those of [name] weigh at most [weight], and the
    last of them that weighs [weight] has the ident [ident]. *)
Definition heaviestLatest (E : list Event) (name : PackageName) (ident : Ident)
  (weight : nat) : Prop :=
  (forall e, e ∈ E -> ename e = name -> eweight e <= weight)
  /\ exists E1 e E2,
       E = E1 ++ e :: E2
       /\ ename e = name /\ eident e = ident /\ eweight e = weight
       /\ forall e', e' ∈ E2 -> ename e' = name -> eweight e' < weight.

(** [hoistCandidates] after the events [E], in a search on the graph
    [h0]. *)
Record eventsInv (h0 : Heap) (ancestorMap : AncestorMap) (E : list Event)
  (st : Search) : Prop := {
  ei_labels : forall r, sameLabel (node (heap st) r) (node h0 r);
  ei_weights : forall e, e ∈ E ->
               exists a, mget (eident e) ancestorMap = Some a
                         /\ eweight e = length a;
  ei_keys : NoDup (mkeys (hoistCandidates st));
  ei_names : forall name hoistSet,
             mget name (hoistCandidates st) = Some hoistSet ->
             name = W.name (node h0 (HoistCandidateSet.node hoistSet));
  ei_absent : forall name,
              mget name (hoistCandidates st) = None ->
              forall e, e ∈ E -> ename e <> name;
  ei_present : forall name hoistSet,
               mget name (hoistCandidates st) = Some hoistSet ->
               heaviestLatest E name
                 (W.ident (node h0 (HoistCandidateSet.node hoistSet)))
                 (HoistCandidateSet.weight hoistSet)
}.

(** ** Vocabulary for further properties *)

(** The last of the nodes [ds] that has the name [k]. *)
Definition lastNamed (h : Heap) (k : PackageName) (ds : list ref) : option ref :=
  last (List.filter (fun d => String.eqb (W.name (node h d)) k) ds).

(** The last of the input nodes [ds] that has the name [k]. *)
Definition lastNamedInput (st : Store) (k : PackageName) (ds : list ref)
  : option ref :=
  last (List.filter (fun d => String.eqb (HoisterTree.name (input st d)) k) ds).

(** The entries of a dependency map stand under the names of the nodes
    they hold, one entry per name. *)
Definition wellKeyed (h : Heap) (m : JsMap PackageName ref) : Prop :=
  NoDup (mkeys m) /\ forall k d, (k, d) ∈ m -> k = W.name (node h d).


(** [. -> {A@1, A@2}]: two dependencies of one name. *)
Definition sameNameTwice : Store :=
  mkStore [ HoisterTree.mk "." "workspace:." [1; 2] [];
            HoisterTree.mk "A" "1" [] [];
            HoisterTree.mk "A" "2" [] [] ] [].

Definition sameNameHeap : Heap :=
  Eval vm_compute in
  match cloneTree 0 sameNameTwice with Ok (_, (_, st)) => work st | _ => [] end.

(** The result graph is a tree below its root: every dependency is a node
    of the graph, and every node but the root is a dependency of exactly
    one node, made before it. *)
Record treeShaped (o : list HoisterResult.t) : Prop := {
  ts_root : 0 < length o;
  ts_range : forall p d,
    d ∈ HoisterResult.dependencies (rnode o p) -> d < length o;
  ts_parent : forall i,
    0 < i < length o ->
    exists p, p < i /\ i ∈ HoisterResult.dependencies (rnode o p);
  ts_unique : forall i p q,
    0 < i ->
    i ∈ HoisterResult.dependencies (rnode o p) ->
    i ∈ HoisterResult.dependencies (rnode o q) ->
    p = q
}.

(** The nodes of [o] are in [o'] with their names and references. *)
Definition sameResults (o o' : list HoisterResult.t) : Prop :=
  length o <= length o'
  /\ forall q, q < length o ->
       HoisterResult.name (rnode o' q) = HoisterResult.name (rnode o q)
       /\ HoisterResult.references (rnode o' q)
          = HoisterResult.references (rnode o q).

(** [h'] is the graph [h] but for the reasons. *)
Definition sameGraph (h h' : Heap) : Prop :=
  length h' = length h
  /\ forall r, eraseReasons (node h' r) = eraseReasons (node h r).

(** [path] leads from [parent] to [n] through regular dependencies. *)
Fixpoint regularPath (h : Heap) (parent : ref) (path : list ref) (n : ref)
  : Prop :=
  match path with
  | [] => regularEdge h parent n
  | p :: rest => regularEdge h parent p /\ regularPath h p rest n
  end.

(** The stack of the search when it stands at the end of [path] below
    [parent]: each node of the path with the node above it. *)
Fixpoint tuplesFrom (parent : ref) (path : list ref) : list Tuple.t :=
  match path with
  | [] => []
  | n :: rest => Tuple.mk n parent :: tuplesFrom n rest
  end.

Section Placed.
Variables (rootNode : ref) (rootNodePath : JsSet ref)
          (ancestorDependencies : JsMap PackageName ref)
          (ancestorMap : AncestorMap).

(** The verdicts of the predicates other than the one on weights, for the
    node [n] under the stack [parents]. *)
Definition passes (h : Heap) (parents : list Tuple.t) (n : ref) : bool :=
  fst (isRegularDepAtRoot rootNode rootNodePath h n)
  && fst (isCompatibleIdent rootNode rootNodePath h n)
  && fst (isNameAvailable rootNode rootNodePath h parents n)
  && fst (areRegularDepsSatisfied rootNode rootNodePath ancestorDependencies h n)
  && fst (arePeerDepsSatisfied rootNodePath h parents n).

(** The candidate lies two levels or more below the root, at the end of a
    path of regular dependencies, and passes the predicates there. *)
Definition placed (h : Heap) (c : HoistCandidate.t) : Prop :=
  HoistCandidate.nodePath c <> []
  /\ regularPath h rootNode (HoistCandidate.nodePath c) (HoistCandidate.node c)
  /\ passes h (tuplesFrom rootNode (HoistCandidate.nodePath c))
            (HoistCandidate.node c) = true.

(** A candidate set under [name]: its candidates are instances of the
    package of its node, and its weight is the number of entries of the
    ancestor map for that package. *)
Definition goodSet (h : Heap) (name : PackageName) (hoistSet : HoistCandidateSet.t)
  : Prop :=
  name = W.name (node h (HoistCandidateSet.node hoistSet))
  /\ (exists ancestorNode,
        mget (W.ident (node h (HoistCandidateSet.node hoistSet))) ancestorMap
        = Some ancestorNode
        /\ HoistCandidateSet.weight hoistSet = length ancestorNode)
  /\ HoistCandidateSet.candidates hoistSet <> []
  /\ forall c, c ∈ HoistCandidateSet.candidates hoistSet ->
       W.name (node h (HoistCandidate.node c)) = name
       /\ W.ident (node h (HoistCandidate.node c))
          = W.ident (node h (HoistCandidateSet.node hoistSet))
       /\ placed h c.

(** The state of a search on the graph [h0]. *)
Record searchSound (options : InternalHoistOptions) (h0 : Heap) (st : Search)
  : Prop := {
  ss_graph : sameGraph h0 (heap st);
  ss_quiet : debug2 options = false -> heap st = h0;
  ss_keys : NoDup (mkeys (hoistCandidates st));
  ss_sets : forall name hoistSet,
    (name, hoistSet) ∈ hoistCandidates st -> goodSet h0 name hoistSet
}.
End Placed.

(** What the hoisting never changes in a node. *)
Definition frozen (w : W.t)
  : PackageName * Ident * Locator * JsSet PackageName
    * JsMap PackageName ref * JsMap PackageName ref :=
  (W.name w, W.ident w, W.locator w, W.peerNames w,
   W.originalDependencies w, W.hoistedDependencies w).

(** [h'] has the nodes of [h] with their frozen fields, and every other
    node of [h'] has the frozen fields of a node of [h]. *)
Definition frozenExt (h h' : Heap) : Prop :=
  length h <= length h'
  /\ forall r, exists r0,
       frozen (node h' r) = frozen (node h r0) /\ (r < length h -> r0 = r).

(** The graph after [hoistTo] at the root of [simpleDuplicate]. *)
Definition duplicateHeapHoisted : Heap :=
  Eval vm_compute in
  match hoistTo 0 duplicateAncestors quiet 8 0 [] [] (duplicateHeap, [0]) with
  | Ok (h, _) => h
  | _ => []
  end.

(** A work node without its references. *)
Definition eraseReferences (w : W.t) : W.t := W.with_references (fun _ => []) w.

(** [w'] is [w] with more references, maybe. *)
Definition moreReferences (w w' : W.t) : Prop :=
  eraseReferences w' = eraseReferences w
  /\ forall x, x ∈ W.references w -> x ∈ W.references w'.

(** The ancestor map has [parent] among the entries of [child]. *)
Definition recorded (ancestorMap : AncestorMap) (child parent : Ident) : Prop :=
  exists parents, mget child ancestorMap = Some parents /\ parent ∈ parents.

(** A node reached from [tree] through regular dependencies has a regular
    dependency of ident [child], and has itself the ident [parent]. *)
Definition dependsOn (h : Heap) (tree : ref) (child parent : Ident) : Prop :=
  exists c p d,
    chain h tree c p /\ regularEdge h p d
    /\ W.ident (node h d) = child /\ W.ident (node h p) = parent.

(** What a call of [addParent] has done when it returns. *)
Definition ancestorsDone (h : Heap) (tree : ref)
  (s s' : AncestorMap * JsSet ref) : Prop :=
  (forall x, x ∈ s.2 -> x ∈ s'.2)
  /\ (forall i j, recorded s.1 i j -> recorded s'.1 i j)
  /\ (forall m, m ∈ s'.2 -> m ∉ s.2 ->
        forall d, regularEdge h m d ->
          d ∈ s'.2 /\ recorded s'.1 (W.ident (node h d)) (W.ident (node h m)))
  /\ (forall i j, recorded s'.1 i j -> recorded s.1 i j \/ dependsOn h tree i j)
  /\ ((forall i ps, mget i s.1 = Some ps -> NoDup ps) ->
      forall i ps, mget i s'.1 = Some ps -> NoDup ps).


(** What [addParent] does when it returns, called for a regular dependency
    [n] of a node [parentNode] reached from [tree]. *)
Definition ancestorsPartial (h : Heap) (tree : ref) (fuel : nat) : Prop :=
  forall parentNode n s s',
    (exists c, chain h tree c parentNode) ->
    regularEdge h parentNode n ->
    addParent fuel h parentNode n s = Ok s' ->
    n ∈ s'.2
    /\ recorded s'.1 (W.ident (node h n)) (W.ident (node h parentNode))
    /\ ancestorsDone h tree s s'.

(** Every dependencies map of the graph is keyed by the names of the nodes
    it holds, one entry per name, and holds nodes of the graph. *)
Definition wellFormed (h : Heap) : Prop :=
  forall n,
    wellKeyed h (W.dependencies (node h n))
    /\ forall d, d ∈ mvalues (W.dependencies (node h n)) -> d < length h.

(** The ident that the candidate sets [hc] of a search on [h0] expect
    under the name [k]. *)
Definition expectedIdent (hc : HoistCandidates) (h0 : Heap) (k : PackageName)
  (i : Ident) : Prop :=
  exists hoistSet,
    (k, hoistSet) ∈ hc /\ i = W.ident (node h0 (HoistCandidateSet.node hoistSet)).

(** Under a name that has a candidate set, the root holds a node of the
    expected ident, if it holds any. *)
Definition rootAsExpected (hc : HoistCandidates) (h0 : Heap) (rootNode : ref)
  (h : Heap) : Prop :=
  forall k d i,
    mget k (W.dependencies (node h rootNode)) = Some d ->
    expectedIdent hc h0 k i ->
    W.ident (node h d) = i.

(** The clone tree stands on [rootNode], and the clones below it are nodes
    made after the first [L] nodes of the graph. *)
Definition freshClones (L : nat) (rootNode : ref) (ct : CloneTree) : Prop :=
  clone ct = rootNode
  /\ exists F,
       (forall k c, (k, c) ∈ children ct -> clonesIn F c)
       /\ forall y, y ∈ F -> L <= y.

(** The candidate is visible from the root: the root holds a node under
    its name, or is itself a node of its ident. *)
Definition promoted (h0 : Heap) (rootNode : ref) (h : Heap)
  (c : HoistCandidate.t) : Prop :=
  mhas (W.name (node h0 (HoistCandidate.node c)))
       (W.dependencies (node h rootNode)) = true
  \/ W.ident (node h0 rootNode) = W.ident (node h0 (HoistCandidate.node c)).

(** The graph of [simpleDuplicate] after the first round at its root. *)
Definition duplicateRound : Heap * CloneTree * JsMap PackageName ref :=
  Eval vm_compute in
  match forEach duplicateCandidates
          (fun s hoistSet =>
             forEach (HoistCandidateSet.candidates hoistSet)
                     (applyCandidate 0 quiet 0) s)
          (duplicateHeap, mkCloneTree 0 [], [("A", 1); ("C", 3)]) with
  | Ok s => s
  | _ => ([], mkCloneTree 0 [], [])
  end.

(** The nodes of the graph that are not in [parents]. *)
Definition unvisited (h : Heap) (parents : JsSet ref) : list ref :=
  List.filter (fun r => negb (shas r parents)) (seq 0 (length h)).

(** [. -> {N@1, P@2}] and [N@1 -> P@1] with [P] a peer dependency of [N]:
    [N] asks for [P@1] and is given the [P@2] of its parent. *)
Definition otherPeer : Store :=
  mkStore [ HoisterTree.mk "." "workspace:." [1; 3] [];
            HoisterTree.mk "N" "1" [2] ["P"];
            HoisterTree.mk "P" "1" [] [];
            HoisterTree.mk "P" "2" [] [] ] [].

(** The work graph of [otherPeer]: 0 is the root, 1 is [N@1], 2 is [P@1]
    and 3 is [P@2]. *)
Definition otherPeerHeap : Heap :=
  Eval vm_compute in
  match cloneTree 0 otherPeer with Ok (_, (_, st)) => work st | _ => [] end.

(** [. -> A@1 -> A@virtual:v#1]: a package that depends on a virtual
    instance of itself. *)
Definition nestedSameName : Store :=
  mkStore [ HoisterTree.mk "." "workspace:." [1] [];
            HoisterTree.mk "A" "1" [2] [];
            HoisterTree.mk "A" "virtual:v#1" [] [] ] [].

(** The work graph and the ancestor map of [nestedSameName]. *)
Definition nestedHeap : Heap :=
  Eval vm_compute in
  match cloneTree 0 nestedSameName with Ok (_, (_, st)) => work st | _ => [] end.
Definition nestedAncestors : AncestorMap :=
  Eval vm_compute in
  match buildAncestorMap nestedHeap 0 with Ok m => m | _ => [] end.

(** * Properties *)

(** ** Containers *)

Section ContainerFacts.
Context {K V : Type} `{EqbKey K}.
Implicit Types (k : K) (v : V) (m : list (K * V)) (s : list K).

Lemma keqb_refl k : keqb k k = true.
Proof. destruct (keqb_spec k k); congruence. Qed.

Lemma keqb_neq k k' : k <> k' -> keqb k k' = false.
Proof. destruct (keqb_spec k k'); congruence. Qed.

Lemma mget_mset_eq k v m : mget k (mset k v m) = Some v.
Proof.
  induction m as [|[k' v'] m IH]; simpl.
  - rewrite keqb_refl. reflexivity.
  - destruct (keqb_spec k k') as [->|Hne]; simpl.
    + rewrite keqb_refl. reflexivity.
    + rewrite (keqb_neq _ _ Hne). exact IH.
Qed.

Lemma mget_mset_ne k k' v m : k <> k' -> mget k' (mset k v m) = mget k' m.
Proof.
  intros Hne. induction m as [|[k0 v0] m IH]; simpl.
  - rewrite keqb_neq by congruence. reflexivity.
  - destruct (keqb_spec k k0) as [->|Hne0]; simpl.
    + rewrite keqb_neq by congruence. reflexivity.
    + destruct (keqb k' k0); [reflexivity|exact IH].
Qed.

Lemma mget_mdelete_eq k m : NoDup (mkeys m) -> mget k (mdelete k m) = None.
Proof.
  induction m as [|[k0 v0] m IH]; simpl; [reflexivity|].
  intros Hnd. apply NoDup_cons in Hnd as [Hk0 Hnd].
  destruct (keqb_spec k k0) as [->|Hne]; simpl.
  - clear IH Hnd. induction m as [|[k1 v1] m IH]; simpl; [reflexivity|].
    simpl in Hk0. apply not_elem_of_cons in Hk0 as [Hne Hk0].
    rewrite keqb_neq by congruence. auto.
  - rewrite keqb_neq by congruence. auto.
Qed.

Lemma mget_mdelete_ne k k' m : k <> k' -> mget k' (mdelete k m) = mget k' m.
Proof.
  intros Hne. induction m as [|[k0 v0] m IH]; simpl; [reflexivity|].
  destruct (keqb_spec k k0) as [->|Hne0]; simpl.
  - rewrite keqb_neq by congruence. reflexivity.
  - destruct (keqb k' k0); [reflexivity|exact IH].
Qed.

Lemma mset_absent k v m : mget k m = None -> mset k v m = m ++ [(k, v)].
Proof.
  induction m as [|[k0 v0] m IH]; simpl; [reflexivity|].
  destruct (keqb k k0); [discriminate|]. intros Hm. rewrite (IH Hm). reflexivity.
Qed.

Lemma mset_present k v m :
  is_Some (mget k m) -> mkeys (mset k v m) = mkeys m.
Proof.
  induction m as [|[k0 v0] m IH]; simpl.
  - intros [? ?]; discriminate.
  - destruct (keqb k k0); simpl; [reflexivity|].
    intros Hm. rewrite (IH Hm). reflexivity.
Qed.

Lemma mget_app_l k v m m' : mget k m = Some v -> mget k (m ++ m') = Some v.
Proof.
  induction m as [|[k0 v0] m IH]; simpl; [discriminate|].
  destruct (keqb k k0); auto.
Qed.

Lemma mget_app_r k m m' : mget k m = None -> mget k (m ++ m') = mget k m'.
Proof.
  induction m as [|[k0 v0] m IH]; simpl; [reflexivity|].
  destruct (keqb k k0); [discriminate|auto].
Qed.

Lemma mget_Some_elem k v m : mget k m = Some v -> (k, v) ∈ m.
Proof.
  induction m as [|[k0 v0] m IH]; simpl; [discriminate|].
  destruct (keqb_spec k k0) as [->|Hne].
  - intros [= ->]. left.
  - intros Hm. right. auto.
Qed.

Lemma mget_None_keys k m : mget k m = None <-> k ∉ mkeys m.
Proof.
  induction m as [|[k0 v0] m IH]; simpl.
  - split; [intros _; apply not_elem_of_nil|reflexivity].
  - rewrite not_elem_of_cons.
    destruct (keqb_spec k k0) as [->|Hne]; split.
    + discriminate.
    + intros [Hc _]. congruence.
    + intros Hm. split; [exact Hne|apply IH, Hm].
    + intros [_ Hm]. apply IH, Hm.
Qed.

Lemma elem_mget k v m : NoDup (mkeys m) -> (k, v) ∈ m -> mget k m = Some v.
Proof.
  induction m as [|[k0 v0] m IH]; simpl.
  - intros _ Hin. apply elem_of_nil in Hin as [].
  - intros Hnd Hin. apply NoDup_cons in Hnd as [Hk0 Hnd].
    apply elem_of_cons in Hin as [[= -> ->]|Hin].
    + rewrite keqb_refl. reflexivity.
    + destruct (keqb_spec k k0) as [->|Hne]; [|auto].
      exfalso. apply Hk0. apply list_elem_of_fmap. exists (k0, v). auto.
Qed.

Lemma mvalues_elem k v m : mget k m = Some v -> v ∈ mvalues m.
Proof.
  intros Hm. apply list_elem_of_fmap. exists (k, v).
  split; [reflexivity|apply mget_Some_elem, Hm].
Qed.

Lemma elem_mset k k' v v' m :
  (k', v') ∈ mset k v m -> (k', v') = (k, v) \/ (k', v') ∈ m.
Proof.
  induction m as [|[k0 v0] m IH]; simpl.
  - intros Hin. apply list_elem_of_singleton in Hin. auto.
  - rewrite elem_of_cons.
    destruct (keqb_spec k k0) as [->|Hne]; intros Hin;
      apply elem_of_cons in Hin as [Hin|Hin]; auto.
    destruct (IH Hin) as [?|?]; auto.
Qed.

Lemma shas_true k s : shas k s = true <-> k ∈ s.
Proof.
  induction s as [|k0 s IH]; simpl.
  - split; [discriminate|]. intros Hin. apply elem_of_nil in Hin as [].
  - rewrite elem_of_cons, orb_true_iff, IH.
    destruct (keqb_spec k k0); split; intros [?|?]; auto; congruence.
Qed.

Lemma shas_false k s : shas k s = false <-> k ∉ s.
Proof.
  rewrite <- shas_true. destruct (shas k s); split; congruence.
Qed.

Lemma elem_sadd k k' s : k' ∈ sadd k s <-> k' = k \/ k' ∈ s.
Proof.
  unfold sadd. destruct (shas k s) eqn:Hs.
  - apply shas_true in Hs. split; [auto|]. intros [->|?]; auto.
  - rewrite elem_of_app, list_elem_of_singleton. tauto.
Qed.
End ContainerFacts.

(** ** Counting *)

Lemma filter_length_le {A : Type} (f g : A -> bool) (l : list A) :
  (forall x, f x = true -> g x = true) ->
  length (List.filter f l) <= length (List.filter g l).
Proof.
  intros Hfg. induction l as [|x l IH]; simpl; [lia|].
  destruct (f x) eqn:Hf.
  - rewrite (Hfg x Hf). simpl. lia.
  - destruct (g x); simpl; lia.
Qed.

Lemma filter_length_lt {A : Type} (f g : A -> bool) (l : list A) (x : A) :
  (forall y, f y = true -> g y = true) ->
  x ∈ l -> f x = false -> g x = true ->
  length (List.filter f l) < length (List.filter g l).
Proof.
  intros Hfg Hin Hf Hg. induction l as [|y l IH]; [apply elem_of_nil in Hin as []|].
  simpl. apply elem_of_cons in Hin as [<-|Hin].
  - rewrite Hf, Hg. simpl. pose proof (filter_length_le f g l Hfg). lia.
  - specialize (IH Hin). destruct (f y) eqn:Hfy.
    + rewrite (Hfg y Hfy). simpl. lia.
    + destruct (g y); simpl; lia.
Qed.

(** ** Loops *)

Lemma forEach_app {A S : Type} (l1 l2 : list A) (body : S -> A -> result S) s :
  forEach (l1 ++ l2) body s = s' ← forEach l1 body s; forEach l2 body s'.
Proof.
  revert s. induction l1 as [|x l1 IH]; intros s; simpl; [reflexivity|].
  destruct (body s x); simpl; auto.
Qed.

(** A loop whose body keeps an invariant indexed by the elements done. *)
Lemma forEach_invariant {A S : Type} (Q : list A -> S -> Prop)
  (l : list A) (body : S -> A -> result S) (s : S) :
  Q [] s ->
  (forall done x s, Q done s ->
     (exists rest, l = done ++ x :: rest) ->
     exists s', body s x = Ok s' /\ Q (done ++ [x]) s') ->
  exists s', forEach l body s = Ok s' /\ Q l s'.
Proof.
  intros H0 Hstep.
  assert (Hgen : forall rest done s, l = done ++ rest -> Q done s ->
                 exists s', forEach rest body s = Ok s' /\ Q l s').
  { induction rest as [|x rest IH]; intros done s0 Hl HQ.
    - rewrite app_nil_r in Hl. subst done. exists s0. split; [reflexivity|exact HQ].
    - destruct (Hstep done x s0 HQ) as (s1 & Hb & HQ1); [eauto|].
      simpl. rewrite Hb. simpl.
      apply (IH (done ++ [x])); [|exact HQ1].
      rewrite <- app_assoc. exact Hl. }
  apply (Hgen l [] s); [reflexivity|exact H0].
Qed.

Lemma forEach_preserves {A S : Type} (P : S -> Prop) (l : list A)
  (body : S -> A -> result S) :
  (forall s x s', P s -> body s x = Ok s' -> P s') ->
  forall s s', P s -> forEach l body s = Ok s' -> P s'.
Proof.
  intros Hbody. induction l as [|x l IH]; intros s s' Hs; simpl.
  - intros [= <-]. exact Hs.
  - destruct (body s x) as [s1| |] eqn:Hb; simpl; [|discriminate..].
    apply IH. apply (Hbody s x s1 Hs Hb).
Qed.

(** ** Stores *)

Lemma node_lookup (h : list W.t) r w : h !! r = Some w -> node h r = w.
Proof. unfold node. intros ->. reflexivity. Qed.

Lemma node_update_eq (h : list W.t) r f :
  r < length h -> node (update h r f) r = f (node h r).
Proof.
  intros Hr. unfold node, update.
  destruct (lookup_lt_is_Some_2 h r Hr) as [w Hw].
  rewrite list_lookup_alter_eq, Hw. reflexivity.
Qed.

Lemma node_update_ne (h : list W.t) r r' f :
  r <> r' -> node (update h r f) r' = node h r'.
Proof.
  intros Hne. unfold node, update. rewrite list_lookup_alter_ne by exact Hne.
  reflexivity.
Qed.

Lemma lookup_update_ne (h : list W.t) r r' f :
  r <> r' -> update h r f !! r' = h !! r'.
Proof. intros Hne. unfold update. apply list_lookup_alter_ne, Hne. Qed.

Lemma length_update (h : list W.t) r f : length (update h r f) = length h.
Proof. unfold update. apply length_alter. Qed.

Lemma node_app_l (h h' : list W.t) r : r < length h -> node (h ++ h') r = node h r.
Proof. intros Hr. unfold node. rewrite lookup_app_l by exact Hr. reflexivity. Qed.

Lemma node_alloc_new (h : list W.t) w : node (h ++ [w]) (length h) = w.
Proof.
  unfold node. rewrite lookup_app_r by lia. rewrite Nat.sub_diag. reflexivity.
Qed.

Lemma node_update (h : list W.t) r r' f :
  node (update h r f) r' = node h r'
  \/ (r' = r /\ r < length h /\ node (update h r f) r' = f (node h r')).
Proof.
  destruct (decide (r = r')) as [<-|Hne].
  - destruct (decide (r < length h)) as [Hr|Hr].
    + right. split; [reflexivity|]. split; [exact Hr|apply node_update_eq, Hr].
    + left. unfold node, update. rewrite list_lookup_alter_eq.
      rewrite (lookup_ge_None_2 h r) by lia. reflexivity.
  - left. apply node_update_ne, Hne.
Qed.



(** ** Locators and idents *)

Lemma substringFrom_0 (s : string) : substringFrom 0 s = s.
Proof.
  unfold substringFrom. rewrite Nat.sub_0_r.
  induction s as [|c s IH]; simpl; [reflexivity|].
  f_equal. exact IH.
Qed.

Lemma substringFrom_S (k : nat) (c : ascii) (s : string) :
  substringFrom (S k) (String c s) = substringFrom k s.
Proof. reflexivity. Qed.

Lemma substringFrom_app (pre post : string) :
  substringFrom (String.length pre) (pre +:+ post) = post.
Proof.
  induction pre as [|c pre IH].
  - apply substringFrom_0.
  - change (substringFrom (S (String.length pre)) (String c (pre +:+ post)) = post).
    rewrite substringFrom_S. exact IH.
Qed.

Lemma index_hash_cons (c : ascii) (s : string) :
  String.index 0 "#" (String c s)
  = if Ascii.eqb "#" c then Some 0 else option_map S (String.index 0 "#" s).
Proof.
  cbn [String.index String.prefix].
  destruct (ascii_dec "#" c) as [<-|Hne].
  - destruct s; reflexivity.
  - apply Ascii.eqb_neq in Hne. rewrite Hne.
    destruct (String.index 0 "#" s); reflexivity.
Qed.

Lemma append_nil_l (s : string) : "" +:+ s = s.
Proof. reflexivity. Qed.

Lemma append_cons (c : ascii) (a b : string) :
  String c a +:+ b = String c (a +:+ b).
Proof. reflexivity. Qed.

Lemma append_assoc (a b c : string) : (a +:+ b) +:+ c = a +:+ (b +:+ c).
Proof.
  induction a as [|x a IH]; [reflexivity|].
  rewrite !append_cons. f_equal. exact IH.
Qed.

Lemma length_append (a b : string) :
  String.length (a +:+ b) = String.length a + String.length b.
Proof.
  induction a as [|x a IH]; [reflexivity|].
  rewrite append_cons. cbn [String.length]. rewrite IH. reflexivity.
Qed.

Lemma indexOf_hash_absent (s : string) :
  occurs "#" s = false -> indexOf "#" 0 s = None.
Proof.
  unfold indexOf. induction s as [|c s IH]; [reflexivity|].
  cbn [occurs]. intros Hocc. apply orb_false_iff in Hocc as [Hc Hs].
  rewrite index_hash_cons, Hc, (IH Hs). reflexivity.
Qed.

Lemma indexOf_hash_first (pre post : string) :
  occurs "#" pre = false ->
  indexOf "#" 0 (pre +:+ String "#" post) = Some (String.length pre).
Proof.
  unfold indexOf. induction pre as [|c pre IH].
  - intros _. rewrite append_nil_l, index_hash_cons. reflexivity.
  - cbn [occurs]. intros Hocc. apply orb_false_iff in Hocc as [Hc Hs].
    rewrite append_cons, index_hash_cons, Hc, (IH Hs). reflexivity.
Qed.

(** C7: a work node built from a name and a reference has the locator
    [name@reference]; its ident is [name@] followed by what comes after the
    first ['#'] of the reference when there is one, and [name@reference]
    otherwise. *)
Theorem workNode_locator_ident (t : HoisterTree.t) :
  let name := HoisterTree.name t in
  let reference := HoisterTree.reference t in
  W.locator (newWorkNode t) = name +:+ "@" +:+ reference
  /\ (forall virtual real,
        reference = virtual +:+ "#" +:+ real ->
        occurs "#" virtual = false ->
        W.ident (newWorkNode t) = name +:+ "@" +:+ real)
  /\ (occurs "#" reference = false ->
      W.ident (newWorkNode t) = name +:+ "@" +:+ reference).
Proof.
  intros name reference. split; [reflexivity|]. split.
  - intros virtual real Href Hvirtual. simpl. unfold makeIdent.
    fold reference. rewrite Href.
    change (virtual +:+ "#" +:+ real) with (virtual +:+ String "#" real).
    rewrite (indexOf_hash_first _ _ Hvirtual).
    replace (virtual +:+ String "#" real) with ((virtual +:+ "#") +:+ real)
      by (rewrite append_assoc; reflexivity).
    replace (String.length virtual + 1) with (String.length (virtual +:+ "#"))
      by apply length_append.
    rewrite substringFrom_app. reflexivity.
  - intros Hfree. simpl. unfold makeIdent. fold reference.
    rewrite (indexOf_hash_absent _ Hfree). reflexivity.
Qed.

Lemma workNode_locator_ident_witness :
  let t := HoisterTree.mk "lodash" "virtual:abc#npm:4.17.21" [] [] in
  W.locator (newWorkNode t) = "lodash@virtual:abc#npm:4.17.21"
  /\ W.ident (newWorkNode t) = "lodash@npm:4.17.21"
  /\ W.ident (newWorkNode (HoisterTree.mk "lodash" "npm:4.17.21" [] []))
     = "lodash@npm:4.17.21".
Proof.
  split; [|split].
  - exact (proj1 (workNode_locator_ident
                    (HoisterTree.mk "lodash" "virtual:abc#npm:4.17.21" [] []))).
  - apply (proj1 (proj2 (workNode_locator_ident
                    (HoisterTree.mk "lodash" "virtual:abc#npm:4.17.21" [] [])))
             "virtual:abc" "npm:4.17.21"); reflexivity.
  - apply (proj2 (proj2 (workNode_locator_ident
                    (HoisterTree.mk "lodash" "npm:4.17.21" [] [])))).
    reflexivity.
Defined.


(** ** The debug level *)

(** C6: a debug level of 0 given by the caller is not used: the level is
    taken from the environment variable (5 when the variable is ["5"], which
    the engine converts to 5), or is -1 when the variable is not set, as if
    the caller had given none. *)
Theorem debugLevel_zero_not_used (toNumber : string -> number) :
  toNumber "5" = Num 5 ->
  effectiveDebugLevel toNumber {| check := None; debugLevel := Some (Num 0) |}
                      (Some "5")
  = Num 5
  /\ effectiveDebugLevel toNumber {| check := None; debugLevel := Some (Num 0) |}
                         None
     = Num (-1)
  /\ forall c env,
       effectiveDebugLevel toNumber {| check := c; debugLevel := Some (Num 0) |} env
       = effectiveDebugLevel toNumber {| check := c; debugLevel := None |} env.
Proof. intros Hfive. split; [exact Hfive|]. split; reflexivity. Qed.

Lemma debugLevel_zero_not_used_witness :
  effectiveDebugLevel sampleNumber {| check := None; debugLevel := Some (Num 0) |}
                      (Some "5")
  = Num 5
  /\ effectiveDebugLevel sampleNumber {| check := None; debugLevel := Some (Num 0) |}
                         None
     = Num (-1).
Proof.
  destruct (debugLevel_zero_not_used sampleNumber eq_refl) as (Hfive & Hunset & _).
  split; [exact Hfive|exact Hunset].
Defined.

(** ** The shrinker at the root *)

(** C10: the dependencies of the root are projected without a look at the
    root's peer names: [P], which the root takes as a peer dependency and
    which nothing else depends on, is a child of the output root. *)
Theorem shrinkTree_keeps_root_peer (toNumber : string -> number) (k : nat) :
  exists st out,
    hoist toNumber (3 + k) None 0 defaultOptions rootPeer = Ok (st, (out, 0))
    /\ HoisterTree.peerNames (input rootPeer 0) = ["P"]
    /\ HoisterResult.dependencies (rnode out 0) = [1]
    /\ HoisterResult.name (rnode out 1) = "P".
Proof. do 2 eexists. split; [vm_compute; reflexivity|]. repeat split. Qed.


(** ** A cycle that no promotion breaks *)

Lemma hoistTo_unfold tree am o fuel rootNode panc seen h path :
  hoistTo tree am o (S fuel) rootNode panc seen (h, path)
  = if shas rootNode seen then Ok (h, path)
    else
      let ancestorDependencies := overlay h rootNode panc in
      '(h, _, ancestorDependencies) ←
        hoistLoop tree am o fuel rootNode path
                  (h, mkCloneTree rootNode [], ancestorDependencies);
      hoistDependencies tree am o fuel rootNode ancestorDependencies 0 (h, path).
Proof. reflexivity. Qed.

Lemma hoistDependencies_unfold tree am o fuel rootNode anc k h path :
  hoistDependencies tree am o (S fuel) rootNode anc k (h, path)
  = match mvalues (W.dependencies (node h rootNode)) !! k with
    | None => Ok (h, path)
    | Some dependency =>
        let rootNodePath := sadd dependency path in
        '(h, rootNodePath) ←
          (if negb (isPeer h rootNode dependency)
           then hoistTo tree am o fuel dependency anc [] (h, rootNodePath)
           else Ok (h, rootNodePath));
        hoistDependencies tree am o fuel rootNode anc (S k)
                          (h, sdelete dependency rootNodePath)
    end.
Proof. reflexivity. Qed.

Lemma cycle_loop_quiet fuel rootNode path anc :
  rootNode < 4 ->
  hoistLoop 0 cycleAncestors quiet (S fuel) rootNode path
            (cycleHeap, mkCloneTree rootNode [], anc)
  = Ok (cycleHeap, mkCloneTree rootNode [], anc).
Proof.
  intros Hr.
  destruct rootNode as [|[|[|[|r]]]]; [| | | |lia]; lazy; reflexivity.
Qed.

Lemma cycle_leaf fuel r anc path :
  r = 1 \/ r = 3 ->
  hoistTo 0 cycleAncestors quiet fuel r anc [] (cycleHeap, path) = OutOfFuel
  \/ hoistTo 0 cycleAncestors quiet fuel r anc [] (cycleHeap, path)
     = Ok (cycleHeap, path).
Proof.
  intros Hr. destruct fuel as [|[|fuel]]; [left; reflexivity| |].
  - left. destruct Hr as [-> | ->]; reflexivity.
  - right. rewrite hoistTo_unfold. cbn [shas].
    cbv zeta. rewrite cycle_loop_quiet by lia.
    cbn [mbind result_bind]. rewrite hoistDependencies_unfold.
    destruct Hr as [-> | ->]; reflexivity.
Qed.

(** One step of the loop over the dependencies of [root]: the [k]-th one
    is [dep], and it is not a peer dependency. *)
Ltac next_dependency root k dep :=
  rewrite hoistDependencies_unfold;
  change (mvalues (W.dependencies (node cycleHeap root)) !! k) with (Some dep);
  cbv beta iota zeta;
  change (negb (isPeer cycleHeap root dep)) with true;
  cbv iota.

Ltac enter_root :=
  rewrite hoistTo_unfold; cbn [shas]; cbv zeta;
  rewrite cycle_loop_quiet by lia; cbn [mbind result_bind].

Lemma cycle_never_returns fuel :
  forall anc path,
    hoistTo 0 cycleAncestors quiet fuel 0 anc [] (cycleHeap, path) = OutOfFuel
    /\ hoistTo 0 cycleAncestors quiet fuel 2 anc [] (cycleHeap, path) = OutOfFuel.
Proof.
  induction fuel as [fuel IH] using lt_wf_ind. intros anc path.
  destruct fuel as [|[|[|[|fuel]]]];
    [split; reflexivity| split; reflexivity| | |].
  - split; enter_root; rewrite hoistDependencies_unfold; reflexivity.
  - split; enter_root; rewrite hoistDependencies_unfold; reflexivity.
  - split.
    + enter_root. next_dependency 0 0 1.
      destruct (cycle_leaf (S (S fuel)) 1 (overlay cycleHeap 0 anc)
                  (sadd 1 path) (or_introl eq_refl)) as [-> | ->];
        [reflexivity|].
      cbn [mbind result_bind]. next_dependency 0 1 2.
      rewrite (proj2 (IH (S fuel) ltac:(lia) _ _)). reflexivity.
    + enter_root. next_dependency 2 0 3.
      destruct (cycle_leaf (S (S fuel)) 3 (overlay cycleHeap 2 anc)
                  (sadd 3 path) (or_intror eq_refl)) as [-> | ->];
        [reflexivity|].
      cbn [mbind result_bind]. next_dependency 2 1 0.
      rewrite (proj1 (IH (S fuel) ltac:(lia) _ _)). reflexivity.
Qed.

(** C1: on [twoVersionCycle] the call does not return, whatever the number
    of nested calls allowed: no promotion is possible at [.@1] nor at
    [A@1], and each is reached again from the other with an empty set of
    seen roots. *)
Theorem hoist_cycle_never_returns (toNumber : string -> number) (fuel : nat) :
  hoist toNumber fuel None 0 defaultOptions twoVersionCycle = OutOfFuel.
Proof.
  unfold hoist.
  change (cloneTree 0 twoVersionCycle)
    with (Ok (0, ([(0, 0); (1, 1); (2, 2); (3, 3)],
                  mkStore (inputs twoVersionCycle) cycleHeap))
          : result (ref * CloneState)).
  cbn [mbind result_bind work].
  change (buildAncestorMap cycleHeap 0) with (Ok cycleAncestors : result AncestorMap).
  cbn [mbind result_bind].
  change (internalOptions toNumber defaultOptions None) with quiet.
  cbv zeta.
  rewrite (proj1 (cycle_never_returns fuel _ _)). reflexivity.
Qed.

(** ** cloneTree *)


Lemma link_name name w x : W.name (link name w x) = W.name x.
Proof. reflexivity. Qed.

Lemma linkAll_name st0 seen ds x : W.name (linkAll st0 seen ds x) = W.name x.
Proof.
  revert x. induction ds as [|d ds IH]; intros x; simpl; [reflexivity|].
  unfold linkAll in *. simpl. rewrite IH. destruct (mget d seen); reflexivity.
Qed.

Lemma linkAll_app st0 seen ds ds' x :
  linkAll st0 seen (ds ++ ds') x = linkAll st0 seen ds' (linkAll st0 seen ds x).
Proof. unfold linkAll. apply fold_left_app. Qed.

Lemma linkAll_extend st0 seen added ds x :
  Forall (fun d => is_Some (mget d seen)) ds ->
  linkAll st0 (seen ++ added) ds x = linkAll st0 seen ds x.
Proof.
  revert x. induction ds as [|d ds IH]; intros x Hds; [reflexivity|].
  apply Forall_cons in Hds as [[w Hw] Hds].
  unfold linkAll in *. simpl. rewrite Hw, (mget_app_l _ _ _ _ Hw). apply IH, Hds.
Qed.

Lemma linkChild_length p w (h : list W.t) : length (linkChild p w h) = length h.
Proof. unfold linkChild. rewrite !length_update. reflexivity. Qed.

Lemma linkChild_other p w (h : list W.t) r :
  r <> p -> linkChild p w h !! r = h !! r.
Proof.
  intros Hne. unfold linkChild.
  rewrite !lookup_update_ne by congruence. reflexivity.
Qed.

Lemma linkChild_node p w (h : list W.t) :
  p < length h ->
  node (linkChild p w h) p = link (W.name (node h w)) w (node h p).
Proof.
  intros Hp. unfold linkChild.
  rewrite node_update_eq by (rewrite length_update; exact Hp).
  rewrite node_update_eq by exact Hp. reflexivity.
Qed.

Lemma node_ext (h h' : list W.t) r : h' !! r = h !! r -> node h' r = node h r.
Proof. unfold node. intros ->. reflexivity. Qed.

Lemma mhas_app_l {V : Type} (i : nat) (seen added : list (nat * V)) :
  mhas i seen = true -> mhas i (seen ++ added) = true.
Proof.
  unfold mhas. destruct (mget i seen) as [w|] eqn:Hi; [|discriminate].
  rewrite (mget_app_l _ _ _ _ Hi). reflexivity.
Qed.

Lemma unseenInputs_extend st0 seen added :
  unseenInputs st0 (seen ++ added) <= unseenInputs st0 seen.
Proof.
  apply filter_length_le. intros i Hi.
  destruct (mhas i seen) eqn:Hs; [|reflexivity].
  rewrite (mhas_app_l _ _ _ Hs) in Hi. discriminate.
Qed.

Lemma unseenInputs_new st0 seen n w :
  n < length (inputs st0) -> mget n seen = None ->
  unseenInputs st0 (seen ++ [(n, w)]) < unseenInputs st0 seen.
Proof.
  intros Hn Hseen. apply (filter_length_lt _ _ _ n).
  - intros i Hi. destruct (mhas i seen) eqn:Hs; [|reflexivity].
    rewrite (mhas_app_l _ _ _ Hs) in Hi. discriminate.
  - apply elem_of_seq. lia.
  - unfold mhas. rewrite (mget_app_r _ _ _ Hseen). simpl.
    rewrite Nat.eqb_refl. reflexivity.
  - unfold mhas. rewrite Hseen. reflexivity.
Qed.

Lemma Forall_seen_extend {V : Type} (seen added : list (nat * V)) (ds : list nat) :
  Forall (fun d => is_Some (mget d seen)) ds ->
  Forall (fun d => is_Some (mget d (seen ++ added))) ds.
Proof.
  intros Hds. eapply Forall_impl; [exact Hds|].
  intros d [w Hw]. exists w. apply mget_app_l, Hw.
Qed.

Lemma finished_extend st0 seen added st st' n w :
  finished st0 seen st n w ->
  work st' !! w = work st !! w ->
  finished st0 (seen ++ added) st' n w.
Proof.
  intros [Hnode Hclosed] Hsame. split.
  - rewrite (node_ext _ _ _ Hsame), Hnode. unfold cloneOf.
    symmetry. apply linkAll_extend, Hclosed.
  - apply Forall_seen_extend, Hclosed.
Qed.

(** The work nodes of [added] come after those of [seen]. *)
Lemma added_values_fresh base (seen added : list (nat * nat)) n w :
  mvalues (seen ++ added) = seq base (length (seen ++ added)) ->
  (n, w) ∈ added ->
  base + length seen <= w < base + length (seen ++ added).
Proof.
  intros Hvals Hin. unfold mvalues in Hvals.
  rewrite map_app, length_app, seq_app in Hvals.
  apply app_inj_1 in Hvals as [_ Hadded];
    [|rewrite length_map, length_seq; reflexivity].
  assert (Hw : w ∈ seq (base + length seen) (length added)).
  { rewrite <- Hadded. apply list_elem_of_fmap. exists (n, w). auto. }
  apply elem_of_seq in Hw. rewrite length_app. lia.
Qed.

Lemma seen_values_range st0 seen st n w :
  CloneInv st0 seen st -> mget n seen = Some w ->
  length (work st0) <= w < length (work st).
Proof.
  intros Hinv Hw. pose proof (mvalues_elem _ _ _ Hw) as Hin.
  rewrite (ci_values _ _ _ Hinv) in Hin. apply elem_of_seq in Hin.
  rewrite (ci_length _ _ _ Hinv). lia.
Qed.

Lemma seen_name st0 seen st n w :
  CloneInv st0 seen st -> mget n seen = Some w ->
  W.name (node (work st) w) = HoisterTree.name (input st0 n).
Proof.
  intros Hinv Hw. destruct (ci_partial _ _ _ Hinv n w Hw) as (ds & _ & ->).
  apply linkAll_name.
Qed.

Lemma cloneInv_length_mono st0 seen added st st' :
  CloneInv st0 seen st -> CloneInv st0 (seen ++ added) st' ->
  length (work st) <= length (work st').
Proof.
  intros H1 H2. rewrite (ci_length _ _ _ H1), (ci_length _ _ _ H2), length_app. lia.
Qed.

(** The loop over the dependencies of an input node, given that the calls
    it makes behave. *)
Lemma clone_loop st0 fuel (IH : cloneSpec st0 fuel) :
  forall ds w seen st,
    CloneInv st0 seen st ->
    length (work st0) <= w < length (work st) ->
    (ds <> [] -> unseenInputs st0 seen < fuel) ->
    exists added st',
      forEach ds (fun s dep => cloneAddNode fuel dep w s) (seen, st)
      = Ok (seen ++ added, st')
      /\ CloneInv st0 (seen ++ added) st'
      /\ node (work st') w = linkAll st0 (seen ++ added) ds (node (work st) w)
      /\ Forall (fun d => is_Some (mget d (seen ++ added))) ds
      /\ (forall r, r < length (work st) -> r <> w -> work st' !! r = work st !! r)
      /\ (forall n' w', (n', w') ∈ added ->
                        finished st0 (seen ++ added) st' n' w').
Proof.
  induction ds as [|d ds IHds]; intros w seen st Hinv Hw Hfuel.
  - exists [], st. rewrite app_nil_r.
    split; [reflexivity|]. split; [exact Hinv|]. split; [reflexivity|].
    split; [constructor|]. split; [reflexivity|].
    intros n' w' Hin. apply elem_of_nil in Hin as [].
  - destruct (IH d w seen st Hinv Hw (Hfuel ltac:(discriminate)))
      as (added1 & st1 & Hrun1 & Hinv1 & (wd & Hwd & Hnode1) & Hframe1 & Hfin1).
    pose proof (cloneInv_length_mono _ _ _ _ _ Hinv Hinv1) as Hlen1.
    assert (Hfuel1 : ds <> [] -> unseenInputs st0 (seen ++ added1) < fuel).
    { intros _. pose proof (unseenInputs_extend st0 seen added1).
      specialize (Hfuel ltac:(discriminate)). lia. }
    destruct (IHds w (seen ++ added1) st1 Hinv1 ltac:(lia) Hfuel1)
      as (added2 & st2 & Hrun2 & Hinv2 & Hnode2 & Hclosed2 & Hframe2 & Hfin2).
    exists (added1 ++ added2), st2. rewrite app_assoc.
    split; [|split; [|split; [|split; [|split]]]].
    + simpl. rewrite Hrun1. simpl. exact Hrun2.
    + exact Hinv2.
    + rewrite Hnode2, Hnode1. unfold linkAll at 2. simpl.
      rewrite (mget_app_l _ _ _ _ Hwd). reflexivity.
    + apply Forall_cons. split; [|exact Hclosed2].
      exists wd. apply mget_app_l, Hwd.
    + intros r Hr Hne. rewrite Hframe2 by lia. apply Hframe1; assumption.
    + intros n' w' Hin. apply elem_of_app in Hin as [Hin|Hin]; [|auto].
      apply finished_extend with (st := st1); [auto|].
      pose proof (added_values_fresh _ _ _ _ _ (ci_values _ _ _ Hinv1) Hin) as Hr.
      rewrite <- (ci_length _ _ _ Hinv), <- (ci_length _ _ _ Hinv1) in Hr.
      apply Hframe2; lia.
Qed.

Lemma input_dependencies_valid st0 n :
  HoisterTree.dependencies (input st0 n) <> [] -> n < length (inputs st0).
Proof.
  intros Hds. destruct (decide (n < length (inputs st0))) as [|Hge]; [assumption|].
  exfalso. apply Hds. unfold input.
  rewrite (lookup_ge_None_2 (inputs st0) n) by lia. reflexivity.
Qed.

Lemma input_same st0 st n : inputs st = inputs st0 -> input st n = input st0 n.
Proof. unfold input. intros ->. reflexivity. Qed.

Lemma cloneAddNode_unfold fuel n p seenNodes st :
  cloneAddNode (S fuel) n p (seenNodes, st)
  = match mget n seenNodes with
    | Some w => Ok (seenNodes, mkStore (inputs st) (linkChild p w (work st)))
    | None =>
        let w := length (work st) in
        forEach (HoisterTree.dependencies (input st n))
          (fun s dep => cloneAddNode fuel dep w s)
          (mset n w seenNodes,
           mkStore (inputs st)
                   (linkChild p w (work st ++ [newWorkNode (input st n)])))
    end.
Proof. simpl. destruct (mget n seenNodes); reflexivity. Qed.

(** Linking a seen node into an old parent keeps the invariant. *)
Lemma cloneInv_link st0 seen st h n w p :
  CloneInv st0 seen st ->
  inputs st = inputs st0 ->
  mget n seen = Some w ->
  length (work st0) <= p < length h ->
  length h = length (work st0) + length seen ->
  (forall r, r < length (work st0) -> h !! r = work st0 !! r) ->
  (forall n' w', mget n' seen = Some w' ->
     exists ds, Forall (fun d => is_Some (mget d seen)) ds
                /\ node h w' = linkAll st0 seen ds (newWorkNode (input st0 n'))) ->
  W.name (node h w) = HoisterTree.name (input st0 n) ->
  CloneInv st0 seen (mkStore (inputs st) (linkChild p w h)).
Proof.
  intros Hinv Hinp Hw Hp Hlen Hold Hpartial Hname.
  constructor; simpl.
  - exact Hinp.
  - apply (ci_keys _ _ _ Hinv).
  - apply (ci_values _ _ _ Hinv).
  - rewrite linkChild_length. exact Hlen.
  - intros r Hr. rewrite linkChild_other by lia. apply Hold, Hr.
  - intros n' w' Hw'. destruct (Hpartial n' w' Hw') as (ds & Hds & Hnode).
    destruct (decide (w' = p)) as [->|Hne].
    + exists (ds ++ [n]). split.
      * apply Forall_app. split; [exact Hds|].
        apply Forall_singleton. exists w. exact Hw.
      * rewrite linkChild_node by lia. rewrite Hnode, Hname, linkAll_app.
        unfold linkAll at 1. simpl. rewrite Hw. reflexivity.
    + exists ds. split; [exact Hds|].
      rewrite (node_ext h) by (apply linkChild_other; exact Hne). exact Hnode.
Qed.

Lemma cloneAddNode_spec st0 fuel : cloneSpec st0 fuel.
Proof.
  induction fuel as [|fuel IH]; intros n p seen st Hinv Hp Hfuel; [lia|].
  rewrite cloneAddNode_unfold. destruct (mget n seen) as [w|] eqn:Hseen.
  - (* a later visit *)
    exists [], (mkStore (inputs st) (linkChild p w (work st))).
    unfold clonePost. rewrite app_nil_r. split; [reflexivity|].
    pose proof (seen_name _ _ _ _ _ Hinv Hseen) as Hname.
    split; [|split; [|split]].
    + apply (cloneInv_link st0 seen st (work st) n w p); auto.
      * apply (ci_inputs _ _ _ Hinv).
      * apply (ci_length _ _ _ Hinv).
      * apply (ci_old _ _ _ Hinv).
      * apply (ci_partial _ _ _ Hinv).
    + exists w. split; [exact Hseen|]. simpl.
      rewrite linkChild_node by lia. rewrite Hname. reflexivity.
    + intros r Hr Hne. simpl. apply linkChild_other, Hne.
    + intros n' w' Hin. apply elem_of_nil in Hin as [].
  - (* the first visit *)
    cbv zeta. set (w := length (work st)).
    rewrite (input_same st0 st n (ci_inputs _ _ _ Hinv)).
    set (h1 := work st ++ [newWorkNode (input st0 n)]).
    rewrite (mset_absent _ _ _ Hseen).
    assert (Hw1 : mget n (seen ++ [(n, w)]) = Some w).
    { rewrite (mget_app_r _ _ _ Hseen). simpl. rewrite Nat.eqb_refl. reflexivity. }
    assert (Hlen1 : length h1 = length (work st0) + length (seen ++ [(n, w)])).
    { unfold h1. rewrite !length_app, (ci_length _ _ _ Hinv). simpl. lia. }
    assert (Hnew : node h1 w = newWorkNode (input st0 n)).
    { apply node_alloc_new. }
    assert (Hinv1 : CloneInv st0 (seen ++ [(n, w)])
                      (mkStore (inputs st) (linkChild p w h1))).
    { assert (Hinv0 : CloneInv st0 (seen ++ [(n, w)]) (mkStore (inputs st) h1)).
      { constructor; simpl.
        - apply (ci_inputs _ _ _ Hinv).
        - unfold mkeys. rewrite map_app. simpl. apply NoDup_app.
          split; [apply (ci_keys _ _ _ Hinv)|]. split; [|apply NoDup_singleton].
          intros k Hk Hk'. apply list_elem_of_singleton in Hk'. subst k.
          apply mget_None_keys in Hseen. contradiction.
        - unfold mvalues. rewrite map_app, length_app. simpl.
          rewrite seq_app. f_equal; [apply (ci_values _ _ _ Hinv)|].
          simpl. unfold w. rewrite (ci_length _ _ _ Hinv). reflexivity.
        - exact Hlen1.
        - intros r Hr. unfold h1. rewrite lookup_app_l
            by (rewrite (ci_length _ _ _ Hinv); lia).
          apply (ci_old _ _ _ Hinv), Hr.
        - intros n' w' Hw'. destruct (decide (n' = n)) as [->|Hne].
          + rewrite Hw1 in Hw'. injection Hw' as <-.
            exists []. split; [constructor|]. exact Hnew.
          + assert (Hold' : mget n' seen = Some w').
            { destruct (mget n' seen) as [v|] eqn:Hn'.
              - rewrite (mget_app_l _ _ _ _ Hn') in Hw'. exact Hw'.
              - rewrite (mget_app_r _ _ _ Hn') in Hw'. simpl in Hw'.
                rewrite (proj2 (Nat.eqb_neq n' n) Hne) in Hw'. discriminate. }
            destruct (ci_partial _ _ _ Hinv n' w' Hold') as (ds & Hds & Hnode).
            exists ds. split; [apply Forall_seen_extend, Hds|].
            rewrite linkAll_extend by exact Hds. rewrite <- Hnode.
            apply node_app_l. apply (seen_values_range _ _ _ _ _ Hinv Hold'). }
      apply (cloneInv_link st0 _ (mkStore (inputs st) h1) h1 n w p); auto.
      - apply (ci_inputs _ _ _ Hinv).
      - unfold h1. rewrite length_app. simpl. lia.
      - apply (ci_old _ _ _ Hinv0).
      - apply (ci_partial _ _ _ Hinv0).
      - rewrite Hnew. reflexivity. }
    assert (Hwrange : length (work st0) <= w
                      < length (work (mkStore (inputs st) (linkChild p w h1)))).
    { simpl. rewrite linkChild_length. unfold h1, w.
      rewrite length_app, (ci_length _ _ _ Hinv). simpl. lia. }
    destruct (clone_loop st0 fuel IH (HoisterTree.dependencies (input st0 n)) w
                _ _ Hinv1 Hwrange)
      as (added & st' & Hrun & Hinv' & Hnode' & Hclosed & Hframe & Hfin).
    { intros Hds. apply input_dependencies_valid in Hds.
      pose proof (unseenInputs_new st0 seen n w Hds Hseen). lia. }
    exists ((n, w) :: added), st'. unfold clonePost.
    replace (seen ++ (n, w) :: added) with ((seen ++ [(n, w)]) ++ added)
      by (rewrite <- app_assoc; reflexivity).
    split; [exact Hrun|]. simpl in Hnode', Hframe.
    assert (Hpw : p <> w) by (unfold w; lia).
    split; [exact Hinv'|]. split; [|split].
    + exists w. split; [apply mget_app_l, Hw1|].
      rewrite (node_ext (linkChild p w h1))
        by (apply Hframe; [rewrite linkChild_length; unfold h1;
                           rewrite length_app; simpl; lia|exact Hpw]).
      rewrite linkChild_node by (unfold h1; rewrite length_app; simpl; lia).
      rewrite Hnew. simpl. f_equal. apply node_app_l. lia.
    + intros r Hr Hne. rewrite Hframe.
      * rewrite linkChild_other by exact Hne. unfold h1. apply lookup_app_l, Hr.
      * rewrite linkChild_length. unfold h1. rewrite length_app. simpl. lia.
      * unfold w. lia.
    + intros n' w' Hin. apply elem_of_cons in Hin as [[= -> ->]|Hin]; [|auto].
      split; [|exact Hclosed].
      rewrite Hnode'. rewrite (node_ext h1) by (apply linkChild_other; lia).
      rewrite Hnew. reflexivity.
Qed.

Lemma unseenInputs_bound st0 seen : unseenInputs st0 seen <= length (inputs st0).
Proof.
  unfold unseenInputs.
  assert (Hle : forall l : list nat,
            length (List.filter (fun i => negb (mhas i seen)) l) <= length l).
  { induction l as [|i l IH]; simpl; [lia|].
    destruct (negb (mhas i seen)); simpl; lia. }
  etransitivity; [apply Hle|]. rewrite length_seq. reflexivity.
Qed.

Lemma cloneTree_spec (tree : nat) (st : Store) :
  exists seenNodes st',
    cloneTree tree st = Ok (length (work st), (seenNodes, st'))
    /\ CloneInv st seenNodes st'
    /\ mget tree seenNodes = Some (length (work st))
    /\ forall n w, mget n seenNodes = Some w -> finished st seenNodes st' n w.
Proof.
  unfold cloneTree, alloc.
  set (base := length (work st)).
  set (h1 := work st ++ [newWorkNode (input st tree)]).
  assert (Hinv1 : CloneInv st [(tree, base)] (mkStore (inputs st) h1)).
  { constructor; simpl.
    - reflexivity.
    - apply NoDup_singleton.
    - reflexivity.
    - unfold h1. rewrite length_app. reflexivity.
    - intros r Hr. unfold h1. apply lookup_app_l, Hr.
    - intros n w. destruct (Nat.eqb_spec n tree) as [->|Hne]; [|discriminate].
      intros [= <-]. exists []. split; [constructor|]. apply node_alloc_new. }
  destruct (clone_loop st (cloneFuel st) (cloneAddNode_spec st (cloneFuel st))
              (HoisterTree.dependencies (input st tree)) base
              [(tree, base)] (mkStore (inputs st) h1) Hinv1)
    as (added & st' & Hrun & Hinv' & Hnode' & Hclosed & Hframe & Hfin).
  { simpl. unfold h1. rewrite length_app. simpl. unfold base. lia. }
  { intros _. pose proof (unseenInputs_bound st [(tree, base)]).
    unfold cloneFuel. lia. }
  exists ([(tree, base)] ++ added), st'.
  split; [rewrite Hrun; reflexivity|]. split; [exact Hinv'|].
  assert (Htree : mget tree ([(tree, base)] ++ added) = Some base).
  { simpl. rewrite Nat.eqb_refl. reflexivity. }
  split; [exact Htree|].
  intros n w Hw. apply mget_Some_elem in Hw.
  apply elem_of_app in Hw as [Hw|Hw]; [|auto].
  apply list_elem_of_singleton in Hw. injection Hw as -> ->.
  split; [|exact Hclosed].
  rewrite Hnode'. simpl. unfold h1. rewrite node_alloc_new. reflexivity.
Qed.

Lemma linkAll_references st0 seen ds x :
  W.references (linkAll st0 seen ds x) = W.references x.
Proof.
  revert x. induction ds as [|d ds IH]; intros x; [reflexivity|].
  unfold linkAll in *. simpl. rewrite IH. destruct (mget d seen); reflexivity.
Qed.

Lemma linkAll_dependencies st0 seen ds x :
  W.dependencies x = W.originalDependencies x ->
  W.dependencies (linkAll st0 seen ds x)
  = W.originalDependencies (linkAll st0 seen ds x).
Proof.
  revert x. induction ds as [|d ds IH]; intros x Hx; [exact Hx|].
  unfold linkAll in *. simpl. apply IH.
  destruct (mget d seen); [|exact Hx]. simpl. rewrite Hx. reflexivity.
Qed.

(** C8: [cloneTree] returns, and gives each input node it meets exactly
    one work node: [seenNodes] has no key twice, its values are the work
    nodes allocated by the call, one after the other, the root's first.
    The work node of an input node [n] has the single reference of [n],
    the same entries in [dependencies] and [originalDependencies], and one
    entry per dependency of [n], under the dependency's name, holding the
    work node that [seenNodes] gives to that dependency, whichever path led
    to it. *)
Theorem cloneTree_one_workNode_per_input (tree : nat) (st : Store) :
  exists seenNodes st',
    cloneTree tree st = Ok (length (work st), (seenNodes, st'))
    /\ mget tree seenNodes = Some (length (work st))
    /\ NoDup (mkeys seenNodes)
    /\ mvalues seenNodes = seq (length (work st)) (length seenNodes)
    /\ length (work st') = length (work st) + length seenNodes
    /\ forall n w, mget n seenNodes = Some w ->
         node (work st') w = cloneOf st seenNodes n
         /\ W.references (node (work st') w) = [HoisterTree.reference (input st n)]
         /\ W.dependencies (node (work st') w)
            = W.originalDependencies (node (work st') w)
         /\ Forall (fun d => is_Some (mget d seenNodes))
                   (HoisterTree.dependencies (input st n)).
Proof.
  destruct (cloneTree_spec tree st) as (seenNodes & st' & Hrun & Hinv & Htree & Hfin).
  exists seenNodes, st'. split; [exact Hrun|]. split; [exact Htree|].
  split; [apply (ci_keys _ _ _ Hinv)|]. split; [apply (ci_values _ _ _ Hinv)|].
  split; [apply (ci_length _ _ _ Hinv)|].
  intros n w Hw. destruct (Hfin n w Hw) as [Hnode Hclosed].
  split; [exact Hnode|]. rewrite Hnode. unfold cloneOf.
  split; [apply linkAll_references|]. split; [|exact Hclosed].
  apply linkAll_dependencies. reflexivity.
Qed.

(** C5: when [hoist] returns, the caller's graph is as it was before the
    call: every input node has the same name, reference, dependencies and
    peer names. *)
Theorem hoist_preserves_input toNumber fuel env tree opts st st' out :
  hoist toNumber fuel env tree opts st = Ok (st', out) ->
  inputs st' = inputs st.
Proof.
  unfold hoist.
  destruct (cloneTree_spec tree st) as (seenNodes & st1 & -> & Hinv & _).
  cbn [mbind result_bind].
  destruct (buildAncestorMap (work st1) (length (work st))) as [am| |];
    cbn [mbind result_bind]; [|discriminate..].
  destruct (hoistTo _ _ _ _ _ _ _ _) as [[h path]| |];
    cbn [mbind result_bind]; [|discriminate..].
  destruct (if geNumber _ 1 then _ else _) as [[]| |];
    cbn [mbind result_bind]; [|discriminate..].
  destruct (shrinkTree fuel h (length (work st))) as [o| |];
    cbn [mbind result_bind]; [|discriminate..].
  intros [= <- _]. simpl. apply (ci_inputs _ _ _ Hinv).
Qed.

Lemma hoist_preserves_input_witness :
  exists st' out,
    hoist sampleNumber 8 None 0 defaultOptions equalWeights = Ok (st', out)
    /\ inputs st' = inputs equalWeights.
Proof.
  eexists _, _. split.
  - vm_compute. reflexivity.
  - eapply (hoist_preserves_input sampleNumber 8 None 0 defaultOptions equalWeights).
    vm_compute. reflexivity.
Defined.

(** ** Candidates and the root *)

Lemma sameLabel_update (h : list W.t) r r' f :
  (forall w, sameLabel (f w) w) ->
  sameLabel (node (update h r f) r') (node h r').
Proof.
  intros Hf. destruct (node_update h r r' f) as [->|(_ & _ & ->)].
  - split; reflexivity.
  - apply Hf.
Qed.

Lemma sameLabel_trans a b c : sameLabel a b -> sameLabel b c -> sameLabel a c.
Proof. intros [? ?] [? ?]. split; congruence. Qed.

Lemma compatibleIdent_label r r' n n' :
  sameLabel r r' -> sameLabel n n' ->
  compatibleIdent r n = compatibleIdent r' n'.
Proof. intros [Hr1 Hr2] [Hn1 Hn2]. unfold compatibleIdent. congruence. Qed.

Section FinderFacts.
Variables (rootNode : nat) (rootNodePath : list nat)
          (ancestorDependencies : list (string * nat))
          (ancestorMap : list (string * list string))
          (options : InternalHoistOptions).

Lemma stage_true p v :
  fst (stage options p v) = true -> fst v = true /\ fst p = true.
Proof.
  unfold stage. destruct v as [[] r]; simpl; [|discriminate].
  auto.
Qed.

Lemma hoistable_compatible st n weight :
  fst (hoistable rootNode rootNodePath ancestorDependencies options st n weight)
  = true ->
  compatibleIdent (node (heap st) rootNode) (node (heap st) n) = true.
Proof.
  unfold hoistable. intros H.
  do 4 (apply stage_true in H as [H _]).
  apply stage_true in H as [_ H]. exact H.
Qed.

Lemma record_compatible h0 h nodePath n weight hc :
  (forall r, sameLabel (node h r) (node h0 r)) ->
  candidatesCompatible h0 rootNode hc ->
  compatibleIdent (node h rootNode) (node h n) = true ->
  candidatesCompatible h0 rootNode (record h nodePath n weight hc).
Proof.
  intros Hlab Hinv Hcompat name hoistSet candidate Hin Hcand.
  unfold record in Hin. apply elem_mset in Hin as [[= -> ->]|Hin];
    [|apply (Hinv name hoistSet candidate Hin Hcand)].
  simpl in Hcand. apply elem_of_app in Hcand as [Hcand|Hcand].
  - destruct (mget (W.name (node h n)) hc) as [c|] eqn:Hc.
    + destruct (negb _); simpl in Hcand.
      * apply elem_of_nil in Hcand as [].
      * apply mget_Some_elem in Hc. apply (Hinv _ _ _ Hc Hcand).
    + apply elem_of_nil in Hcand as [].
  - apply list_elem_of_singleton in Hcand. subst candidate. simpl.
    rewrite <- (compatibleIdent_label _ _ _ _ (Hlab rootNode) (Hlab n)).
    exact Hcompat.
Qed.

Lemma recordReason_labels h parent n reason r :
  sameLabel (node (recordReason rootNode h parent n reason) r) (node h r).
Proof.
  unfold recordReason.
  destruct (mget _ _) as [[root ?]|]; [destruct (Nat.eqb root rootNode)|];
    try (split; reflexivity);
    apply sameLabel_update; intros w; split; reflexivity.
Qed.

Lemma visit_searchInv h0 st nodePath n st' parent :
  searchInv rootNode h0 st ->
  visit rootNode rootNodePath ancestorDependencies ancestorMap options
        st nodePath n = Ok (st', parent) ->
  searchInv rootNode h0 st'.
Proof.
  intros [Hcands Hlab]. unfold visit.
  destruct (mget _ ancestorMap) as [ancestorNode|]; [|discriminate].
  destruct (hoistable _ _ _ _ st n (length ancestorNode))
    as [isHoistable reason] eqn:Hh.
  destruct (last (parents st)) as [top|]; [|discriminate].
  destruct isHoistable.
  - intros [= <- _]. split; simpl; [|exact Hlab].
    apply record_compatible; [exact Hlab|exact Hcands|].
    apply (hoistable_compatible st n (length ancestorNode)).
    rewrite Hh. reflexivity.
  - destruct (debug2 options); intros [= <- _]; [|split; assumption].
    split; simpl; [exact Hcands|]. intros r.
    eapply sameLabel_trans; [apply recordReason_labels|apply Hlab].
Qed.

Lemma computeHoistCandidates_searchInv h0 fuel :
  forall nodePath n st st',
    searchInv rootNode h0 st ->
    computeHoistCandidates rootNode rootNodePath ancestorDependencies ancestorMap
                           options fuel nodePath n st = Ok st' ->
    searchInv rootNode h0 st'.
Proof.
  induction fuel as [|fuel IH]; intros nodePath n st st' Hinv; [discriminate|].
  simpl. destruct (visit _ _ _ _ _ st nodePath n) as [[st1 parent]| |] eqn:Hvisit;
    simpl; [|discriminate..].
  pose proof (visit_searchInv h0 _ _ _ _ _ Hinv Hvisit) as Hinv1.
  destruct (shas _ _); [intros [= <-]; exact Hinv1|].
  match goal with
  | |- context [forEach ?l ?body ?s] =>
      destruct (forEach l body s) as [st2| |] eqn:Hloop; simpl; [|discriminate..]
  end.
  intros [= <-].
  assert (Hinv2 : searchInv rootNode h0 st2).
  { revert Hloop. apply forEach_preserves.
    - intros s x s' Hs. destruct (_ && _); [apply IH, Hs|].
      intros [= <-]. exact Hs.
    - exact Hinv1. }
  exact Hinv2.
Qed.

Lemma searchUnder_searchInv h0 fuel st dep st' :
  searchInv rootNode h0 st ->
  searchUnder rootNode rootNodePath ancestorDependencies ancestorMap options
              fuel st dep = Ok st' ->
  searchInv rootNode h0 st'.
Proof.
  intros Hinv. unfold searchUnder.
  destruct (isPeer _ _ _); [intros [= <-]; exact Hinv|].
  match goal with
  | |- context [forEach ?l ?body ?s] =>
      destruct (forEach l body s) as [st2| |] eqn:Hloop; simpl; [|discriminate..]
  end.
  intros [= <-].
  assert (Hinv2 : searchInv rootNode h0 st2).
  { revert Hloop. apply forEach_preserves.
    - intros s x s' Hs. destruct (negb _).
      + apply computeHoistCandidates_searchInv, Hs.
      + intros [= <-]. exact Hs.
    - exact Hinv. }
  exact Hinv2.
Qed.

(** The nodes that [getHoistCandidates] returns may sit under the root, and
    the search leaves names and idents as they are. *)
Lemma getHoistCandidates_compatible h0 sets h1 :
  getHoistCandidates rootNode rootNodePath ancestorDependencies ancestorMap
                     options h0 = Ok (sets, h1) ->
  (forall hoistSet candidate,
     hoistSet ∈ sets ->
     candidate ∈ HoistCandidateSet.candidates hoistSet ->
     compatibleIdent (node h0 rootNode)
                     (node h0 (HoistCandidate.node candidate)) = true)
  /\ forall r, sameLabel (node h1 r) (node h0 r).
Proof.
  unfold getHoistCandidates.
  match goal with
  | |- context [forEach ?l ?body ?s] =>
      destruct (forEach l body s) as [st| |] eqn:Hloop; simpl; [|discriminate..]
  end.
  intros [= <- <-].
  assert (Hinv : searchInv rootNode h0 st).
  { revert Hloop. apply forEach_preserves.
    - intros s x s' Hs. apply searchUnder_searchInv, Hs.
    - split; simpl.
      + intros name hoistSet candidate Hin. apply elem_of_nil in Hin as [].
      + intros r. split; reflexivity. }
  destruct Hinv as [Hcands Hlab]. split; [|exact Hlab].
  intros hoistSet candidate Hin Hcand.
  apply list_elem_of_fmap in Hin as ([name hs] & -> & Hin).
  apply (Hcands name hs candidate Hin Hcand).
Qed.
End FinderFacts.

(** ** Adding the hoisted node to the root *)

Lemma elem_fold_sadd (refs s : list string) (x : string) :
  x ∈ s \/ x ∈ refs -> x ∈ fold_left (fun s r => sadd r s) refs s.
Proof.
  revert s. induction refs as [|r refs IH]; intros s [Hs|Hr]; simpl.
  - exact Hs.
  - apply elem_of_nil in Hr as [].
  - apply IH. left. apply elem_sadd. auto.
  - apply elem_of_cons in Hr as [->|Hr].
    + apply IH. left. apply elem_sadd. auto.
    + apply IH. right. exact Hr.
Qed.

Lemma mergeReferences_node (h : list W.t) (e : nat) (refs : list string) :
  e < length h ->
  node (fold_left (fun h r => update h e (W.with_references (sadd r))) refs h) e
  = W.with_references (fun s => fold_left (fun s r => sadd r s) refs s) (node h e).
Proof.
  revert h. induction refs as [|r refs IH]; intros h He; simpl.
  - destruct (node h e); reflexivity.
  - rewrite IH by (rewrite length_update; exact He).
    rewrite node_update_eq by exact He. reflexivity.
Qed.

Lemma mergeReferences_dependencies (h : list W.t) (e r : nat) (refs : list string) :
  W.dependencies
    (node (fold_left (fun h r => update h e (W.with_references (sadd r))) refs h) r)
  = W.dependencies (node h r).
Proof.
  revert h. induction refs as [|x refs IH]; intros h; simpl; [reflexivity|].
  rewrite IH. destruct (node_update h e r (W.with_references (sadd x)))
    as [->|(_ & _ & ->)]; reflexivity.
Qed.

(** Applying a candidate changes no name and no ident. *)
Lemma clonePath_labels candidate nodePath :
  forall parentClonedNode (h h' : list W.t) clonedTree last,
    clonePath candidate nodePath parentClonedNode h = (h', clonedTree, last) ->
    length h <= length h'
    /\ forall r, r < length h -> sameLabel (node h' r) (node h r).
Proof.
  induction nodePath as [|n rest IH]; intros ct h h' ct' last; simpl.
  - intros [= <- _ _]. split; [lia|]. intros r _. split; reflexivity.
  - destruct (mget n (children ct)) as [c|].
    + destruct (clonePath candidate rest c _) as [[h2 c2] l2] eqn:Hrest.
      intros [= <- _ _]. apply IH in Hrest as [Hlen Hlab].
      rewrite length_update in Hlen, Hlab. split; [exact Hlen|].
      intros r Hr. eapply sameLabel_trans; [apply Hlab, Hr|].
      apply sameLabel_update. intros w. split; reflexivity.
    + destruct (clonePath candidate rest _ _) as [[h2 c2] l2] eqn:Hrest.
      intros [= <- _ _]. apply IH in Hrest as [Hlen Hlab].
      rewrite !length_update, length_app in Hlen, Hlab. simpl in Hlen, Hlab.
      split; [lia|]. intros r Hr.
      eapply sameLabel_trans; [apply Hlab; lia|].
      eapply sameLabel_trans;
        [apply sameLabel_update; intros w; split; reflexivity|].
      eapply sameLabel_trans;
        [apply sameLabel_update; intros w; split; reflexivity|].
      rewrite node_app_l by exact Hr. split; reflexivity.
Qed.

Lemma addToRoot_labels rootNode candidate (h : list W.t) anc h' anc' r :
  addToRoot rootNode candidate (h, anc) = (h', anc') ->
  sameLabel (node h' r) (node h r).
Proof.
  unfold addToRoot. destruct (mget _ _) as [existing|].
  - intros [= <- _]. generalize (W.references (node h candidate)) as refs.
    intros refs. revert h. induction refs as [|x refs IH]; intros h; simpl.
    + split; reflexivity.
    + eapply sameLabel_trans; [apply IH|].
      apply sameLabel_update. intros w. split; reflexivity.
  - destruct (negb _); intros [= <- _]; [|split; reflexivity].
    apply sameLabel_update. intros w. split; reflexivity.
Qed.

Lemma applyCandidate_labels tree options rootNode (h : list W.t) clonedTree anc
  candidate h' clonedTree' anc' :
  applyCandidate tree options rootNode (h, clonedTree, anc) candidate
  = Ok (h', clonedTree', anc') ->
  forall r, r < length h -> sameLabel (node h' r) (node h r).
Proof.
  unfold applyCandidate.
  destruct (clonePath _ _ _ _) as [[h1 ct1] parentClone] eqn:Hpath.
  apply clonePath_labels in Hpath as [Hlen Hlab].
  destruct (addToRoot _ _ _) as [h2 anc2] eqn:Hroot.
  assert (Hall : forall r, r < length h -> sameLabel (node h2 r) (node h r)).
  { intros r Hr. eapply sameLabel_trans; [apply (addToRoot_labels _ _ _ _ _ _ r Hroot)|].
    eapply sameLabel_trans;
      [apply sameLabel_update; intros w; split; reflexivity|].
    eapply sameLabel_trans;
      [apply sameLabel_update; intros w; split; reflexivity|].
    apply Hlab, Hr. }
  destruct (icheck options).
  - destruct (selfCheck h2 tree) as [checkLog| |]; simpl; [|discriminate..].
    destruct (negb _); [discriminate|]. intros [= <- _ _]. exact Hall.
  - intros [= <- _ _]. exact Hall.
Qed.

(** ** selfCheck *)

Lemma append_not_empty (a b : string) : b <> "" -> a +:+ b <> "".
Proof.
  intros Hb. destruct a as [|c a]; [exact Hb|]. rewrite append_cons. discriminate.
Qed.

Lemma append_not_empty_l (a b : string) : a <> "" -> a +:+ b <> "".
Proof. destruct a as [|c a]; [congruence|]. rewrite append_cons. discriminate. Qed.

Lemma concat_empty (sep : string) (l : list string) :
  sep <> "" -> Forall (fun s => s <> "") l -> String.concat sep l = "" -> l = [].
Proof.
  intros Hsep Hl. destruct l as [|x l]; [reflexivity|].
  apply Forall_cons in Hl as [Hx Hl]. simpl. destruct l as [|y l].
  - intros ->. contradiction.
  - intros Hc. exfalso. revert Hc. apply append_not_empty_l, Hx.
Qed.

(** A peer name resolves for the node as it does for its parent. *)
Lemma overlay_peer (h : list W.t) n parentDeps origDep :
  isPeer h n origDep = true ->
  mget (W.name (node h origDep)) (overlay h n parentDeps)
  = mget (W.name (node h origDep)) parentDeps.
Proof.
  intros Hpeer. unfold overlay.
  assert (Hall : Forall (fun dep => isPeer h n dep = false) (nonPeerDependencies h n)).
  { apply Forall_forall. intros dep Hdep. unfold nonPeerDependencies in Hdep.
    apply list_elem_of_filter in Hdep as [Hdep _]. exact Hdep. }
  revert parentDeps Hall. generalize (nonPeerDependencies h n) as ds.
  induction ds as [|dep ds IH]; intros parentDeps Hall; [reflexivity|].
  apply Forall_cons in Hall as [Hdep Hall]. simpl. rewrite IH by exact Hall.
  apply mget_mset_ne. intros Heq. unfold isPeer in Hpeer, Hdep.
  rewrite Heq in Hdep. congruence.
Qed.

Lemma checkDep_spec (h : list W.t) parents n parentDeps log origDep :
  exists new,
    checkDep h parents n parentDeps (overlay h n parentDeps) log origDep
    = Ok (log ++ new)
    /\ Forall (fun s => s <> "") new
    /\ (new = [] <->
        (isPeer h n origDep = false ->
         exists d, mget (W.name (node h origDep)) (overlay h n parentDeps) = Some d
                   /\ W.ident (node h d) = W.ident (node h origDep))).
Proof.
  unfold checkDep. destruct (isPeer h n origDep) eqn:Hpeer.
  - rewrite (overlay_peer _ _ _ _ Hpeer).
    rewrite bool_decide_eq_true_2 by reflexivity. simpl.
    exists []. rewrite app_nil_r. split; [reflexivity|]. split; [constructor|].
    split; [discriminate|reflexivity].
  - destruct (mget _ (overlay h n parentDeps)) as [d|] eqn:Hd.
    + destruct (String.eqb_spec (W.ident (node h d)) (W.ident (node h origDep)))
        as [Hident|Hident]; simpl.
      * exists []. rewrite app_nil_r. split; [reflexivity|]. split; [constructor|].
        split; [|reflexivity]. intros _ _. exists d. auto.
      * eexists [_]. split; [reflexivity|]. split.
        -- apply Forall_singleton. apply append_not_empty.
           apply append_not_empty_l. discriminate.
        -- split; [discriminate|]. intros Hkept.
           destruct (Hkept eq_refl) as (d' & [= <-] & Heq). contradiction.
    + eexists [_]. split; [reflexivity|]. split.
      * apply Forall_singleton. apply append_not_empty.
        apply append_not_empty_l. discriminate.
      * split; [discriminate|]. intros Hkept.
        destruct (Hkept eq_refl) as (d' & [=] & _).
Qed.

Lemma checkDeps_spec (h : list W.t) parents n parentDeps (l : list nat) :
  forall log,
  exists new,
    forEach l (checkDep h parents n parentDeps (overlay h n parentDeps)) log
    = Ok (log ++ new)
    /\ Forall (fun s => s <> "") new
    /\ (new = [] <->
        forall origDep, origDep ∈ l ->
          isPeer h n origDep = false ->
          exists d, mget (W.name (node h origDep)) (overlay h n parentDeps) = Some d
                    /\ W.ident (node h d) = W.ident (node h origDep)).
Proof.
  induction l as [|x l IH]; intros log.
  - exists []. rewrite app_nil_r. split; [reflexivity|]. split; [constructor|].
    split; [|reflexivity]. intros _ origDep Hin. apply elem_of_nil in Hin as [].
  - destruct (checkDep_spec h parents n parentDeps log x) as (new1 & Hrun1 & Hne1 & Hiff1).
    destruct (IH (log ++ new1)) as (new2 & Hrun2 & Hne2 & Hiff2).
    exists (new1 ++ new2). split; [|split; [|split]].
    + simpl. rewrite Hrun1. simpl. rewrite Hrun2, app_assoc. reflexivity.
    + apply Forall_app. auto.
    + intros Hnil. apply app_eq_nil in Hnil as [H1 H2].
      intros origDep Hin. apply elem_of_cons in Hin as [->|Hin].
      * apply Hiff1, H1.
      * apply (proj1 Hiff2 H2), Hin.
    + intros Hall.
      rewrite (proj2 Hiff1) by (apply Hall; left).
      rewrite (proj2 Hiff2); [reflexivity|].
      intros origDep Hin. apply Hall. right. exact Hin.
Qed.

Lemma checkPost_trans (h : list W.t) tree seen new1 seen1 new2 seen2 :
  checkPost h tree seen new1 seen1 ->
  checkPost h tree seen1 new2 seen2 ->
  checkPost h tree seen (new1 ++ new2) seen2.
Proof.
  intros (Hsub1 & Hnew1 & Hgood1 & Hne1) (Hsub2 & Hnew2 & Hgood2 & Hne2).
  split; [auto|]. split; [|split].
  - intros m Hm Hfresh. destruct (decide (m ∈ seen1)) as [Hm1|Hm1].
    + destruct (Hnew1 m Hm1 Hfresh) as (Hclosed & c & Hc & Hkept).
      split; [auto|]. exists c. split; [exact Hc|].
      intros Hnil. apply app_eq_nil in Hnil as [H1 _]. auto.
    + destruct (Hnew2 m Hm Hm1) as (Hclosed & c & Hc & Hkept).
      split; [auto|]. exists c. split; [exact Hc|].
      intros Hnil. apply app_eq_nil in Hnil as [_ H2]. auto.
  - intros Hall. rewrite (Hgood1 Hall), (Hgood2 Hall). reflexivity.
  - apply Forall_app. auto.
Qed.

Lemma unseenNodes_mono (h : list W.t) (seen seen' : list nat) :
  (forall x, x ∈ seen -> x ∈ seen') -> unseenNodes h seen' <= unseenNodes h seen.
Proof.
  intros Hsub. apply filter_length_le. intros i Hi.
  destruct (shas i seen) eqn:Hs; [|reflexivity].
  apply shas_true, Hsub, shas_true in Hs. rewrite Hs in Hi. discriminate.
Qed.

Lemma unseenNodes_new (h : list W.t) (seen : list nat) n :
  n < length h -> n ∉ seen -> unseenNodes h (sadd n seen) < unseenNodes h seen.
Proof.
  intros Hn Hseen. apply (filter_length_lt _ _ _ n).
  - intros i Hi. destruct (shas i seen) eqn:Hs; [|reflexivity].
    assert (Hi' : shas i (sadd n seen) = true).
    { apply shas_true, elem_sadd. right. apply shas_true, Hs. }
    rewrite Hi' in Hi. discriminate.
  - apply elem_of_seq. lia.
  - assert (Hn' : shas n (sadd n seen) = true).
    { apply shas_true, elem_sadd. left. reflexivity. }
    rewrite Hn'. reflexivity.
  - apply shas_false in Hseen. rewrite Hseen. reflexivity.
Qed.

Lemma unseenNodes_bound (h : list W.t) seen : unseenNodes h seen <= length h.
Proof.
  unfold unseenNodes.
  assert (Hle : forall l : list nat,
            length (List.filter (fun i => negb (shas i seen)) l) <= length l).
  { induction l as [|i l IH]; simpl; [lia|].
    destruct (negb (shas i seen)); simpl; lia. }
  etransitivity; [apply Hle|]. rewrite length_seq. reflexivity.
Qed.

Lemma sdelete_sadd (n : nat) (s : list nat) : n ∉ s -> sdelete n (sadd n s) = s.
Proof.
  intros Hn. unfold sadd. rewrite (proj2 (shas_false n s) Hn).
  induction s as [|x s IH]; simpl.
  - rewrite Nat.eqb_refl. reflexivity.
  - apply not_elem_of_cons in Hn as [Hne Hn].
    rewrite (proj2 (Nat.eqb_neq n x) Hne). rewrite IH by exact Hn. reflexivity.
Qed.

Lemma visibleAbove_snoc (h : list W.t) tree c n :
  visibleAbove h tree (c ++ [n]) = overlay h n (visibleAbove h tree c).
Proof. unfold visibleAbove. rewrite fold_left_app. reflexivity. Qed.

Lemma node_invalid (h : list W.t) n : ~ n < length h -> node h n = W.dummy.
Proof.
  intros Hn. unfold node. rewrite (lookup_ge_None_2 h n) by lia. reflexivity.
Qed.

(** The loop over the regular dependencies of [n], given that the calls it
    makes behave. *)
Lemma check_loop (h : list W.t) tree fuel (IH : checkSpec h tree fuel) n c :
  chain h tree c n ->
  forall ds log seen parents,
    (forall d, d ∈ ds -> regularEdge h n d) ->
    (forall x, x ∈ parents -> x ∈ seen) ->
    (ds <> [] -> unseenNodes h seen < fuel) ->
    exists new seen',
      forEach ds (fun s dep => checkNode fuel h dep (visibleAbove h tree (c ++ [n])) s)
              (log, seen, parents)
      = Ok (log ++ new, seen', parents)
      /\ (forall d, d ∈ ds -> d ∈ seen')
      /\ checkPost h tree seen new seen'.
Proof.
  intros Hchain. induction ds as [|d ds IHds]; intros log seen parents Hedges Hsub Hfuel.
  - exists [], seen. rewrite app_nil_r. split; [reflexivity|].
    split; [intros d Hd; apply elem_of_nil in Hd as []|].
    split; [auto|]. split; [intros m Hm Hfresh; contradiction|].
    split; [reflexivity|constructor].
  - specialize (Hfuel ltac:(discriminate)).
    destruct (IH d (c ++ [n]) log seen parents) as (new1 & seen1 & Hrun1 & Hd1 & Hpost1).
    { apply chain_step; [exact Hchain|]. apply Hedges. left. }
    { exact Hsub. }
    { lia. }
    { intros _ _. exact Hfuel. }
    pose proof Hpost1 as (Hsub1 & _).
    destruct (IHds (log ++ new1) seen1 parents) as (new2 & seen2 & Hrun2 & Hds2 & Hpost2).
    { intros x Hx. apply Hedges. right. exact Hx. }
    { auto. }
    { intros _. pose proof (unseenNodes_mono h seen seen1 Hsub1). lia. }
    pose proof Hpost2 as (Hsub2 & _).
    exists (new1 ++ new2), seen2. split; [|split].
    + simpl. rewrite Hrun1. simpl. rewrite Hrun2, app_assoc. reflexivity.
    + intros x Hx. apply elem_of_cons in Hx as [->|Hx]; auto.
    + apply (checkPost_trans _ _ _ _ seen1); assumption.
Qed.

Lemma checkNode_unfold fuel (h : list W.t) n parentDeps log seenNodes parents :
  checkNode (S fuel) h n parentDeps (log, seenNodes, parents)
  = if shas n seenNodes then Ok (log, seenNodes, parents)
    else if shas n parents then Ok (log, sadd n seenNodes, parents)
    else
      log ← forEach (mvalues (W.originalDependencies (node h n)))
              (checkDep h parents n parentDeps (overlay h n parentDeps)) log;
      s ← forEach (nonPeerDependencies h n)
            (fun s dep => checkNode fuel h dep (overlay h n parentDeps) s)
            (log, sadd n seenNodes, sadd n parents);
      Ok (s.1.1, s.1.2, sdelete n s.2).
Proof.
  simpl. destruct (shas n seenNodes); [reflexivity|].
  destruct (shas n parents); [reflexivity|].
  destruct (forEach _ _ log) as [log1| |]; simpl; [|reflexivity..].
  destruct (forEach _ _ _) as [[[log2 seen2] parents2]| |]; reflexivity.
Qed.

Lemma checkNode_spec (h : list W.t) tree fuel : checkSpec h tree fuel.
Proof.
  induction fuel as [|fuel IH]; intros n c log seen parents Hchain Hsub Hpos Hfuel;
    [lia|].
  rewrite checkNode_unfold. destruct (shas n seen) eqn:Hseen.
  - apply shas_true in Hseen. exists [], seen. rewrite app_nil_r.
    split; [reflexivity|]. split; [exact Hseen|].
    split; [auto|]. split; [intros m Hm Hfresh; contradiction|].
    split; [reflexivity|constructor].
  - apply shas_false in Hseen.
    assert (Hpar : n ∉ parents) by (intros Hin; apply Hseen, Hsub, Hin).
    rewrite (proj2 (shas_false n parents) Hpar).
    destruct (checkDeps_spec h parents n (visibleAbove h tree c)
                (mvalues (W.originalDependencies (node h n))) log)
      as (new0 & Hrun0 & Hne0 & Hiff0).
    rewrite Hrun0. cbn [mbind result_bind].
    rewrite <- visibleAbove_snoc.
    destruct (check_loop h tree fuel IH n c Hchain (nonPeerDependencies h n)
                (log ++ new0) (sadd n seen) (sadd n parents))
      as (new1 & seen2 & Hrun1 & Hds & Hsub1 & Hnew1 & Hgood1 & Hne1).
    { auto. }
    { intros x Hx. apply elem_sadd. apply elem_sadd in Hx as [->|Hx]; auto. }
    { intros Hds. assert (Hvalid : n < length h).
      { destruct (decide (n < length h)) as [|Hinv]; [assumption|].
        exfalso. apply Hds. unfold nonPeerDependencies.
        rewrite (node_invalid h n Hinv). reflexivity. }
      pose proof (unseenNodes_new h seen n Hvalid Hseen).
      specialize (Hfuel Hseen Hvalid). lia. }
    rewrite Hrun1. cbn [mbind result_bind fst snd].
    rewrite (sdelete_sadd n parents Hpar).
    exists (new0 ++ new1), seen2. rewrite app_assoc.
    split; [reflexivity|].
    assert (Hn2 : n ∈ seen2) by (apply Hsub1, elem_sadd; auto).
    split; [exact Hn2|].
    split; [intros x Hx; apply Hsub1, elem_sadd; auto|]. split; [|split].
    + intros m Hm Hfresh. destruct (decide (m = n)) as [->|Hne].
      * split; [intros d Hd; apply Hds, Hd|].
        exists c. split; [exact Hchain|].
        intros Hnil. apply app_eq_nil in Hnil as [H0 _].
        exact (proj1 Hiff0 H0).
      * destruct (Hnew1 m Hm) as (Hclosed & c' & Hc' & Hkept).
        { intros Hin. apply elem_sadd in Hin as [?|?]; contradiction. }
        split; [exact Hclosed|]. exists c'. split; [exact Hc'|].
        intros Hnil. apply app_eq_nil in Hnil as [_ H1]. auto.
    + intros Hall. rewrite (Hgood1 Hall), app_nil_r.
      apply (proj2 Hiff0). apply (Hall c n Hchain).
    + apply Forall_app. auto.
Qed.


Lemma newline_not_empty : newline <> "".
Proof. discriminate. Qed.

Lemma selfCheck_spec (h : list W.t) (tree : nat) :
  exists new seen,
    selfCheck h tree = Ok (String.concat newline new)
    /\ tree ∈ seen
    /\ checkPost h tree [] new seen.
Proof.
  unfold selfCheck.
  destruct (checkNode_spec h tree (walkFuel h) tree [] [] [] [])
    as (new & seen & Hrun & Htree & Hpost).
  - constructor.
  - intros x Hx. apply elem_of_nil in Hx as [].
  - unfold walkFuel. lia.
  - intros _ _. pose proof (unseenNodes_bound h []). unfold walkFuel. lia.
  - exists new, seen. split; [|auto].
    change (visibleAbove h tree []) with (W.dependencies (node h tree)) in Hrun.
    rewrite Hrun. reflexivity.
Qed.

(** C3, as amended: [selfCheck] returns; it returns the empty string when
    every node reached from the root through regular dependencies has its
    regular original dependencies resolved, under every chain of parents,
    to a node of the declared ident; and when it returns the empty string,
    every such node has them so resolved under at least one chain of
    parents. *)
Theorem selfCheck_regular_promises (h : list W.t) (tree : nat) :
  (exists checkLog, selfCheck h tree = Ok checkLog)
  /\ ((forall c n, chain h tree c n -> requireKept h (visibleAbove h tree c) n) ->
      selfCheck h tree = Ok "")
  /\ (selfCheck h tree = Ok "" ->
      forall c n, chain h tree c n ->
        exists c', chain h tree c' n /\ requireKept h (visibleAbove h tree c') n).
Proof.
  destruct (selfCheck_spec h tree)
    as (new & seen & Hrun & Htree & Hsub & Hnew & Hgood & Hne).
  split; [eauto|]. split.
  - intros Hall. rewrite Hrun, (Hgood Hall). reflexivity.
  - rewrite Hrun. intros [= Hempty].
    apply (concat_empty _ _ newline_not_empty Hne) in Hempty.
    assert (Hreach : forall c n, chain h tree c n -> n ∈ seen).
    { intros c n Hc. induction Hc as [|c n d Hc IH Hedge]; [exact Htree|].
      destruct (Hnew n IH) as [Hclosed _]; [apply not_elem_of_nil|].
      apply Hclosed, Hedge. }
    intros c n Hc. destruct (Hnew n (Hreach c n Hc)) as (_ & c' & Hc' & Hkept);
      [apply not_elem_of_nil|].
    exists c'. split; [exact Hc'|]. apply Hkept, Hempty.
Qed.

Lemma selfCheck_regular_promises_witness :
  mget "D" (W.originalDependencies (node sharedHeap 2)) = Some 3
  /\ exists c', chain sharedHeap 0 c' 2
                /\ requireKept sharedHeap (visibleAbove sharedHeap 0 c') 2.
Proof.
  split; [reflexivity|].
  apply (proj2 (proj2 (selfCheck_regular_promises sharedHeap 0)) eq_refl [0; 4] 2).
  apply (chain_step sharedHeap 0 [0] 4 2).
  - apply (chain_step sharedHeap 0 [] 0 4); [constructor|].
    apply list_elem_of_further, list_elem_of_here.
  - apply list_elem_of_here.
Defined.

(** C3, as stated, fails on [sharedHeap]: the log is empty, yet [S], reached
    through [B], declares [D@1] and sees [D@2] there.  [S] is checked once,
    when it is reached through [A], where it sees [D@1]. *)
Lemma selfCheck_checks_shared_node_once :
  selfCheck sharedHeap 0 = Ok ""
  /\ chain sharedHeap 0 [0; 4] 2
  /\ isPeer sharedHeap 2 3 = false
  /\ mget "D" (W.originalDependencies (node sharedHeap 2)) = Some 3
  /\ W.ident (node sharedHeap 3) = "D@1"
  /\ mget "D" (overlay sharedHeap 2 (visibleAbove sharedHeap 0 [0; 4])) = Some 5
  /\ W.ident (node sharedHeap 5) = "D@2"
  /\ ~ requireKept sharedHeap (visibleAbove sharedHeap 0 [0; 4]) 2.
Proof.
  split; [reflexivity|]. split.
  { apply (chain_step sharedHeap 0 [0] 4 2).
    - apply (chain_step sharedHeap 0 [] 0 4); [constructor|].
      apply list_elem_of_further, list_elem_of_here.
    - apply list_elem_of_here. }
  do 5 (split; [reflexivity|]).
  intros Hkept. destruct (Hkept 3) as (d & Hd & Hident).
  - apply list_elem_of_here.
  - reflexivity.
  - vm_compute in Hd. injection Hd as <-. discriminate.
Qed.

(** ** Popularity *)

Section Popularity.
Variables (rootNode : nat) (rootNodePath : list nat)
          (ancestorDependencies : list (string * nat))
          (ancestorMap : list (string * list string))
          (options : InternalHoistOptions).

Lemma stage_pass p r :
  fst p = true -> stage options p (true, r) = (true, r).
Proof. unfold stage. simpl. intros ->. destruct (debug2 options); reflexivity. Qed.

(** One visit, when a candidate of the same name is recorded and the node
    passes the other predicates: the node is recorded unless the recorded
    candidate is strictly heavier. *)
Lemma visit_records_unless_lighter
  (st : Search) (nodePath : list nat) (n : nat) (ancestors : list string)
  (competitor : HoistCandidateSet.t) (st' : Search) (parent : nat) :
  let h := heap st in
  let name := W.name (node h n) in
  let weight := length ancestors in
  mget (W.ident (node h n)) ancestorMap = Some ancestors ->
  mget name (hoistCandidates st) = Some competitor ->
  fst (isRegularDepAtRoot rootNode rootNodePath h n) = true ->
  fst (isCompatibleIdent rootNode rootNodePath h n) = true ->
  fst (isNameAvailable rootNode rootNodePath h (parents st) n) = true ->
  fst (areRegularDepsSatisfied rootNode rootNodePath ancestorDependencies h n) = true ->
  fst (arePeerDepsSatisfied rootNodePath h (parents st) n) = true ->
  visit rootNode rootNodePath ancestorDependencies ancestorMap options st nodePath n
  = Ok (st', parent) ->
  (HoistCandidateSet.weight competitor <= weight ->
   mget name (hoistCandidates st')
   = Some (if String.eqb (W.ident (node h (HoistCandidateSet.node competitor)))
                         (W.ident (node h n))
           then HoistCandidateSet.mk
                  (HoistCandidateSet.node competitor)
                  (HoistCandidateSet.weight competitor)
                  (HoistCandidateSet.candidates competitor
                   ++ [HoistCandidate.mk nodePath n])
           else HoistCandidateSet.mk n weight [HoistCandidate.mk nodePath n]))
  /\ (weight < HoistCandidateSet.weight competitor ->
      hoistCandidates st' = hoistCandidates st).
Proof.
  intros h name weight Hanc Hcomp H1 H2 H3 H5 H6. unfold visit.
  fold h. rewrite Hanc. fold weight.
  assert (Hh : fst (hoistable rootNode rootNodePath ancestorDependencies options
                      st n weight)
               = (HoistCandidateSet.weight competitor <=? weight)%nat).
  { unfold hoistable. fold h name. rewrite Hcomp.
    rewrite (stage_pass _ _ H1), (stage_pass _ _ H2), (stage_pass _ _ H3).
    unfold isPreferred at 1.
    destruct (HoistCandidateSet.weight competitor <=? weight)%nat eqn:Hle.
    - rewrite stage_pass by reflexivity.
      rewrite (stage_pass _ _ H5), (stage_pass _ _ H6). reflexivity.
    - unfold stage at 3. cbn [fst snd negb]. unfold stage. cbn [fst].
      reflexivity. }
  destruct (hoistable _ _ _ _ _ _ _) as [isHoistable reason].
  simpl in Hh. subst isHoistable.
  destruct (last (parents st)) as [top|]; [|discriminate].
  destruct (Nat.leb_spec (HoistCandidateSet.weight competitor) weight) as [Hle|Hgt].
  - intros [= <- _]. split; [|lia]. intros _. simpl.
    unfold record. fold name. rewrite mget_mset_eq, Hcomp.
    destruct (String.eqb _ _); reflexivity.
  - split; [lia|]. intros _.
    destruct (debug2 options); injection H as <- _; reflexivity.
Qed.
End Popularity.

(** C2, as stated, fails on [equalWeights]: [L@1] and [L@2] have one
    ancestor each, the search at the root records [L@1] first, under [A@1],
    and replaces it by [L@2] when it meets it under [B@1]; the root of the
    result holds [L@2], and [A@1] keeps its own [L@1]. *)
Lemma equal_weights_later_instance_kept :
  mget "L@1" equalAncestors = Some ["A@1"]
  /\ mget "L@2" equalAncestors = Some ["B@1"]
  /\ (exists st1 st2,
        searchUnder 0 [0] [("A", 1); ("B", 3)] equalAncestors quiet
                    (walkFuel equalHeap) equalSearchStart 1 = Ok st1
        /\ hoistCandidates st1
           = [("L", HoistCandidateSet.mk 2 1 [HoistCandidate.mk [1] 2])]
        /\ searchUnder 0 [0] [("A", 1); ("B", 3)] equalAncestors quiet
                       (walkFuel equalHeap) st1 3 = Ok st2
        /\ hoistCandidates st2
           = [("L", HoistCandidateSet.mk 4 1 [HoistCandidate.mk [3] 4])])
  /\ exists st out,
       hoist sampleNumber 8 None 0 defaultOptions equalWeights = Ok (st, (out, 0))
       /\ HoisterResult.dependencies (rnode out 0) = [1; 3; 4]
       /\ rnode out 4 = HoisterResult.mk "L" ["2"] []
       /\ rnode out 1 = HoisterResult.mk "A" ["1"] [2]
       /\ rnode out 2 = HoisterResult.mk "L" ["1"] [].
Proof.
  split; [reflexivity|]. split; [reflexivity|]. split.
  - eexists _, _. split; [vm_compute; reflexivity|]. split; [reflexivity|].
    split; [vm_compute; reflexivity|]. reflexivity.
  - eexists _, _. split; [vm_compute; reflexivity|]. repeat split.
Qed.

(** ** The heaviest candidate *)

Lemma heaviestLatest_snoc E e name ident weight :
  heaviestLatest E name ident weight ->
  (ename e = name -> eweight e < weight) ->
  heaviestLatest (E ++ [e]) name ident weight.
Proof.
  intros (Hmax & E1 & e0 & E2 & -> & Hname & Hident & Hweight & Hlater) He.
  split.
  - intros e' Hin Hn. apply elem_of_app in Hin as [Hin|Hin]; [auto|].
    apply list_elem_of_singleton in Hin. subst e'. specialize (He Hn). lia.
  - exists E1, e0, (E2 ++ [e]). rewrite <- app_assoc. split; [reflexivity|].
    repeat (split; [assumption|]).
    intros e' Hin Hn. apply elem_of_app in Hin as [Hin|Hin]; [auto|].
    apply list_elem_of_singleton in Hin. subst e'. auto.
Qed.

Lemma heaviestLatest_new E e :
  (forall e', e' ∈ E -> ename e' = ename e -> eweight e' <= eweight e) ->
  heaviestLatest (E ++ [e]) (ename e) (eident e) (eweight e).
Proof.
  intros Hmax. split.
  - intros e' Hin Hn. apply elem_of_app in Hin as [Hin|Hin]; [auto|].
    apply list_elem_of_singleton in Hin. subst e'. lia.
  - exists E, e, []. repeat (split; [reflexivity|]).
    intros e' Hin. apply elem_of_nil in Hin as [].
Qed.

Lemma mkeys_mset {V : Type} (k : string) (v : V) (m : list (string * V)) :
  mkeys (mset k v m) = if mhas k m then mkeys m else mkeys m ++ [k].
Proof.
  unfold mhas. destruct (mget k m) as [v0|] eqn:Hk; simpl.
  - apply mset_present. eauto.
  - rewrite (mset_absent _ _ _ Hk). unfold mkeys. rewrite map_app. reflexivity.
Qed.

Lemma NoDup_mkeys_mset {V : Type} (k : string) (v : V) (m : list (string * V)) :
  NoDup (mkeys m) -> NoDup (mkeys (mset k v m)).
Proof.
  intros Hnd. rewrite mkeys_mset. unfold mhas.
  destruct (mget k m) eqn:Hk; simpl; [exact Hnd|].
  apply NoDup_app. split; [exact Hnd|]. split; [|apply NoDup_singleton].
  intros x Hx Hx'. apply list_elem_of_singleton in Hx'. subst x.
  apply mget_None_keys in Hk. contradiction.
Qed.

Section EventFacts.
Variables (rootNode : nat) (rootNodePath : list nat)
          (ancestorDependencies : list (string * nat))
          (ancestorMap : list (string * list string))
          (options : InternalHoistOptions).

Lemma stage_fst p v : fst (stage options p v) = fst v && fst p.
Proof. unfold stage. destruct v as [[] r]; reflexivity. Qed.

Lemma hoistable_fst st n weight :
  fst (hoistable rootNode rootNodePath ancestorDependencies options st n weight)
  = promotable rootNode rootNodePath ancestorDependencies st n
    && fst (isPreferred rootNodePath (heap st)
              (mget (W.name (node (heap st) n)) (hoistCandidates st)) weight).
Proof.
  unfold hoistable, promotable. rewrite !stage_fst. cbn [fst].
  generalize (fst (isRegularDepAtRoot rootNode rootNodePath (heap st) n)) as b1.
  generalize (fst (isCompatibleIdent rootNode rootNodePath (heap st) n)) as b2.
  generalize (fst (isNameAvailable rootNode rootNodePath (heap st) (parents st) n))
    as b3.
  generalize (fst (areRegularDepsSatisfied rootNode rootNodePath
                     ancestorDependencies (heap st) n)) as b5.
  generalize (fst (arePeerDepsSatisfied rootNodePath (heap st) (parents st) n))
    as b6.
  generalize (fst (isPreferred rootNodePath (heap st)
                     (mget (W.name (node (heap st) n)) (hoistCandidates st))
                     weight)) as b4.
  intros [] [] [] [] [] []; reflexivity.
Qed.

Lemma isPreferred_fst h competitorInfo weight :
  fst (isPreferred rootNodePath h competitorInfo weight)
  = match competitorInfo with
    | Some c => (HoistCandidateSet.weight c <=? weight)%nat
    | None => true
    end.
Proof. unfold isPreferred. destruct competitorInfo; reflexivity. Qed.

Lemma eventsInv_same_candidates h0 E st st' :
  eventsInv h0 ancestorMap E st ->
  hoistCandidates st' = hoistCandidates st ->
  (forall r, sameLabel (node (heap st') r) (node h0 r)) ->
  eventsInv h0 ancestorMap E st'.
Proof.
  intros [Hlab Hw Hk Hn Ha Hp] Hsame Hlab'.
  constructor; rewrite ?Hsame; assumption.
Qed.

(** One visit: the invariant after the events of the visit. *)
Lemma visit_events h0 E st nodePath n st' parent :
  eventsInv h0 ancestorMap E st ->
  visit rootNode rootNodePath ancestorDependencies ancestorMap options
        st nodePath n = Ok (st', parent) ->
  eventsInv h0 ancestorMap (E ++ visitEvents rootNode rootNodePath
                                   ancestorDependencies ancestorMap st n) st'.
Proof.
  intros Hinv. pose proof Hinv as [Hlab Hw Hk Hn Ha Hp].
  unfold visit, visitEvents.
  destruct (mget (W.ident (node (heap st) n)) ancestorMap) as [a|] eqn:Hanc;
    [|discriminate].
  pose proof (hoistable_fst st n (length a)) as Hh.
  destruct (hoistable _ _ _ _ st n (length a)) as [isHoistable reason].
  simpl in Hh. rewrite isPreferred_fst in Hh.
  destruct (last (parents st)) as [top|]; [|discriminate].
  set (name := W.name (node (heap st) n)) in *.
  set (e := mkEvent name (W.ident (node (heap st) n)) (length a)).
  destruct (promotable _ _ _ st n) eqn:Hprom; simpl in Hh.
  - (* the visit is an event *)
    assert (Hw' : forall e', e' ∈ E ++ [e] ->
              exists a', mget (eident e') ancestorMap = Some a'
                         /\ eweight e' = length a').
    { intros e' Hin. apply elem_of_app in Hin as [Hin|Hin]; [auto|].
      apply list_elem_of_singleton in Hin. subst e'. exists a. auto. }
    destruct (Hlab n) as [Hname_n Hident_n].
    destruct (mget name (hoistCandidates st)) as [c|] eqn:Hc.
    + destruct (Nat.leb_spec (HoistCandidateSet.weight c) (length a)) as [Hle|Hgt];
        subst isHoistable.
      * (* recorded, next to or instead of the competitor *)
        intros [= <- _].
        destruct (Hp name c Hc) as [Hmax Hlast].
        constructor; simpl.
        -- exact Hlab.
        -- exact Hw'.
        -- apply NoDup_mkeys_mset, Hk.
        -- intros name' hoistSet. unfold record. fold name. rewrite Hc.
           destruct (decide (name' = name)) as [->|Hne].
           ++ rewrite mget_mset_eq. intros [= <-].
              destruct (negb _); simpl; [exact Hname_n|]. apply (Hn name c Hc).
           ++ rewrite mget_mset_ne by congruence. apply Hn.
        -- intros name'. unfold record. fold name.
           destruct (decide (name' = name)) as [->|Hne].
           ++ rewrite mget_mset_eq. discriminate.
           ++ rewrite mget_mset_ne by congruence. intros Hnone e' Hin.
              apply elem_of_app in Hin as [Hin|Hin]; [apply (Ha name' Hnone e' Hin)|].
              apply list_elem_of_singleton in Hin. subst e'. simpl. congruence.
        -- intros name' hoistSet. unfold record. fold name. rewrite Hc.
           destruct (decide (name' = name)) as [->|Hne].
           ++ rewrite mget_mset_eq. intros [= <-].
              destruct (String.eqb_spec
                          (W.ident (node (heap st) (HoistCandidateSet.node c)))
                          (W.ident (node (heap st) n))) as [Hsame|Hother]; simpl.
              ** (* the same ident: the weights agree *)
                 destruct Hlast as (E1 & e0 & E2 & HE & _ & Hid0 & Hw0 & _).
                 destruct (Hw e0) as (a0 & Ha0 & Hlen0).
                 { rewrite HE. apply elem_of_app. right. left. }
                 destruct (Hlab (HoistCandidateSet.node c)) as [_ Hident_c].
                 rewrite Hid0, <- Hident_c, Hsame, Hanc in Ha0.
                 injection Ha0 as <-.
                 assert (Hwc : HoistCandidateSet.weight c = length a) by congruence.
                 rewrite Hwc, <- Hident_c, Hsame.
                 apply (heaviestLatest_new E e). intros e' Hin Hn'.
                 unfold e. simpl. rewrite <- Hwc. apply Hmax; assumption.
              ** rewrite <- Hident_n.
                 apply (heaviestLatest_new E e). intros e' Hin Hn'.
                 specialize (Hmax e' Hin Hn'). unfold e. simpl. lia.
           ++ rewrite mget_mset_ne by congruence. intros Hsome.
              apply heaviestLatest_snoc; [apply Hp, Hsome|].
              simpl. congruence.
      * (* lighter than the competitor: nothing changes *)
        intros Hrun.
        assert (Hst' : hoistCandidates st' = hoistCandidates st
                       /\ forall r, sameLabel (node (heap st') r) (node h0 r)).
        { destruct (debug2 options); injection Hrun as <- _; simpl;
            (split; [reflexivity|]); [|exact Hlab].
          intros r. eapply sameLabel_trans; [apply recordReason_labels|apply Hlab]. }
        destruct Hst' as [Hhc Hlab'].
        constructor; rewrite ?Hhc; auto.
        -- intros name' Hnone e' Hin.
           apply elem_of_app in Hin as [Hin|Hin]; [apply (Ha name' Hnone e' Hin)|].
           apply list_elem_of_singleton in Hin. subst e'. simpl. congruence.
        -- intros name' hoistSet Hsome. apply heaviestLatest_snoc; [auto|].
           simpl. intros <-. rewrite Hc in Hsome. injection Hsome as <-. exact Hgt.
    + (* no competitor *)
      subst isHoistable. intros [= <- _].
      constructor; simpl.
      * exact Hlab.
      * exact Hw'.
      * apply NoDup_mkeys_mset, Hk.
      * intros name' hoistSet. unfold record. fold name. rewrite Hc.
        destruct (decide (name' = name)) as [->|Hne].
        -- rewrite mget_mset_eq. intros [= <-]. simpl. exact Hname_n.
        -- rewrite mget_mset_ne by congruence. apply Hn.
      * intros name'. unfold record. fold name.
        destruct (decide (name' = name)) as [->|Hne].
        -- rewrite mget_mset_eq. discriminate.
        -- rewrite mget_mset_ne by congruence. intros Hnone e' Hin.
           apply elem_of_app in Hin as [Hin|Hin]; [apply (Ha name' Hnone e' Hin)|].
           apply list_elem_of_singleton in Hin. subst e'. simpl. congruence.
      * intros name' hoistSet. unfold record. fold name. rewrite Hc.
        destruct (decide (name' = name)) as [->|Hne].
        -- rewrite mget_mset_eq. intros [= <-]. simpl. rewrite <- Hident_n.
           apply (heaviestLatest_new E e). intros e' Hin Hn'.
           exfalso. apply (Ha name Hc e' Hin Hn').
        -- rewrite mget_mset_ne by congruence. intros Hsome.
           apply heaviestLatest_snoc; [apply Hp, Hsome|].
           simpl. congruence.
  - (* not an event *)
    subst isHoistable. rewrite app_nil_r. intros Hrun.
    apply (eventsInv_same_candidates h0 E st st' Hinv).
    + destruct (debug2 options); injection Hrun as <- _; reflexivity.
    + destruct (debug2 options); injection Hrun as <- _; simpl; [|exact Hlab].
      intros r. eapply sameLabel_trans; [apply recordReason_labels|apply Hlab].
Qed.

Lemma forEach_events {A S : Type} (Inv : list Event -> S -> Prop)
  (l : list A) (body : S -> A -> result S) (events : S -> A -> list Event) :
  (forall E s x s', Inv E s -> body s x = Ok s' -> Inv (E ++ events s x) s') ->
  forall E s s',
    Inv E s -> forEach l body s = Ok s' ->
    Inv (E ++ forEachEvents l body events s) s'.
Proof.
  intros Hbody. induction l as [|x l IH]; intros E s s' HE; simpl.
  - intros [= <-]. rewrite app_nil_r. exact HE.
  - destruct (body s x) as [s1| |] eqn:Hb; simpl; [|discriminate..].
    intros Hrun. rewrite app_assoc. apply IH; [|exact Hrun].
    apply (Hbody E s x s1 HE Hb).
Qed.

Lemma eventsInv_push h0 E st parent n :
  eventsInv h0 ancestorMap E st -> eventsInv h0 ancestorMap E (pushTuple st parent n).
Proof.
  intros Hinv. apply (eventsInv_same_candidates h0 E st); [exact Hinv|reflexivity|].
  apply (ei_labels _ _ _ _ Hinv).
Qed.

Lemma eventsInv_pop h0 E st :
  eventsInv h0 ancestorMap E st -> eventsInv h0 ancestorMap E (popTuple st).
Proof.
  intros Hinv. apply (eventsInv_same_candidates h0 E st); [exact Hinv|reflexivity|].
  apply (ei_labels _ _ _ _ Hinv).
Qed.

Lemma computeHoistCandidates_events h0 fuel :
  forall nodePath n E st st',
    eventsInv h0 ancestorMap E st ->
    computeHoistCandidates rootNode rootNodePath ancestorDependencies ancestorMap
                           options fuel nodePath n st = Ok st' ->
    eventsInv h0 ancestorMap
      (E ++ computeEvents rootNode rootNodePath ancestorDependencies ancestorMap
                          options fuel nodePath n st) st'.
Proof.
  induction fuel as [|fuel IH]; intros nodePath n E st st' Hinv; [discriminate|].
  simpl. destruct (visit _ _ _ _ _ st nodePath n) as [[st1 parent]| |] eqn:Hvisit;
    simpl; [|discriminate..].
  pose proof (visit_events h0 E _ _ _ _ _ Hinv Hvisit) as Hinv1.
  destruct (shas _ _); [intros [= <-]; rewrite app_nil_r; exact Hinv1|].
  match goal with
  | |- context [forEach ?l ?body ?s] =>
      destruct (forEach l body s) as [st2| |] eqn:Hloop; simpl; [|discriminate..]
  end.
  intros [= <-]. rewrite app_assoc. apply eventsInv_pop.
  revert Hloop. apply forEach_events.
  - intros E' s x s' Hs. destruct (_ && _).
    + apply IH, Hs.
    + intros [= <-]. rewrite app_nil_r. exact Hs.
  - apply eventsInv_push, Hinv1.
Qed.

Lemma searchUnder_events h0 fuel E st dep st' :
  eventsInv h0 ancestorMap E st ->
  searchUnder rootNode rootNodePath ancestorDependencies ancestorMap options
              fuel st dep = Ok st' ->
  eventsInv h0 ancestorMap
    (E ++ searchUnderEvents rootNode rootNodePath ancestorDependencies ancestorMap
                            options fuel st dep) st'.
Proof.
  intros Hinv. unfold searchUnder, searchUnderEvents.
  destruct (isPeer _ _ _); [intros [= <-]; rewrite app_nil_r; exact Hinv|].
  match goal with
  | |- context [forEach ?l ?body ?s] =>
      destruct (forEach l body s) as [st2| |] eqn:Hloop; simpl; [|discriminate..]
  end.
  intros [= <-]. apply eventsInv_pop.
  revert Hloop. apply forEach_events.
  - intros E' s x s' Hs. destruct (negb _).
    + apply computeHoistCandidates_events, Hs.
    + intros [= <-]. rewrite app_nil_r. exact Hs.
  - apply eventsInv_push, Hinv.
Qed.

Lemma getHoistCandidates_events h0 sets h1 :
  getHoistCandidates rootNode rootNodePath ancestorDependencies ancestorMap
                     options h0 = Ok (sets, h1) ->
  exists st,
    sets = mvalues (hoistCandidates st)
    /\ eventsInv h0 ancestorMap
         (searchEvents rootNode rootNodePath ancestorDependencies ancestorMap
                       options h0) st.
Proof.
  unfold getHoistCandidates, searchEvents.
  match goal with
  | |- context [forEach ?l ?body ?s] =>
      destruct (forEach l body s) as [st| |] eqn:Hloop; simpl; [|discriminate..]
  end.
  intros [= <- <-]. exists st. split; [reflexivity|].
  match goal with
  | |- eventsInv _ _ ?E _ => change E with ([] ++ E)
  end.
  revert Hloop. apply forEach_events.
  - intros E' s x s' Hs. apply searchUnder_events, Hs.
  - constructor; simpl.
    + intros r. split; reflexivity.
    + intros e Hin. apply elem_of_nil in Hin as [].
    + constructor.
    + discriminate.
    + intros name _ e Hin. apply elem_of_nil in Hin as [].
    + discriminate.
Qed.
End EventFacts.

(** C2, as amended: in a candidate search, call promotable the visits to
    nodes that pass the predicates other than the one on weights.  For
    every candidate set that the search returns, no promotable visit to a
    node of that name has a weight above the set's weight, and the set's
    ident is that of the last promotable visit of that weight: of several
    idents of the largest weight, the one met last. *)
Theorem getHoistCandidates_heaviest_latest
  rootNode rootNodePath ancestorDependencies ancestorMap options
  (h0 : list W.t) sets h1 hoistSet :
  getHoistCandidates rootNode rootNodePath ancestorDependencies ancestorMap
                     options h0 = Ok (sets, h1) ->
  hoistSet ∈ sets ->
  heaviestLatest
    (searchEvents rootNode rootNodePath ancestorDependencies ancestorMap options h0)
    (W.name (node h0 (HoistCandidateSet.node hoistSet)))
    (W.ident (node h0 (HoistCandidateSet.node hoistSet)))
    (HoistCandidateSet.weight hoistSet).
Proof.
  intros Hrun Hin.
  destruct (getHoistCandidates_events _ _ _ _ _ _ _ _ Hrun) as (st & -> & Hinv).
  apply list_elem_of_fmap in Hin as ([name hs] & -> & Hin). simpl.
  apply (elem_mget _ _ _ (ei_keys _ _ _ _ Hinv)) in Hin.
  rewrite <- (ei_names _ _ _ _ Hinv name hs Hin).
  apply (ei_present _ _ _ _ Hinv name hs Hin).
Qed.


Lemma getHoistCandidates_heaviest_latest_witness :
  searchEvents 0 [0] [("A", 1); ("B", 3)] equalAncestors quiet equalHeap
  = [mkEvent "L" "L@1" 1; mkEvent "L" "L@2" 1]
  /\ heaviestLatest
       (searchEvents 0 [0] [("A", 1); ("B", 3)] equalAncestors quiet equalHeap)
       "L" "L@2" 1.
Proof.
  split; [vm_compute; reflexivity|].
  apply (getHoistCandidates_heaviest_latest
           0 [0] [("A", 1); ("B", 3)] equalAncestors quiet equalHeap
           [HoistCandidateSet.mk 4 1 [HoistCandidate.mk [3] 4]] equalHeap
           (HoistCandidateSet.mk 4 1 [HoistCandidate.mk [3] 4])).
  - vm_compute. reflexivity.
  - apply list_elem_of_here.
Defined.

(** ** hoist reads no property of undefined *)

Lemma ancestorsPost_refl (h : list W.t) s : ancestorsPost h s s.
Proof.
  split; [auto|]. split; [auto|]. intros m Hm Hfresh. contradiction.
Qed.

Lemma ancestorsPost_trans (h : list W.t) s1 s2 s3 :
  ancestorsPost h s1 s2 -> ancestorsPost h s2 s3 -> ancestorsPost h s1 s3.
Proof.
  intros (Hsub1 & Hkeys1 & Hnew1) (Hsub2 & Hkeys2 & Hnew2).
  split; [auto|]. split; [auto|].
  intros m Hm Hfresh d Hd. destruct (decide (m ∈ s2.2)) as [Hm2|Hm2].
  - destruct (Hnew1 m Hm2 Hfresh d Hd) as [Hd2 Hk2]. auto.
  - apply (Hnew2 m Hm Hm2 d Hd).
Qed.

Lemma mhas_addIdent child parent am k :
  mhas k (addIdent child parent am) = true <-> k = child \/ mhas k am = true.
Proof.
  unfold addIdent, mhas. destruct (decide (k = child)) as [->|Hne].
  - rewrite mget_mset_eq. simpl. tauto.
  - rewrite mget_mset_ne by congruence. split; [auto|]. intros [?|?]; [congruence|auto].
Qed.

Lemma addParent_unfold fuel (h : list W.t) parentNode n ancestorMap seenNodes :
  addParent (S fuel) h parentNode n (ancestorMap, seenNodes)
  = let ancestorMap :=
      addIdent (W.ident (node h n)) (W.ident (node h parentNode)) ancestorMap in
    if shas n seenNodes then Ok (ancestorMap, seenNodes)
    else forEach (nonPeerDependencies h n)
           (fun s dep => addParent fuel h n dep s)
           (ancestorMap, sadd n seenNodes).
Proof. reflexivity. Qed.

Section Ancestors.
Variables (h : list W.t) (P : nat -> Prop).
Hypothesis P_closed : forall n d, P n -> regularEdge h n d -> P d.

Lemma ancestors_loop fuel (IH : ancestorsSpec h P fuel) n :
  P n ->
  forall ds s,
    (forall d, d ∈ ds -> regularEdge h n d) ->
    (forall x, x ∈ s.2 -> P x) ->
    (ds <> [] -> unseenNodes h s.2 < fuel) ->
    exists s',
      forEach ds (fun s dep => addParent fuel h n dep s) s = Ok s'
      /\ (forall d, d ∈ ds -> d ∈ s'.2 /\ mhas (W.ident (node h d)) s'.1 = true)
      /\ (forall x, x ∈ s'.2 -> P x)
      /\ ancestorsPost h s s'.
Proof.
  intros Hn. induction ds as [|d ds IHds]; intros s Hedges HP Hfuel.
  - exists s. split; [reflexivity|]. split; [|split; [exact HP|apply ancestorsPost_refl]].
    intros d Hd. apply elem_of_nil in Hd as [].
  - specialize (Hfuel ltac:(discriminate)).
    destruct (IH n d s ltac:(lia) ltac:(auto)) as (s1 & Hrun1 & Hd1 & Hk1 & HP1 & Hpost1).
    { apply (P_closed n d Hn). apply Hedges. left. }
    { exact HP. }
    destruct (IHds s1) as (s2 & Hrun2 & Hds2 & HP2 & Hpost2).
    { intros x Hx. apply Hedges. right. exact Hx. }
    { exact HP1. }
    { intros _. pose proof (unseenNodes_mono h s.2 s1.2 (proj1 Hpost1)). lia. }
    exists s2. split; [|split; [|split]].
    + simpl. rewrite Hrun1. exact Hrun2.
    + intros x Hx. apply elem_of_cons in Hx as [->|Hx]; [|auto].
      destruct Hpost2 as (Hsub2 & Hkeys2 & _). auto.
    + exact HP2.
    + apply (ancestorsPost_trans _ _ s1); assumption.
Qed.

Lemma addParent_spec fuel : ancestorsSpec h P fuel.
Proof.
  induction fuel as [|fuel IH]; intros parentNode n [am seen] Hpos Hfuel Hn HP; [lia|].
  rewrite addParent_unfold. cbv zeta.
  set (am1 := addIdent (W.ident (node h n)) (W.ident (node h parentNode)) am).
  assert (Hkeys1 : forall k, mhas k am = true -> mhas k am1 = true).
  { intros k Hk. apply mhas_addIdent. auto. }
  assert (Hn1 : mhas (W.ident (node h n)) am1 = true).
  { apply mhas_addIdent. auto. }
  simpl in Hfuel, HP. destruct (shas n seen) eqn:Hseen.
  - apply shas_true in Hseen. exists (am1, seen).
    split; [reflexivity|]. split; [exact Hseen|]. split; [exact Hn1|].
    split; [exact HP|].
    split; [auto|]. split; [exact Hkeys1|]. intros m Hm Hfresh. contradiction.
  - apply shas_false in Hseen.
    destruct (ancestors_loop fuel IH n Hn (nonPeerDependencies h n)
                (am1, sadd n seen)) as (s' & Hrun & Hds & HP' & Hsub & Hkeys & Hnew).
    { auto. }
    { simpl. intros x Hx. apply elem_sadd in Hx as [->|Hx]; auto. }
    { simpl. intros Hds. assert (Hvalid : n < length h).
      { destruct (decide (n < length h)) as [|Hinv]; [assumption|].
        exfalso. apply Hds. unfold nonPeerDependencies.
        rewrite (node_invalid h n Hinv). reflexivity. }
      pose proof (unseenNodes_new h seen n Hvalid Hseen).
      specialize (Hfuel Hseen Hvalid). lia. }
    exists s'. split; [exact Hrun|]. simpl in Hsub, Hkeys, Hnew.
    assert (Hn' : n ∈ s'.2) by (apply Hsub, elem_sadd; auto).
    split; [exact Hn'|]. split; [auto|]. split; [exact HP'|].
    split; [intros x Hx; apply Hsub, elem_sadd; auto|]. split; [auto|].
    intros m Hm Hfresh d Hd. simpl in Hfresh.
    destruct (decide (m = n)) as [->|Hne].
    + apply Hds, Hd.
    + apply (Hnew m Hm); [|exact Hd].
      intros Hin. apply elem_sadd in Hin as [?|?]; contradiction.
Qed.

(** [buildAncestorMap] returns, and the nodes it has seen are covered by
    the map. *)
Lemma buildAncestorMap_covered (tree : nat) :
  P tree ->
  exists ancestorMap nodes,
    buildAncestorMap h tree = Ok ancestorMap
    /\ tree ∈ nodes
    /\ (forall n, n ∈ nodes -> P n)
    /\ covered ancestorMap h nodes.
Proof.
  intros Htree. unfold buildAncestorMap.
  destruct (ancestors_loop (walkFuel h) (addParent_spec (walkFuel h)) tree Htree
              (nonPeerDependencies h tree) ([], [tree]))
    as ([am seen] & Hrun & Hds & HP & Hsub & Hkeys & Hnew).
  { auto. }
  { simpl. intros x Hx. apply list_elem_of_singleton in Hx. subst x. exact Htree. }
  { intros _. pose proof (unseenNodes_bound h [tree]). unfold walkFuel. simpl. lia. }
  exists am, seen. rewrite Hrun. simpl in *.
  split; [reflexivity|]. split; [apply Hsub; left|]. split; [exact HP|].
  intros n d Hn Hd. destruct (decide (n = tree)) as [->|Hne].
  - apply Hds, Hd.
  - apply (Hnew n Hn); [|exact Hd]. intros Hin.
    apply list_elem_of_singleton in Hin. contradiction.
Qed.
End Ancestors.

(** ** The search does not fail *)

Lemma erased_fields (a b : W.t) :
  eraseReasons a = eraseReasons b ->
  W.name a = W.name b /\ W.ident a = W.ident b /\ W.locator a = W.locator b
  /\ W.dependencies a = W.dependencies b /\ W.peerNames a = W.peerNames b.
Proof.
  intros H. unfold eraseReasons, W.with_reasons in H. injection H as -> _ -> -> -> _ _ _ ->.
  repeat split.
Qed.

Lemma erased_isPeer (h h0 : list W.t) n d :
  (forall r, eraseReasons (node h r) = eraseReasons (node h0 r)) ->
  isPeer h n d = isPeer h0 n d.
Proof.
  intros Hsame. unfold isPeer.
  destruct (erased_fields _ _ (Hsame n)) as (_ & _ & _ & _ & ->).
  destruct (erased_fields _ _ (Hsame d)) as (-> & _). reflexivity.
Qed.

Lemma unseenLocators_mono (h0 : list W.t) (seen seen' : list string) :
  (forall x, x ∈ seen -> x ∈ seen') -> unseenLocators h0 seen' <= unseenLocators h0 seen.
Proof.
  intros Hsub. apply filter_length_le. intros i Hi.
  destruct (shas i seen) eqn:Hs; [|reflexivity].
  apply shas_true, Hsub, shas_true in Hs. rewrite Hs in Hi. discriminate.
Qed.

Lemma locator_in_universe (h0 : list W.t) n :
  W.locator (node h0 n) ∈ map W.locator h0 ++ [W.locator W.dummy].
Proof.
  unfold node. destruct (h0 !! n) as [w|] eqn:Hn; simpl.
  - apply elem_of_app. left. apply list_elem_of_fmap. exists w.
    split; [reflexivity|]. apply list_elem_of_lookup. eauto.
  - apply elem_of_app. right. left.
Qed.

Lemma unseenLocators_new (h0 : list W.t) (seen : list string) n :
  W.locator (node h0 n) ∉ seen ->
  unseenLocators h0 (sadd (W.locator (node h0 n)) seen) < unseenLocators h0 seen.
Proof.
  intros Hseen. apply (filter_length_lt _ _ _ (W.locator (node h0 n))).
  - intros i Hi. destruct (shas i seen) eqn:Hs; [|reflexivity].
    assert (Hi' : shas i (sadd (W.locator (node h0 n)) seen) = true).
    { apply shas_true, elem_sadd. right. apply shas_true, Hs. }
    rewrite Hi' in Hi. discriminate.
  - apply locator_in_universe.
  - assert (Hn' : shas (W.locator (node h0 n)) (sadd (W.locator (node h0 n)) seen)
                  = true).
    { apply shas_true, elem_sadd. left. reflexivity. }
    rewrite Hn'. reflexivity.
  - apply shas_false in Hseen. rewrite Hseen. reflexivity.
Qed.

Lemma unseenLocators_bound (h0 : list W.t) seen :
  unseenLocators h0 seen <= S (length h0).
Proof.
  unfold unseenLocators.
  assert (Hle : forall l : list string,
            length (List.filter (fun i => negb (shas i seen)) l) <= length l).
  { induction l as [|i l IH]; simpl; [lia|].
    destruct (negb (shas i seen)); simpl; lia. }
  etransitivity; [apply Hle|]. rewrite length_app, length_map. simpl. lia.
Qed.

Section SearchSafety.
Variables (rootNode : nat) (rootNodePath : list nat)
          (ancestorDependencies : list (string * nat))
          (ancestorMap : list (string * list string))
          (options : InternalHoistOptions)
          (h0 : list W.t) (nodes : list nat).
Hypothesis nodes_covered : covered ancestorMap h0 nodes.

Lemma erased_recordReason h parent n reason r :
  eraseReasons (node (recordReason rootNode h parent n reason) r)
  = eraseReasons (node h r).
Proof.
  unfold recordReason.
  destruct (mget _ _) as [[root ?]|]; [destruct (Nat.eqb root rootNode)|];
    try reflexivity;
    match goal with
    | |- context [update h ?p ?f] =>
        destruct (node_update h p r f) as [->|(_ & _ & ->)];
        [reflexivity|destruct (node h r); reflexivity]
    end.
Qed.

Lemma length_recordReason (h : list W.t) parent n reason :
  length (recordReason rootNode h parent n reason) = length h.
Proof.
  unfold recordReason.
  destruct (mget _ _) as [[root ?]|]; [destruct (Nat.eqb root rootNode)|];
    rewrite ?length_update; reflexivity.
Qed.

Lemma visit_safe st nodePath n :
  goodNode ancestorMap h0 nodes n ->
  Forall (goodNode ancestorMap h0 nodes) nodePath ->
  parents st <> [] ->
  safeInv ancestorMap h0 nodes st ->
  exists st' parent,
    visit rootNode rootNodePath ancestorDependencies ancestorMap options
          st nodePath n = Ok (st', parent)
    /\ parents st' = parents st
    /\ seenLocators st' = seenLocators st
    /\ safeInv ancestorMap h0 nodes st'.
Proof.
  intros Hn Hpath Hpar (Hlen & Hsame & Hcands). unfold visit.
  destruct (erased_fields _ _ (Hsame n)) as (_ & Hident & _).
  rewrite Hident. pose proof Hn as [Hin Hkey]. unfold mhas in Hkey.
  destruct (mget (W.ident (node h0 n)) ancestorMap) as [a|]; [clear Hkey|discriminate].
  destruct (hoistable _ _ _ _ st n (length a)) as [isHoistable reason].
  destruct (last (parents st)) as [top|] eqn:Hlast.
  2:{ exfalso. apply Hpar. destruct (parents st) as [|t l]; [reflexivity|].
      apply last_None in Hlast. discriminate. }
  destruct isHoistable; [|destruct (debug2 options)].
  - eexists _, _. split; [reflexivity|]. simpl. split; [reflexivity|].
    split; [reflexivity|]. split; [exact Hlen|]. split; [exact Hsame|].
    intros name hoistSet c Hhs Hc. unfold record in Hhs.
    apply elem_mset in Hhs as [[= -> ->]|Hhs]; [|apply (Hcands _ _ _ Hhs Hc)].
    simpl in Hc. apply elem_of_app in Hc as [Hc|Hc].
    + destruct (mget (W.name (node (heap st) n)) (hoistCandidates st)) as [c0|] eqn:Hc0.
      * destruct (negb _); simpl in Hc; [apply elem_of_nil in Hc as []|].
        apply mget_Some_elem in Hc0. apply (Hcands _ _ _ Hc0 Hc).
      * apply elem_of_nil in Hc as [].
    + apply list_elem_of_singleton in Hc. subst c. split; simpl.
      * exact Hn.
      * exact Hpath.
  - eexists _, _. split; [reflexivity|]. split; [reflexivity|].
    split; [reflexivity|].
    split; [exact (eq_trans (length_recordReason _ _ _ _) Hlen)|].
    split; [|exact Hcands].
    intros r. exact (eq_trans (erased_recordReason _ _ _ _ r) (Hsame r)).
  - eexists _, _. split; [reflexivity|]. split; [reflexivity|].
    split; [reflexivity|]. split; [exact Hlen|]. split; assumption.
Qed.

Lemma safeInv_push st parent n :
  safeInv ancestorMap h0 nodes st ->
  safeInv ancestorMap h0 nodes (pushTuple st parent n).
Proof. intros H. exact H. Qed.

Lemma regular_good st n dep :
  safeInv ancestorMap h0 nodes st ->
  n ∈ nodes ->
  dep ∈ mvalues (W.dependencies (node h0 n)) ->
  isPeer (heap st) n dep = false ->
  goodNode ancestorMap h0 nodes dep.
Proof.
  intros (_ & Hsame & _) Hn Hdep Hpeer. apply (nodes_covered n dep Hn).
  unfold regularEdge, nonPeerDependencies. apply list_elem_of_filter.
  split; [|exact Hdep]. rewrite <- (erased_isPeer _ _ _ _ Hsame). exact Hpeer.
Qed.

(** The loop over the dependencies of [n], given that the calls it makes
    behave. *)
Lemma compute_loop fuel
  (IH : computeSpec rootNode rootNodePath ancestorDependencies ancestorMap
                    options h0 nodes fuel)
  (nodePath : list nat) (n : nat) (cond : Search -> nat -> bool) :
  Forall (goodNode ancestorMap h0 nodes) nodePath ->
  n ∈ nodes ->
  (forall st dep, cond st dep = true -> isPeer (heap st) n dep = false) ->
  forall ds st,
    (forall d, d ∈ ds -> d ∈ mvalues (W.dependencies (node h0 n))) ->
    parents st <> [] ->
    safeInv ancestorMap h0 nodes st ->
    (ds <> [] -> unseenLocators h0 (seenLocators st) < fuel) ->
    exists st',
      forEach ds
        (fun st dep =>
           if cond st dep
           then computeHoistCandidates rootNode rootNodePath ancestorDependencies
                  ancestorMap options fuel nodePath dep st
           else Ok st) st = Ok st'
      /\ parents st' = parents st
      /\ (forall l, l ∈ seenLocators st -> l ∈ seenLocators st')
      /\ safeInv ancestorMap h0 nodes st'.
Proof.
  intros Hpath Hn Hcond. induction ds as [|d ds IHds]; intros st Hds Hpar Hinv Hfuel.
  - exists st. simpl. auto.
  - specialize (Hfuel ltac:(discriminate)).
    assert (Hstep : exists st1,
              (if cond st d
               then computeHoistCandidates rootNode rootNodePath
                      ancestorDependencies ancestorMap options fuel nodePath d st
               else Ok st) = Ok st1
              /\ parents st1 = parents st
              /\ (forall l, l ∈ seenLocators st -> l ∈ seenLocators st1)
              /\ safeInv ancestorMap h0 nodes st1).
    { destruct (cond st d) eqn:Hc.
      - apply IH; auto; [|lia].
        apply (regular_good st n d Hinv Hn); [apply Hds; left|apply Hcond, Hc].
      - exists st. auto. }
    destruct Hstep as (st1 & Hrun1 & Hpar1 & Hseen1 & Hinv1).
    destruct (IHds st1) as (st2 & Hrun2 & Hpar2 & Hseen2 & Hinv2).
    { intros x Hx. apply Hds. right. exact Hx. }
    { rewrite Hpar1. exact Hpar. }
    { exact Hinv1. }
    { intros _. pose proof (unseenLocators_mono h0 _ _ Hseen1). lia. }
    exists st2. split; [|split; [|split]].
    + simpl. rewrite Hrun1. exact Hrun2.
    + congruence.
    + auto.
    + exact Hinv2.
Qed.

Lemma computeHoistCandidates_safe fuel :
  computeSpec rootNode rootNodePath ancestorDependencies ancestorMap options
              h0 nodes fuel.
Proof.
  induction fuel as [|fuel IH];
    intros nodePath n st Hn Hpath Hpar Hinv Hpos Hfuel; [lia|].
  simpl.
  destruct (visit_safe st nodePath n Hn Hpath Hpar Hinv)
    as (st1 & parent & Hvisit & Hpar1 & Hseen1 & Hinv1).
  rewrite Hvisit. cbn [mbind result_bind].
  pose proof Hinv as (_ & Hsame & _). pose proof Hinv1 as (_ & Hsame1 & _).
  destruct (erased_fields _ _ (Hsame n)) as (_ & _ & Hloc & _).
  destruct (erased_fields _ _ (Hsame1 n)) as (_ & _ & Hloc1 & Hdeps1 & _).
  rewrite Hloc. destruct (shas (W.locator (node h0 n)) (seenLocators st)) eqn:Hs.
  - exists st1. split; [reflexivity|]. split; [exact Hpar1|].
    split; [rewrite Hseen1; auto|exact Hinv1].
  - apply shas_false in Hs.
    destruct (compute_loop fuel IH (nodePath ++ [n]) n
                (fun st dep => negb (isPeer (heap st) n dep) && negb (shas dep nodePath))
                ltac:(apply Forall_app; split; [exact Hpath|apply Forall_singleton, Hn])
                (proj1 Hn)
                ltac:(intros s d Hc; apply andb_true_iff in Hc as [Hc _];
                      apply negb_true_iff, Hc)
                (mvalues (W.dependencies (node (heap st1) n)))
                (pushTuple st1 parent n))
      as (st2 & Hrun & Hpar2 & Hseen2 & Hinv2).
    { intros d Hd. rewrite <- Hdeps1. exact Hd. }
    { simpl. intros Hnil. apply app_eq_nil in Hnil as [_ Hnil]. discriminate. }
    { apply safeInv_push, Hinv1. }
    { intros _. simpl. rewrite Hloc1, Hseen1.
      pose proof (unseenLocators_new h0 (seenLocators st) n Hs).
      specialize (Hfuel Hs). lia. }
    rewrite Hrun. cbn [mbind result_bind].
    exists (popTuple st2). split; [reflexivity|]. split; [|split].
    + simpl. rewrite Hpar2. simpl. rewrite removelast_last. exact Hpar1.
    + intros l Hl. simpl. apply Hseen2. simpl. rewrite Hseen1.
      apply elem_sadd. auto.
    + exact Hinv2.
Qed.

Lemma searchUnder_safe st dep :
  rootNode ∈ nodes ->
  dep ∈ mvalues (W.dependencies (node h0 rootNode)) ->
  parents st = [] ->
  safeInv ancestorMap h0 nodes st ->
  exists st',
    searchUnder rootNode rootNodePath ancestorDependencies ancestorMap options
                (walkFuel h0) st dep = Ok st'
    /\ parents st' = []
    /\ safeInv ancestorMap h0 nodes st'.
Proof.
  intros Hroot Hdep Hpar Hinv. unfold searchUnder.
  destruct (isPeer (heap st) rootNode dep) eqn:Hpeer; [exists st; auto|].
  pose proof (regular_good st rootNode dep Hinv Hroot Hdep Hpeer) as Hgood.
  pose proof Hinv as (_ & Hsame & _).
  destruct (erased_fields _ _ (Hsame dep)) as (_ & _ & _ & Hdeps & _).
  destruct (compute_loop (walkFuel h0) (computeHoistCandidates_safe (walkFuel h0))
              [dep] dep (fun st subDep => negb (isPeer (heap st) dep subDep))
              ltac:(apply Forall_singleton, Hgood) (proj1 Hgood)
              ltac:(intros s d Hc; apply negb_true_iff, Hc)
              (mvalues (W.dependencies (node (heap st) dep)))
              (pushTuple st rootNode dep))
    as (st2 & Hrun & Hpar2 & _ & Hinv2).
  { intros d Hd. rewrite <- Hdeps. exact Hd. }
  { simpl. intros Hnil. apply app_eq_nil in Hnil as [_ Hnil]. discriminate. }
  { apply safeInv_push, Hinv. }
  { intros _. pose proof (unseenLocators_bound h0
                            (seenLocators (pushTuple st rootNode dep))).
    unfold walkFuel. lia. }
  rewrite Hrun. cbn [mbind result_bind].
  exists (popTuple st2). split; [reflexivity|]. split; [|exact Hinv2].
  simpl. rewrite Hpar2. simpl. rewrite Hpar. reflexivity.
Qed.

(** The search returns: it neither fails nor runs out of nested calls, it
    changes nothing but reasons, and what it returns is good. *)
Lemma getHoistCandidates_safe :
  rootNode ∈ nodes ->
  exists sets h1,
    getHoistCandidates rootNode rootNodePath ancestorDependencies ancestorMap
                       options h0 = Ok (sets, h1)
    /\ length h1 = length h0
    /\ (forall r, eraseReasons (node h1 r) = eraseReasons (node h0 r))
    /\ forall hoistSet c,
         hoistSet ∈ sets -> c ∈ HoistCandidateSet.candidates hoistSet ->
         goodCandidate ancestorMap h0 nodes c.
Proof.
  intros Hroot. unfold getHoistCandidates.
  assert (Hloop : forall ds st,
            (forall d, d ∈ ds -> d ∈ mvalues (W.dependencies (node h0 rootNode))) ->
            parents st = [] -> safeInv ancestorMap h0 nodes st ->
            exists st',
              forEach ds (searchUnder rootNode rootNodePath ancestorDependencies
                            ancestorMap options (walkFuel h0)) st = Ok st'
              /\ safeInv ancestorMap h0 nodes st').
  { induction ds as [|d ds IHds]; intros st Hds Hpar Hinv.
    - exists st. auto.
    - destruct (searchUnder_safe st d Hroot (Hds d ltac:(left)) Hpar Hinv)
        as (st1 & Hrun1 & Hpar1 & Hinv1).
      destruct (IHds st1) as (st2 & Hrun2 & Hinv2); auto.
      { intros x Hx. apply Hds. right. exact Hx. }
      exists st2. simpl. rewrite Hrun1. auto. }
  destruct (Hloop (mvalues (W.dependencies (node h0 rootNode)))
              (mkSearch [] [] [W.locator (node h0 rootNode)] h0))
    as (st' & Hrun & Hlen & Hsame & Hcands); auto.
  { split; [reflexivity|]. split; [reflexivity|].
    intros name hoistSet c Hin. apply elem_of_nil in Hin as []. }
  rewrite Hrun. cbn [mbind result_bind]. eexists _, _.
  split; [reflexivity|]. split; [exact Hlen|]. split; [exact Hsame|].
  intros hoistSet c Hin Hc.
  apply list_elem_of_fmap in Hin as ([name hs] & -> & Hin).
  apply (Hcands name hs c Hin Hc).
Qed.
End SearchSafety.

Lemma safeResult_bind {A B : Type} allow (Q : A -> Prop) (R : B -> Prop)
  (m : result A) (k : A -> result B) :
  safeResult allow Q m ->
  (forall a, Q a -> safeResult allow R (k a)) ->
  safeResult allow R (m ≫= k).
Proof.
  destruct m as [a|e|]; simpl; intros Hm Hk; [apply Hk, Hm|exact Hm|exact I].
Qed.

Lemma safeResult_mono {A : Type} allow (Q R : A -> Prop) (m : result A) :
  safeResult allow Q m -> (forall a, Q a -> R a) -> safeResult allow R m.
Proof. destruct m as [a|e|]; simpl; auto. Qed.

Lemma safeResult_forEach {A S : Type} allow (Q : S -> Prop) (l : list A)
  (body : S -> A -> result S) :
  (forall s x, x ∈ l -> Q s -> safeResult allow Q (body s x)) ->
  forall s, Q s -> safeResult allow Q (forEach l body s).
Proof.
  induction l as [|x l IH]; intros Hbody s Hs; simpl; [exact Hs|].
  apply (safeResult_bind allow Q Q).
  - apply Hbody; [left|exact Hs].
  - intros s' Hs'. apply IH; [|exact Hs'].
    intros s0 y Hy. apply Hbody. right. exact Hy.
Qed.

Lemma extends_refl (h : list W.t) : extends h h.
Proof. split; [lia|auto]. Qed.

Lemma extends_trans (h1 h2 h3 : list W.t) :
  extends h1 h2 -> extends h2 h3 -> extends h1 h3.
Proof.
  intros [Hlen1 Hlab1] [Hlen2 Hlab2]. split; [lia|].
  intros r Hr. rewrite Hlab2 by lia. apply Hlab1, Hr.
Qed.

Lemma labels_update (h : list W.t) p f r :
  (forall w, labels (f w) = labels w) ->
  labels (node (update h p f) r) = labels (node h r).
Proof.
  intros Hf. destruct (node_update h p r f) as [->|(_ & _ & ->)]; auto.
Qed.

Lemma extends_update (h : list W.t) p f :
  (forall w, labels (f w) = labels w) -> extends h (update h p f).
Proof.
  intros Hf. split; [rewrite length_update; lia|].
  intros r _. apply labels_update, Hf.
Qed.

Lemma isPeer_labels (h h' : list W.t) n d :
  labels (node h' n) = labels (node h n) ->
  labels (node h' d) = labels (node h d) ->
  isPeer h' n d = isPeer h n d.
Proof.
  unfold isPeer, labels. intros [= _ _ ->] [= -> _ _]. reflexivity.
Qed.

Lemma regularEdge_iff (h : list W.t) n d :
  regularEdge h n d
  <-> d ∈ mvalues (W.dependencies (node h n)) /\ isPeer h n d = false.
Proof.
  unfold regularEdge, nonPeerDependencies. rewrite list_elem_of_filter. tauto.
Qed.

Lemma graphInv_update am (h : list W.t) nodes p f :
  graphInv am h nodes ->
  (forall w, labels (f w) = labels w) ->
  (forall d, d ∈ mvalues (W.dependencies (f (node h p))) ->
     d ∈ mvalues (W.dependencies (node h p))
     \/ (d ∈ nodes /\ mhas (W.ident (node h d)) am = true)) ->
  graphInv am (update h p f) nodes.
Proof.
  intros [Hclosed Hcov] Hf Hdeps.
  assert (Hold : forall n d,
            n ∈ nodes -> d ∈ mvalues (W.dependencies (node (update h p f) n)) ->
            d ∈ mvalues (W.dependencies (node h n))
            \/ (d ∈ nodes /\ mhas (W.ident (node h d)) am = true)).
  { intros n d Hn Hd.
    destruct (node_update h p n f) as [Heq|(-> & _ & Heq)]; rewrite Heq in Hd; auto. }
  assert (Hident : forall d, W.ident (node (update h p f) d) = W.ident (node h d)).
  { intros d. pose proof (labels_update h p f d Hf) as [= _ Hi _]. exact Hi. }
  split.
  - intros n Hn. rewrite length_update. destruct (Hclosed n Hn) as [Hlt Hds].
    split; [exact Hlt|]. intros d Hd.
    destruct (Hold n d Hn Hd) as [Hd'|[Hd' _]];
      [apply Hds, Hd'|apply (proj1 (Hclosed d Hd'))].
  - intros n d Hn Hedge. apply regularEdge_iff in Hedge as [Hd Hpeer].
    rewrite (isPeer_labels h) in Hpeer by (apply labels_update, Hf).
    rewrite Hident.
    destruct (Hold n d Hn Hd) as [Hd'|Hd']; [|exact Hd'].
    apply (Hcov n d Hn). apply regularEdge_iff. auto.
Qed.

Lemma grown_refl am (h : list W.t) nodes :
  graphInv am h nodes -> grown am h nodes h nodes.
Proof. intros H. split; [apply extends_refl|]. split; [auto|exact H]. Qed.

Lemma grown_trans am (h1 h2 h3 : list W.t) nodes1 nodes2 nodes3 :
  grown am h1 nodes1 h2 nodes2 -> grown am h2 nodes2 h3 nodes3 ->
  grown am h1 nodes1 h3 nodes3.
Proof.
  intros (He1 & Hs1 & _) (He2 & Hs2 & Hg). split; [|split; [auto|exact Hg]].
  apply (extends_trans _ _ _ He1 He2).
Qed.

Lemma grown_update am (h : list W.t) nodes p f :
  graphInv am h nodes ->
  (forall w, labels (f w) = labels w) ->
  (forall d, d ∈ mvalues (W.dependencies (f (node h p))) ->
     d ∈ mvalues (W.dependencies (node h p))
     \/ (d ∈ nodes /\ mhas (W.ident (node h d)) am = true)) ->
  grown am h nodes (update h p f) nodes.
Proof.
  intros Hg Hf Hdeps. split; [apply extends_update, Hf|].
  split; [auto|apply graphInv_update; auto].
Qed.

(** A copy of a covered node is covered. *)
Lemma grown_alloc am (h : list W.t) nodes n :
  graphInv am h nodes -> n ∈ nodes ->
  grown am h nodes (h ++ [node h n]) (length h :: nodes).
Proof.
  intros [Hclosed Hcov] Hn.
  assert (Hnode : forall m, m ∈ length h :: nodes ->
            exists m', m' ∈ nodes /\ node (h ++ [node h n]) m = node h m').
  { intros m Hm. apply elem_of_cons in Hm as [->|Hm].
    - exists n. split; [exact Hn|apply node_alloc_new].
    - exists m. split; [exact Hm|]. apply node_app_l, (proj1 (Hclosed m Hm)). }
  split; [|split].
  - split; [rewrite length_app; simpl; lia|].
    intros r Hr. rewrite node_app_l by exact Hr. reflexivity.
  - intros m Hm. right. exact Hm.
  - split.
    + intros m Hm. rewrite length_app. simpl. split.
      * apply elem_of_cons in Hm as [->|Hm]; [lia|].
        destruct (Hclosed m Hm). lia.
      * destruct (Hnode m Hm) as (m' & Hm' & ->). intros d Hd.
        destruct (Hclosed m' Hm') as [_ Hds]. specialize (Hds d Hd). lia.
    + intros m d Hm Hedge. apply regularEdge_iff in Hedge as [Hd Hpeer].
      destruct (Hnode m Hm) as (m' & Hm' & Heq).
      assert (Hlt : d < length h).
      { rewrite Heq in Hd. apply (proj2 (Hclosed m' Hm')), Hd. }
      assert (Hedge : regularEdge h m' d).
      { apply regularEdge_iff. split; [rewrite <- Heq; exact Hd|].
        unfold isPeer in *. rewrite Heq, node_app_l in Hpeer by exact Hlt.
        exact Hpeer. }
      destruct (Hcov m' d Hm' Hedge) as [Hd' Hid].
      split; [right; exact Hd'|]. rewrite node_app_l by exact Hlt. exact Hid.
Qed.

(** Reasons play no part. *)
Lemma grown_erased am (h h' : list W.t) nodes :
  graphInv am h nodes ->
  length h' = length h ->
  (forall r, eraseReasons (node h' r) = eraseReasons (node h r)) ->
  grown am h nodes h' nodes.
Proof.
  intros [Hclosed Hcov] Hlen Hsame.
  assert (Hfields : forall r,
            labels (node h' r) = labels (node h r)
            /\ W.dependencies (node h' r) = W.dependencies (node h r)).
  { intros r. specialize (Hsame r). unfold eraseReasons, W.with_reasons in Hsame.
    unfold labels. injection Hsame as -> _ -> _ -> _ _ _ ->. auto. }
  split; [|split; [auto|split]].
  - split; [lia|]. intros r _. apply Hfields.
  - intros n Hn. rewrite Hlen. destruct (Hfields n) as [_ ->]. apply Hclosed, Hn.
  - intros n d Hn Hedge. apply regularEdge_iff in Hedge as [Hd Hpeer].
    destruct (Hfields n) as [Hl Hdeps]. destruct (Hfields d) as [Hl' _].
    rewrite Hdeps in Hd. rewrite (isPeer_labels h h' n d Hl Hl') in Hpeer.
    pose proof Hl' as [= _ -> _].
    apply (Hcov n d Hn). apply regularEdge_iff. auto.
Qed.

Lemma goodNode_grown am (h h' : list W.t) nodes nodes' n :
  graphInv am h nodes -> grown am h nodes h' nodes' ->
  goodNode am h nodes n -> goodNode am h' nodes' n.
Proof.
  intros [Hclosed _] ([_ Hlab] & Hsub & _) [Hn Hid]. split; [auto|].
  pose proof (Hlab n (proj1 (Hclosed n Hn))) as [= _ -> _]. exact Hid.
Qed.

Lemma clonesIn_mono nodes nodes' c :
  (forall n, n ∈ nodes -> n ∈ nodes') -> clonesIn nodes c -> clonesIn nodes' c.
Proof.
  intros Hsub Hc. induction Hc as [r l Hr _ IH]. constructor; auto.
Qed.

Lemma mvalues_mset {V : Type} (k : string) (v : V) (m : list (string * V)) d :
  d ∈ mvalues (mset k v m) -> d = v \/ d ∈ mvalues m.
Proof.
  intros Hd. apply list_elem_of_fmap in Hd as ([k' v'] & -> & Hin).
  apply elem_mset in Hin as [[= -> ->]|Hin]; [left; reflexivity|right].
  apply list_elem_of_fmap. exists (k', v'). auto.
Qed.

Lemma mvalues_mdelete {V : Type} (k : string) (m : list (string * V)) d :
  d ∈ mvalues (mdelete k m) -> d ∈ mvalues m.
Proof.
  induction m as [|[k' v'] m IH]; simpl; [auto|].
  destruct (k =? k')%string; simpl; rewrite ?elem_of_cons; intros Hd.
  - right. exact Hd.
  - destruct Hd as [->|Hd]; [left; reflexivity|right; auto].
Qed.

Section HoistSafety.
Variables (tree : nat) (am : list (string * list string))
          (options : InternalHoistOptions).

(** The clones of a path are copies of covered nodes, linked under covered
    nodes. *)
Lemma clonePath_grown candidate nodePath :
  forall parentClonedNode (h : list W.t) nodes h' clonedTree last,
    graphInv am h nodes ->
    clonesIn nodes parentClonedNode ->
    Forall (goodNode am h nodes) nodePath ->
    clonePath candidate nodePath parentClonedNode h = (h', clonedTree, last) ->
    exists nodes',
      grown am h nodes h' nodes'
      /\ clonesIn nodes' clonedTree
      /\ last ∈ nodes'.
Proof.
  induction nodePath as [|n rest IH];
    intros pc h nodes h' ct l Hg Hpc Hpath Hrun; simpl in Hrun.
  - injection Hrun as <- <- <-. exists nodes.
    split; [apply grown_refl, Hg|]. split; [exact Hpc|].
    destruct Hpc as [r cs Hr _]. exact Hr.
  - apply Forall_cons in Hpath as [Hn Hrest].
    assert (Hfirst : exists nodes1,
              let '(nodeClone, h1) :=
                match mget n (children pc) with
                | Some c => (c, h)
                | None =>
                    let name := W.name (node h n) in
                    let '(h, c) := alloc h (node h n) in
                    (mkCloneTree c [],
                     update h (clone pc) (W.with_dependencies (mset name c)))
                end in
              grown am h nodes h1 nodes1 /\ clonesIn nodes1 nodeClone).
    { destruct (mget n (children pc)) as [c|] eqn:Hget.
      - exists nodes. split; [apply grown_refl, Hg|].
        destruct Hpc as [r cs _ Hcs]. apply (Hcs n c), mget_Some_elem, Hget.
      - exists (length h :: nodes). unfold alloc.
        pose proof (grown_alloc am h nodes n Hg (proj1 Hn)) as Hgrown.
        split.
        + apply (grown_trans _ _ _ _ _ _ _ Hgrown).
          apply grown_update; [apply Hgrown|reflexivity|].
          intros d Hd. simpl in Hd. apply mvalues_mset in Hd as [->|Hd]; [right|left; exact Hd].
          split; [left|]. rewrite node_alloc_new. exact (proj2 Hn).
        + constructor; [left|]. intros k c Hin. apply elem_of_nil in Hin as []. }
    destruct Hfirst as (nodes1 & Hfirst).
    destruct (match mget n (children pc) with Some c => _ | None => _ end)
      as [nodeClone h1].
    destruct Hfirst as [Hgrown1 Hclone1].
    set (h2 := update h1 (clone nodeClone)
                 (W.with_relayedDependencies
                    (mset (W.name (node h1 candidate)) candidate))) in Hrun.
    assert (Hgrown2 : grown am h nodes h2 nodes1).
    { apply (grown_trans _ _ _ _ _ _ _ Hgrown1).
      apply grown_update; [apply Hgrown1|reflexivity|]. intros d Hd. left. exact Hd. }
    destruct (clonePath candidate rest nodeClone h2) as [[h3 nodeClone'] last']
      eqn:Hrec.
    injection Hrun as <- <- <-.
    destruct (IH nodeClone h2 nodes1 h3 nodeClone' last') as (nodes' & Hgrown3 & Hclone3 & Hlast);
      [apply Hgrown2|exact Hclone1| |exact Hrec|].
    { eapply Forall_impl; [exact Hrest|]. intros x Hx.
      apply (goodNode_grown am h h2 nodes nodes1 x Hg Hgrown2 Hx). }
    exists nodes'. split; [apply (grown_trans _ _ _ _ _ _ _ Hgrown2 Hgrown3)|].
    split; [|exact Hlast].
    assert (Hsub : forall x, x ∈ nodes -> x ∈ nodes').
    { intros x Hx. apply Hgrown3, Hgrown2, Hx. }
    destruct Hpc as [r cs Hr Hcs]. simpl. constructor; [auto|].
    intros k c Hin. apply elem_mset in Hin as [[= -> ->]|Hin]; [exact Hclone3|].
    apply (clonesIn_mono nodes nodes' c Hsub), (Hcs k c Hin).
Qed.

Lemma mergeReferences_grown hoistedNode refs :
  forall (h : list W.t) nodes,
    graphInv am h nodes ->
    grown am h nodes
      (fold_left (fun h reference =>
                    update h hoistedNode (W.with_references (sadd reference)))
                 refs h) nodes.
Proof.
  induction refs as [|x refs IH]; intros h nodes Hg; simpl.
  - apply grown_refl, Hg.
  - assert (Hstep : grown am h nodes
                      (update h hoistedNode (W.with_references (sadd x))) nodes).
    { apply grown_update; [exact Hg|reflexivity|]. intros d Hd. left. exact Hd. }
    apply (grown_trans _ _ _ _ _ _ _ Hstep), IH, Hstep.
Qed.

Lemma addToRoot_grown rootNode candidate (h : list W.t) anc nodes :
  graphInv am h nodes ->
  goodNode am h nodes candidate ->
  grown am h nodes (addToRoot rootNode candidate (h, anc)).1 nodes.
Proof.
  intros Hg Hc. unfold addToRoot.
  destruct (mget _ (W.dependencies (node h rootNode))) as [hoistedNode|].
  - simpl. apply mergeReferences_grown, Hg.
  - destruct (negb _); simpl; [|apply grown_refl, Hg].
    apply grown_update; [exact Hg|reflexivity|].
    intros d Hd. simpl in Hd. apply mvalues_mset in Hd as [->|Hd]; [right|left; exact Hd].
    exact Hc.
Qed.

Lemma applyCandidate_safe rootNode (h : list W.t) clonedTree anc nodes candidate :
  graphInv am h nodes ->
  clonesIn nodes clonedTree ->
  goodCandidate am h nodes candidate ->
  safeResult (icheck options)
    (fun s => exists nodes',
       grown am h nodes s.1.1 nodes' /\ clonesIn nodes' s.1.2)
    (applyCandidate tree options rootNode (h, clonedTree, anc) candidate).
Proof.
  intros Hg Hct [Hnode Hpath]. unfold applyCandidate.
  destruct (clonePath _ _ clonedTree h) as [[h1 ct1] parentClone] eqn:Hrun.
  destruct (clonePath_grown _ _ _ _ _ _ _ _ Hg Hct Hpath Hrun)
    as (nodes1 & Hgrown1 & Hct1 & _).
  set (cnode := HoistCandidate.node candidate) in *.
  set (h2 := update h1 parentClone _).
  assert (Hgrown2 : grown am h nodes h2 nodes1).
  { apply (grown_trans _ _ _ _ _ _ _ Hgrown1).
    apply grown_update; [apply Hgrown1|reflexivity|].
    intros d Hd. left. simpl in Hd. apply mvalues_mdelete in Hd. exact Hd. }
  set (h3 := update h2 parentClone _).
  assert (Hgrown3 : grown am h nodes h3 nodes1).
  { apply (grown_trans _ _ _ _ _ _ _ Hgrown2).
    apply grown_update; [apply Hgrown2|reflexivity|]. intros d Hd. left. exact Hd. }
  pose proof (addToRoot_grown rootNode cnode h3 anc nodes1 (proj2 (proj2 Hgrown3))
                (goodNode_grown am h h3 nodes nodes1 cnode Hg Hgrown3 Hnode))
    as Hgrown4.
  destruct (addToRoot rootNode cnode (h3, anc)) as [h4 anc4]. simpl in Hgrown4.
  assert (Hdone : exists nodes',
            grown am h nodes h4 nodes' /\ clonesIn nodes' ct1).
  { exists nodes1. split; [|exact Hct1].
    apply (grown_trans _ _ _ _ _ _ _ Hgrown3 Hgrown4). }
  destruct (icheck options); [|exact Hdone].
  destruct (selfCheck_spec h4 tree) as (new & seen & -> & _).
  cbn [mbind result_bind]. destruct (negb _); [reflexivity|exact Hdone].
Qed.

Lemma hoistLoop_safe fuel :
  forall rootNode rootNodePath (h : list W.t) clonedTree anc nodes,
    graphInv am h nodes -> rootNode ∈ nodes -> clonesIn nodes clonedTree ->
    safeResult (icheck options)
      (fun s => exists nodes', grown am h nodes s.1.1 nodes')
      (hoistLoop tree am options fuel rootNode rootNodePath
                 (h, clonedTree, anc)).
Proof.
  induction fuel as [|fuel IH];
    intros rootNode path h ct anc nodes Hg Hroot Hct; [exact I|].
  simpl.
  destruct (getHoistCandidates_safe rootNode path anc am options h nodes
              (proj2 Hg) Hroot)
    as (sets & h1 & -> & Hlen & Hsame & Hgood).
  cbn [mbind result_bind].
  pose proof (grown_erased am h h1 nodes Hg Hlen Hsame) as Hgrown1.
  apply (safeResult_bind _
           (fun s => exists nodes',
              grown am h nodes s.1.1 nodes' /\ clonesIn nodes' s.1.2)).
  - apply safeResult_forEach; [|exists nodes; split; [exact Hgrown1|exact Hct]].
    intros s hoistSet Hin Hs. apply safeResult_forEach; [|exact Hs].
    intros [[h2 ct2] anc2] c Hc (nodes2 & Hgrown2 & Hct2). simpl in Hgrown2, Hct2.
    destruct (Hgood hoistSet c Hin Hc) as [Hnode Hpath].
    eapply safeResult_mono.
    + apply (applyCandidate_safe rootNode h2 ct2 anc2 nodes2 c);
        [apply Hgrown2|exact Hct2|].
      split; [apply (goodNode_grown am h h2 nodes nodes2 _ Hg Hgrown2 Hnode)|].
      eapply Forall_impl; [exact Hpath|]. intros x Hx.
      apply (goodNode_grown am h h2 nodes nodes2 x Hg Hgrown2 Hx).
    + intros s3 (nodes3 & Hgrown3 & Hct3). exists nodes3.
      split; [apply (grown_trans _ _ _ _ _ _ _ Hgrown2 Hgrown3)|exact Hct3].
  - intros [[h2 ct2] anc2] (nodes2 & Hgrown2 & Hct2). simpl in Hgrown2, Hct2.
    destruct (0 <? length sets)%nat; [|exists nodes2; exact Hgrown2].
    eapply safeResult_mono.
    + apply (IH rootNode path h2 ct2 anc2 nodes2);
        [apply Hgrown2|apply Hgrown2, Hroot|exact Hct2].
    + intros s3 (nodes3 & Hgrown3). exists nodes3.
      apply (grown_trans _ _ _ _ _ _ _ Hgrown2 Hgrown3).
Qed.

Lemma hoistTo_safe fuel :
  (forall rootNode panc seen (h : list W.t) path nodes,
     graphInv am h nodes -> rootNode ∈ nodes ->
     safeResult (icheck options)
       (fun s => exists nodes', grown am h nodes s.1 nodes')
       (hoistTo tree am options fuel rootNode panc seen (h, path)))
  /\ (forall rootNode anc k (h : list W.t) path nodes,
        graphInv am h nodes -> rootNode ∈ nodes ->
        safeResult (icheck options)
          (fun s => exists nodes', grown am h nodes s.1 nodes')
          (hoistDependencies tree am options fuel rootNode anc k (h, path))).
Proof.
  induction fuel as [|fuel [IHto IHdeps]]; [split; intros; exact I|].
  split.
  - intros rootNode panc seen h path nodes Hg Hroot. rewrite hoistTo_unfold.
    destruct (shas rootNode seen); [exists nodes; apply grown_refl, Hg|].
    cbv zeta.
    apply (safeResult_bind _
             (fun s => exists nodes', grown am h nodes s.1.1 nodes')).
    + apply hoistLoop_safe; [exact Hg|exact Hroot|].
      constructor; [exact Hroot|]. intros k c Hin. apply elem_of_nil in Hin as [].
    + intros [[h1 ct1] anc1] (nodes1 & Hgrown1). simpl in Hgrown1.
      eapply safeResult_mono.
      * apply (IHdeps rootNode anc1 0 h1 path nodes1);
          [apply Hgrown1|apply Hgrown1, Hroot].
      * intros s2 (nodes2 & Hgrown2). exists nodes2.
        apply (grown_trans _ _ _ _ _ _ _ Hgrown1 Hgrown2).
  - intros rootNode anc k h path nodes Hg Hroot. rewrite hoistDependencies_unfold.
    destruct (mvalues (W.dependencies (node h rootNode)) !! k) as [dependency|]
      eqn:Hk; [|exists nodes; apply grown_refl, Hg].
    cbv zeta.
    apply (safeResult_bind _
             (fun s => exists nodes', grown am h nodes s.1 nodes')).
    + destruct (isPeer h rootNode dependency) eqn:Hpeer; simpl;
        [exists nodes; apply grown_refl, Hg|].
      apply IHto; [exact Hg|].
      apply (proj2 Hg rootNode dependency Hroot), regularEdge_iff.
      split; [|exact Hpeer]. apply list_elem_of_lookup. exists k. exact Hk.
    + intros [h1 path1] (nodes1 & Hgrown1). simpl in Hgrown1.
      eapply safeResult_mono.
      * apply (IHdeps rootNode anc (S k) h1 _ nodes1);
          [apply Hgrown1|apply Hgrown1, Hroot].
      * intros s2 (nodes2 & Hgrown2). exists nodes2.
        apply (grown_trans _ _ _ _ _ _ _ Hgrown1 Hgrown2).
Qed.
End HoistSafety.

Lemma safeResult_allow {A : Type} (a b : bool) (Q : A -> Prop) (r : result A) :
  (a = true -> b = true) -> safeResult a Q r -> safeResult b Q r.
Proof. destruct r as [x|[|msg]|]; simpl; auto. Qed.

(** [shrinkTree] has no failure of its own. *)
Lemma shrinkAddNode_safe fuel :
  forall (h : list W.t) nodes n parentNode o,
    safeResult false (fun _ => True) (shrinkAddNode fuel h nodes n parentNode o).
Proof.
  induction fuel as [|fuel IH]; intros h nodes n p o; simpl; [exact I|].
  destruct (mget n nodes) as [r|]; simpl; [exact I|].
  apply safeResult_forEach; [|exact I]. intros s x _ _. apply IH.
Qed.

Lemma shrinkTree_safe fuel (h : list W.t) tree :
  safeResult false (fun _ => True) (shrinkTree fuel h tree).
Proof.
  unfold shrinkTree. apply (safeResult_bind _ (fun _ => True)); [|intros; exact I].
  apply safeResult_forEach; [|exact I]. intros s x _ _. apply shrinkAddNode_safe.
Qed.

Lemma linkAll_targets st0 seen ds :
  forall x d,
    d ∈ mvalues (W.dependencies (linkAll st0 seen ds x)) ->
    d ∈ mvalues (W.dependencies x) \/ d ∈ mvalues seen.
Proof.
  unfold linkAll. induction ds as [|i ds IH]; intros x d Hd; simpl in Hd; [auto|].
  apply IH in Hd as [Hd|Hd]; [|auto].
  destruct (mget i seen) as [w|] eqn:Hget; [|auto].
  simpl in Hd. apply mvalues_mset in Hd as [->|Hd]; [right|auto].
  apply (mvalues_elem i), Hget.
Qed.

(** The work graph that [cloneTree] makes is closed, and what
    [buildAncestorMap] makes of it covers the nodes under the root. *)
Lemma initial_graphInv tree st :
  exists seenNodes st' am nodes,
    cloneTree tree st = Ok (length (work st), (seenNodes, st'))
    /\ buildAncestorMap (work st') (length (work st)) = Ok am
    /\ length (work st) ∈ nodes
    /\ graphInv am (work st') nodes.
Proof.
  destruct (cloneTree_spec tree st) as (seen & st' & Hrun & Hinv & Htree & Hfin).
  exists seen, st'.
  assert (Hclosed : forall w, w ∈ mvalues seen ->
            w < length (work st')
            /\ forall d, d ∈ mvalues (W.dependencies (node (work st') w)) ->
                 d ∈ mvalues seen).
  { intros w Hw. split.
    - rewrite (ci_values _ _ _ Hinv) in Hw. apply elem_of_seq in Hw.
      rewrite (ci_length _ _ _ Hinv). lia.
    - apply list_elem_of_fmap in Hw as ([n w'] & -> & Hin). simpl.
      pose proof (elem_mget n w' seen (ci_keys _ _ _ Hinv) Hin) as Hget.
      destruct (Hfin n w' Hget) as [-> _]. intros d Hd.
      apply linkAll_targets in Hd as [Hd|Hd]; [|exact Hd].
      simpl in Hd. apply elem_of_nil in Hd as []. }
  destruct (buildAncestorMap_covered (work st') (fun n => n ∈ mvalues seen))
    with (tree := length (work st)) as (am & nodes & Ham & Hroot & HP & Hcov).
  { intros n d Hn Hedge. apply regularEdge_iff in Hedge as [Hd _].
    apply (Hclosed n Hn), Hd. }
  { apply (mvalues_elem tree), Htree. }
  exists am, nodes. split; [exact Hrun|]. split; [exact Ham|].
  split; [exact Hroot|]. split; [|exact Hcov].
  intros n Hn. destruct (Hclosed n (HP n Hn)) as [Hlt Hds]. split; [exact Hlt|].
  intros d Hd. apply (Hclosed d), Hds, Hd.
Qed.

(** [hoist] reads no property of [undefined], and throws the error of a
    failed check only where the options ask for the check. *)
Lemma hoist_safe toNumber fuel env tree opts st :
  safeResult (icheck (internalOptions toNumber opts env)
              || geNumber (idebugLevel (internalOptions toNumber opts env)) 1)
             (fun _ => True) (hoist toNumber fuel env tree opts st).
Proof.
  unfold hoist.
  destruct (initial_graphInv tree st)
    as (seen & st' & am & nodes & -> & Ham & Hroot & Hg).
  cbn [mbind result_bind]. rewrite Ham. cbn [mbind result_bind].
  set (o := internalOptions toNumber opts env).
  apply (safeResult_bind _ (fun _ => True)).
  - apply (safeResult_allow (icheck o)); [intros ->; reflexivity|].
    eapply safeResult_mono.
    + apply (proj1 (hoistTo_safe (length (work st)) am o fuel)
               (length (work st)) [] [] (work st') [length (work st)] nodes Hg Hroot).
    + intros; exact I.
  - intros [h path] _. apply (safeResult_bind _ (fun _ => True)).
    + destruct (geNumber (idebugLevel o) 1); [|exact I].
      destruct (selfCheck_spec h (length (work st))) as (new & seen' & -> & _).
      cbn [mbind result_bind]. destruct (negb _); [|exact I].
      simpl. apply orb_true_r.
    + intros _ _. apply (safeResult_bind _ (fun _ => True)); [|intros; exact I].
      apply (safeResult_allow false); [discriminate|apply shrinkTree_safe].
Qed.

Lemma geNumber_below (n : number) : geNumber n 1 = false -> geNumber n 9 = false.
Proof.
  destruct n as [|negative|negative m e]; cbn [geNumber]; [auto..|].
  cbv zeta. generalize (if negative then (- Z.of_N m)%Z else Z.of_N m).
  intros v. destruct (Z.leb_spec 0 e) as [He|He]; rewrite !Z.leb_gt.
  - generalize (v * 2 ^ e)%Z. intros; lia.
  - assert (Hpos : (0 < 2 ^ (- e))%Z) by (apply Z.pow_pos_nonneg; lia).
    revert Hpos. generalize (2 ^ (- e))%Z. intros; lia.
Qed.

Lemma hoist_no_TypeError toNumber fuel env tree opts st :
  hoist toNumber fuel env tree opts st <> Throw TypeError.
Proof.
  intros Heq. pose proof (hoist_safe toNumber fuel env tree opts st) as H.
  rewrite Heq in H. exact H.
Qed.

(** C9: with the check disabled and a debug level below 1, [hoist] throws
    neither a [TypeError] nor an [Error], whatever the input and whatever
    the engine makes of the environment variable: the search finds an entry
    of the ancestor map for every node it visits and a parent on its stack
    at every visit, and no check is run.  But it does not always return: on
    [twoVersionCycle] it gives no result, whatever the number of nested
    calls allowed; there the engine ends the recursion with a [RangeError],
    so that the call neither returns nor throws nothing. *)
Theorem hoist_unchecked_never_throws_cycle_no_result (toNumber : string -> number) :
  (forall fuel env tree opts st,
     default false (check opts) = false ->
     geNumber (effectiveDebugLevel toNumber opts env) 1 = false ->
     hoist toNumber fuel env tree opts st <> Throw TypeError
     /\ forall msg, hoist toNumber fuel env tree opts st <> Throw (Error msg))
  /\ forall fuel,
       hoist toNumber fuel None 0
             {| check := Some false; debugLevel := Some (Num (-1)) |}
             twoVersionCycle = OutOfFuel.
Proof.
  split.
  - intros fuel env tree opts st Hcheck Hlevel.
    pose proof (hoist_safe toNumber fuel env tree opts st) as H.
    split; [intros Heq|intros msg Heq]; rewrite Heq in H; simpl in H;
      [exact H|].
    unfold internalOptions in H. simpl in H.
    rewrite Hcheck, Hlevel, (geNumber_below _ Hlevel) in H. discriminate.
  - intros fuel. unfold hoist.
    change (cloneTree 0 twoVersionCycle)
      with (Ok (0, ([(0, 0); (1, 1); (2, 2); (3, 3)],
                    mkStore (inputs twoVersionCycle) cycleHeap))
            : result (ref * CloneState)).
    cbn [mbind result_bind work].
    change (buildAncestorMap cycleHeap 0) with (Ok cycleAncestors : result AncestorMap).
    cbn [mbind result_bind].
    change (internalOptions toNumber
              {| check := Some false; debugLevel := Some (Num (-1)) |} None)
      with quiet.
    cbv zeta.
    rewrite (proj1 (cycle_never_returns fuel _ _)). reflexivity.
Qed.

Lemma hoist_unchecked_never_throws_witness :
  default false (check {| check := Some false; debugLevel := Some (Num (-1)) |}) = false
  /\ geNumber (effectiveDebugLevel sampleNumber
                 {| check := Some false; debugLevel := Some (Num (-1)) |} (Some "5")) 1
     = false
  /\ hoist sampleNumber 8 (Some "5") 0
           {| check := Some false; debugLevel := Some (Num (-1)) |}
           equalWeights <> Throw TypeError.
Proof.
  split; [reflexivity|]. split; [reflexivity|].
  apply (proj1 (proj1 (hoist_unchecked_never_throws_cycle_no_result sampleNumber)
                         8 (Some "5") 0
                         {| check := Some false; debugLevel := Some (Num (-1)) |}
                         equalWeights eq_refl eq_refl)).
Defined.

(** ** What a node sees, and what hoist throws *)

(** X1: whatever the options and whatever the engine makes of the
    environment variable, [hoist] reads no property of [undefined], and
    when it throws an [Error], which is that of a failed check, the caller
    has asked for the check or the debug level is 1 or more.  A call that
    gives no result is not spoken of: the [RangeError] that ends a
    recursion without end is not an outcome of the model. *)
Theorem hoist_throws_only_failed_checks toNumber fuel env tree opts st :
  match hoist toNumber fuel env tree opts st with
  | Throw TypeError => False
  | Throw (Error _) =>
      default false (check opts) = true
      \/ geNumber (effectiveDebugLevel toNumber opts env) 1 = true
  | _ => True
  end.
Proof.
  pose proof (hoist_safe toNumber fuel env tree opts st) as H.
  destruct (hoist toNumber fuel env tree opts st) as [r|[|msg]|]; simpl in H; [exact I|exact H| |exact I].
  unfold internalOptions in H. simpl in H.
  destruct (default false (check opts)); [left; reflexivity|right].
  destruct (geNumber (effectiveDebugLevel toNumber opts env) 1) eqn:Hlevel; [reflexivity|].
  rewrite (geNumber_below _ Hlevel) in H. discriminate.
Qed.

Lemma last_filter_cons {A : Type} (p : A -> bool) (x : A) (l : list A) :
  last (List.filter p (x :: l))
  = match last (List.filter p l) with
    | Some y => Some y
    | None => if p x then Some x else None
    end.
Proof.
  simpl. destruct (p x); [|destruct (last _); reflexivity].
  rewrite last_cons. reflexivity.
Qed.

Lemma mget_fold_mset {A : Type} (key : A -> string) (k : string) (ds : list A) :
  forall m,
    mget k (fold_left (fun m d => mset (key d) d m) ds m)
    = match last (List.filter (fun d => String.eqb (key d) k) ds) with
      | Some d => Some d
      | None => mget k m
      end.
Proof.
  induction ds as [|d ds IH]; intros m; [reflexivity|].
  cbn [fold_left]. rewrite IH, last_filter_cons.
  destruct (last _) as [y|]; [reflexivity|].
  destruct (String.eqb_spec (key d) k) as [<-|Hne].
  - apply mget_mset_eq.
  - apply mget_mset_ne, Hne.
Qed.

(** X2: what a node makes visible under a name is its own regular
    dependency of that name, the last one if there are several, and what
    its parent makes visible when it has none. *)
Theorem overlay_lookup (h : list W.t) (n : nat) (parentDeps : list (string * nat))
  (k : string) :
  mget k (overlay h n parentDeps)
  = match lastNamed h k (nonPeerDependencies h n) with
    | Some d => Some d
    | None => mget k parentDeps
    end.
Proof.
  unfold overlay, lastNamed. revert parentDeps.
  induction (nonPeerDependencies h n) as [|d ds IH]; intros parentDeps;
    [reflexivity|].
  cbn [fold_left]. rewrite IH, last_filter_cons.
  destruct (last _) as [y|]; [reflexivity|].
  destruct (String.eqb_spec (W.name (node h d)) k) as [<-|Hne].
  - apply mget_mset_eq.
  - apply mget_mset_ne, Hne.
Qed.

(** ** The graph before hoisting *)

Lemma linkAll_lookup st0 seen (k : string) ds :
  forall x,
    Forall (fun d => is_Some (mget d seen)) ds ->
    mget k (W.dependencies (linkAll st0 seen ds x))
    = match lastNamedInput st0 k ds with
      | Some d => mget d seen
      | None => mget k (W.dependencies x)
      end.
Proof.
  unfold linkAll, lastNamedInput.
  induction ds as [|d ds IH]; intros x Hds; [reflexivity|].
  apply Forall_cons in Hds as [[w Hw] Hds].
  cbn [fold_left]. rewrite (IH _ Hds), last_filter_cons, Hw.
  destruct (last _) as [y|]; [reflexivity|]. simpl.
  destruct (String.eqb_spec (HoisterTree.name (input st0 d)) k) as [<-|Hne].
  - rewrite mget_mset_eq. symmetry. exact Hw.
  - apply mget_mset_ne, Hne.
Qed.

(** X3: in the graph that [cloneTree] makes, the work node of an input node
    [n] holds, under each name, the work node of the last dependency of [n]
    that has this name, and nothing under a name that no dependency of [n]
    has: of several dependencies of one name, the last one alone is
    kept. *)
Theorem cloneTree_keeps_last_of_a_name (tree : nat) (st : Store) :
  exists seenNodes st',
    cloneTree tree st = Ok (length (work st), (seenNodes, st'))
    /\ forall n w k,
         mget n seenNodes = Some w ->
         mget k (W.dependencies (node (work st') w))
         = match lastNamedInput st k (HoisterTree.dependencies (input st n)) with
           | Some d => mget d seenNodes
           | None => None
           end.
Proof.
  destruct (cloneTree_spec tree st) as (seen & st' & Hrun & Hinv & Htree & Hfin).
  exists seen, st'. split; [exact Hrun|]. intros n w k Hw.
  destruct (Hfin n w Hw) as [-> Hds]. unfold cloneOf.
  rewrite (linkAll_lookup _ _ _ _ _ Hds). reflexivity.
Qed.

Lemma cloneTree_keeps_last_of_a_name_witness :
  mget "A" (W.dependencies (node sameNameHeap 0)) = Some 2.
Proof.
  destruct (cloneTree_keeps_last_of_a_name 0 sameNameTwice)
    as (seen & st' & Hrun & Hlookup).
  vm_compute in Hrun. injection Hrun as <- <-.
  apply (Hlookup 0 0 "A"). reflexivity.
Defined.

Lemma same_key_same_value {V : Type} (m : list (string * V)) k a b :
  NoDup (mkeys m) -> (k, a) ∈ m -> (k, b) ∈ m -> a = b.
Proof.
  intros Hnd Ha Hb. pose proof (elem_mget k a m Hnd Ha) as Hget.
  rewrite (elem_mget k b m Hnd Hb) in Hget. congruence.
Qed.

(** A node whose original dependencies are its dependencies keeps its
    require promise, whatever is above it. *)
Lemma requireKept_unhoisted (h : list W.t) parentDeps n :
  wellKeyed h (W.dependencies (node h n)) ->
  W.originalDependencies (node h n) = W.dependencies (node h n) ->
  requireKept h parentDeps n.
Proof.
  intros [Hnd Hkeys] Horig origDep Hin Hpeer. rewrite Horig in Hin.
  unfold overlay. rewrite mget_fold_mset.
  assert (Hmem : origDep ∈ List.filter
                   (fun d => String.eqb (W.name (node h d)) (W.name (node h origDep)))
                   (nonPeerDependencies h n)).
  { apply list_elem_of_In, filter_In. split; [|apply String.eqb_refl].
    apply list_elem_of_In, regularEdge_iff. auto. }
  destruct (last _) as [d|] eqn:Hlast.
  - exists d. split; [reflexivity|].
    apply last_Some in Hlast as [l' Hl'].
    assert (Hd : d ∈ List.filter
                   (fun d => String.eqb (W.name (node h d)) (W.name (node h origDep)))
                   (nonPeerDependencies h n)).
    { rewrite Hl'. apply elem_of_app. right. left. }
    apply list_elem_of_In, filter_In in Hd as [Hd Hname].
    apply String.eqb_eq in Hname.
    apply list_elem_of_In, regularEdge_iff in Hd as [Hd _].
    apply list_elem_of_fmap in Hd as ([k1 d1] & -> & Hd).
    apply list_elem_of_fmap in Hin as ([k2 d2] & -> & Hin). simpl in *.
    pose proof (Hkeys _ _ Hd) as ->. pose proof (Hkeys _ _ Hin) as ->.
    rewrite Hname in Hd.
    rewrite (same_key_same_value _ _ _ _ Hnd Hd Hin). reflexivity.
  - apply last_None in Hlast. rewrite Hlast in Hmem.
    apply elem_of_nil in Hmem as [].
Qed.

Lemma wellKeyed_mset (h : list W.t) m k d :
  wellKeyed h m -> k = W.name (node h d) -> wellKeyed h (mset k d m).
Proof.
  intros [Hnd Hkeys] Hk. split; [apply NoDup_mkeys_mset, Hnd|].
  intros k' d' Hin. apply elem_mset in Hin as [[= -> ->]|Hin]; [exact Hk|].
  apply (Hkeys _ _ Hin).
Qed.

Lemma linkAll_wellKeyed (h : list W.t) st0 seen ds :
  (forall d w, mget d seen = Some w ->
     W.name (node h w) = HoisterTree.name (input st0 d)) ->
  forall x,
    wellKeyed h (W.dependencies x) ->
    wellKeyed h (W.dependencies (linkAll st0 seen ds x)).
Proof.
  intros Hnames. unfold linkAll.
  induction ds as [|d ds IH]; intros x Hx; [exact Hx|].
  cbn [fold_left]. apply IH. destruct (mget d seen) as [w|] eqn:Hw; [|exact Hx].
  simpl. apply wellKeyed_mset; [exact Hx|]. symmetry. apply (Hnames d w Hw).
Qed.

(** X4: the graph that [cloneTree] makes passes [selfCheck]. *)
Theorem selfCheck_passes_before_hoisting (tree : nat) (st : Store) :
  exists seenNodes st',
    cloneTree tree st = Ok (length (work st), (seenNodes, st'))
    /\ selfCheck (work st') (length (work st)) = Ok "".
Proof.
  destruct (cloneTree_spec tree st) as (seen & st' & Hrun & Hinv & Htree & Hfin).
  exists seen, st'. split; [exact Hrun|].
  set (h := work st'). set (base := length (work st)).
  assert (Hnode : forall w, w ∈ mvalues seen ->
            exists n, mget n seen = Some w /\ node h w = cloneOf st seen n).
  { intros w Hw. apply list_elem_of_fmap in Hw as ([n w'] & -> & Hin).
    pose proof (elem_mget n w' seen (ci_keys _ _ _ Hinv) Hin) as Hget.
    exists n. split; [exact Hget|]. apply (Hfin n w' Hget). }
  assert (Hreach : forall c m, chain h base c m -> m ∈ mvalues seen).
  { intros c m Hc. induction Hc as [|c m d Hc IH Hedge].
    - apply (mvalues_elem tree), Htree.
    - destruct (Hnode m IH) as (n & _ & Hm).
      apply regularEdge_iff in Hedge as [Hd _]. rewrite Hm in Hd.
      apply linkAll_targets in Hd as [Hd|Hd]; [|exact Hd].
      simpl in Hd. apply elem_of_nil in Hd as []. }
  destruct (selfCheck_spec h base) as (new & seen' & -> & _ & _ & _ & Hgood & _).
  rewrite Hgood; [reflexivity|].
  intros c m Hc. destruct (Hnode m (Hreach c m Hc)) as (n & Hget & Hm).
  apply requireKept_unhoisted.
  - rewrite Hm. apply linkAll_wellKeyed.
    + intros d w Hw. apply (seen_name st seen st' d w Hinv Hw).
    + split; [constructor|]. intros k d Hin. apply elem_of_nil in Hin as [].
  - rewrite Hm. symmetry. apply linkAll_dependencies. reflexivity.
Qed.

(** ** prettyPrintLocator *)

Lemma index_char_cons (a c : ascii) (s : string) :
  String.index 0 (String a "") (String c s)
  = if Ascii.eqb a c then Some 0
    else option_map S (String.index 0 (String a "") s).
Proof.
  cbn [String.index String.prefix].
  destruct (ascii_dec a c) as [<-|Hne].
  - rewrite Ascii.eqb_refl. destruct s; reflexivity.
  - apply Ascii.eqb_neq in Hne. rewrite Hne.
    destruct (String.index 0 (String a "") s); reflexivity.
Qed.

Lemma index_char_absent (a : ascii) (s : string) :
  occurs a s = false -> String.index 0 (String a "") s = None.
Proof.
  induction s as [|c s IH]; [reflexivity|].
  cbn [occurs]. intros Hocc. apply orb_false_iff in Hocc as [Hc Hs].
  rewrite index_char_cons, Hc, (IH Hs). reflexivity.
Qed.

Lemma index_char_first (a : ascii) (pre post : string) :
  occurs a pre = false ->
  String.index 0 (String a "") (pre +:+ String a post) = Some (String.length pre).
Proof.
  induction pre as [|c pre IH].
  - intros _. rewrite append_nil_l, index_char_cons, Ascii.eqb_refl. reflexivity.
  - cbn [occurs]. intros Hocc. apply orb_false_iff in Hocc as [Hc Hs].
    rewrite append_cons, index_char_cons, Hc, (IH Hs). reflexivity.
Qed.

Lemma occurs_append (a : ascii) (s t : string) :
  occurs a (s +:+ t) = occurs a s || occurs a t.
Proof.
  induction s as [|c s IH]; [reflexivity|].
  rewrite append_cons. cbn [occurs]. rewrite IH, orb_assoc. reflexivity.
Qed.

Lemma substring_prefix (pre post : string) :
  String.substring 0 (String.length pre) (pre +:+ post) = pre.
Proof.
  induction pre as [|c pre IH].
  - rewrite append_nil_l. destruct post; reflexivity.
  - rewrite append_cons. cbn [String.length String.substring]. rewrite IH.
    reflexivity.
Qed.

(** The split of a locator at the first ['@'] past its first character. *)
Lemma locator_split (c : ascii) (rest reference : string) :
  occurs "@" rest = false ->
  let name := String c rest in
  indexOf "@" 1 (makeLocator name reference) = Some (String.length name)
  /\ String.substring 0 (String.length name) (makeLocator name reference) = name
  /\ substringFrom (String.length name + 1) (makeLocator name reference)
     = reference.
Proof.
  intros Hrest name. unfold makeLocator, indexOf. split; [|split].
  - unfold name. rewrite append_cons. cbn [String.index].
    change ("@" +:+ reference) with (String "@" reference).
    rewrite (index_char_first "@" rest reference Hrest). reflexivity.
  - apply substring_prefix.
  - replace (name +:+ "@" +:+ reference) with ((name +:+ "@") +:+ reference)
      by (rewrite append_assoc; reflexivity).
    replace (String.length name + 1) with (String.length (name +:+ "@"))
      by apply length_append.
    apply substringFrom_app.
Qed.

Lemma prettyPrintLocator_split (c : ascii) (rest reference : string) :
  occurs "@" rest = false ->
  let name := String c rest in
  prettyPrintLocator (makeLocator name reference)
  = if String.eqb reference "workspace:." then "."
    else if String.eqb reference "" then name
    else
      let version :=
        removeFirst "npm:"
          (match indexOf "#" 0 reference with
           | Some (S _) => secondPiece reference
           | _ => reference
           end) in
      if String.prefix "virtual" reference then "v:" +:+ name +:+ "@" +:+ version
      else name +:+ "@" +:+ version.
Proof.
  intros Hrest name. destruct (locator_split c rest reference Hrest) as (Hidx & Hname & Href).
  fold name in Hidx, Hname, Href. unfold prettyPrintLocator.
  rewrite Hidx, Hname, Href. reflexivity.
Qed.

Lemma removeFirst_npm (version : string) :
  removeFirst "npm:" ("npm:" +:+ version) = version.
Proof.
  unfold removeFirst, indexOf.
  change ("npm:" +:+ version)
    with (String "n" (String "p" (String "m" (String ":" version)))).
  assert (Hidx : String.index 0 "npm:"
                   (String "n" (String "p" (String "m" (String ":" version))))
                 = Some 0).
  { cbn [String.index String.prefix]. destruct version; reflexivity. }
  rewrite Hidx. reflexivity || (cbn; apply substringFrom_0).
Qed.

(** X5: what [prettyPrintLocator] makes of the locator of a name and a
    reference, for a name that has no ['@'] past its first character:
    [.] for the workspace reference, the name alone for an empty reference,
    [name@version] for the reference [npm:version], and [v:name@version]
    for the virtual reference [virtual:hash#npm:version]. *)
Theorem prettyPrintLocator_of_makeLocator (c : ascii) (rest : string) :
  occurs "@" rest = false ->
  let name := String c rest in
  prettyPrintLocator (makeLocator name "workspace:.") = "."
  /\ prettyPrintLocator (makeLocator name "") = name
  /\ (forall version,
        occurs "#" version = false ->
        prettyPrintLocator (makeLocator name ("npm:" +:+ version))
        = name +:+ "@" +:+ version)
  /\ (forall hash version,
        occurs "#" hash = false -> occurs "#" version = false ->
        prettyPrintLocator
          (makeLocator name ("virtual:" +:+ hash +:+ "#npm:" +:+ version))
        = "v:" +:+ name +:+ "@" +:+ version).
Proof.
  intros Hrest name. split; [|split; [|split]].
  - apply (prettyPrintLocator_split c rest "workspace:." Hrest).
  - apply (prettyPrintLocator_split c rest "" Hrest).
  - intros version Hversion.
    rewrite (prettyPrintLocator_split c rest _ Hrest). fold name.
    change ("npm:" +:+ version)
      with (String "n" (String "p" (String "m" (String ":" version)))).
    cbn [String.eqb Ascii.eqb Bool.eqb String.prefix]. cbv zeta.
    change (String "n" (String "p" (String "m" (String ":" version))))
      with ("npm:" +:+ version).
    assert (Hfree : indexOf "#" 0 ("npm:" +:+ version) = None).
    { apply indexOf_hash_absent. rewrite occurs_append, Hversion. reflexivity. }
    rewrite Hfree, removeFirst_npm. reflexivity.
  - intros hash version Hhash Hversion.
    rewrite (prettyPrintLocator_split c rest _ Hrest). fold name.
    set (reference := "virtual:" +:+ hash +:+ "#npm:" +:+ version).
    assert (Href : reference
                   = String "v" (String "i" (String "r" (String "t" (String "u"
                       (String "a" (String "l" (String ":"
                          (hash +:+ "#npm:" +:+ version))))))))) by reflexivity.
    assert (Hnotws : String.eqb reference "workspace:." = false)
      by (rewrite Href; reflexivity).
    assert (Hnotempty : String.eqb reference "" = false)
      by (rewrite Href; reflexivity).
    assert (Hvirtual : String.prefix "virtual" reference = true)
      by (rewrite Href; reflexivity).
    rewrite Hnotws, Hnotempty, Hvirtual. cbv zeta.
    assert (Hsplit : reference = ("virtual:" +:+ hash) +:+ String "#" ("npm:" +:+ version)).
    { unfold reference. rewrite append_assoc. reflexivity. }
    assert (Hidx : indexOf "#" 0 reference = Some (String.length ("virtual:" +:+ hash))).
    { rewrite Hsplit. apply indexOf_hash_first.
      rewrite occurs_append, Hhash. reflexivity. }
    assert (Hsecond : secondPiece reference = "npm:" +:+ version).
    { unfold secondPiece. rewrite Hidx.
      replace reference with ((("virtual:" +:+ hash) +:+ "#") +:+ ("npm:" +:+ version))
        by (rewrite Hsplit, append_assoc; reflexivity).
      replace (String.length ("virtual:" +:+ hash) + 1)
        with (String.length (("virtual:" +:+ hash) +:+ "#"))
        by apply length_append.
      rewrite substringFrom_app.
      rewrite indexOf_hash_absent; [reflexivity|].
      rewrite occurs_append, Hversion. reflexivity. }
    rewrite Hidx, length_append. cbn [String.length "+"%nat].
    rewrite Hsecond, removeFirst_npm. reflexivity.
Qed.

Lemma prettyPrintLocator_of_makeLocator_witness :
  occurs "@" "scope/pkg" = false
  /\ prettyPrintLocator (makeLocator "@scope/pkg" ("npm:" +:+ "1.0.0"))
     = "@scope/pkg" +:+ "@" +:+ "1.0.0".
Proof.
  split; [reflexivity|].
  apply (proj1 (proj2 (proj2 (prettyPrintLocator_of_makeLocator "@" "scope/pkg" eq_refl)))).
  reflexivity.
Defined.

(** ** hoist on a leaf *)

(** X6: on an input node without dependencies, [hoist] returns a single
    node that has the name of the input node and its reference alone,
    whatever the options; the work graph has gained the one work node of
    the input node. *)
Theorem hoist_of_a_leaf toNumber fuel env tree opts st :
  HoisterTree.dependencies (input st tree) = [] ->
  hoist toNumber (S (S fuel)) env tree opts st
  = Ok (mkStore (inputs st) (work st ++ [newWorkNode (input st tree)]),
        ([HoisterResult.mk (HoisterTree.name (input st tree))
                           [HoisterTree.reference (input st tree)] []], 0)).
Proof.
  intros Hleaf. unfold hoist, cloneTree, alloc. rewrite Hleaf.
  cbn [forEach mbind result_bind work inputs].
  set (h := work st ++ [newWorkNode (input st tree)]).
  set (base := length (work st)).
  assert (Hnode : node h base = newWorkNode (input st tree))
    by apply node_alloc_new.
  assert (Hnone : nonPeerDependencies h base = []).
  { unfold nonPeerDependencies. rewrite Hnode. reflexivity. }
  unfold buildAncestorMap. rewrite Hnone. cbn [forEach mbind result_bind fst].
  rewrite hoistTo_unfold. cbn [shas]. cbv zeta.
  assert (Hloop : forall o anc,
            hoistLoop base [] o (S fuel) base [base] (h, mkCloneTree base [], anc)
            = Ok (h, mkCloneTree base [], anc)).
  { intros o anc. cbn [hoistLoop]. unfold getHoistCandidates.
    rewrite Hnode. reflexivity. }
  rewrite Hloop. cbn [mbind result_bind].
  rewrite hoistDependencies_unfold, Hnode.
  cbn [W.dependencies newWorkNode mvalues map lookup list_lookup mbind result_bind].
  assert (Hcheck : selfCheck h base = Ok "").
  { unfold selfCheck, walkFuel. change (2 + length h) with (S (S (length h))).
    rewrite checkNode_unfold, Hnone, Hnode. reflexivity. }
  assert (Hfinal : (if geNumber (idebugLevel (internalOptions toNumber opts env)) 1
                    then
                      checkLog ← selfCheck h base;
                      if negb (checkLog =? "")%string
                      then Throw (Error (checkLog +:+ ", after hoisting finished:"
                                         +:+ newline +:+ dumpOf h base))
                      else Ok ()
                    else Ok ()) = Ok ()).
  { rewrite Hcheck. destruct (geNumber _ 1); reflexivity. }
  rewrite Hfinal. cbn [mbind result_bind].
  unfold shrinkTree. rewrite Hnode. reflexivity.
Qed.

Lemma hoist_of_a_leaf_witness :
  hoist sampleNumber 2 None 1 defaultOptions twoVersionCycle
  = Ok (mkStore (inputs twoVersionCycle) [newWorkNode (HoisterTree.mk "." "2" [] [])],
        ([HoisterResult.mk "." ["2"] []], 0)).
Proof. apply (hoist_of_a_leaf sampleNumber 0 None 1 defaultOptions twoVersionCycle). reflexivity. Defined.

(** ** The shape of the result *)

Lemma rnode_app_l (o o' : list HoisterResult.t) q :
  q < length o -> rnode (o ++ o') q = rnode o q.
Proof. intros Hq. unfold rnode. rewrite lookup_app_l by exact Hq. reflexivity. Qed.

Lemma rnode_new (o : list HoisterResult.t) w : rnode (o ++ [w]) (length o) = w.
Proof.
  unfold rnode. rewrite lookup_app_r by lia. rewrite Nat.sub_diag. reflexivity.
Qed.

Lemma rnode_invalid (o : list HoisterResult.t) q :
  length o <= q -> rnode o q = HoisterResult.dummy.
Proof. intros Hq. unfold rnode. rewrite lookup_ge_None_2 by exact Hq. reflexivity. Qed.

Lemma rnode_addResultChild (o : list HoisterResult.t) parentNode r q :
  rnode (addResultChild parentNode r o) q
  = if decide (q = parentNode /\ parentNode < length o)
    then HoisterResult.mk (HoisterResult.name (rnode o q))
                          (HoisterResult.references (rnode o q))
                          (sadd r (HoisterResult.dependencies (rnode o q)))
    else rnode o q.
Proof.
  unfold addResultChild, rnode. destruct (decide _) as [[-> Hp]|Hno].
  - rewrite list_lookup_alter_eq.
    destruct (lookup_lt_is_Some_2 o parentNode Hp) as [w ->]. reflexivity.
  - destruct (decide (q = parentNode)) as [->|Hne].
    + rewrite list_lookup_alter_eq.
      rewrite lookup_ge_None_2 by (apply Nat.nlt_ge; intros Hp; apply Hno; auto).
      reflexivity.
    + rewrite list_lookup_alter_ne by congruence. reflexivity.
Qed.

Lemma length_addResultChild (o : list HoisterResult.t) parentNode r :
  length (addResultChild parentNode r o) = length o.
Proof. unfold addResultChild. apply length_alter. Qed.

Lemma deps_addResultChild (o : list HoisterResult.t) parentNode r q d :
  d ∈ HoisterResult.dependencies (rnode (addResultChild parentNode r o) q)
  <-> d ∈ HoisterResult.dependencies (rnode o q)
      \/ (d = r /\ q = parentNode /\ parentNode < length o).
Proof.
  rewrite rnode_addResultChild. destruct (decide _) as [[-> Hp]|Hno]; simpl.
  - rewrite elem_sadd. intuition.
  - intuition.
Qed.

Lemma sameResults_refl (o : list HoisterResult.t) : sameResults o o.
Proof. split; [lia|auto]. Qed.

Lemma sameResults_trans (o1 o2 o3 : list HoisterResult.t) :
  sameResults o1 o2 -> sameResults o2 o3 -> sameResults o1 o3.
Proof.
  intros [Hlen1 H1] [Hlen2 H2]. split; [lia|]. intros q Hq.
  destruct (H1 q Hq) as [<- <-]. apply H2. lia.
Qed.

Lemma sameResults_addResultChild (o : list HoisterResult.t) parentNode r :
  sameResults o (addResultChild parentNode r o).
Proof.
  split; [rewrite length_addResultChild; lia|]. intros q _.
  rewrite rnode_addResultChild. destruct (decide _); auto.
Qed.

Lemma sameResults_app (o : list HoisterResult.t) w : sameResults o (o ++ [w]).
Proof.
  split; [rewrite length_app; lia|]. intros q Hq.
  rewrite rnode_app_l by exact Hq. auto.
Qed.

(** A dependency on the root. *)
Lemma treeShaped_root_child (o : list HoisterResult.t) parentNode :
  treeShaped o -> treeShaped (addResultChild parentNode 0 o).
Proof.
  intros [Hroot Hrange Hparent Hunique]. constructor.
  - rewrite length_addResultChild. exact Hroot.
  - intros p d Hd. rewrite length_addResultChild.
    apply deps_addResultChild in Hd as [Hd|[-> _]]; [eauto|exact Hroot].
  - intros i Hi. rewrite length_addResultChild in Hi.
    destruct (Hparent i Hi) as (p & Hp & Hin). exists p. split; [exact Hp|].
    apply deps_addResultChild. left. exact Hin.
  - intros i p q Hi Hp Hq.
    apply deps_addResultChild in Hp as [Hp|[-> _]]; [|lia].
    apply deps_addResultChild in Hq as [Hq|[-> _]]; [|lia].
    apply (Hunique i p q Hi Hp Hq).
Qed.

(** A new node under [parentNode]. *)
Lemma treeShaped_new_child (o : list HoisterResult.t) parentNode w :
  treeShaped o -> parentNode < length o ->
  HoisterResult.dependencies w = [] ->
  treeShaped (addResultChild parentNode (length o) (o ++ [w])).
Proof.
  intros [Hroot Hrange Hparent Hunique] Hp Hw.
  assert (Hold : forall q d,
            d ∈ HoisterResult.dependencies (rnode (o ++ [w]) q) ->
            d ∈ HoisterResult.dependencies (rnode o q)).
  { intros q d Hd. destruct (decide (q < length o)) as [Hq|Hq].
    - rewrite rnode_app_l in Hd by exact Hq. exact Hd.
    - destruct (decide (q = length o)) as [->|Hne].
      + rewrite rnode_new, Hw in Hd. apply elem_of_nil in Hd as [].
      + rewrite rnode_invalid in Hd by (rewrite length_app; simpl; lia).
        apply elem_of_nil in Hd as []. }
  constructor.
  - rewrite length_addResultChild, length_app. lia.
  - intros p d Hd. rewrite length_addResultChild, length_app. simpl.
    apply deps_addResultChild in Hd as [Hd|[-> _]]; [|lia].
    apply Hold, Hrange in Hd. lia.
  - intros i Hi. rewrite length_addResultChild, length_app in Hi. simpl in Hi.
    destruct (decide (i = length o)) as [->|Hne].
    + exists parentNode. split; [exact Hp|]. apply deps_addResultChild. right.
      rewrite length_app. simpl. split; [reflexivity|]. split; [reflexivity|lia].
    + destruct (Hparent i ltac:(lia)) as (p & Hlt & Hin). exists p.
      split; [exact Hlt|]. apply deps_addResultChild. left.
      rewrite rnode_app_l by lia. exact Hin.
  - intros i p q Hi Hin1 Hin2.
    apply deps_addResultChild in Hin1 as [Hin1|(-> & -> & _)];
      apply deps_addResultChild in Hin2 as [Hin2|(Heq & -> & _)].
    + apply (Hunique i p q Hi); apply Hold; assumption.
    + subst i. apply Hold, Hrange in Hin1. lia.
    + apply Hold, Hrange in Hin2. lia.
    + reflexivity.
Qed.

Lemma shrinkAddNode_shape fuel (h : list W.t) (tree : nat) :
  forall n parentNode (o o' : list HoisterResult.t),
    treeShaped o -> parentNode < length o ->
    shrinkAddNode fuel h [(tree, 0)] n parentNode o = Ok o' ->
    treeShaped o' /\ sameResults o o'.
Proof.
  induction fuel as [|fuel IH]; intros n parentNode o o' Hshape Hp Hrun;
    [discriminate|].
  simpl in Hrun. destruct (Nat.eqb n tree).
  - simpl in Hrun. injection Hrun as <-.
    split; [apply treeShaped_root_child, Hshape|apply sameResults_addResultChild].
  - simpl in Hrun.
    set (w := HoisterResult.mk (W.name (node h n)) (W.references (node h n)) []) in Hrun.
    set (o1 := addResultChild parentNode (length o) (o ++ [w])) in Hrun.
    assert (Hshape1 : treeShaped o1)
      by (apply treeShaped_new_child; [exact Hshape|exact Hp|reflexivity]).
    assert (Hsame1 : sameResults o o1).
    { apply (sameResults_trans _ (o ++ [w]));
        [apply sameResults_app|apply sameResults_addResultChild]. }
    assert (Hnew : length o < length o1).
    { unfold o1. rewrite length_addResultChild, length_app. simpl. lia. }
    assert (Hpost : treeShaped o' /\ sameResults o1 o').
    { revert Hrun.
      apply (forEach_preserves (fun o2 => treeShaped o2 /\ sameResults o1 o2)).
      - intros o2 dep o3 [Hshape2 Hsame2] Hbody.
        destruct (IH dep (length o) o2 o3 Hshape2) as [Hshape3 Hsame3];
          [destruct Hsame2; lia|exact Hbody|].
        split; [exact Hshape3|apply (sameResults_trans _ _ _ Hsame2 Hsame3)].
      - split; [exact Hshape1|apply sameResults_refl]. }
    split; [apply Hpost|apply (sameResults_trans _ _ _ Hsame1), Hpost].
Qed.

(** The loop of [shrinkTree] over the dependencies of the root. *)
Lemma shrinkTree_loop fuel (h : list W.t) (tree : nat) w ds
  (o : list HoisterResult.t) :
  HoisterResult.dependencies w = [] ->
  forEach ds (fun o dep => shrinkAddNode fuel h [(tree, 0)] dep 0 o) [w] = Ok o ->
  treeShaped o /\ sameResults [w] o.
Proof.
  intros Hw.
  assert (Hinit : treeShaped [w]).
  { constructor.
    - simpl. lia.
    - intros [|p] d Hd; cbn in Hd; [rewrite Hw in Hd|];
        apply elem_of_nil in Hd as [].
    - simpl. intros i Hi. lia.
    - intros i [|p] q _ Hd; cbn in Hd; [rewrite Hw in Hd|];
        apply elem_of_nil in Hd as []. }
  apply (forEach_preserves (fun o2 => treeShaped o2 /\ sameResults [w] o2)).
  - intros o2 dep o3 [Hshape2 Hsame2] Hbody.
    destruct (shrinkAddNode_shape fuel h tree dep 0 o2 o3 Hshape2) as [Hshape3 Hsame3];
      [apply Hshape2|exact Hbody|].
    split; [exact Hshape3|apply (sameResults_trans _ _ _ Hsame2 Hsame3)].
  - split; [exact Hinit|apply sameResults_refl].
Qed.

(** X7: the graph that [shrinkTree] returns is a tree below its root,
    which is node 0 and has the name and the references of the work root:
    every node but the root is the dependency of exactly one node, so a
    work node that several nodes share is copied once for each of them;
    only the root is ever met again. *)
Theorem shrinkTree_returns_a_tree fuel (h : list W.t) (tree : nat)
  (o : list HoisterResult.t) (treeCopy : nat) :
  shrinkTree fuel h tree = Ok (o, treeCopy) ->
  treeCopy = 0
  /\ HoisterResult.name (rnode o 0) = W.name (node h tree)
  /\ HoisterResult.references (rnode o 0) = W.references (node h tree)
  /\ treeShaped o.
Proof.
  unfold shrinkTree.
  set (w := HoisterResult.mk (W.name (node h tree)) (W.references (node h tree)) []).
  destruct (forEach _ _ [w]) as [o1| |] eqn:Hrun; cbn [mbind result_bind];
    [|discriminate..].
  intros [= <- <-]. split; [reflexivity|].
  destruct (shrinkTree_loop fuel h tree w _ _ eq_refl Hrun) as [Hshape [_ Hsame]].
  destruct (Hsame 0) as [-> ->]; [simpl; lia|]. auto.
Qed.

Lemma shrinkTree_returns_a_tree_witness :
  exists o,
    shrinkTree 5 duplicateHeap 0 = Ok (o, 0)
    /\ length o = 5
    /\ treeShaped o.
Proof.
  eexists. split; [vm_compute; reflexivity|]. split; [reflexivity|].
  eapply (shrinkTree_returns_a_tree 5 duplicateHeap 0).
  vm_compute. reflexivity.
Defined.

(** ** What the candidate search returns *)

Lemma forEach_preserves_in {A S : Type} (P : S -> Prop) (l : list A)
  (body : S -> A -> result S) :
  (forall s x s', x ∈ l -> P s -> body s x = Ok s' -> P s') ->
  forall s s', P s -> forEach l body s = Ok s' -> P s'.
Proof.
  induction l as [|x l IH]; intros Hbody s s' Hs; simpl.
  - intros [= <-]. exact Hs.
  - destruct (body s x) as [s1| |] eqn:Hb; simpl; [|discriminate..].
    apply IH.
    + intros s0 y s0' Hy. apply Hbody. right. exact Hy.
    + apply (Hbody s x s1); [left|exact Hs|exact Hb].
Qed.

Lemma find_pointwise {A : Type} (f g : A -> bool) (l : list A) :
  (forall a, f a = g a) -> find f l = find g l.
Proof.
  intros Hfg. induction l as [|x l IH]; [reflexivity|].
  simpl. rewrite Hfg, IH. reflexivity.
Qed.

Lemma erased_all (a b : W.t) :
  eraseReasons a = eraseReasons b ->
  W.name a = W.name b /\ W.ident a = W.ident b
  /\ W.dependencies a = W.dependencies b
  /\ W.originalDependencies a = W.originalDependencies b
  /\ W.hoistedDependencies a = W.hoistedDependencies b
  /\ W.relayedDependencies a = W.relayedDependencies b
  /\ W.peerNames a = W.peerNames b.
Proof.
  intros H. unfold eraseReasons, W.with_reasons in H.
  injection H as -> _ -> _ -> -> -> -> ->. repeat split.
Qed.

Lemma sameGraph_refl (h : list W.t) : sameGraph h h.
Proof. split; reflexivity. Qed.

Lemma sameGraph_trans (h1 h2 h3 : list W.t) :
  sameGraph h1 h2 -> sameGraph h2 h3 -> sameGraph h1 h3.
Proof.
  intros [Hlen1 H1] [Hlen2 H2]. split; [congruence|].
  intros r. rewrite H2. apply H1.
Qed.

Section Erased.
Variables (h h' : list W.t).
Hypothesis same : forall r, eraseReasons (node h' r) = eraseReasons (node h r).

Lemma erased_name r : W.name (node h' r) = W.name (node h r).
Proof. apply (erased_all _ _ (same r)). Qed.
Lemma erased_ident r : W.ident (node h' r) = W.ident (node h r).
Proof. apply (erased_all _ _ (same r)). Qed.
Lemma erased_dependencies r :
  W.dependencies (node h' r) = W.dependencies (node h r).
Proof. apply (erased_all _ _ (same r)). Qed.
Lemma erased_originalDependencies r :
  W.originalDependencies (node h' r) = W.originalDependencies (node h r).
Proof. apply (erased_all _ _ (same r)). Qed.
Lemma erased_hoistedDependencies r :
  W.hoistedDependencies (node h' r) = W.hoistedDependencies (node h r).
Proof. apply (erased_all _ _ (same r)). Qed.
Lemma erased_relayedDependencies r :
  W.relayedDependencies (node h' r) = W.relayedDependencies (node h r).
Proof. apply (erased_all _ _ (same r)). Qed.
Lemma erased_peerNames r : W.peerNames (node h' r) = W.peerNames (node h r).
Proof. apply (erased_all _ _ (same r)). Qed.

Lemma erased_otherIdent n dep : otherIdent h' n dep = otherIdent h n dep.
Proof.
  unfold otherIdent. destruct dep as [d|]; [|reflexivity].
  rewrite !erased_ident. reflexivity.
Qed.

Lemma erased_blockedBy n tuple : blockedBy h' n tuple = blockedBy h n tuple.
Proof.
  unfold blockedBy.
  rewrite !erased_otherIdent, erased_name, erased_dependencies,
    erased_relayedDependencies. reflexivity.
Qed.

Lemma erased_regularEdge n d : regularEdge h' n d <-> regularEdge h n d.
Proof.
  rewrite !regularEdge_iff, erased_dependencies, (erased_isPeer h' h n d same).
  reflexivity.
Qed.

Variables (rootNode : nat) (rootNodePath : list nat)
          (ancestorDependencies : list (string * nat)).

Lemma erased_isNameAvailable parents n :
  fst (isNameAvailable rootNode rootNodePath h' parents n)
  = fst (isNameAvailable rootNode rootNodePath h parents n).
Proof.
  unfold isNameAvailable.
  rewrite erased_otherIdent, erased_name, erased_originalDependencies.
  destruct (otherIdent h n _); [reflexivity|].
  rewrite (find_pointwise (blockedBy h' n) (blockedBy h n) parents (erased_blockedBy n)).
  destruct (find _ parents); reflexivity.
Qed.

Lemma erased_unsatisfiedHoistedDep n dep :
  unsatisfiedHoistedDep ancestorDependencies h' n dep
  = unsatisfiedHoistedDep ancestorDependencies h n dep.
Proof.
  unfold unsatisfiedHoistedDep.
  rewrite erased_name, erased_originalDependencies, erased_ident.
  destruct (mget _ ancestorDependencies) as [d|]; [|reflexivity].
  rewrite erased_ident. reflexivity.
Qed.

Lemma erased_areRegularDepsSatisfied n :
  fst (areRegularDepsSatisfied rootNode rootNodePath ancestorDependencies h' n)
  = fst (areRegularDepsSatisfied rootNode rootNodePath ancestorDependencies h n).
Proof.
  unfold areRegularDepsSatisfied.
  rewrite erased_name, erased_dependencies, erased_hoistedDependencies.
  destruct (defined _); [reflexivity|].
  rewrite (find_pointwise _ _ _ (erased_unsatisfiedHoistedDep n)).
  destruct (find _ _); reflexivity.
Qed.

Lemma erased_unhoistedPeer parent name :
  unhoistedPeer h' parent name = unhoistedPeer h parent name.
Proof.
  unfold unhoistedPeer. rewrite erased_peerNames, erased_dependencies.
  reflexivity.
Qed.

Lemma erased_peerWalk stack :
  forall checkList,
    fst (peerWalk rootNodePath h' stack checkList)
    = fst (peerWalk rootNodePath h stack checkList).
Proof.
  induction stack as [|tuple stack IH]; intros checkList; [reflexivity|].
  cbn [peerWalk].
  rewrite (find_pointwise _ _ _ (erased_unhoistedPeer (Tuple.node tuple))).
  destruct (find _ checkList); [reflexivity|].
  rewrite IH, erased_peerNames. reflexivity.
Qed.

Lemma erased_passes parents n :
  passes rootNode rootNodePath ancestorDependencies h' parents n
  = passes rootNode rootNodePath ancestorDependencies h parents n.
Proof.
  unfold passes. rewrite erased_isNameAvailable, erased_areRegularDepsSatisfied.
  unfold arePeerDepsSatisfied. rewrite erased_peerWalk, erased_peerNames.
  unfold isRegularDepAtRoot, isCompatibleIdent. cbn [fst].
  rewrite !erased_name, !erased_peerNames.
  unfold compatibleIdent. rewrite !erased_name, !erased_ident. reflexivity.
Qed.
End Erased.

Lemma tuplesFrom_snoc parent path n :
  tuplesFrom parent (path ++ [n])
  = tuplesFrom parent path ++ [Tuple.mk n (default parent (last path))].
Proof.
  revert parent. induction path as [|p path IH]; intros parent; [reflexivity|].
  cbn [app tuplesFrom]. rewrite IH. f_equal. f_equal. f_equal.
  destruct path as [|q path]; [reflexivity|]. rewrite last_cons_cons.
  destruct (last (q :: path)) eqn:Hl; [reflexivity|].
  apply last_None in Hl. discriminate.
Qed.

Lemma last_tuplesFrom parent path :
  Tuple.node <$> last (tuplesFrom parent path) = last path.
Proof.
  revert parent. induction path as [|p path IH]; intros parent; [reflexivity|].
  destruct path as [|q path]; [reflexivity|].
  cbn [tuplesFrom]. cbn [tuplesFrom] in IH. rewrite !last_cons_cons. apply IH.
Qed.

Lemma regularPath_snoc (h : list W.t) parent path n d :
  regularPath h parent path n -> regularEdge h n d ->
  regularPath h parent (path ++ [n]) d.
Proof.
  revert parent. induction path as [|p path IH]; intros parent; simpl.
  - auto.
  - intros [Hp Hrest] Hd. split; [exact Hp|]. apply IH; assumption.
Qed.

Lemma regularPath_erased (h h' : list W.t) parent path n :
  (forall r, eraseReasons (node h' r) = eraseReasons (node h r)) ->
  regularPath h' parent path n -> regularPath h parent path n.
Proof.
  intros Hsame. revert parent. induction path as [|p path IH]; intros parent; simpl.
  - apply (erased_regularEdge h h' Hsame).
  - intros [Hp Hrest]. split; [apply (erased_regularEdge h h' Hsame), Hp|auto].
Qed.

Section SearchSound.
Variables (rootNode : nat) (rootNodePath : list nat)
          (ancestorDependencies : list (string * nat))
          (ancestorMap : list (string * list string))
          (options : InternalHoistOptions) (h0 : list W.t).

Lemma promotable_passes st n :
  promotable rootNode rootNodePath ancestorDependencies st n
  = passes rootNode rootNodePath ancestorDependencies (heap st) (parents st) n.
Proof. reflexivity. Qed.

(** Recording a node that passes keeps the sets good. *)
Lemma record_sound (h : list W.t) nodePath n ancestorNode hc :
  sameGraph h0 h ->
  NoDup (mkeys hc) ->
  (forall name hoistSet, (name, hoistSet) ∈ hc ->
     goodSet rootNode rootNodePath ancestorDependencies ancestorMap h0 name hoistSet) ->
  mget (W.ident (node h n)) ancestorMap = Some ancestorNode ->
  placed rootNode rootNodePath ancestorDependencies h0 (HoistCandidate.mk nodePath n) ->
  forall name hoistSet,
    (name, hoistSet) ∈ record h nodePath n (length ancestorNode) hc ->
    goodSet rootNode rootNodePath ancestorDependencies ancestorMap h0 name hoistSet.
Proof.
  intros [_ Hsame] Hnd Hold Hweight Hplaced name hoistSet Hin.
  unfold record in Hin. apply elem_mset in Hin as [[= -> ->]|Hin];
    [|apply (Hold _ _ Hin)].
  rewrite (erased_ident h0 h Hsame) in Hweight.
  rewrite (erased_name h0 h Hsame).
  assert (Hfresh : goodSet rootNode rootNodePath ancestorDependencies ancestorMap h0
                     (W.name (node h0 n))
                     (HoistCandidateSet.mk n (length ancestorNode)
                        ([] ++ [HoistCandidate.mk nodePath n]))).
  { split; [reflexivity|]. split; [exists ancestorNode; auto|].
    split; [discriminate|]. intros c Hc. apply list_elem_of_singleton in Hc.
    subst c. auto. }
  destruct (mget (W.name (node h0 n)) hc) as [c|] eqn:Hc; [|exact Hfresh].
  rewrite !(erased_ident h0 h Hsame).
  destruct (String.eqb_spec (W.ident (node h0 (HoistCandidateSet.node c)))
                            (W.ident (node h0 n))) as [Hident|Hident];
    cbn [negb]; [|exact Hfresh].
  apply mget_Some_elem in Hc.
  destruct (Hold _ _ Hc) as (Hname & Hw & Hne & Hcands). simpl.
  split; [exact Hname|]. split; [exact Hw|]. split.
  - intros Hnil. apply app_eq_nil in Hnil as [_ Hnil]. discriminate.
  - intros c' Hc'. apply elem_of_app in Hc' as [Hc'|Hc']; [apply Hcands, Hc'|].
    apply list_elem_of_singleton in Hc'. subst c'. simpl. auto.
Qed.

Lemma visit_sound st nodePath n st' parent :
  searchSound rootNode rootNodePath ancestorDependencies ancestorMap options h0 st ->
  parents st = tuplesFrom rootNode nodePath ->
  regularPath h0 rootNode nodePath n ->
  nodePath <> [] ->
  visit rootNode rootNodePath ancestorDependencies ancestorMap options
        st nodePath n = Ok (st', parent) ->
  searchSound rootNode rootNodePath ancestorDependencies ancestorMap options h0 st'
  /\ parents st' = parents st
  /\ seenLocators st' = seenLocators st
  /\ last nodePath = Some parent.
Proof.
  intros [Hgraph Hquiet Hkeys Hsets] Hparents Hpath Hne. unfold visit.
  destruct (mget _ ancestorMap) as [ancestorNode|] eqn:Hweight; [|discriminate].
  destruct (hoistable _ _ _ _ st n (length ancestorNode))
    as [isHoistable reason] eqn:Hh.
  destruct (last (parents st)) as [top|] eqn:Hlast; [|discriminate].
  assert (Hparent : last nodePath = Some (Tuple.node top)).
  { rewrite <- (last_tuplesFrom rootNode nodePath), <- Hparents, Hlast.
    reflexivity. }
  destruct isHoistable.
  - intros [= <- <-]. split; [|auto]. constructor; simpl; try assumption.
    { unfold record. apply NoDup_mkeys_mset, Hkeys. }
    apply (record_sound (heap st) nodePath n ancestorNode); try assumption.
    split; [exact Hne|]. split; [exact Hpath|]. simpl.
    pose proof (hoistable_fst rootNode rootNodePath ancestorDependencies options
                  st n (length ancestorNode)) as Hfst.
    rewrite Hh in Hfst. simpl in Hfst. symmetry in Hfst.
    apply andb_true_iff in Hfst as [Hpass _].
    rewrite promotable_passes, Hparents in Hpass.
    rewrite <- (erased_passes h0 (heap st) (proj2 Hgraph)). exact Hpass.
  - destruct (debug2 options) eqn:Hdebug; intros [= <- <-].
    + split; [|auto]. constructor; simpl; try assumption.
      * destruct Hgraph as [Hlen Hsame]. split.
        -- rewrite length_recordReason. exact Hlen.
        -- intros r. rewrite erased_recordReason. apply Hsame.
      * rewrite Hdebug. discriminate.
    + split; [|auto]. constructor; try assumption.
      intros _. apply Hquiet. reflexivity.
Qed.

Lemma searchSound_push st parent n :
  searchSound rootNode rootNodePath ancestorDependencies ancestorMap options h0 st ->
  searchSound rootNode rootNodePath ancestorDependencies ancestorMap options h0
              (pushTuple st parent n).
Proof. intros [? ? ? ?]. constructor; assumption. Qed.

Lemma searchSound_pop st :
  searchSound rootNode rootNodePath ancestorDependencies ancestorMap options h0 st ->
  searchSound rootNode rootNodePath ancestorDependencies ancestorMap options h0
              (popTuple st).
Proof. intros [? ? ? ?]. constructor; assumption. Qed.

Lemma computeHoistCandidates_sound fuel :
  forall nodePath n st st',
    searchSound rootNode rootNodePath ancestorDependencies ancestorMap options h0 st ->
    parents st = tuplesFrom rootNode nodePath ->
    regularPath h0 rootNode nodePath n ->
    nodePath <> [] ->
    computeHoistCandidates rootNode rootNodePath ancestorDependencies ancestorMap
                           options fuel nodePath n st = Ok st' ->
    searchSound rootNode rootNodePath ancestorDependencies ancestorMap options h0 st'
    /\ parents st' = parents st.
Proof.
  induction fuel as [|fuel IH]; intros nodePath n st st' Hinv Hparents Hpath Hne;
    [discriminate|].
  simpl. destruct (visit _ _ _ _ _ st nodePath n) as [[st1 parent]| |] eqn:Hvisit;
    simpl; [|discriminate..].
  destruct (visit_sound _ _ _ _ _ Hinv Hparents Hpath Hne Hvisit)
    as (Hinv1 & Hparents1 & _ & Hlast).
  destruct (shas _ _); [intros [= <-]; auto|].
  match goal with
  | |- context [forEach ?l ?body ?s] =>
      destruct (forEach l body s) as [st2| |] eqn:Hloop; simpl; [|discriminate..]
  end.
  intros [= <-].
  assert (Hpost : searchSound rootNode rootNodePath ancestorDependencies ancestorMap
                    options h0 st2
                  /\ parents st2 = parents (pushTuple st1 parent n)).
  { revert Hloop.
    apply (forEach_preserves_in
             (fun s => searchSound rootNode rootNodePath ancestorDependencies
                         ancestorMap options h0 s
                       /\ parents s = parents (pushTuple st1 parent n))).
    - intros s x s' Hx [Hs Hps].
      destruct (negb (isPeer (heap s) n x)) eqn:Hpeer; simpl;
        [|intros [= <-]; auto].
      destruct (negb (shas x nodePath)); simpl; [|intros [= <-]; auto].
      intros Hrun.
      destruct (IH (nodePath ++ [n]) x s s' Hs) as [Hs' Hps']; try exact Hrun.
      + rewrite Hps. simpl. rewrite Hparents1, Hparents, tuplesFrom_snoc, Hlast.
        reflexivity.
      + apply regularPath_snoc; [exact Hpath|]. apply regularEdge_iff.
        destruct Hs as [[_ Hsame] _ _ _]. destruct Hinv1 as [[_ Hsame1] _ _ _].
        rewrite <- (erased_dependencies h0 _ Hsame1). split; [exact Hx|].
        rewrite <- (erased_isPeer _ _ n x Hsame).
        apply negb_true_iff, Hpeer.
      + intros Hnil. apply app_eq_nil in Hnil as [_ Hnil]. discriminate.
      + split; [exact Hs'|]. rewrite Hps'. exact Hps.
    - split; [apply searchSound_push, Hinv1|reflexivity]. }
  destruct Hpost as [Hinv2 Hparents2].
  split; [apply searchSound_pop, Hinv2|].
  simpl. rewrite Hparents2. simpl. rewrite removelast_last. exact Hparents1.
Qed.

Lemma searchUnder_sound fuel st dep st' :
  searchSound rootNode rootNodePath ancestorDependencies ancestorMap options h0 st ->
  parents st = [] ->
  dep ∈ mvalues (W.dependencies (node h0 rootNode)) ->
  searchUnder rootNode rootNodePath ancestorDependencies ancestorMap options
              fuel st dep = Ok st' ->
  searchSound rootNode rootNodePath ancestorDependencies ancestorMap options h0 st'
  /\ parents st' = [].
Proof.
  intros Hinv Hparents Hdep. unfold searchUnder.
  destruct (isPeer (heap st) rootNode dep) eqn:Hrootpeer; [intros [= <-]; auto|].
  match goal with
  | |- context [forEach ?l ?body ?s] =>
      destruct (forEach l body s) as [st2| |] eqn:Hloop; simpl; [|discriminate..]
  end.
  intros [= <-].
  assert (Hedge : regularEdge h0 rootNode dep).
  { apply regularEdge_iff. split; [exact Hdep|].
    destruct Hinv as [[_ Hsame] _ _ _].
    rewrite <- (erased_isPeer _ _ rootNode dep Hsame). exact Hrootpeer. }
  assert (Hpost : searchSound rootNode rootNodePath ancestorDependencies ancestorMap
                    options h0 st2
                  /\ parents st2 = parents (pushTuple st rootNode dep)).
  { revert Hloop.
    apply (forEach_preserves_in
             (fun s => searchSound rootNode rootNodePath ancestorDependencies
                         ancestorMap options h0 s
                       /\ parents s = parents (pushTuple st rootNode dep))).
    - intros s x s' Hx [Hs Hps].
      destruct (negb (isPeer (heap s) dep x)) eqn:Hpeer; [|intros [= <-]; auto].
      intros Hrun.
      destruct (computeHoistCandidates_sound fuel [dep] x s s' Hs) as [Hs' Hps'];
        try exact Hrun.
      + rewrite Hps. simpl. rewrite Hparents. reflexivity.
      + split; [exact Hedge|]. apply regularEdge_iff.
        destruct Hs as [[_ Hsame] _ _ _]. destruct Hinv as [[_ Hsame0] _ _ _].
        rewrite <- (erased_dependencies h0 _ Hsame0). split; [exact Hx|].
        rewrite <- (erased_isPeer _ _ dep x Hsame).
        apply negb_true_iff, Hpeer.
      + discriminate.
      + split; [exact Hs'|]. rewrite Hps'. exact Hps.
    - split; [apply searchSound_push, Hinv|reflexivity]. }
  destruct Hpost as [Hinv2 Hparents2].
  split; [apply searchSound_pop, Hinv2|].
  simpl. rewrite Hparents2. simpl. rewrite Hparents. reflexivity.
Qed.

Lemma getHoistCandidates_sound sets h1 :
  getHoistCandidates rootNode rootNodePath ancestorDependencies ancestorMap
                     options h0 = Ok (sets, h1) ->
  exists st,
    sets = mvalues (hoistCandidates st) /\ h1 = heap st
    /\ searchSound rootNode rootNodePath ancestorDependencies ancestorMap options
                   h0 st.
Proof.
  unfold getHoistCandidates.
  match goal with
  | |- context [forEach ?l ?body ?s] =>
      destruct (forEach l body s) as [st| |] eqn:Hloop; simpl; [|discriminate..]
  end.
  intros [= <- <-]. exists st. split; [reflexivity|]. split; [reflexivity|].
  assert (Hpost : searchSound rootNode rootNodePath ancestorDependencies ancestorMap
                    options h0 st /\ parents st = []).
  { revert Hloop.
    apply (forEach_preserves_in
             (fun s => searchSound rootNode rootNodePath ancestorDependencies
                         ancestorMap options h0 s /\ parents s = [])).
    - intros s x s' Hx [Hs Hps]. apply searchUnder_sound; assumption.
    - split; [|reflexivity]. constructor; simpl.
      + apply sameGraph_refl.
      + reflexivity.
      + constructor.
      + intros name hoistSet Hin. apply elem_of_nil in Hin as []. }
  apply Hpost.
Qed.
End SearchSound.

(** X8: the candidate search changes nothing in the graph but reasons, and
    nothing at all below debug level 2. *)
Theorem getHoistCandidates_changes_reasons_only
  rootNode rootNodePath ancestorDependencies ancestorMap options
  (h0 : list W.t) sets h1 :
  getHoistCandidates rootNode rootNodePath ancestorDependencies ancestorMap
                     options h0 = Ok (sets, h1) ->
  sameGraph h0 h1
  /\ (geNumber (idebugLevel options) 2 = false -> h1 = h0).
Proof.
  intros Hrun. destruct (getHoistCandidates_sound _ _ _ _ _ _ _ _ Hrun)
    as (st & _ & -> & [Hgraph Hquiet _ _]).
  split; [exact Hgraph|exact Hquiet].
Qed.

Lemma getHoistCandidates_changes_reasons_only_witness :
  sameGraph duplicateHeap duplicateHeap.
Proof.
  apply (getHoistCandidates_changes_reasons_only
           0 [0] [("A", 1); ("C", 3)] duplicateAncestors quiet duplicateHeap
           duplicateCandidates duplicateHeap).
  vm_compute. reflexivity.
Defined.

(** X9: every candidate that the search at [rootNode] returns lies at the
    end of a path of regular dependencies that starts at the root and has
    one node or more between the root and the candidate, and it passes the
    predicates other than the one on weights, evaluated in the graph given
    to the search with the stack that its path makes: its name is no peer
    name of the root, it is no other version of the root, neither the
    root's original dependencies nor the dependencies and relayed
    dependencies of the root and of the nodes of the path, its parent
    apart, hold another version under its name, and the peer walk up the
    path succeeds. *)
Theorem getHoistCandidates_candidates_pass
  rootNode rootNodePath ancestorDependencies ancestorMap options
  (h0 : list W.t) sets h1 hoistSet candidate :
  getHoistCandidates rootNode rootNodePath ancestorDependencies ancestorMap
                     options h0 = Ok (sets, h1) ->
  hoistSet ∈ sets ->
  candidate ∈ HoistCandidateSet.candidates hoistSet ->
  HoistCandidate.nodePath candidate <> []
  /\ regularPath h0 rootNode (HoistCandidate.nodePath candidate)
                 (HoistCandidate.node candidate)
  /\ passes rootNode rootNodePath ancestorDependencies h0
            (tuplesFrom rootNode (HoistCandidate.nodePath candidate))
            (HoistCandidate.node candidate) = true.
Proof.
  intros Hrun Hset Hcand.
  destruct (getHoistCandidates_sound _ _ _ _ _ _ _ _ Hrun)
    as (st & -> & _ & [_ _ _ Hsets]).
  apply list_elem_of_fmap in Hset as ([name hs] & -> & Hin).
  destruct (Hsets name hs Hin) as (_ & _ & _ & Hcands).
  apply (Hcands candidate Hcand).
Qed.

Lemma getHoistCandidates_candidates_pass_witness :
  regularPath duplicateHeap 0 [3] 2
  /\ passes 0 [0] [("A", 1); ("C", 3)] duplicateHeap (tuplesFrom 0 [3]) 2 = true.
Proof.
  apply (getHoistCandidates_candidates_pass
           0 [0] [("A", 1); ("C", 3)] duplicateAncestors quiet duplicateHeap
           duplicateCandidates duplicateHeap
           (HoistCandidateSet.mk 2 2 [HoistCandidate.mk [1] 2;
                                      HoistCandidate.mk [3] 2])
           (HoistCandidate.mk [3] 2)).
  - vm_compute. reflexivity.
  - apply list_elem_of_here.
  - apply list_elem_of_further, list_elem_of_here.
Defined.

(** X10: the search returns one candidate set per name; a set is not
    empty, its candidates are instances of the package of its node, same
    name and same ident, and its weight is the number of entries that the
    ancestor map has for that ident. *)
Theorem getHoistCandidates_one_set_per_name
  rootNode rootNodePath ancestorDependencies ancestorMap options
  (h0 : list W.t) sets h1 :
  getHoistCandidates rootNode rootNodePath ancestorDependencies ancestorMap
                     options h0 = Ok (sets, h1) ->
  NoDup (map (fun hoistSet => W.name (node h0 (HoistCandidateSet.node hoistSet)))
             sets)
  /\ forall hoistSet,
       hoistSet ∈ sets ->
       HoistCandidateSet.candidates hoistSet <> []
       /\ (exists ancestorNode,
             mget (W.ident (node h0 (HoistCandidateSet.node hoistSet))) ancestorMap
             = Some ancestorNode
             /\ HoistCandidateSet.weight hoistSet = length ancestorNode)
       /\ forall candidate,
            candidate ∈ HoistCandidateSet.candidates hoistSet ->
            W.name (node h0 (HoistCandidate.node candidate))
            = W.name (node h0 (HoistCandidateSet.node hoistSet))
            /\ W.ident (node h0 (HoistCandidate.node candidate))
               = W.ident (node h0 (HoistCandidateSet.node hoistSet)).
Proof.
  intros Hrun.
  destruct (getHoistCandidates_sound _ _ _ _ _ _ _ _ Hrun)
    as (st & -> & _ & [_ _ Hkeys Hsets]).
  split.
  - assert (Hnames : map (fun hoistSet =>
                            W.name (node h0 (HoistCandidateSet.node hoistSet)))
                         (mvalues (hoistCandidates st))
                     = mkeys (hoistCandidates st)).
    { unfold mvalues, mkeys. rewrite map_map. apply map_ext_in.
      intros [name hs] Hin. apply list_elem_of_In in Hin.
      destruct (Hsets name hs Hin) as (-> & _). reflexivity. }
    rewrite Hnames. exact Hkeys.
  - intros hoistSet Hset.
    apply list_elem_of_fmap in Hset as ([name hs] & -> & Hin).
    destruct (Hsets name hs Hin) as (Hname & Hweight & Hne & Hcands).
    split; [exact Hne|]. split; [exact Hweight|].
    intros candidate Hcand. destruct (Hcands candidate Hcand) as (Hn & Hi & _).
    simpl. split; [congruence|exact Hi].
Qed.

Lemma getHoistCandidates_one_set_per_name_witness :
  NoDup (map (fun hoistSet =>
                W.name (node duplicateHeap (HoistCandidateSet.node hoistSet)))
             duplicateCandidates).
Proof.
  apply (getHoistCandidates_one_set_per_name
           0 [0] [("A", 1); ("C", 3)] duplicateAncestors quiet duplicateHeap
           duplicateCandidates duplicateHeap).
  vm_compute. reflexivity.
Defined.

(** X11: on a graph where the root lies in a set of nodes that holds the
    regular dependencies of its nodes, each with an entry in the ancestor
    map, the candidate search returns, cycles or not. *)
Theorem getHoistCandidates_returns
  rootNode rootNodePath ancestorDependencies ancestorMap options
  (h0 : list W.t) nodes :
  covered ancestorMap h0 nodes ->
  rootNode ∈ nodes ->
  exists sets h1,
    getHoistCandidates rootNode rootNodePath ancestorDependencies ancestorMap
                       options h0 = Ok (sets, h1).
Proof.
  intros Hcov Hroot.
  destruct (getHoistCandidates_safe rootNode rootNodePath ancestorDependencies
              ancestorMap options h0 nodes Hcov Hroot)
    as (sets & h1 & Hrun & _).
  exists sets, h1. exact Hrun.
Qed.

Lemma getHoistCandidates_returns_witness :
  exists sets h1,
    getHoistCandidates 0 [0] [] cycleAncestors quiet cycleHeap = Ok (sets, h1).
Proof.
  apply (getHoistCandidates_returns 0 [0] [] cycleAncestors quiet cycleHeap
           [0; 1; 2; 3]); [|apply list_elem_of_here].
  intros n d Hn Hedge. unfold regularEdge in Hedge.
  repeat (apply elem_of_cons in Hn as [->|Hn]);
    try (apply elem_of_nil in Hn as []);
    vm_compute in Hedge;
    repeat (apply elem_of_cons in Hedge as [->|Hedge]);
    try (apply elem_of_nil in Hedge as []);
    (split; [rewrite !elem_of_cons; auto 10|reflexivity]).
Defined.

(** ** What hoisting never changes *)

Lemma frozenExt_refl (h : list W.t) : frozenExt h h.
Proof. split; [lia|]. intros r. exists r. auto. Qed.

Lemma frozenExt_trans (h1 h2 h3 : list W.t) :
  frozenExt h1 h2 -> frozenExt h2 h3 -> frozenExt h1 h3.
Proof.
  intros [Hlen1 H1] [Hlen2 H2]. split; [lia|]. intros r.
  destruct (H2 r) as (r2 & Heq2 & Hold2). destruct (H1 r2) as (r1 & Heq1 & Hold1).
  exists r1. split; [congruence|]. intros Hr.
  rewrite <- (Hold2 ltac:(lia)). apply Hold1. rewrite (Hold2 ltac:(lia)). exact Hr.
Qed.

Lemma frozenExt_update (h : list W.t) p f :
  (forall w, frozen (f w) = frozen w) -> frozenExt h (update h p f).
Proof.
  intros Hf. split; [rewrite length_update; lia|]. intros r. exists r.
  split; [|auto].
  destruct (node_update h p r f) as [->|(_ & _ & ->)]; auto.
Qed.

Lemma frozenExt_alloc (h : list W.t) n : frozenExt h (h ++ [node h n]).
Proof.
  split; [rewrite length_app; lia|]. intros r.
  destruct (decide (r < length h)) as [Hr|Hr].
  - exists r. rewrite node_app_l by exact Hr. auto.
  - destruct (decide (r = length h)) as [->|Hne].
    + exists n. rewrite node_alloc_new. split; [reflexivity|lia].
    + exists r. split; [|lia].
      rewrite !node_invalid; [reflexivity|lia|rewrite length_app; simpl; lia].
Qed.

Lemma frozenExt_sameGraph (h h' : list W.t) : sameGraph h h' -> frozenExt h h'.
Proof.
  intros [Hlen Hsame]. split; [lia|]. intros r. exists r. split; [|auto].
  unfold frozen.
  destruct (erased_all _ _ (Hsame r)) as (-> & -> & _ & -> & -> & _ & ->).
  destruct (erased_fields _ _ (Hsame r)) as (_ & _ & -> & _). reflexivity.
Qed.

Lemma clonePath_frozen candidate nodePath :
  forall parentClonedNode (h h' : list W.t) clonedTree last,
    clonePath candidate nodePath parentClonedNode h = (h', clonedTree, last) ->
    frozenExt h h'.
Proof.
  induction nodePath as [|n rest IH]; intros pc h h' ct l Hrun; simpl in Hrun.
  - injection Hrun as <- _ _. apply frozenExt_refl.
  - assert (Hfirst : frozenExt h
              (match mget n (children pc) with
               | Some c => (c, h)
               | None =>
                   let name := W.name (node h n) in
                   let '(h, c) := alloc h (node h n) in
                   (mkCloneTree c [],
                    update h (clone pc) (W.with_dependencies (mset name c)))
               end).2).
    { destruct (mget n (children pc)); simpl; [apply frozenExt_refl|].
      apply (frozenExt_trans _ _ _ (frozenExt_alloc h n)).
      apply frozenExt_update. reflexivity. }
    destruct (match mget n (children pc) with Some c => _ | None => _ end)
      as [nodeClone h1].
    simpl in Hfirst.
    destruct (clonePath candidate rest nodeClone _) as [[h3 nodeClone'] last']
      eqn:Hrec.
    injection Hrun as <- _ _.
    apply (frozenExt_trans _ _ _ Hfirst).
    refine (frozenExt_trans _ _ _ _ (IH _ _ _ _ _ Hrec)).
    apply frozenExt_update. reflexivity.
Qed.

Lemma mergeReferences_frozen hoistedNode refs :
  forall (h : list W.t),
    frozenExt h
      (fold_left (fun h reference =>
                    update h hoistedNode (W.with_references (sadd reference)))
                 refs h).
Proof.
  induction refs as [|x refs IH]; intros h; simpl; [apply frozenExt_refl|].
  refine (frozenExt_trans _ _ _ _ (IH _)). apply frozenExt_update. reflexivity.
Qed.

Lemma addToRoot_frozen rootNode candidate (h : list W.t) anc :
  frozenExt h (addToRoot rootNode candidate (h, anc)).1.
Proof.
  unfold addToRoot. destruct (mget _ _) as [hoistedNode|].
  - apply mergeReferences_frozen.
  - destruct (negb _); simpl; [|apply frozenExt_refl].
    apply frozenExt_update. reflexivity.
Qed.

Section HoistFrozen.
Variables (tree : nat) (am : list (string * list string))
          (options : InternalHoistOptions).

Lemma applyCandidate_frozen rootNode (h : list W.t) clonedTree anc candidate s :
  applyCandidate tree options rootNode (h, clonedTree, anc) candidate = Ok s ->
  frozenExt h s.1.1.
Proof.
  unfold applyCandidate.
  destruct (clonePath _ _ clonedTree h) as [[h1 ct1] parentClone] eqn:Hpath.
  pose proof (clonePath_frozen _ _ _ _ _ _ _ Hpath) as H1.
  set (cnode := HoistCandidate.node candidate).
  set (h2 := update h1 parentClone _).
  set (h3 := update h2 parentClone _).
  assert (H3 : frozenExt h h3).
  { apply (frozenExt_trans _ _ _ H1).
    apply (frozenExt_trans _ h2); apply frozenExt_update; reflexivity. }
  pose proof (addToRoot_frozen rootNode cnode h3 anc) as H4.
  destruct (addToRoot rootNode cnode (h3, anc)) as [h4 anc4]. simpl in H4.
  assert (Hdone : frozenExt h h4) by apply (frozenExt_trans _ _ _ H3 H4).
  destruct (icheck options).
  - destruct (selfCheck h4 tree) as [checkLog| |]; cbn [mbind result_bind];
      [|discriminate..].
    destruct (negb _); [discriminate|]. intros [= <-]. exact Hdone.
  - intros [= <-]. exact Hdone.
Qed.

Lemma hoistLoop_frozen fuel :
  forall rootNode rootNodePath (h : list W.t) clonedTree anc s,
    hoistLoop tree am options fuel rootNode rootNodePath (h, clonedTree, anc)
    = Ok s ->
    frozenExt h s.1.1.
Proof.
  induction fuel as [|fuel IH]; intros rootNode path h ct anc s; [discriminate|].
  simpl.
  destruct (getHoistCandidates _ _ _ _ _ h) as [[sets h1]| |] eqn:Hfind;
    cbn [mbind result_bind]; [|discriminate..].
  destruct (getHoistCandidates_sound _ _ _ _ _ _ _ _ Hfind)
    as (st0 & _ & Hh1 & [Hsame _ _ _]).
  rewrite <- Hh1 in Hsame.
  match goal with
  | |- context [forEach ?l ?body ?s0] =>
      destruct (forEach l body s0) as [[[h2 ct2] anc2]| |] eqn:Hloop;
      cbn [mbind result_bind]; [|discriminate..]
  end.
  assert (H2 : frozenExt h1 h2).
  { revert Hloop.
    apply (forEach_preserves (fun s => frozenExt h1 s.1.1)); [|apply frozenExt_refl].
    intros s1 hoistSet s2 Hs1.
    apply (forEach_preserves (fun s => frozenExt h1 s.1.1)); [|exact Hs1].
    intros [[h3 ct3] anc3] c s4 Hs3 Hrun.
    apply (frozenExt_trans _ _ _ Hs3), (applyCandidate_frozen _ _ _ _ _ _ Hrun). }
  assert (H02 : frozenExt h h2)
    by apply (frozenExt_trans _ _ _ (frozenExt_sameGraph _ _ Hsame) H2).
  destruct (0 <? length sets)%nat; [|intros [= <-]; exact H02].
  intros Hrec. apply (frozenExt_trans _ _ _ H02), (IH _ _ _ _ _ _ Hrec).
Qed.

Lemma hoistTo_frozen fuel :
  (forall rootNode panc seen (h : list W.t) path s,
     hoistTo tree am options fuel rootNode panc seen (h, path) = Ok s ->
     frozenExt h s.1)
  /\ (forall rootNode anc k (h : list W.t) path s,
        hoistDependencies tree am options fuel rootNode anc k (h, path) = Ok s ->
        frozenExt h s.1).
Proof.
  induction fuel as [|fuel [IHto IHdeps]]; [split; intros; discriminate|].
  split.
  - intros rootNode panc seen h path s. rewrite hoistTo_unfold.
    destruct (shas rootNode seen); [intros [= <-]; apply frozenExt_refl|].
    cbv zeta.
    destruct (hoistLoop _ _ _ _ _ _ _) as [[[h1 ct1] anc1]| |] eqn:Hloop;
      cbn [mbind result_bind]; [|discriminate..].
    intros Hdeps.
    apply (frozenExt_trans _ _ _ (hoistLoop_frozen _ _ _ _ _ _ _ Hloop)),
      (IHdeps _ _ _ _ _ _ Hdeps).
  - intros rootNode anc k h path s. rewrite hoistDependencies_unfold.
    destruct (_ !! k) as [dependency|]; [|intros [= <-]; apply frozenExt_refl].
    cbv zeta.
    match goal with
    | |- context [if ?b then ?x else ?y] =>
        destruct (if b then x else y) as [[h1 path1]| |] eqn:Hchild;
        cbn [mbind result_bind]; [|discriminate..]
    end.
    intros Hrest.
    assert (H1 : frozenExt h h1).
    { destruct (negb _); [apply (IHto _ _ _ _ _ _ Hchild)|].
      injection Hchild as <- _. apply frozenExt_refl. }
    apply (frozenExt_trans _ _ _ H1), (IHdeps _ _ _ _ _ _ Hrest).
Qed.
End HoistFrozen.

(** X12: [hoistTo] never changes the name, the ident, the locator, the
    peer names, the original dependencies or the hoisted dependencies of a
    node, and every node that it adds to the graph has these fields from a
    node of the graph it was given: it rewires dependencies and copies
    nodes, nothing else. *)
Theorem hoistTo_keeps_frozen_fields
  tree ancestorMap options fuel rootNode parentAncestorDependencies seenNodes
  (h : list W.t) rootNodePath h' rootNodePath' :
  hoistTo tree ancestorMap options fuel rootNode parentAncestorDependencies
          seenNodes (h, rootNodePath) = Ok (h', rootNodePath') ->
  length h <= length h'
  /\ (forall r, r < length h -> frozen (node h' r) = frozen (node h r))
  /\ (forall r, exists r0, frozen (node h' r) = frozen (node h r0)).
Proof.
  intros Hrun.
  destruct (proj1 (hoistTo_frozen tree ancestorMap options fuel) _ _ _ _ _ _ Hrun)
    as [Hlen Hfrozen].
  simpl in Hlen, Hfrozen. split; [exact Hlen|]. split.
  - intros r Hr. destruct (Hfrozen r) as (r0 & Heq & Hold).
    rewrite Heq, (Hold Hr). reflexivity.
  - intros r. destruct (Hfrozen r) as (r0 & Heq & _). exists r0. exact Heq.
Qed.

Lemma hoistTo_keeps_frozen_fields_witness :
  length duplicateHeap <= length duplicateHeapHoisted
  /\ (forall r, r < length duplicateHeap ->
        frozen (node duplicateHeapHoisted r) = frozen (node duplicateHeap r)).
Proof.
  destruct (hoistTo_keeps_frozen_fields 0 duplicateAncestors quiet 8 0 [] []
              duplicateHeap [0] duplicateHeapHoisted [0])
    as (Hlen & Hold & _); [vm_compute; reflexivity|].
  split; [exact Hlen|exact Hold].
Defined.

Lemma linkAll_hoistedDependencies st0 seen ds x :
  W.hoistedDependencies (linkAll st0 seen ds x) = W.hoistedDependencies x.
Proof.
  revert x. induction ds as [|d ds IH]; intros x; [reflexivity|].
  unfold linkAll in *. simpl. rewrite IH. destruct (mget d seen); reflexivity.
Qed.

(** X13: nothing ever fills [hoistedDependencies]: when no work node has
    hoisted dependencies before the call, none has in the work graph that
    [hoist] leaves, neither the nodes made by [cloneTree] nor the copies
    made while hoisting; and a node without hoisted dependencies passes the
    predicate on hoisted dependencies whatever the root. *)
Theorem hoist_never_fills_hoistedDependencies (toNumber : string -> number) :
  (forall fuel env tree opts st st' out,
     (forall r, W.hoistedDependencies (node (work st) r) = []) ->
     hoist toNumber fuel env tree opts st = Ok (st', out) ->
     forall r, W.hoistedDependencies (node (work st') r) = [])
  /\ (forall rootNode rootNodePath ancestorDependencies (h : list W.t) n,
        W.hoistedDependencies (node h n) = [] ->
        fst (areRegularDepsSatisfied rootNode rootNodePath ancestorDependencies h n)
        = true).
Proof.
  split.
  - intros fuel env tree opts st st' out Hbefore. unfold hoist.
    destruct (cloneTree_spec tree st) as (seen & st1 & -> & Hinv & _ & Hfin).
    cbn [mbind result_bind].
    destruct (buildAncestorMap _ _) as [am| |]; cbn [mbind result_bind];
      [|discriminate..].
    destruct (hoistTo _ _ _ _ _ _ _ _) as [[h path]| |] eqn:Hrun;
      cbn [mbind result_bind]; [|discriminate..].
    destruct (if geNumber _ 1 then _ else _) as [[]| |];
      cbn [mbind result_bind]; [|discriminate..].
    destruct (shrinkTree _ _ _) as [o| |]; cbn [mbind result_bind];
      [|discriminate..].
    intros [= <- _] r. simpl.
    assert (Hcloned : forall r0, W.hoistedDependencies (node (work st1) r0) = []).
    { intros r0. destruct (decide (r0 < length (work st))) as [Hold|Hnew].
      - rewrite (node_ext _ _ _ (ci_old _ _ _ Hinv r0 Hold)). apply Hbefore.
      - destruct (decide (r0 < length (work st1))) as [Hin|Hout].
        + assert (Hw : r0 ∈ mvalues seen).
          { rewrite (ci_values _ _ _ Hinv). apply elem_of_seq.
            rewrite (ci_length _ _ _ Hinv) in Hin. lia. }
          apply list_elem_of_fmap in Hw as ([n w] & -> & Hw).
          pose proof (elem_mget n w seen (ci_keys _ _ _ Hinv) Hw) as Hget.
          destruct (Hfin n w Hget) as [Hnode _]. simpl. rewrite Hnode.
          unfold cloneOf. apply linkAll_hoistedDependencies.
        + rewrite node_invalid by exact Hout. reflexivity. }
    destruct (proj1 (hoistTo_frozen _ _ _ fuel) _ _ _ _ _ _ Hrun) as [_ Hfrozen].
    destruct (Hfrozen r) as (r0 & Heq & _). simpl in Heq.
    injection Heq as _ _ _ _ _ ->. apply Hcloned.
  - intros rootNode rootNodePath ancestorDependencies h n Hnone.
    unfold areRegularDepsSatisfied. rewrite Hnone.
    destruct (defined _); reflexivity.
Qed.

Lemma hoist_never_fills_hoistedDependencies_witness :
  exists st' out,
    hoist sampleNumber 8 None 0 defaultOptions simpleDuplicate = Ok (st', out)
    /\ forall r, W.hoistedDependencies (node (work st') r) = [].
Proof.
  eexists _, _. split; [vm_compute; reflexivity|].
  eapply (proj1 (hoist_never_fills_hoistedDependencies sampleNumber) 8 None 0 defaultOptions
            simpleDuplicate).
  - intros r. destruct r; reflexivity.
  - vm_compute. reflexivity.
Defined.

(** ** Copy on write *)

Lemma moreReferences_refl w : moreReferences w w.
Proof. split; auto. Qed.

Lemma moreReferences_trans a b c :
  moreReferences a b -> moreReferences b c -> moreReferences a c.
Proof. intros [H1 S1] [H2 S2]. split; [congruence|auto]. Qed.

Lemma clonePath_outside candidate nodePath :
  forall parentClonedNode (h h' : list W.t) nodes clonedTree last,
    clonesIn nodes parentClonedNode ->
    clonePath candidate nodePath parentClonedNode h = (h', clonedTree, last) ->
    length h <= length h'
    /\ (forall r, r < length h -> r ∉ nodes -> node h' r = node h r)
    /\ exists nodes',
         clonesIn nodes' clonedTree /\ last ∈ nodes'
         /\ forall x, x ∈ nodes' -> x ∈ nodes \/ length h <= x.
Proof.
  induction nodePath as [|n rest IH]; intros pc h h' nodes ct l Hpc Hrun;
    simpl in Hrun.
  - injection Hrun as <- <- <-. split; [lia|]. split; [auto|].
    exists nodes. split; [exact Hpc|]. split; [|auto].
    destruct Hpc as [r cs Hr _]. exact Hr.
  - assert (Hroot : clone pc ∈ nodes) by (destruct Hpc as [r cs Hr _]; exact Hr).
    assert (Hfirst : exists nodes1,
              let '(nodeClone, h1) :=
                match mget n (children pc) with
                | Some c => (c, h)
                | None =>
                    let name := W.name (node h n) in
                    let '(h, c) := alloc h (node h n) in
                    (mkCloneTree c [],
                     update h (clone pc) (W.with_dependencies (mset name c)))
                end in
              clonesIn nodes1 nodeClone
              /\ length h <= length h1
              /\ (forall r, r < length h -> r ∉ nodes -> node h1 r = node h r)
              /\ (forall x, x ∈ nodes -> x ∈ nodes1)
              /\ forall x, x ∈ nodes1 -> x ∈ nodes \/ length h <= x).
    { destruct (mget n (children pc)) as [c|] eqn:Hget.
      - exists nodes. split; [|split; [lia|auto]].
        destruct Hpc as [r cs _ Hcs]. apply (Hcs n c), mget_Some_elem, Hget.
      - exists (length h :: nodes). unfold alloc. split; [|split; [|split; [|split]]].
        + constructor; [left|]. intros k c Hin. apply elem_of_nil in Hin as [].
        + rewrite length_update, length_app. lia.
        + intros r Hr Hout.
          rewrite node_update_ne
            by (intros Heq; apply Hout; rewrite <- Heq; exact Hroot).
          apply node_app_l, Hr.
        + intros x Hx. right. exact Hx.
        + intros x Hx. apply elem_of_cons in Hx as [->|Hx]; [right; lia|auto]. }
    destruct Hfirst as (nodes1 & Hfirst).
    destruct (match mget n (children pc) with Some c => _ | None => _ end)
      as [nodeClone h1].
    destruct Hfirst as (Hclone1 & Hlen1 & Hout1 & Hsub1 & Hnew1).
    set (h2 := update h1 (clone nodeClone) _) in Hrun.
    destruct (clonePath candidate rest nodeClone h2) as [[h3 nodeClone'] last']
      eqn:Hrec.
    injection Hrun as <- <- <-.
    assert (Hclone : clone nodeClone ∈ nodes1)
      by (destruct Hclone1 as [r cs Hr _]; exact Hr).
    destruct (IH nodeClone h2 h3 nodes1 nodeClone' last' Hclone1 Hrec)
      as (Hlen3 & Hout3 & nodes3 & Hclone3 & Hlast3 & Hnew3).
    unfold h2 in Hlen3. rewrite length_update in Hlen3.
    split; [lia|]. split.
    + intros r Hr Hout.
      assert (Hout' : r ∉ nodes1).
      { intros Hin. destruct (Hnew1 r Hin); [contradiction|lia]. }
      rewrite Hout3; [|unfold h2; rewrite length_update; lia|exact Hout'].
      unfold h2. rewrite node_update_ne; [apply Hout1; assumption|].
      intros Heq. apply Hout'. rewrite <- Heq. exact Hclone.
    + exists (nodes ++ nodes3). split; [|split].
      * destruct Hpc as [r cs Hr Hcs]. simpl. constructor.
        -- apply elem_of_app. left. exact Hr.
        -- intros k c Hin. apply elem_mset in Hin as [[= -> ->]|Hin].
           ++ apply (clonesIn_mono nodes3); [|exact Hclone3].
              intros x Hx. apply elem_of_app. right. exact Hx.
           ++ apply (clonesIn_mono nodes); [|apply (Hcs k c Hin)].
              intros x Hx. apply elem_of_app. left. exact Hx.
      * apply elem_of_app. right. exact Hlast3.
      * intros x Hx. apply elem_of_app in Hx as [Hx|Hx]; [auto|].
        destruct (Hnew3 x Hx) as [Hx1|Hx1].
        -- apply Hnew1, Hx1.
        -- right. unfold h2 in Hx1. rewrite length_update in Hx1. lia.
Qed.

Lemma mergeReferences_more hoistedNode refs :
  forall (h : list W.t) r,
    moreReferences (node h r)
      (node (fold_left (fun h reference =>
                          update h hoistedNode (W.with_references (sadd reference)))
                       refs h) r).
Proof.
  induction refs as [|x refs IH]; intros h r; simpl; [apply moreReferences_refl|].
  refine (moreReferences_trans _ _ _ _ (IH _ r)).
  destruct (node_update h hoistedNode r (W.with_references (sadd x)))
    as [->|(_ & _ & ->)]; [apply moreReferences_refl|].
  split; [reflexivity|]. intros y Hy. simpl. apply elem_sadd. auto.
Qed.

(** X14: applying a candidate copies on write: a node of the graph that is
    neither the root nor a clone of the clone tree keeps all its fields but
    [references], and loses no reference; so the nodes of the candidate's
    path stay as they are for the other nodes that depend on them. *)
Theorem applyCandidate_copies_on_write
  tree options rootNode (h : list W.t) clonedTree ancestorDependencies candidate
  h' clonedTree' ancestorDependencies' nodes r :
  applyCandidate tree options rootNode (h, clonedTree, ancestorDependencies)
                 candidate
  = Ok (h', clonedTree', ancestorDependencies') ->
  clonesIn nodes clonedTree ->
  r < length h -> r ∉ nodes -> r <> rootNode ->
  moreReferences (node h r) (node h' r).
Proof.
  unfold applyCandidate. intros Hrun Hct Hr Hout Hroot.
  destruct (clonePath _ _ clonedTree h) as [[h1 ct1] parentClone] eqn:Hpath.
  destruct (clonePath_outside _ _ _ _ _ _ _ _ Hct Hpath)
    as (Hlen1 & Hout1 & nodes1 & _ & Hlast & Hnew1).
  assert (Hparent : r <> parentClone).
  { intros ->. destruct (Hnew1 _ Hlast); [contradiction|lia]. }
  set (cnode := HoistCandidate.node candidate) in *.
  set (h2 := update h1 parentClone _) in Hrun.
  set (h3 := update h2 parentClone _) in Hrun.
  assert (H3 : node h3 r = node h r).
  { unfold h3, h2. rewrite !node_update_ne by congruence. apply Hout1; assumption. }
  assert (H4 : moreReferences (node h r) (node (addToRoot rootNode cnode (h3, ancestorDependencies)).1 r)).
  { rewrite <- H3. unfold addToRoot.
    destruct (mget _ _) as [hoistedNode|]; [apply mergeReferences_more|].
    destruct (negb _); simpl; [|apply moreReferences_refl].
    rewrite node_update_ne by congruence. apply moreReferences_refl. }
  destruct (addToRoot rootNode cnode (h3, ancestorDependencies)) as [h4 anc4].
  simpl in H4.
  destruct (icheck options).
  - destruct (selfCheck h4 tree) as [checkLog| |]; cbn [mbind result_bind] in Hrun;
      [|discriminate..].
    destruct (negb _); [discriminate|]. injection Hrun as <- _ _. exact H4.
  - injection Hrun as <- _ _. exact H4.
Qed.

Lemma applyCandidate_copies_on_write_witness :
  moreReferences (node duplicateHeap 1) (node duplicateHeapAfterFirst 1).
Proof.
  apply (applyCandidate_copies_on_write 0 quiet 0 duplicateHeap (mkCloneTree 0 [])
           [("A", 1); ("C", 3)] (HoistCandidate.mk [1] 2)
           duplicateHeapAfterFirst
           (mkCloneTree 0 [(1, mkCloneTree 4 [])])
           [("A", 1); ("C", 3); ("B", 2)] [0] 1).
  - vm_compute. reflexivity.
  - constructor; [left|]. intros k c Hin. apply elem_of_nil in Hin as [].
  - vm_compute. lia.
  - intros Hin. apply list_elem_of_singleton in Hin. discriminate.
  - discriminate.
Defined.

(** ** The contents of the ancestor map *)

Lemma ancestorsDone_refl (h : list W.t) tree s : ancestorsDone h tree s s.
Proof.
  split; [auto|]. split; [auto|]. split; [intros m Hm Hfresh; contradiction|].
  split; auto.
Qed.

Lemma ancestorsDone_trans (h : list W.t) tree s1 s2 s3 :
  ancestorsDone h tree s1 s2 -> ancestorsDone h tree s2 s3 ->
  ancestorsDone h tree s1 s3.
Proof.
  intros (Hsub1 & Hrec1 & Hnew1 & Hsound1 & Hnd1)
         (Hsub2 & Hrec2 & Hnew2 & Hsound2 & Hnd2).
  split; [auto|]. split; [auto|].
  split; [|split; [|intros H0; apply Hnd2, Hnd1, H0]].
  - intros m Hm Hfresh d Hd. destruct (decide (m ∈ s2.2)) as [Hm2|Hm2].
    + destruct (Hnew1 m Hm2 Hfresh d Hd). auto.
    + apply (Hnew2 m Hm Hm2 d Hd).
  - intros i j Hij. destruct (Hsound2 i j Hij) as [Hij2|Hdep]; [|auto].
    apply (Hsound1 i j Hij2).
Qed.

Lemma NoDup_sadd (x : string) (s : list string) : NoDup s -> NoDup (sadd x s).
Proof.
  intros Hnd. unfold sadd. destruct (shas x s) eqn:Hx; [exact Hnd|].
  apply shas_false in Hx. apply NoDup_app. split; [exact Hnd|].
  split; [|apply NoDup_singleton].
  intros y Hy Hy'. apply list_elem_of_singleton in Hy'. subst y. contradiction.
Qed.

Lemma recorded_addIdent child parent am i j :
  recorded (addIdent child parent am) i j
  <-> recorded am i j \/ (i = child /\ j = parent).
Proof.
  unfold recorded, addIdent. destruct (decide (i = child)) as [->|Hne].
  - rewrite mget_mset_eq. split.
    + intros (ps & [= <-] & Hj). apply elem_sadd in Hj as [->|Hj]; [auto|].
      left. destruct (mget child am) as [ps|]; [eauto|].
      apply elem_of_nil in Hj as [].
    + intros [(ps & Hps & Hj)|[_ ->]]; eexists; (split; [reflexivity|]);
        apply elem_sadd; [|auto]. rewrite Hps. auto.
  - rewrite mget_mset_ne by congruence. split; [auto|].
    intros [H|[? _]]; [exact H|contradiction].
Qed.

Lemma NoDup_addIdent child parent am :
  (forall i ps, mget i am = Some ps -> NoDup ps) ->
  forall i ps, mget i (addIdent child parent am) = Some ps -> NoDup ps.
Proof.
  intros Hnd i ps. unfold addIdent. destruct (decide (i = child)) as [->|Hne].
  - rewrite mget_mset_eq. intros [= <-]. apply NoDup_sadd.
    destruct (mget child am) as [ps0|] eqn:Hget; [apply (Hnd _ _ Hget)|constructor].
  - rewrite mget_mset_ne by congruence. apply Hnd.
Qed.

Section AncestorsDone.
Variables (h : list W.t) (tree : nat).

Lemma ancestorsDone_loop fuel (IH : ancestorsPartial h tree fuel) n :
  (exists c, chain h tree c n) ->
  forall ds s s',
    (forall d, d ∈ ds -> regularEdge h n d) ->
    forEach ds (fun s dep => addParent fuel h n dep s) s = Ok s' ->
    (forall d, d ∈ ds ->
       d ∈ s'.2 /\ recorded s'.1 (W.ident (node h d)) (W.ident (node h n)))
    /\ ancestorsDone h tree s s'.
Proof.
  intros Hn. induction ds as [|d ds IHds]; intros s s' Hedges; simpl.
  - intros [= <-]. split; [|apply ancestorsDone_refl].
    intros d Hd. apply elem_of_nil in Hd as [].
  - destruct (addParent fuel h n d s) as [s1| |] eqn:Hrun1; simpl; [|discriminate..].
    intros Hrun2.
    destruct (IH n d s s1 Hn (Hedges d ltac:(left)) Hrun1) as (Hd1 & Hrec1 & Hdone1).
    destruct (IHds s1 s' (fun x Hx => Hedges x ltac:(right; exact Hx)) Hrun2)
      as (Hds2 & Hdone2).
    split; [|apply (ancestorsDone_trans _ _ _ _ _ Hdone1 Hdone2)].
    intros x Hx. apply elem_of_cons in Hx as [->|Hx]; [|auto].
    destruct Hdone2 as (Hsub2 & Hrec2 & _). auto.
Qed.

Lemma addParent_partial fuel : ancestorsPartial h tree fuel.
Proof.
  induction fuel as [|fuel IH]; intros parentNode n [am seen] s' Hparent Hedge;
    [discriminate|].
  rewrite addParent_unfold. cbv zeta.
  set (am1 := addIdent (W.ident (node h n)) (W.ident (node h parentNode)) am).
  assert (Hstep : ancestorsDone h tree (am, seen) (am1, seen)).
  { split; [auto|]. split; [|split; [|split]]; simpl.
    - intros i j Hij. apply recorded_addIdent. auto.
    - intros m Hm Hfresh. contradiction.
    - intros i j Hij. apply recorded_addIdent in Hij as [Hij|[-> ->]]; [auto|].
      right. destruct Hparent as [c Hc]. exists c, parentNode, n. auto.
    - apply NoDup_addIdent. }
  assert (Hrec1 : recorded am1 (W.ident (node h n)) (W.ident (node h parentNode)))
    by (apply recorded_addIdent; auto).
  destruct (shas n seen) eqn:Hseen.
  - apply shas_true in Hseen. intros [= <-]. simpl. auto.
  - apply shas_false in Hseen. intros Hrun.
    assert (Hn : exists c, chain h tree c n).
    { destruct Hparent as [c Hc]. exists (c ++ [parentNode]).
      apply chain_step; assumption. }
    destruct (ancestorsDone_loop fuel IH n Hn _ _ _ (fun d Hd => Hd) Hrun)
      as (Hds & Hsub & Hrec & Hnew & Hsound & Hnd).
    simpl in Hsub, Hrec, Hnew, Hsound, Hnd.
    assert (Hn' : n ∈ s'.2) by (apply Hsub, elem_sadd; auto).
    split; [exact Hn'|]. split; [auto|].
    destruct Hstep as (_ & Hrec0 & _ & Hsound0 & Hnd0). simpl in *.
    split; [intros x Hx; apply Hsub, elem_sadd; auto|]. split; [auto|].
    split; [|split; [|intros H0; apply Hnd, Hnd0, H0]].
    + intros m Hm Hfresh d Hd. destruct (decide (m = n)) as [->|Hne].
      * apply Hds, Hd.
      * apply (Hnew m Hm); [|exact Hd].
        intros Hin. apply elem_sadd in Hin as [?|?]; contradiction.
    + intros i j Hij. destruct (Hsound i j Hij) as [Hij1|Hdep]; [|auto].
      apply (Hsound0 i j Hij1).
Qed.
End AncestorsDone.

(** X15: [buildAncestorMap] returns on every graph, cycles or not, and the
    map it makes holds, for an ident, the idents of the direct dependents
    alone, each once: [parent] is among the entries of [child] exactly when
    a node reached from the root through regular dependencies has the ident
    [parent] and a regular dependency of ident [child].  The weight of a
    package is the number of distinct idents that depend on it directly. *)
Theorem buildAncestorMap_direct_dependents (h : list W.t) (tree : nat) :
  exists ancestorMap,
    buildAncestorMap h tree = Ok ancestorMap
    /\ (forall child parent,
          recorded ancestorMap child parent <-> dependsOn h tree child parent)
    /\ forall child parents, mget child ancestorMap = Some parents -> NoDup parents.
Proof.
  destruct (buildAncestorMap_covered h (fun _ => True) (fun _ _ _ _ => I) tree I)
    as (am & nodes & Hrun & _).
  exists am. split; [exact Hrun|].
  unfold buildAncestorMap in Hrun.
  destruct (forEach _ _ _) as [[am' seen]| |] eqn:Hloop; [|discriminate..].
  simpl in Hrun. injection Hrun as ->.
  destruct (ancestorsDone_loop h tree (walkFuel h) (addParent_partial h tree _)
              tree (ex_intro _ [] (chain_root h tree)) _ _ _ (fun d Hd => Hd) Hloop)
    as (Hds & Hsub & Hrec & Hnew & Hsound & Hnd).
  simpl in *.
  assert (Hreach : forall c p, chain h tree c p -> p ∈ seen).
  { intros c p Hc. induction Hc as [|c p d Hc IH Hedge]; [apply Hsub; left|].
    destruct (decide (p = tree)) as [->|Hne]; [apply Hds, Hedge|].
    apply (Hnew p IH); [|exact Hedge].
    intros Hin. apply list_elem_of_singleton in Hin. contradiction. }
  split; [|apply Hnd; intros i ps [=]].
  intros child parent. split.
  - intros Hrecd. destruct (Hsound _ _ Hrecd) as [(ps & [=] & _)|Hdep]. exact Hdep.
  - intros (c & p & d & Hc & Hedge & <- & <-).
    destruct (decide (p = tree)) as [->|Hne]; [apply Hds, Hedge|].
    apply (Hnew p (Hreach c p Hc)); [|exact Hedge].
    intros Hin. apply list_elem_of_singleton in Hin. contradiction.
Qed.

(** ** The result of hoist *)

(** X16: what [hoist] returns is node 0 of a graph that is a tree below
    it, and this root has the name of the input node given to [hoist]. *)
Theorem hoist_returns_a_tree_under_the_root toNumber fuel env tree opts st st' o r :
  hoist toNumber fuel env tree opts st = Ok (st', (o, r)) ->
  r = 0
  /\ HoisterResult.name (rnode o 0) = HoisterTree.name (input st tree)
  /\ treeShaped o.
Proof.
  unfold hoist.
  destruct (cloneTree_spec tree st) as (seen & st1 & -> & Hinv & Htree & _).
  cbn [mbind result_bind].
  destruct (buildAncestorMap _ _) as [am| |]; cbn [mbind result_bind];
    [|discriminate..].
  destruct (hoistTo _ _ _ _ _ _ _ _) as [[h path]| |] eqn:Hrun;
    cbn [mbind result_bind]; [|discriminate..].
  destruct (if geNumber _ 1 then _ else _) as [[]| |];
    cbn [mbind result_bind]; [|discriminate..].
  unfold shrinkTree.
  set (w := HoisterResult.mk (W.name (node h (length (work st))))
                             (W.references (node h (length (work st)))) []).
  destruct (forEach _ _ [w]) as [o1| |] eqn:Hshrink; cbn [mbind result_bind];
    [|discriminate..].
  intros [= _ <- <-]. split; [reflexivity|].
  destruct (shrinkTree_loop _ _ _ w _ _ eq_refl Hshrink) as [Hshape [_ Hsame]].
  split; [|exact Hshape].
  destruct (Hsame 0) as [-> _]; [simpl; lia|]. simpl.
  destruct (proj1 (hoistTo_frozen _ _ _ fuel) _ _ _ _ _ _ Hrun) as [_ Hfrozen].
  destruct (Hfrozen (length (work st))) as (r0 & Heq & Hold). simpl in Heq, Hold.
  pose proof (seen_values_range _ _ _ _ _ Hinv Htree) as Hrange.
  rewrite (Hold ltac:(lia)) in Heq. injection Heq as -> _ _ _ _ _.
  apply (seen_name st seen st1 tree _ Hinv Htree).
Qed.

Lemma hoist_returns_a_tree_under_the_root_witness :
  exists st' o,
    hoist sampleNumber 8 None 0 defaultOptions simpleDuplicate = Ok (st', (o, 0))
    /\ HoisterResult.name (rnode o 0) = "."
    /\ treeShaped o.
Proof.
  eexists _, _. split; [vm_compute; reflexivity|].
  eapply (hoist_returns_a_tree_under_the_root sampleNumber 8 None 0 defaultOptions simpleDuplicate).
  vm_compute. reflexivity.
Defined.

(** ** Dependencies stay keyed by name *)

Lemma elem_mdelete {V : Type} (k k' : string) (v : V) (m : list (string * V)) :
  (k', v) ∈ mdelete k m -> (k', v) ∈ m.
Proof.
  induction m as [|[k0 v0] m IH]; simpl; [auto|].
  destruct (k =? k0)%string; rewrite ?elem_of_cons; [auto|].
  intros [Heq|Hin]; auto.
Qed.

Lemma NoDup_mkeys_mdelete {V : Type} (k : string) (m : list (string * V)) :
  NoDup (mkeys m) -> NoDup (mkeys (mdelete k m)).
Proof.
  induction m as [|[k0 v0] m IH]; simpl; [auto|].
  intros Hnd. apply NoDup_cons in Hnd as [Hk0 Hnd].
  destruct (k =? k0)%string; [exact Hnd|]. simpl. apply NoDup_cons.
  split; [|auto]. intros Hin. apply Hk0.
  apply list_elem_of_fmap in Hin as ([k1 v1] & -> & Hin).
  apply elem_mdelete in Hin. apply list_elem_of_fmap. exists (k1, v1). auto.
Qed.

Lemma wellKeyed_names (h h' : list W.t) m :
  (forall d, d ∈ mvalues m -> W.name (node h' d) = W.name (node h d)) ->
  wellKeyed h m -> wellKeyed h' m.
Proof.
  intros Hnames [Hnd Hkeys]. split; [exact Hnd|]. intros k d Hin.
  rewrite Hnames; [apply (Hkeys k d Hin)|].
  apply list_elem_of_fmap. exists (k, d). auto.
Qed.

Lemma wellKeyed_mdelete (h : list W.t) m k :
  wellKeyed h m -> wellKeyed h (mdelete k m).
Proof.
  intros [Hnd Hkeys]. split; [apply NoDup_mkeys_mdelete, Hnd|].
  intros k' d Hin. apply (Hkeys k' d), (elem_mdelete _ _ _ _ Hin).
Qed.

Lemma wellFormed_update (h : list W.t) p f :
  wellFormed h ->
  (forall w, W.name (f w) = W.name w) ->
  wellKeyed h (W.dependencies (f (node h p))) ->
  (forall d, d ∈ mvalues (W.dependencies (f (node h p))) -> d < length h) ->
  wellFormed (update h p f).
Proof.
  intros Hwf Hname Hkeyed Hvalid.
  assert (Hnames : forall r, W.name (node (update h p f) r) = W.name (node h r)).
  { intros r. destruct (node_update h p r f) as [->|(_ & _ & ->)]; auto. }
  intros n. rewrite length_update.
  destruct (node_update h p n f) as [->|(-> & _ & ->)].
  - destruct (Hwf n) as [Hk Hv]. split; [|exact Hv].
    apply (wellKeyed_names h); [auto|exact Hk].
  - split; [|exact Hvalid]. apply (wellKeyed_names h); [auto|exact Hkeyed].
Qed.

Lemma wellFormed_update_other (h : list W.t) p f :
  wellFormed h ->
  (forall w, W.name (f w) = W.name w) ->
  (forall w, W.dependencies (f w) = W.dependencies w) ->
  wellFormed (update h p f).
Proof.
  intros Hwf Hname Hdeps.
  apply wellFormed_update; [exact Hwf|exact Hname|..]; rewrite Hdeps; apply Hwf.
Qed.

Lemma wellFormed_alloc (h : list W.t) n :
  wellFormed h -> wellFormed (h ++ [node h n]).
Proof.
  intros Hwf m.
  assert (Hnode : exists m', node (h ++ [node h n]) m = node h m').
  { destruct (decide (m < length h)) as [Hm|Hm].
    - exists m. apply node_app_l, Hm.
    - destruct (decide (m = length h)) as [->|Hne].
      + exists n. apply node_alloc_new.
      + exists m. rewrite !node_invalid; [reflexivity|lia|].
        rewrite length_app. simpl. lia. }
  destruct Hnode as (m' & ->). destruct (Hwf m') as [Hk Hv].
  split.
  - apply (wellKeyed_names h); [|exact Hk].
    intros d Hd. rewrite node_app_l by apply (Hv d Hd). reflexivity.
  - intros d Hd. rewrite length_app. specialize (Hv d Hd). lia.
Qed.

Lemma wellFormed_sameGraph (h h' : list W.t) :
  sameGraph h h' -> wellFormed h -> wellFormed h'.
Proof.
  intros [Hlen Hsame] Hwf n. rewrite Hlen, (erased_dependencies h h' Hsame).
  destruct (Hwf n) as [Hk Hv]. split; [|exact Hv].
  apply (wellKeyed_names h); [|exact Hk].
  intros d _. apply (erased_name h h' Hsame).
Qed.

Lemma clonePath_wellFormed candidate nodePath :
  forall parentClonedNode (h h' : list W.t) clonedTree last,
    wellFormed h ->
    clonePath candidate nodePath parentClonedNode h = (h', clonedTree, last) ->
    wellFormed h'.
Proof.
  induction nodePath as [|n rest IH]; intros pc h h' ct l Hwf Hrun; simpl in Hrun.
  - injection Hrun as <- _ _. exact Hwf.
  - assert (Hfirst : wellFormed
              (match mget n (children pc) with
               | Some c => (c, h)
               | None =>
                   let name := W.name (node h n) in
                   let '(h, c) := alloc h (node h n) in
                   (mkCloneTree c [],
                    update h (clone pc) (W.with_dependencies (mset name c)))
               end).2).
    { destruct (mget n (children pc)); simpl; [exact Hwf|].
      pose proof (wellFormed_alloc h n Hwf) as Hwf1.
      apply wellFormed_update; [exact Hwf1|reflexivity|..]; simpl.
      - apply wellKeyed_mset; [apply Hwf1|]. rewrite node_alloc_new. reflexivity.
      - intros d Hd.
        apply mvalues_mset in Hd as [->|Hd];
          [|apply (proj2 (Hwf1 (clone pc))), Hd].
        rewrite length_app. simpl. lia. }
    destruct (match mget n (children pc) with Some c => _ | None => _ end)
      as [nodeClone h1].
    simpl in Hfirst.
    destruct (clonePath candidate rest nodeClone _) as [[h3 nodeClone'] last']
      eqn:Hrec.
    injection Hrun as <- _ _.
    refine (IH _ _ _ _ _ _ Hrec).
    apply wellFormed_update_other; [exact Hfirst|reflexivity..].
Qed.

Lemma mergeReferences_wellFormed hoistedNode refs :
  forall (h : list W.t),
    wellFormed h ->
    wellFormed (fold_left (fun h reference =>
                             update h hoistedNode (W.with_references (sadd reference)))
                          refs h).
Proof.
  induction refs as [|x refs IH]; intros h Hwf; simpl; [exact Hwf|].
  apply IH, wellFormed_update_other; [exact Hwf|reflexivity..].
Qed.

Lemma addToRoot_wellFormed rootNode candidate (h : list W.t) anc :
  wellFormed h -> candidate < length h ->
  wellFormed (addToRoot rootNode candidate (h, anc)).1.
Proof.
  intros Hwf Hc. unfold addToRoot. destruct (mget _ _) as [hoistedNode|].
  - apply mergeReferences_wellFormed, Hwf.
  - destruct (negb _); simpl; [|exact Hwf].
    apply wellFormed_update; [exact Hwf|reflexivity|..]; simpl.
    + apply wellKeyed_mset; [apply Hwf|reflexivity].
    + intros d Hd.
      apply mvalues_mset in Hd as [->|Hd]; [exact Hc|apply (proj2 (Hwf rootNode)), Hd].
Qed.

Lemma regularPath_valid (h : list W.t) parent path n :
  wellFormed h -> regularPath h parent path n -> n < length h.
Proof.
  intros Hwf. revert parent. induction path as [|p path IH]; intros parent; simpl.
  - intros Hedge. apply regularEdge_iff in Hedge as [Hd _].
    apply (proj2 (Hwf parent)), Hd.
  - intros [_ Hrest]. apply (IH p Hrest).
Qed.

Section HoistWellFormed.
Variables (tree : nat) (am : list (string * list string))
          (options : InternalHoistOptions).

Lemma applyCandidate_wellFormed rootNode (h : list W.t) clonedTree anc candidate s :
  wellFormed h ->
  HoistCandidate.node candidate < length h ->
  applyCandidate tree options rootNode (h, clonedTree, anc) candidate = Ok s ->
  wellFormed s.1.1.
Proof.
  intros Hwf Hvalid. unfold applyCandidate.
  destruct (clonePath _ _ clonedTree h) as [[h1 ct1] parentClone] eqn:Hpath.
  pose proof (clonePath_wellFormed _ _ _ _ _ _ _ Hwf Hpath) as Hwf1.
  destruct (clonePath_frozen _ _ _ _ _ _ _ Hpath) as [Hlen1 _].
  set (cnode := HoistCandidate.node candidate) in *.
  set (h2 := update h1 parentClone _).
  assert (Hwf2 : wellFormed h2).
  { apply wellFormed_update; [exact Hwf1|reflexivity|..]; simpl.
    - apply wellKeyed_mdelete, Hwf1.
    - intros d Hd. apply mvalues_mdelete in Hd.
      apply (proj2 (Hwf1 parentClone)), Hd. }
  set (h3 := update h2 parentClone _).
  assert (Hwf3 : wellFormed h3)
    by (apply wellFormed_update_other; [exact Hwf2|reflexivity..]).
  assert (Hwf4 : wellFormed (addToRoot rootNode cnode (h3, anc)).1).
  { apply addToRoot_wellFormed; [exact Hwf3|].
    unfold h3, h2. rewrite !length_update. lia. }
  destruct (addToRoot rootNode cnode (h3, anc)) as [h4 anc4]. simpl in Hwf4.
  destruct (icheck options).
  - destruct (selfCheck h4 tree) as [checkLog| |]; cbn [mbind result_bind];
      [|discriminate..].
    destruct (negb _); [discriminate|]. intros [= <-]. exact Hwf4.
  - intros [= <-]. exact Hwf4.
Qed.

Lemma hoistLoop_wellFormed fuel :
  forall rootNode rootNodePath (h : list W.t) clonedTree anc s,
    wellFormed h ->
    hoistLoop tree am options fuel rootNode rootNodePath (h, clonedTree, anc)
    = Ok s ->
    wellFormed s.1.1.
Proof.
  induction fuel as [|fuel IH]; intros rootNode path h ct anc s Hwf; [discriminate|].
  simpl.
  destruct (getHoistCandidates _ _ _ _ _ h) as [[sets h1]| |] eqn:Hfind;
    cbn [mbind result_bind]; [|discriminate..].
  destruct (getHoistCandidates_sound _ _ _ _ _ _ _ _ Hfind)
    as (st0 & Hsets & Hh1 & [Hsame _ _ Hgood]).
  rewrite <- Hh1 in Hsame.
  pose proof (wellFormed_sameGraph _ _ Hsame Hwf) as Hwf1.
  match goal with
  | |- context [forEach ?l ?body ?s0] =>
      destruct (forEach l body s0) as [[[h2 ct2] anc2]| |] eqn:Hloop;
      cbn [mbind result_bind]; [|discriminate..]
  end.
  assert (H2 : wellFormed h2 /\ length h <= length h2).
  { revert Hloop.
    apply (forEach_preserves_in
             (fun s => wellFormed s.1.1 /\ length h <= length s.1.1)).
    - intros s1 hoistSet s2 Hset Hs1.
      apply (forEach_preserves_in
               (fun s => wellFormed s.1.1 /\ length h <= length s.1.1));
        [|exact Hs1].
      intros [[h3 ct3] anc3] c s4 Hc [Hwf3 Hlen3] Hrun. simpl in Hwf3, Hlen3.
      split.
      + apply (applyCandidate_wellFormed rootNode h3 ct3 anc3 c s4 Hwf3);
          [|exact Hrun].
        rewrite Hsets in Hset.
        apply list_elem_of_fmap in Hset as ([name hs] & -> & Hin).
        destruct (Hgood name hs Hin) as (_ & _ & _ & Hcands).
        destruct (Hcands c Hc) as (_ & _ & _ & Hpath & _).
        pose proof (regularPath_valid _ _ _ _ Hwf Hpath). lia.
      + destruct (applyCandidate_frozen _ _ _ _ _ _ _ _ Hrun) as [Hlen4 _].
        simpl in Hlen4. lia.
    - split; [exact Hwf1|]. simpl. destruct Hsame as [-> _]. lia. }
  destruct H2 as [Hwf2 _].
  destruct (0 <? length sets)%nat; [|intros [= <-]; exact Hwf2].
  intros Hrec. apply (IH _ _ _ _ _ _ Hwf2 Hrec).
Qed.

Lemma hoistTo_wellFormed fuel :
  (forall rootNode panc seen (h : list W.t) path s,
     wellFormed h ->
     hoistTo tree am options fuel rootNode panc seen (h, path) = Ok s ->
     wellFormed s.1)
  /\ (forall rootNode anc k (h : list W.t) path s,
        wellFormed h ->
        hoistDependencies tree am options fuel rootNode anc k (h, path) = Ok s ->
        wellFormed s.1).
Proof.
  induction fuel as [|fuel [IHto IHdeps]]; [split; intros; discriminate|].
  split.
  - intros rootNode panc seen h path s Hwf. rewrite hoistTo_unfold.
    destruct (shas rootNode seen); [intros [= <-]; exact Hwf|].
    cbv zeta.
    destruct (hoistLoop _ _ _ _ _ _ _) as [[[h1 ct1] anc1]| |] eqn:Hloop;
      cbn [mbind result_bind]; [|discriminate..].
    intros Hdeps.
    apply (IHdeps _ _ _ _ _ _ (hoistLoop_wellFormed _ _ _ _ _ _ _ Hwf Hloop) Hdeps).
  - intros rootNode anc k h path s Hwf. rewrite hoistDependencies_unfold.
    destruct (_ !! k) as [dependency|]; [|intros [= <-]; exact Hwf].
    cbv zeta.
    match goal with
    | |- context [if ?b then ?x else ?y] =>
        destruct (if b then x else y) as [[h1 path1]| |] eqn:Hchild;
        cbn [mbind result_bind]; [|discriminate..]
    end.
    intros Hrest.
    assert (H1 : wellFormed h1).
    { destruct (negb _); [apply (IHto _ _ _ _ _ _ Hwf Hchild)|].
      injection Hchild as <- _. exact Hwf. }
    apply (IHdeps _ _ _ _ _ _ H1 Hrest).
Qed.
End HoistWellFormed.

Lemma cloneTree_wellFormed st seen st1 :
  wellFormed (work st) ->
  CloneInv st seen st1 ->
  (forall n w, mget n seen = Some w -> finished st seen st1 n w) ->
  wellFormed (work st1).
Proof.
  intros Hwf Hinv Hfin r.
  destruct (decide (r < length (work st))) as [Hold|Hnew].
  - rewrite (node_ext _ _ _ (ci_old _ _ _ Hinv r Hold)).
    destruct (Hwf r) as [Hk Hv]. split.
    + apply (wellKeyed_names (work st)); [|exact Hk].
      intros d Hd. rewrite (node_ext _ _ _ (ci_old _ _ _ Hinv d (Hv d Hd))).
      reflexivity.
    + intros d Hd. specialize (Hv d Hd). rewrite (ci_length _ _ _ Hinv). lia.
  - destruct (decide (r < length (work st1))) as [Hin|Hout].
    + assert (Hw : r ∈ mvalues seen).
      { rewrite (ci_values _ _ _ Hinv). apply elem_of_seq.
        rewrite (ci_length _ _ _ Hinv) in Hin. lia. }
      apply list_elem_of_fmap in Hw as ([n w] & -> & Hw).
      pose proof (elem_mget n w seen (ci_keys _ _ _ Hinv) Hw) as Hget.
      destruct (Hfin n w Hget) as [Hnode _]. simpl. rewrite Hnode.
      unfold cloneOf. split.
      * apply linkAll_wellKeyed.
        -- intros d w' Hw'. apply (seen_name st seen st1 d w' Hinv Hw').
        -- split; [constructor|]. intros k d Hd. apply elem_of_nil in Hd as [].
      * intros d Hd. apply linkAll_targets in Hd as [Hd|Hd].
        -- simpl in Hd. apply elem_of_nil in Hd as [].
        -- apply list_elem_of_fmap in Hd as ([n' w'] & -> & Hd).
           pose proof (elem_mget n' w' seen (ci_keys _ _ _ Hinv) Hd) as Hget'.
           apply (seen_values_range _ _ _ _ _ Hinv Hget').
    + rewrite node_invalid by exact Hout. split.
      * split; [constructor|]. intros k d Hd. apply elem_of_nil in Hd as [].
      * intros d Hd. apply elem_of_nil in Hd as [].
Qed.

(** X17: [hoist] keeps the work graph well formed: when every
    dependencies map of the work graph is keyed by the names of the nodes
    it holds, with one entry per name, and holds nodes of the graph before
    the call, as is the case of the empty graph, the same is true of the
    work graph that [hoist] leaves, copies and promoted nodes included. *)
Theorem hoist_keeps_dependencies_keyed_by_name toNumber fuel env tree opts st st' out :
  wellFormed (work st) ->
  hoist toNumber fuel env tree opts st = Ok (st', out) ->
  wellFormed (work st').
Proof.
  intros Hwf. unfold hoist.
  destruct (cloneTree_spec tree st) as (seen & st1 & -> & Hinv & _ & Hfin).
  cbn [mbind result_bind].
  destruct (buildAncestorMap _ _) as [am| |]; cbn [mbind result_bind];
    [|discriminate..].
  destruct (hoistTo _ _ _ _ _ _ _ _) as [[h path]| |] eqn:Hrun;
    cbn [mbind result_bind]; [|discriminate..].
  destruct (if geNumber _ 1 then _ else _) as [[]| |];
    cbn [mbind result_bind]; [|discriminate..].
  destruct (shrinkTree _ _ _) as [o| |]; cbn [mbind result_bind];
    [|discriminate..].
  intros [= <- _]. simpl.
  apply (proj1 (hoistTo_wellFormed _ _ _ fuel) _ _ _ _ _ _
           (cloneTree_wellFormed st seen st1 Hwf Hinv Hfin) Hrun).
Qed.

Lemma hoist_keeps_dependencies_keyed_by_name_witness :
  exists st' out,
    hoist sampleNumber 8 None 0 defaultOptions simpleDuplicate = Ok (st', out)
    /\ wellFormed (work st').
Proof.
  eexists _, _. split; [vm_compute; reflexivity|].
  eapply (hoist_keeps_dependencies_keyed_by_name sampleNumber 8 None 0 defaultOptions
            simpleDuplicate).
  - intros n. rewrite node_invalid by (simpl; lia). split.
    + split; [constructor|]. intros k d Hd. apply elem_of_nil in Hd as [].
    + intros d Hd. apply elem_of_nil in Hd as [].
  - vm_compute. reflexivity.
Defined.

(** ** A round of promotions *)

Lemma forEach_concat {A S : Type} (ls : list (list A)) (body : S -> A -> result S) :
  forall s,
    forEach ls (fun s l => forEach l body s) s = forEach (concat ls) body s.
Proof.
  induction ls as [|l ls IH]; intros s; [reflexivity|].
  simpl. rewrite forEach_app. destruct (forEach l body s); simpl; auto.
Qed.

Lemma forEach_map {A B S : Type} (f : A -> B) (l : list A)
  (body : S -> B -> result S) :
  forall s, forEach (map f l) body s = forEach l (fun s x => body s (f x)) s.
Proof.
  induction l as [|x l IH]; intros s; [reflexivity|].
  simpl. destruct (body s (f x)); simpl; auto.
Qed.

(** A loop whose body keeps [J] and establishes [V] of the element done,
    where [V] once established stays. *)
Lemma forEach_each {A S : Type} (J : S -> Prop) (V : A -> S -> Prop)
  (l : list A) (body : S -> A -> result S) :
  (forall s x s', x ∈ l -> J s -> body s x = Ok s' -> J s' /\ V x s') ->
  (forall x s y s', V x s -> J s -> y ∈ l -> body s y = Ok s' -> V x s') ->
  forall s s',
    J s -> forEach l body s = Ok s' -> J s' /\ forall x, x ∈ l -> V x s'.
Proof.
  intros Hstep Hstable.
  assert (Hgen : forall rest done s s',
            l = done ++ rest -> J s -> (forall x, x ∈ done -> V x s) ->
            forEach rest body s = Ok s' ->
            J s' /\ forall x, x ∈ l -> V x s').
  { induction rest as [|y rest IH]; intros done s s' Hl HJ HV; simpl.
    - intros [= <-]. rewrite app_nil_r in Hl. subst done. auto.
    - destruct (body s y) as [s1| |] eqn:Hb; simpl; [|discriminate..].
      assert (Hy : y ∈ l) by (rewrite Hl; apply elem_of_app; right; left).
      destruct (Hstep s y s1 Hy HJ Hb) as [HJ1 HVy].
      apply (IH (done ++ [y])); [rewrite <- app_assoc; exact Hl|exact HJ1|].
      intros x Hx. apply elem_of_app in Hx as [Hx|Hx].
      + apply (Hstable x s y s1 (HV x Hx) HJ Hy Hb).
      + apply list_elem_of_singleton in Hx. subst x. exact HVy. }
  intros s s' HJ. apply (Hgen l [] s s'); [reflexivity|exact HJ|].
  intros x Hx. apply elem_of_nil in Hx as [].
Qed.

Lemma frozen_update (h : list W.t) p f r :
  (forall w, frozen (f w) = frozen w) ->
  frozen (node (update h p f) r) = frozen (node h r).
Proof.
  intros Hf. destruct (node_update h p r f) as [->|(_ & _ & ->)]; auto.
Qed.

Lemma frozenExt_old (h h' : list W.t) r :
  frozenExt h h' -> r < length h -> frozen (node h' r) = frozen (node h r).
Proof.
  intros [_ Hfrozen] Hr. destruct (Hfrozen r) as (r0 & Heq & Hold).
  rewrite Heq, (Hold Hr). reflexivity.
Qed.

(** The first step of the loop over a candidate's path, at the root of the
    clone tree. *)
Lemma clonePath_root L rootNode candidate n1 rest ct (h h' : list W.t) ct' last :
  rootNode < L -> L <= length h ->
  freshClones L rootNode ct ->
  clonePath candidate (n1 :: rest) ct h = (h', ct', last) ->
  freshClones L rootNode ct'
  /\ last <> rootNode
  /\ (W.dependencies (node h' rootNode) = W.dependencies (node h rootNode)
      \/ exists c1,
           length h <= c1
           /\ c1 < length h'
           /\ frozen (node h' c1) = frozen (node h n1)
           /\ W.dependencies (node h' rootNode)
              = mset (W.name (node h n1)) c1 (W.dependencies (node h rootNode))).
Proof.
  intros Hroot HL [Hclone (F & Hcs & HF)] Hrun.
  destruct ct as [r cs]. simpl in Hclone, Hcs. subst r.
  cbn [clonePath clone children] in Hrun.
  destruct (mget n1 cs) as [c1|] eqn:Hget.
  - pose proof (Hcs n1 c1 (mget_Some_elem _ _ _ Hget)) as Hc1.
    assert (Hfresh : L <= clone c1) by (destruct Hc1 as [r l Hr _]; apply HF, Hr).
    set (h2 := update h (clone c1) _) in Hrun.
    destruct (clonePath candidate rest c1 h2) as [[h3 c1'] last'] eqn:Hrec.
    injection Hrun as <- <- <-.
    destruct (clonePath_outside _ _ _ _ _ _ _ _ Hc1 Hrec)
      as (Hlen3 & Hout3 & nodes' & Hc1' & Hlast & Hnew).
    unfold h2 in Hlen3, Hout3, Hnew. rewrite length_update in Hlen3, Hout3, Hnew.
    assert (HrootF : rootNode ∉ F) by (intros Hin; apply HF in Hin; lia).
    split; [|split].
    + split; [reflexivity|]. exists (F ++ nodes'). simpl. split.
      * intros k c Hin. apply elem_mset in Hin as [[= -> ->]|Hin].
        -- apply (clonesIn_mono nodes'); [|exact Hc1'].
           intros y Hy. apply elem_of_app. auto.
        -- apply (clonesIn_mono F); [|apply (Hcs k c Hin)].
           intros y Hy. apply elem_of_app. auto.
      * intros y Hy. apply elem_of_app in Hy as [Hy|Hy]; [auto|].
        destruct (Hnew y Hy) as [Hy'|Hy']; [auto|lia].
    + intros ->. destruct (Hnew _ Hlast) as [Hy|Hy]; [apply HF in Hy|]; lia.
    + left. rewrite Hout3 by (assumption || lia).
      rewrite node_update_ne by lia. reflexivity.
  - unfold alloc in Hrun. cbn [clone] in Hrun.
    set (c := length h) in *.
    set (hB := h ++ [node h n1]) in Hrun.
    set (hC := update hB rootNode _) in Hrun.
    set (h2 := update hC c _) in Hrun.
    destruct (clonePath candidate rest (mkCloneTree c []) h2) as [[h3 c1'] last']
      eqn:Hrec.
    injection Hrun as <- <- <-.
    assert (Hc0 : clonesIn [c] (mkCloneTree c [])).
    { constructor; [left|]. intros k x Hin. apply elem_of_nil in Hin as []. }
    destruct (clonePath_outside _ _ _ _ _ _ _ _ Hc0 Hrec)
      as (Hlen3 & Hout3 & nodes' & Hc1' & Hlast & Hnew).
    assert (Hlen2 : length h2 = S c).
    { unfold h2, hC, hB. rewrite !length_update, length_app. simpl. lia. }
    rewrite Hlen2 in Hlen3, Hout3, Hnew.
    assert (Hnewc : forall y, y ∈ nodes' -> L <= y).
    { intros y Hy. destruct (Hnew y Hy) as [Hy'|Hy']; [|lia].
      apply list_elem_of_singleton in Hy'. subst y. exact HL. }
    split; [|split].
    + split; [reflexivity|]. exists (F ++ nodes'). simpl. split.
      * intros k x Hin. apply elem_mset in Hin as [[= -> ->]|Hin].
        -- apply (clonesIn_mono nodes'); [|exact Hc1'].
           intros y Hy. apply elem_of_app. auto.
        -- apply (clonesIn_mono F); [|apply (Hcs k x Hin)].
           intros y Hy. apply elem_of_app. auto.
      * intros y Hy. apply elem_of_app in Hy as [Hy|Hy]; auto.
    + intros ->. apply Hnewc in Hlast. lia.
    + right. exists c. split; [unfold c; lia|]. split; [lia|]. split.
      * rewrite (frozenExt_old h2 h3 c (clonePath_frozen _ _ _ _ _ _ _ Hrec))
          by lia.
        unfold h2. rewrite frozen_update by reflexivity.
        unfold hC. rewrite node_update_ne by (unfold c; lia).
        unfold hB. rewrite node_alloc_new. reflexivity.
      * rewrite Hout3;
          [|lia|intros Hin; apply list_elem_of_singleton in Hin; unfold c in Hin; lia].
        unfold h2. rewrite node_update_ne by (unfold c; lia).
        unfold hC. rewrite node_update_eq
          by (unfold hB; rewrite length_app; simpl; lia).
        unfold hB. rewrite node_app_l by lia. reflexivity.
Qed.

Lemma mhas_mset_mono {V : Type} (k k' : string) (v : V) (m : list (string * V)) :
  mhas k m = true -> mhas k (mset k' v m) = true.
Proof.
  unfold mhas. destruct (decide (k = k')) as [->|Hne].
  - rewrite mget_mset_eq. reflexivity.
  - rewrite mget_mset_ne by congruence. auto.
Qed.

Section Round.
Variables (tree : nat) (options : InternalHoistOptions).

(** What applying a candidate does to the dependencies of the root. *)
Lemma applyCandidate_root L rootNode (h : list W.t) ct anc c h' ct' anc' n1 rest :
  rootNode < L -> L <= length h ->
  freshClones L rootNode ct ->
  HoistCandidate.nodePath c = n1 :: rest ->
  HoistCandidate.node c < length h ->
  applyCandidate tree options rootNode (h, ct, anc) c = Ok (h', ct', anc') ->
  freshClones L rootNode ct'
  /\ (forall k d,
        mget k (W.dependencies (node h' rootNode)) = Some d ->
        mget k (W.dependencies (node h rootNode)) = Some d
        \/ (k = W.name (node h n1) /\ frozen (node h' d) = frozen (node h n1))
        \/ (k = W.name (node h (HoistCandidate.node c))
            /\ d = HoistCandidate.node c))
  /\ (forall k,
        mhas k (W.dependencies (node h rootNode)) = true ->
        mhas k (W.dependencies (node h' rootNode)) = true)
  /\ (mhas (W.name (node h (HoistCandidate.node c)))
            (W.dependencies (node h' rootNode)) = true
      \/ W.ident (node h rootNode) = W.ident (node h (HoistCandidate.node c))).
Proof.
  intros Hroot HL Hct Hpath Hx. unfold applyCandidate. rewrite Hpath.
  destruct (clonePath _ (n1 :: rest) ct h) as [[h1 ct1] parentClone] eqn:Hclone.
  destruct (clonePath_root L _ _ _ _ _ _ _ _ _ Hroot HL Hct Hclone)
    as (Hct1 & Hparent & Hdeps1).
  pose proof (clonePath_frozen _ _ _ _ _ _ _ Hclone) as Hfrozen1.
  set (x := HoistCandidate.node c) in *.
  set (h2 := update h1 parentClone _).
  set (h3 := update h2 parentClone _).
  assert (Hroot3 : node h3 rootNode = node h1 rootNode).
  { unfold h3, h2. rewrite !node_update_ne by congruence. reflexivity. }
  assert (Hfrozen3 : frozenExt h1 h3).
  { apply (frozenExt_trans _ h2); apply frozenExt_update; reflexivity. }
  assert (Hlen1 : length h <= length h1) by apply Hfrozen1.
  assert (Hx3 : frozen (node h3 x) = frozen (node h x)).
  { rewrite (frozenExt_old h1 h3 _ Hfrozen3) by lia.
    apply (frozenExt_old h h1); assumption. }
  assert (Hr3 : frozen (node h3 rootNode) = frozen (node h rootNode)).
  { rewrite (frozenExt_old h1 h3 _ Hfrozen3) by lia.
    apply (frozenExt_old h h1); [assumption|lia]. }
  assert (Hname3 : W.name (node h3 x) = W.name (node h x))
    by (injection Hx3 as -> _ _ _ _ _; reflexivity).
  pose proof (addToRoot_frozen rootNode x h3 anc) as Hfrozen4.
  assert (Hdeps4 :
            let h4 := (addToRoot rootNode x (h3, anc)).1 in
            (W.dependencies (node h4 rootNode) = W.dependencies (node h1 rootNode)
             /\ (mhas (W.name (node h x)) (W.dependencies (node h1 rootNode)) = true
                 \/ W.ident (node h rootNode) = W.ident (node h x)))
            \/ W.dependencies (node h4 rootNode)
               = mset (W.name (node h x)) x (W.dependencies (node h1 rootNode))).
  { unfold addToRoot. rewrite Hname3, Hroot3.
    destruct (mget (W.name (node h x)) (W.dependencies (node h1 rootNode)))
      as [hoistedNode|] eqn:Hentry.
    - left. simpl. rewrite mergeReferences_dependencies, Hroot3.
      split; [reflexivity|]. left. unfold mhas. rewrite Hentry. reflexivity.
    - rewrite <- Hroot3.
      destruct (String.eqb_spec (W.ident (node h3 rootNode)) (W.ident (node h3 x)))
        as [Hident|Hident]; simpl.
      + left. split; [reflexivity|]. right.
        injection Hx3 as _ <- _ _ _ _. injection Hr3 as _ <- _ _ _ _.
        exact Hident.
      + right. rewrite node_update_eq; [reflexivity|].
        unfold h3, h2. rewrite !length_update. lia. }
  destruct (addToRoot rootNode x (h3, anc)) as [h4 anc4]. simpl in Hfrozen4, Hdeps4.
  assert (Hdone :
            forall h'' ct'' anc'',
              (h4, ct1, anc4) = (h'', ct'', anc'') ->
              freshClones L rootNode ct''
              /\ (forall k d,
                    mget k (W.dependencies (node h'' rootNode)) = Some d ->
                    mget k (W.dependencies (node h rootNode)) = Some d
                    \/ (k = W.name (node h n1)
                        /\ frozen (node h'' d) = frozen (node h n1))
                    \/ (k = W.name (node h x) /\ d = x))
              /\ (forall k,
                    mhas k (W.dependencies (node h rootNode)) = true ->
                    mhas k (W.dependencies (node h'' rootNode)) = true)
              /\ (mhas (W.name (node h x))
                        (W.dependencies (node h'' rootNode)) = true
                  \/ W.ident (node h rootNode) = W.ident (node h x))).
  { intros h'' ct'' anc'' [= <- <- <-]. split; [exact Hct1|].
    assert (Hfrom1 : forall k d,
              mget k (W.dependencies (node h1 rootNode)) = Some d ->
              mget k (W.dependencies (node h rootNode)) = Some d
              \/ (k = W.name (node h n1)
                  /\ frozen (node h4 d) = frozen (node h n1))).
    { intros k d Hkd. destruct Hdeps1 as [Hsame|(c1 & _ & Hc1 & Hfc1 & Hset)].
      - left. rewrite <- Hsame. exact Hkd.
      - rewrite Hset in Hkd. destruct (decide (k = W.name (node h n1))) as [->|Hne].
        + rewrite mget_mset_eq in Hkd. injection Hkd as <-. right.
          split; [reflexivity|]. rewrite <- Hfc1.
          rewrite (frozenExt_old h3 h4 _ Hfrozen4) by (destruct Hfrozen3; lia).
          apply (frozenExt_old h1 h3); assumption.
        + rewrite mget_mset_ne in Hkd by congruence. auto. }
    assert (Hmono1 : forall k,
              mhas k (W.dependencies (node h rootNode)) = true ->
              mhas k (W.dependencies (node h1 rootNode)) = true).
    { intros k Hk. destruct Hdeps1 as [->|(c1 & _ & _ & _ & ->)]; [exact Hk|].
      apply mhas_mset_mono, Hk. }
    destruct Hdeps4 as [[Hsame Hvis]|Hset].
    - rewrite Hsame. split; [|split].
      + intros k d Hkd. destruct (Hfrom1 k d Hkd) as [?|?]; auto.
      + exact Hmono1.
      + destruct Hvis as [Hvis|Hvis]; [left|right; exact Hvis].
        destruct Hdeps1 as [Hsame1|(c1 & _ & _ & _ & Hset1)].
        * exact Hvis.
        * exact Hvis.
    - rewrite Hset. split; [|split].
      + intros k d Hkd. destruct (decide (k = W.name (node h x))) as [->|Hne].
        * rewrite mget_mset_eq in Hkd. injection Hkd as <-. auto.
        * rewrite mget_mset_ne in Hkd by congruence.
          destruct (Hfrom1 k d Hkd) as [?|?]; auto.
      + intros k Hk. apply mhas_mset_mono, Hmono1, Hk.
      + left. unfold mhas. rewrite mget_mset_eq. reflexivity. }
  destruct (icheck options).
  - destruct (selfCheck h4 tree) as [checkLog| |]; cbn [mbind result_bind];
      [|discriminate..].
    destruct (negb _); [discriminate|]. intros [= <- <- <-].
    apply (Hdone _ _ _ eq_refl).
  - intros [= <- <- <-]. apply (Hdone _ _ _ eq_refl).
Qed.
End Round.

Lemma frozen_name a b : frozen a = frozen b -> W.name a = W.name b.
Proof. intros [= -> _ _ _ _ _]. reflexivity. Qed.

Lemma frozen_ident a b : frozen a = frozen b -> W.ident a = W.ident b.
Proof. intros [= _ -> _ _ _ _]. reflexivity. Qed.

Lemma elem_of_concat_map {A B : Type} (f : A -> list B) (l : list A) (y : B) :
  y ∈ concat (map f l) <-> exists x, x ∈ l /\ y ∈ f x.
Proof.
  induction l as [|x l IH]; simpl.
  - split; [intros H; apply elem_of_nil in H as []|].
    intros (x & Hx & _). apply elem_of_nil in Hx as [].
  - rewrite elem_of_app, IH. split.
    + intros [Hy|(x' & Hx' & Hy)]; [exists x; split; [left|exact Hy]|].
      exists x'. split; [right; exact Hx'|exact Hy].
    + intros (x' & Hx' & Hy). apply elem_of_cons in Hx' as [->|Hx']; [auto|].
      right. exists x'. auto.
Qed.

(** A node that passes the predicates under a stack that starts at the
    root finds no other version of itself among the dependencies of the
    root. *)
Lemma passes_root_entry rootNode rootNodePath anc (h : list W.t) n1 rest x :
  passes rootNode rootNodePath anc h (tuplesFrom rootNode (n1 :: rest)) x = true ->
  otherIdent h x (mget (W.name (node h x)) (W.dependencies (node h rootNode)))
  = false.
Proof.
  unfold passes. intros Hpass.
  apply andb_true_iff in Hpass as [Hpass _]. apply andb_true_iff in Hpass as [Hpass _].
  apply andb_true_iff in Hpass as [_ Havail].
  unfold isNameAvailable in Havail.
  destruct (otherIdent h x (mget _ (W.originalDependencies _))); [discriminate|].
  destruct (find (blockedBy h x) (tuplesFrom rootNode (n1 :: rest))) eqn:Hfind;
    [discriminate|].
  pose proof (find_none _ _ Hfind (Tuple.mk n1 rootNode) ltac:(left; reflexivity))
    as Hblocked.
  unfold blockedBy in Hblocked. simpl in Hblocked.
  apply orb_false_iff in Hblocked as [Hdep _]. exact Hdep.
Qed.

(** X18: a round of promotions puts every candidate in view of the root:
    after the candidates that a search has returned have all been applied,
    to the graph of the search and a clone tree that is the root alone,
    the root has, for each of them, a dependency under the candidate's name
    that has the candidate's ident, unless the root has this ident
    itself. *)
Theorem round_promotes_every_candidate
  tree options rootNode rootNodePath ancestorDependencies ancestorMap
  (h0 : list W.t) sets h1 h2 clonedTree ancestorDependencies' :
  wellFormed h0 ->
  rootNode < length h0 ->
  getHoistCandidates rootNode rootNodePath ancestorDependencies ancestorMap
                     options h0 = Ok (sets, h1) ->
  forEach sets
    (fun s hoistSet =>
       forEach (HoistCandidateSet.candidates hoistSet)
               (applyCandidate tree options rootNode) s)
    (h1, mkCloneTree rootNode [], ancestorDependencies)
  = Ok (h2, clonedTree, ancestorDependencies') ->
  forall hoistSet c,
    hoistSet ∈ sets -> c ∈ HoistCandidateSet.candidates hoistSet ->
    W.ident (node h0 rootNode) = W.ident (node h0 (HoistCandidate.node c))
    \/ exists d,
         mget (W.name (node h0 (HoistCandidate.node c)))
              (W.dependencies (node h2 rootNode)) = Some d
         /\ W.ident (node h2 d) = W.ident (node h0 (HoistCandidate.node c)).
Proof.
  intros Hwf Hroot Hfind Hround.
  destruct (getHoistCandidates_sound _ _ _ _ _ _ _ _ Hfind)
    as (st0 & -> & -> & [Hsame Hquiet Hkeys Hgood]).
  set (hc := hoistCandidates st0) in *.
  set (L := length h0).
  (* what the search says of a candidate *)
  assert (Hcand : forall k hs c,
            (k, hs) ∈ hc -> c ∈ HoistCandidateSet.candidates hs ->
            W.name (node h0 (HoistCandidate.node c)) = k
            /\ W.ident (node h0 (HoistCandidate.node c))
               = W.ident (node h0 (HoistCandidateSet.node hs))
            /\ HoistCandidate.node c < L
            /\ exists n1 rest,
                 HoistCandidate.nodePath c = n1 :: rest
                 /\ n1 ∈ mvalues (W.dependencies (node h0 rootNode))
                 /\ otherIdent h0 (HoistCandidate.node c)
                      (mget k (W.dependencies (node h0 rootNode))) = false).
  { intros k hs c Hin Hc. destruct (Hgood k hs Hin) as (_ & _ & _ & Hcands).
    destruct (Hcands c Hc) as (Hname & Hident & Hne & Hpath & Hpass).
    split; [exact Hname|]. split; [exact Hident|].
    split; [apply (regularPath_valid _ _ _ _ Hwf Hpath)|].
    destruct (HoistCandidate.nodePath c) as [|n1 rest]; [contradiction|].
    exists n1, rest. split; [reflexivity|]. split.
    - assert (Hedge : regularEdge h0 rootNode n1)
        by (destruct rest; simpl in Hpath; tauto).
      apply regularEdge_iff in Hedge. tauto.
    - rewrite <- Hname. apply (passes_root_entry _ _ _ _ _ _ _ Hpass). }
  assert (Hunique : forall k i i',
            expectedIdent hc h0 k i -> expectedIdent hc h0 k i' -> i = i').
  { intros k i i' (hs & Hin & ->) (hs' & Hin' & ->).
    rewrite (same_key_same_value _ _ _ _ Hkeys Hin Hin'). reflexivity. }
  assert (Hstart : rootAsExpected hc h0 rootNode h0).
  { intros k d i Hkd (hs & Hin & ->).
    destruct (Hgood k hs Hin) as (_ & _ & Hne & _).
    destruct (HoistCandidateSet.candidates hs) as [|c cs] eqn:Hcs; [contradiction|].
    destruct (Hcand k hs c Hin) as (_ & Hident & _ & n1 & rest & _ & _ & Hother);
      [rewrite Hcs; left|].
    rewrite Hkd in Hother. simpl in Hother.
    apply negb_false_iff, String.eqb_eq in Hother. congruence. }
  assert (Hfirst : forall n1 i,
            n1 ∈ mvalues (W.dependencies (node h0 rootNode)) ->
            expectedIdent hc h0 (W.name (node h0 n1)) i ->
            W.ident (node h0 n1) = i).
  { intros n1 i Hn1 Hexp. destruct (Hwf rootNode) as [[Hnd Hkeyed] _].
    apply list_elem_of_fmap in Hn1 as ([k d] & -> & Hin). simpl in *.
    rewrite <- (Hkeyed k d Hin) in Hexp.
    apply (Hstart k d i (elem_mget _ _ _ Hnd Hin) Hexp). }
  (* the loop over all the candidates *)
  rewrite <- (forEach_map HoistCandidateSet.candidates (mvalues hc)
                (fun s l => forEach l (applyCandidate tree options rootNode) s)),
    forEach_concat in Hround.
  set (J := fun s : list W.t * CloneTree * list (string * nat) =>
              wellFormed s.1.1 /\ frozenExt h0 s.1.1
              /\ freshClones L rootNode s.1.2
              /\ rootAsExpected hc h0 rootNode s.1.1).
  set (V := fun (c : HoistCandidate.t)
                (s : list W.t * CloneTree * list (string * nat)) =>
              promoted h0 rootNode s.1.1 c).
  assert (Hstep : forall s c s',
            c ∈ concat (map HoistCandidateSet.candidates (mvalues hc)) ->
            J s -> applyCandidate tree options rootNode s c = Ok s' ->
            (J s' /\ V c s')
            /\ forall k, mhas k (W.dependencies (node s.1.1 rootNode)) = true ->
                 mhas k (W.dependencies (node s'.1.1 rootNode)) = true).
  { intros [[h ct] anc] c [[h' ct'] anc'] Hc (Hwfh & Hfr & Hct & Hexp) Hrun.
    simpl in Hwfh, Hfr, Hct, Hexp.
    apply elem_of_concat_map in Hc as (hs & Hhs & Hc).
    apply list_elem_of_fmap in Hhs as ([k hs'] & -> & Hin). simpl in Hc.
    destruct (Hcand k hs' c Hin Hc)
      as (Hname & Hident & Hvalid & n1 & rest & Hpath & Hn1 & _).
    assert (HL : L <= length h) by apply Hfr.
    assert (Hn1valid : n1 < L) by apply (proj2 (Hwf rootNode) n1 Hn1).
    destruct (applyCandidate_root tree options L rootNode h ct anc c h' ct' anc'
                n1 rest Hroot HL Hct Hpath ltac:(lia) Hrun)
      as (Hct' & Hfrom & Hmono & Hvis).
    pose proof (applyCandidate_frozen _ _ _ _ _ _ _ _ Hrun) as Hfr'.
    simpl in Hfr'.
    pose proof (frozenExt_trans _ _ _ Hfr Hfr') as Hfr0.
    assert (Hold : forall r, r < L -> frozen (node h r) = frozen (node h0 r))
      by (intros r Hr; apply (frozenExt_old h0 h r Hfr Hr)).
    assert (Hold' : forall r, r < L -> frozen (node h' r) = frozen (node h0 r))
      by (intros r Hr; apply (frozenExt_old h0 h' r Hfr0 Hr)).
    split; [split|exact Hmono].
    - split; [|split; [exact Hfr0|split; [exact Hct'|]]]; simpl.
      + apply (applyCandidate_wellFormed tree options rootNode h ct anc c
                 (h', ct', anc') Hwfh ltac:(lia) Hrun).
      + intros k0 d i Hkd Hi.
        destruct (Hfrom k0 d Hkd) as [Hbefore|[[-> Hclone]|[-> ->]]].
        * rewrite <- (Hexp k0 d i Hbefore Hi).
          apply frozen_ident, (frozenExt_old h h' d Hfr').
          apply (proj2 (Hwfh rootNode)), (mvalues_elem k0), Hbefore.
        * rewrite (frozen_ident _ _ Hclone), (frozen_ident _ _ (Hold n1 Hn1valid)).
          apply (Hfirst n1 i Hn1).
          rewrite <- (frozen_name _ _ (Hold n1 Hn1valid)). exact Hi.
        * rewrite (frozen_ident _ _ (Hold' _ Hvalid)), Hident.
          apply (Hunique k); [exists hs'; auto|].
          rewrite <- Hname, <- (frozen_name _ _ (Hold _ Hvalid)). exact Hi.
    - unfold V, promoted. simpl.
      rewrite <- (frozen_name _ _ (Hold _ Hvalid)).
      rewrite <- (frozen_ident _ _ (Hold _ Hvalid)),
        <- (frozen_ident _ _ (Hold rootNode Hroot)).
      exact Hvis. }
  assert (Hinit : J (heap st0, mkCloneTree rootNode [], ancestorDependencies)).
  { split; [apply (wellFormed_sameGraph _ _ Hsame Hwf)|].
    split; [apply (frozenExt_sameGraph _ _ Hsame)|]. split.
    - split; [reflexivity|]. exists []. split.
      + intros k c Hin. apply elem_of_nil in Hin as [].
      + intros y Hy. apply elem_of_nil in Hy as [].
    - intros k d i Hkd Hi. simpl in Hkd |- *.
      rewrite (erased_dependencies h0 (heap st0) (proj2 Hsame)) in Hkd.
      rewrite (erased_ident h0 (heap st0) (proj2 Hsame)).
      apply (Hstart k d i Hkd Hi). }
  assert (Hstable : forall x s y s',
            V x s -> J s ->
            y ∈ concat (map HoistCandidateSet.candidates (mvalues hc)) ->
            applyCandidate tree options rootNode s y = Ok s' -> V x s').
  { intros x s y s' [Hhas|Hid] HJ Hy Hrun; [left|right; exact Hid].
    apply (proj2 (Hstep s y s' Hy HJ Hrun) _ Hhas). }
  destruct (forEach_each J V _ _
              (fun s c s' Hc HJ Hrun => proj1 (Hstep s c s' Hc HJ Hrun))
              Hstable _ _ Hinit Hround)
    as [(_ & _ & _ & Hexp2) Hall].
  simpl in Hexp2.
  intros hoistSet c Hset Hc.
  assert (Hmem : c ∈ concat (map HoistCandidateSet.candidates (mvalues hc)))
    by (apply elem_of_concat_map; exists hoistSet; auto).
  apply list_elem_of_fmap in Hset as ([k hs'] & -> & Hin). simpl in Hc.
  destruct (Hcand k hs' c Hin Hc) as (Hname & Hident & _).
  destruct (Hall c Hmem) as [Hhas|Hid]; [right|left; exact Hid].
  simpl in Hhas. unfold mhas in Hhas.
  destruct (mget _ (W.dependencies (node h2 rootNode))) as [d|] eqn:Hd;
    [|discriminate].
  exists d. split; [reflexivity|]. rewrite Hident.
  apply (Hexp2 _ d _ Hd). exists hs'. rewrite Hname. auto.
Qed.

Lemma wellFormed_duplicateHeap : wellFormed duplicateHeap.
Proof.
  destruct (cloneTree_spec 0 simpleDuplicate)
    as (seen & st1 & Hrun & Hinv & _ & Hfin).
  assert (Hwork : work st1 = duplicateHeap)
    by (vm_compute in Hrun; injection Hrun as _ <-; reflexivity).
  rewrite <- Hwork.
  apply (cloneTree_wellFormed simpleDuplicate seen st1); [|exact Hinv|exact Hfin].
  intros n. rewrite node_invalid by (simpl; lia). split.
  - split; [constructor|]. intros k d Hd. apply elem_of_nil in Hd as [].
  - intros d Hd. apply elem_of_nil in Hd as [].
Qed.

Lemma round_promotes_every_candidate_witness :
  exists d,
    mget "B" (W.dependencies (node duplicateRound.1.1 0)) = Some d
    /\ W.ident (node duplicateRound.1.1 d) = "B@1".
Proof.
  destruct (round_promotes_every_candidate
              0 quiet 0 [0] [("A", 1); ("C", 3)] duplicateAncestors duplicateHeap
              duplicateCandidates duplicateHeap
              duplicateRound.1.1 duplicateRound.1.2 duplicateRound.2
              wellFormed_duplicateHeap)
    with (hoistSet := HoistCandidateSet.mk 2 2 [HoistCandidate.mk [1] 2;
                                                HoistCandidate.mk [3] 2])
         (c := HoistCandidate.mk [3] 2)
    as [Hroot|Hd].
  - vm_compute. lia.
  - vm_compute. reflexivity.
  - vm_compute. reflexivity.
  - apply list_elem_of_here.
  - apply list_elem_of_further, list_elem_of_here.
  - vm_compute in Hroot. discriminate.
  - exact Hd.
Defined.

(** ** dumpDepTree *)

(** ** The dump *)

Lemma shas_app (k : ref) (s1 s2 : list ref) :
  shas k (s1 ++ s2) = shas k s1 || shas k s2.
Proof.
  induction s1 as [|x s1 IH]; simpl; [reflexivity|].
  rewrite IH, orb_assoc. reflexivity.
Qed.

Lemma sdelete_last (k : ref) (s : list ref) :
  shas k s = false -> sdelete k (s ++ [k]) = s.
Proof.
  induction s as [|x s IH]; simpl.
  - intros _. rewrite Nat.eqb_refl. reflexivity.
  - intros Hk. apply orb_false_iff in Hk as [Hx Hs].
    rewrite Hx, (IH Hs). reflexivity.
Qed.

Lemma unvisited_add (h : list W.t) (parents : list ref) (pkg : ref) :
  pkg < length h -> shas pkg parents = false ->
  length (unvisited h (parents ++ [pkg])) < length (unvisited h parents).
Proof.
  intros Hvalid Hnew. unfold unvisited.
  apply (filter_length_lt _ _ _ pkg).
  - intros y. rewrite shas_app, negb_orb. intros Hy.
    apply andb_true_iff in Hy. tauto.
  - apply list_elem_of_In, in_seq. lia.
  - rewrite shas_app. simpl. rewrite Nat.eqb_refl, orb_true_r. reflexivity.
  - rewrite Hnew. reflexivity.
Qed.

(** [dumpPackage] returns when its fuel exceeds the number of nodes that are
    not on its way, and it leaves [parents] as it found it. *)
Lemma dumpPackage_returns (h : list W.t) fuel :
  forall pkg prefix parents nodeCount,
    length (unvisited h parents) < fuel ->
    exists str nodeCount',
      dumpPackage fuel h pkg prefix (parents, nodeCount)
      = Ok (str, (parents, nodeCount')).
Proof.
  induction fuel as [|fuel IH]; intros pkg prefix parents nodeCount Hfuel; [lia|].
  cbn [dumpPackage].
  destruct ((MAX_NODES_TO_DUMP <? nodeCount)%Z || shas pkg parents) eqn:Hstop;
    [eauto|].
  apply orb_false_iff in Hstop as [_ Hnew].
  unfold sadd. rewrite Hnew.
  set (dependencies := mvalues (W.dependencies (node h pkg))).
  match goal with |- context [forEach _ ?b _] => set (body := b) end.
  destruct (decide (pkg < length h)) as [Hvalid|Hinvalid].
  - assert (Hbody : forall s x,
              s.2.1 = parents ++ [pkg] ->
              exists s', body s x = Ok s' /\ s'.2.1 = parents ++ [pkg]).
    { intros [str [ps nc]] [idx dep] Hps. simpl in Hps. subst ps.
      unfold body.
      destruct (negb (shas (W.name (node h dep)) (W.peerNames (node h pkg))));
        [|eauto].
      destruct (IH dep (prefix +:+ (if Nat.ltb idx (length dependencies - 1)
                                    then "│ " else "  "))
                  (parents ++ [pkg]) nc) as (sub & nc' & ->).
      - pose proof (unvisited_add h parents pkg Hvalid Hnew). lia.
      - cbn [mbind result_bind]. eauto. }
    assert (Hloop : forall l s,
              s.2.1 = parents ++ [pkg] ->
              exists s', forEach l body s = Ok s' /\ s'.2.1 = parents ++ [pkg]).
    { induction l as [|x l IHl]; intros s Hps; [simpl; eauto|].
      cbn [forEach]. destruct (Hbody s x Hps) as (s1 & -> & Hps1).
      cbn [mbind result_bind]. apply (IHl s1 Hps1). }
    destruct (Hloop (imap pair dependencies)
                ("", (parents ++ [pkg], (nodeCount + 1)%Z)) eq_refl)
      as ([str [ps nc]] & -> & Hps).
    simpl in Hps. subst ps. cbn [mbind result_bind].
    rewrite (sdelete_last pkg parents Hnew). eauto.
  - subst dependencies. rewrite (node_invalid h pkg Hinvalid).
    cbn [W.dependencies W.dummy mvalues map imap forEach mbind result_bind].
    rewrite (sdelete_last pkg parents Hnew). eauto.
Qed.

(** X19: [dumpDepTree] returns a string on every graph, cycles or not,
    when it is allowed one nested call more than the graph has nodes: the
    set [parents] stops the walk at a node that is on the way already. *)
Theorem dumpDepTree_returns_on_every_graph (h : list W.t) (tree : ref) fuel :
  length h < fuel ->
  exists dump, dumpDepTree fuel h tree = Ok dump.
Proof.
  intros Hfuel. unfold dumpDepTree.
  destruct (dumpPackage_returns h fuel tree "" [] 0%Z) as (str & nc & ->).
  - unfold unvisited.
    pose proof (List.filter_length_le (fun r => negb (shas r []))
                  (seq 0 (length h))) as Hle.
    rewrite length_seq in Hle. lia.
  - cbn [mbind result_bind]. eauto.
Qed.

Lemma dumpDepTree_returns_on_every_graph_witness :
  exists dump, dumpDepTree (S (length cycleHeap)) cycleHeap 0 = Ok dump.
Proof.
  apply (dumpDepTree_returns_on_every_graph cycleHeap 0 (S (length cycleHeap))).
  lia.
Defined.

(** The dump that the error messages of the model end with is what
    [dumpDepTree] returns. *)
Lemma dumpOf_returned (h : list W.t) (tree : ref) :
  dumpDepTree (S (length h)) h tree = Ok (dumpOf h tree).
Proof.
  unfold dumpOf. unfold dumpDepTree.
  destruct (dumpPackage_returns h (S (length h)) tree "" [] 0%Z) as (str & nc & ->).
  - unfold unvisited.
    pose proof (List.filter_length_le (fun r => negb (shas r []))
                  (seq 0 (length h))) as Hle.
    rewrite length_seq in Hle. lia.
  - reflexivity.
Qed.

(** ** The entry of the root under the name of a candidate *)

Lemma references_update (h : list W.t) p f r :
  (forall w, W.references (f w) = W.references w) ->
  W.references (node (update h p f) r) = W.references (node h r).
Proof.
  intros Hf. destruct (node_update h p r f) as [->|(_ & _ & ->)]; auto.
Qed.

Lemma clonePath_references candidate nodePath :
  forall parentClonedNode (h h' : list W.t) clonedTree last,
    clonePath candidate nodePath parentClonedNode h = (h', clonedTree, last) ->
    forall r, r < length h ->
      W.references (node h' r) = W.references (node h r).
Proof.
  induction nodePath as [|n rest IH]; intros ct h h' ct' last; simpl.
  - intros [= <- _ _]. reflexivity.
  - destruct (mget n (children ct)) as [c|].
    + destruct (clonePath candidate rest c _) as [[h2 c2] l2] eqn:Hrest.
      intros [= <- _ _] r Hr.
      rewrite (IH _ _ _ _ _ Hrest) by (rewrite length_update; exact Hr).
      apply references_update. reflexivity.
    + destruct (clonePath candidate rest _ _) as [[h2 c2] l2] eqn:Hrest.
      intros [= <- _ _] r Hr.
      rewrite (IH _ _ _ _ _ Hrest)
        by (rewrite !length_update, length_app; simpl; lia).
      rewrite !references_update by reflexivity.
      rewrite node_app_l by exact Hr. reflexivity.
Qed.

Lemma length_mergeReferences hoistedNode refs :
  forall (h : list W.t),
    length (fold_left (fun h reference =>
                         update h hoistedNode (W.with_references (sadd reference)))
                      refs h)
    = length h.
Proof.
  induction refs as [|x refs IH]; intros h; simpl; [reflexivity|].
  rewrite IH. apply length_update.
Qed.

Section RootEntry.
Variables (tree : nat) (options : InternalHoistOptions).

(** What applying a candidate makes of the dependencies of the root: the
    cloning of the path may put a fresh copy of the first node of the path
    in the place of that node; then an entry under the candidate's name
    stays and takes the candidate's references, and without one the
    candidate is set, unless it has the ident of the root. *)
Lemma applyCandidate_root_trace L rootNode (h : list W.t) ct anc c h' ct' anc'
  n1 rest :
  rootNode < L -> L <= length h ->
  freshClones L rootNode ct ->
  HoistCandidate.nodePath c = n1 :: rest ->
  HoistCandidate.node c < length h ->
  applyCandidate tree options rootNode (h, ct, anc) c = Ok (h', ct', anc') ->
  let x := HoistCandidate.node c in
  exists D1,
    (D1 = W.dependencies (node h rootNode)
     \/ exists c1,
          length h <= c1 /\ c1 < length h'
          /\ frozen (node h' c1) = frozen (node h n1)
          /\ D1 = mset (W.name (node h n1)) c1 (W.dependencies (node h rootNode)))
    /\ match mget (W.name (node h x)) D1 with
       | Some e =>
           W.dependencies (node h' rootNode) = D1
           /\ (e < length h' ->
               forall reference,
                 reference ∈ W.references (node h x) ->
                 reference ∈ W.references (node h' e))
       | None =>
           W.dependencies (node h' rootNode)
           = if String.eqb (W.ident (node h rootNode)) (W.ident (node h x))
             then D1 else mset (W.name (node h x)) x D1
       end.
Proof.
  intros Hroot HL Hct Hpath Hx. unfold applyCandidate. rewrite Hpath.
  destruct (clonePath _ (n1 :: rest) ct h) as [[h1 ct1] parentClone] eqn:Hclone.
  destruct (clonePath_root L _ _ _ _ _ _ _ _ _ Hroot HL Hct Hclone)
    as (_ & Hparent & Hdeps1).
  pose proof (clonePath_frozen _ _ _ _ _ _ _ Hclone) as Hfrozen1.
  pose proof (clonePath_references _ _ _ _ _ _ _ Hclone) as Hrefs1.
  set (x := HoistCandidate.node c) in *.
  set (h2 := update h1 parentClone _).
  set (h3 := update h2 parentClone _).
  assert (Hroot3 : node h3 rootNode = node h1 rootNode).
  { unfold h3, h2. rewrite !node_update_ne by congruence. reflexivity. }
  assert (Hfrozen3 : frozenExt h1 h3).
  { apply (frozenExt_trans _ h2); apply frozenExt_update; reflexivity. }
  assert (Hlen1 : length h <= length h1) by apply Hfrozen1.
  assert (Hlen3 : length h3 = length h1)
    by (unfold h3, h2; rewrite !length_update; reflexivity).
  assert (Hx3 : frozen (node h3 x) = frozen (node h x)).
  { rewrite (frozenExt_old h1 h3 _ Hfrozen3) by lia.
    apply (frozenExt_old h h1); assumption. }
  assert (Hr3 : frozen (node h3 rootNode) = frozen (node h rootNode)).
  { rewrite (frozenExt_old h1 h3 _ Hfrozen3) by lia.
    apply (frozenExt_old h h1); [assumption|lia]. }
  assert (Hrefs3 : W.references (node h3 x) = W.references (node h x)).
  { unfold h3, h2. rewrite !references_update by reflexivity.
    apply Hrefs1, Hx. }
  pose proof (addToRoot_frozen rootNode x h3 anc) as Hfrozen4.
  assert (Hlen4 : length (addToRoot rootNode x (h3, anc)).1 = length h3).
  { unfold addToRoot. destruct (mget _ _); simpl.
    - apply length_mergeReferences.
    - destruct (negb _); simpl; [apply length_update|reflexivity]. }
  assert (Htrace :
            let h4 := (addToRoot rootNode x (h3, anc)).1 in
            match mget (W.name (node h x)) (W.dependencies (node h1 rootNode)) with
            | Some e =>
                W.dependencies (node h4 rootNode) = W.dependencies (node h1 rootNode)
                /\ (e < length h4 ->
                    forall reference,
                      reference ∈ W.references (node h x) ->
                      reference ∈ W.references (node h4 e))
            | None =>
                W.dependencies (node h4 rootNode)
                = if String.eqb (W.ident (node h rootNode)) (W.ident (node h x))
                  then W.dependencies (node h1 rootNode)
                  else mset (W.name (node h x)) x (W.dependencies (node h1 rootNode))
            end).
  { revert Hlen4. unfold addToRoot.
    rewrite (frozen_name _ _ Hx3), (frozen_ident _ _ Hx3), (frozen_ident _ _ Hr3),
      Hroot3, Hrefs3.
    destruct (mget (W.name (node h x)) (W.dependencies (node h1 rootNode)))
      as [e|] eqn:Hentry; simpl.
    - intros Hlen4. rewrite mergeReferences_dependencies, Hroot3.
      split; [reflexivity|]. rewrite Hlen4. intros He reference Href.
      rewrite mergeReferences_node by exact He.
      simpl. apply elem_fold_sadd. right. exact Href.
    - intros _.
      destruct (String.eqb (W.ident (node h rootNode)) (W.ident (node h x)));
        simpl; [rewrite Hroot3; reflexivity|].
      rewrite node_update_eq by lia. simpl. rewrite Hroot3. reflexivity. }
  destruct (addToRoot rootNode x (h3, anc)) as [h4 anc4].
  simpl in Hfrozen4, Hlen4, Htrace.
  assert (Hdone :
            exists D1,
              (D1 = W.dependencies (node h rootNode)
               \/ exists c1,
                    length h <= c1 /\ c1 < length h4
                    /\ frozen (node h4 c1) = frozen (node h n1)
                    /\ D1 = mset (W.name (node h n1)) c1
                                 (W.dependencies (node h rootNode)))
              /\ match mget (W.name (node h x)) D1 with
                 | Some e =>
                     W.dependencies (node h4 rootNode) = D1
                     /\ (e < length h4 ->
                         forall reference,
                           reference ∈ W.references (node h x) ->
                           reference ∈ W.references (node h4 e))
                 | None =>
                     W.dependencies (node h4 rootNode)
                     = if String.eqb (W.ident (node h rootNode)) (W.ident (node h x))
                       then D1 else mset (W.name (node h x)) x D1
                 end).
  { exists (W.dependencies (node h1 rootNode)). split; [|exact Htrace].
    destruct Hdeps1 as [Hsame|(c1 & Hlow & Hc1 & Hfc1 & Hset)]; [left; exact Hsame|].
    right. exists c1. split; [exact Hlow|]. split; [lia|]. split; [|exact Hset].
    rewrite (frozenExt_old h3 h4 _ Hfrozen4) by lia.
    rewrite (frozenExt_old h1 h3 _ Hfrozen3) by lia. exact Hfc1. }
  destruct (icheck options).
  - destruct (selfCheck h4 tree) as [checkLog| |]; cbn [mbind result_bind];
      [|discriminate..].
    destruct (negb _); [discriminate|]. intros [= <- <- <-]. exact Hdone.
  - intros [= <- <- <-]. exact Hdone.
Qed.
End RootEntry.

(** C4, as amended: a candidate that the search at [rootNode] has returned
    is applied in a state of the loop ([clonedTree] stands on the root and
    holds clones made by the loop alone; the root and the candidate carry
    the names and idents that the search saw).  When
    [rootNode.dependencies] has an entry under the candidate's name, it has
    one afterwards: the same node, or, when the first node of the
    candidate's path has the candidate's name, a copy of that node made by
    this application; the references of the entry then include every
    reference of the candidate.  The candidate itself becomes the entry
    only when there was no entry under its name and the root is not
    another version of its package. *)
Theorem applyCandidate_keeps_or_clones_root_entry
  tree options rootNode rootNodePath ancestorDependencies ancestorMap
  (h0 : list W.t) sets h1 hoistSet candidate
  L (h : list W.t) clonedTree anc h' clonedTree' anc' :
  getHoistCandidates rootNode rootNodePath ancestorDependencies ancestorMap
                     options h0 = Ok (sets, h1) ->
  hoistSet ∈ sets ->
  candidate ∈ HoistCandidateSet.candidates hoistSet ->
  let c := HoistCandidate.node candidate in
  rootNode < L -> L <= length h -> freshClones L rootNode clonedTree ->
  c < length h ->
  sameLabel (node h rootNode) (node h0 rootNode) ->
  sameLabel (node h c) (node h0 c) ->
  applyCandidate tree options rootNode (h, clonedTree, anc) candidate
  = Ok (h', clonedTree', anc') ->
  let name := W.name (node h c) in
  (forall existing,
     mget name (W.dependencies (node h rootNode)) = Some existing ->
     existing < length h ->
     exists entry,
       mget name (W.dependencies (node h' rootNode)) = Some entry
       /\ (entry = existing
           \/ exists n1,
                head (HoistCandidate.nodePath candidate) = Some n1
                /\ W.name (node h n1) = name
                /\ length h <= entry
                /\ frozen (node h' entry) = frozen (node h n1))
       /\ forall reference,
            reference ∈ W.references (node h c) ->
            reference ∈ W.references (node h' entry))
  /\ (mget name (W.dependencies (node h' rootNode)) = Some c ->
      mget name (W.dependencies (node h rootNode)) <> Some c ->
      mget name (W.dependencies (node h rootNode)) = None
      /\ ~ (W.name (node h rootNode) = W.name (node h c)
            /\ W.ident (node h rootNode) <> W.ident (node h c))).
Proof.
  intros Hfind Hset Hcand c Hroot HL Hct Hc Hlroot Hlc Hrun name.
  destruct (getHoistCandidates_compatible _ _ _ _ _ _ _ _ Hfind) as [Hcompat _].
  specialize (Hcompat hoistSet candidate Hset Hcand). fold c in Hcompat.
  rewrite <- (compatibleIdent_label _ _ _ _ Hlroot Hlc) in Hcompat.
  destruct (getHoistCandidates_sound _ _ _ _ _ _ _ _ Hfind)
    as (st0 & -> & _ & [_ _ _ Hgood]).
  apply list_elem_of_fmap in Hset as ([k hs] & -> & Hin). simpl in Hcand.
  destruct (Hgood k hs Hin) as (_ & _ & _ & Hcands).
  destruct (Hcands candidate Hcand) as (_ & _ & Hne & _).
  destruct (HoistCandidate.nodePath candidate) as [|n1 rest] eqn:Hpath;
    [contradiction|].
  destruct (applyCandidate_root_trace tree options L rootNode h clonedTree anc
              candidate h' clonedTree' anc' n1 rest Hroot HL Hct Hpath Hc Hrun)
    as (D1 & HD1 & Htrace).
  fold c in Htrace. fold name in Htrace.
  assert (Hlen : length h <= length h').
  { pose proof (applyCandidate_frozen _ _ _ _ _ _ _ _ Hrun) as [Hlen _].
    exact Hlen. }
  split.
  - intros existing Hentry Hvalid.
    destruct HD1 as [->|(c1 & Hlow & Hc1 & Hfc1 & ->)].
    + rewrite Hentry in Htrace. destruct Htrace as [Hdeps Hrefs].
      exists existing. rewrite Hdeps. split; [exact Hentry|]. split; [auto|].
      apply Hrefs. lia.
    + destruct (decide (name = W.name (node h n1))) as [Hname|Hname].
      * rewrite Hname, mget_mset_eq in Htrace. destruct Htrace as [Hdeps Hrefs].
        exists c1. rewrite Hdeps, Hname, mget_mset_eq. split; [reflexivity|].
        split; [|apply Hrefs, Hc1].
        right. exists n1. split; [reflexivity|]. auto.
      * rewrite mget_mset_ne, Hentry in Htrace by congruence.
        destruct Htrace as [Hdeps Hrefs].
        exists existing. rewrite Hdeps, mget_mset_ne by congruence.
        split; [exact Hentry|]. split; [auto|]. apply Hrefs. lia.
  - intros Hafter Hbefore.
    assert (Hnone : mget name (W.dependencies (node h rootNode)) = None).
    { destruct (mget name (W.dependencies (node h rootNode))) as [e|] eqn:Hentry;
        [exfalso|reflexivity].
      destruct HD1 as [->|(c1 & Hlow & Hc1 & Hfc1 & ->)].
      - rewrite Hentry in Htrace. destruct Htrace as [Hdeps _].
        rewrite Hdeps, Hentry in Hafter. contradiction.
      - destruct (decide (name = W.name (node h n1))) as [Hname|Hname].
        + rewrite Hname, mget_mset_eq in Htrace. destruct Htrace as [Hdeps _].
          rewrite Hdeps, Hname, mget_mset_eq in Hafter.
          injection Hafter as Heq. lia.
        + rewrite mget_mset_ne, Hentry in Htrace by congruence.
          destruct Htrace as [Hdeps _].
          rewrite Hdeps, mget_mset_ne, Hentry in Hafter by congruence.
          contradiction. }
    split; [exact Hnone|].
    intros [Hname Hident]. unfold compatibleIdent in Hcompat.
    rewrite Hname, String.eqb_refl in Hcompat. simpl in Hcompat.
    apply String.eqb_eq in Hcompat. contradiction.
Qed.

Lemma applyCandidate_keeps_or_clones_root_entry_witness :
  exists h' entry,
    mget "A" (W.dependencies (node nestedHeap 0)) = Some 1
    /\ mget "A" (W.dependencies (node h' 0)) = Some entry
    /\ (entry = 1
        \/ exists n1,
             head [1] = Some n1
             /\ W.name (node nestedHeap n1) = "A"
             /\ length nestedHeap <= entry
             /\ frozen (node h' entry) = frozen (node nestedHeap n1))
    /\ forall reference,
         reference ∈ W.references (node nestedHeap 2) ->
         reference ∈ W.references (node h' entry).
Proof.
  destruct (applyCandidate 0 quiet 0 (nestedHeap, mkCloneTree 0 [], [("A", 1)])
              (HoistCandidate.mk [1] 2)) as [[[h' ct'] anc']| |] eqn:Hrun;
    [|discriminate Hrun..].
  exists h'.
  destruct (applyCandidate_keeps_or_clones_root_entry
              0 quiet 0 [0] [("A", 1)] nestedAncestors nestedHeap
              [HoistCandidateSet.mk 2 2 [HoistCandidate.mk [1] 2]] nestedHeap
              (HoistCandidateSet.mk 2 2 [HoistCandidate.mk [1] 2])
              (HoistCandidate.mk [1] 2)
              3 nestedHeap (mkCloneTree 0 []) [("A", 1)] h' ct' anc')
    as [Hkeep _].
  - reflexivity.
  - apply list_elem_of_here.
  - apply list_elem_of_here.
  - simpl. lia.
  - simpl. lia.
  - split; [reflexivity|]. exists []. split.
    + intros k c Hin. apply elem_of_nil in Hin as [].
    + intros y Hy. apply elem_of_nil in Hy as [].
  - simpl. lia.
  - split; reflexivity.
  - split; reflexivity.
  - exact Hrun.
  - destruct (Hkeep 1 eq_refl ltac:(simpl; lia)) as (entry & Hentry & Hwhich & Hrefs).
    exists entry. split; [reflexivity|]. split; [exact Hentry|].
    split; [exact Hwhich|exact Hrefs].
Defined.

(** C4, as stated, fails on [nestedSameName]: the search at the root returns
    the instance [A@virtual:v#1] (node 2) that lies below [A@1] (node 1),
    and [A@1] is the entry of the root under the name [A].  Applying the
    candidate clones its path, and the clone of [A@1] (node 3) replaces
    [A@1] as the entry of the root; the clone takes the reference of the
    candidate and [A@1] does not. *)
Lemma applyCandidate_replaces_root_entry :
  getHoistCandidates 0 [0] [("A", 1)] nestedAncestors quiet nestedHeap
  = Ok ([HoistCandidateSet.mk 2 2 [HoistCandidate.mk [1] 2]], nestedHeap)
  /\ W.name (node nestedHeap 2) = "A"
  /\ W.references (node nestedHeap 2) = ["virtual:v#1"]
  /\ mget "A" (W.dependencies (node nestedHeap 0)) = Some 1
  /\ exists h' clonedTree' anc',
       applyCandidate 0 quiet 0 (nestedHeap, mkCloneTree 0 [], [("A", 1)])
                      (HoistCandidate.mk [1] 2)
       = Ok (h', clonedTree', anc')
       /\ mget "A" (W.dependencies (node h' 0)) = Some 3
       /\ W.references (node h' 1) = ["1"]
       /\ W.references (node h' 3) = ["1"; "virtual:v#1"].
Proof.
  split; [reflexivity|]. do 3 (split; [reflexivity|]).
  eexists _, _, _. split; [vm_compute; reflexivity|]. repeat split.
Qed.

(** ** The check of a peer dependency *)

(** X20: the check of a peer dependency never reports anything.  In the
    map that [checkNode] builds for a node (its parent's map, overlaid with
    the node's regular dependencies), a peer name resolves as it does in
    the parent's map, so that the comparison of the two resolutions never
    fails, and an original dependency that is a peer dependency leaves the
    log as it is, whatever the parent provides under its name. *)
Theorem checkDep_never_reports_a_peer (h : list W.t) parents n parentDeps log
  origDep :
  isPeer h n origDep = true ->
  mget (W.name (node h origDep)) (overlay h n parentDeps)
  = mget (W.name (node h origDep)) parentDeps
  /\ checkDep h parents n parentDeps (overlay h n parentDeps) log origDep
     = Ok log.
Proof.
  intros Hpeer.
  assert (Hsame : mget (W.name (node h origDep)) (overlay h n parentDeps)
                  = mget (W.name (node h origDep)) parentDeps).
  { unfold overlay.
    assert (Hall : Forall (fun dep => isPeer h n dep = false)
                          (nonPeerDependencies h n)).
    { apply Forall_forall. intros dep Hdep. unfold nonPeerDependencies in Hdep.
      apply list_elem_of_filter in Hdep as [Hdep _]. exact Hdep. }
    revert parentDeps Hall. generalize (nonPeerDependencies h n) as ds.
    induction ds as [|dep ds IH]; intros parentDeps Hall; [reflexivity|].
    apply Forall_cons in Hall as [Hdep Hall]. simpl. rewrite IH by exact Hall.
    apply mget_mset_ne. intros Heq. unfold isPeer in Hpeer, Hdep.
    rewrite Heq in Hdep. congruence. }
  split; [exact Hsame|].
  unfold checkDep. rewrite Hpeer, Hsame.
  rewrite bool_decide_eq_true_2 by reflexivity. reflexivity.
Qed.

Lemma checkDep_never_reports_a_peer_witness :
  mget "P" (W.originalDependencies (node otherPeerHeap 1)) = Some 2
  /\ W.ident (node otherPeerHeap 2) = "P@1"
  /\ mget "P" (overlay otherPeerHeap 1 (W.dependencies (node otherPeerHeap 0)))
     = Some 3
  /\ W.ident (node otherPeerHeap 3) = "P@2"
  /\ checkDep otherPeerHeap [0] 1 (W.dependencies (node otherPeerHeap 0))
              (overlay otherPeerHeap 1 (W.dependencies (node otherPeerHeap 0)))
              [] 2
     = Ok [].
Proof.
  do 4 (split; [reflexivity|]).
  apply (checkDep_never_reports_a_peer otherPeerHeap [0] 1
           (W.dependencies (node otherPeerHeap 0)) [] 2).
  reflexivity.
Defined.

